(** * Maze-Ai-2025: maze generation, feature placement and path finding

    A shallow embedding of the algorithmic core of the repository
    (maze_generator.py, path_finding.py, game_objects.py, config.py and the
    monolithic variant main3.py) together with the properties the
    specification states about it.

    Conventions of the embedding.
    - A cell [[x, y]] / [(x, y)] is a pair of integers; Python integers are
      unbounded, so coordinates are [Z].
    - A maze is a list of rows, [maze[y][x]]; 1 is a wall and 0 a path cell.
    - Python sets and dict key sets that are only ever tested for membership
      are lists tested with [mem].
    - The ambient generator of the [random] module is an explicit oracle
      threaded through every function that draws from it.
    - [while] loops carry an iteration budget; running out of budget is the
      [None] outcome, and the budgets used are shown to be sufficient where a
      property needs the loop to finish. *)

From Stdlib Require Import String ZArith List Bool Lia Arith Permutation Sorted
  DecimalString.
Import ListNotations.
Open Scope Z_scope.

(** ** Python primitives *)

Definition cell : Type := (Z * Z)%type.
Definition grid : Type := list (list Z).

Definition cell_eqb (a b : cell) : bool :=
  (fst a =? fst b) && (snd a =? snd b).

(** [c in s] for a list, a set or the keys of a dict. *)
Fixpoint mem (c : cell) (s : list cell) : bool :=
  match s with
  | [] => false
  | d :: s' => cell_eqb c d || mem c s'
  end.

(** [l[i]]: negative indices count from the end, anything else out of range
    raises IndexError ([None]). *)
Definition py_index {A : Type} (l : list A) (i : Z) : option A :=
  if 0 <=? i then nth_error l (Z.to_nat i)
  else if 0 <=? Z.of_nat (length l) + i
       then nth_error l (Z.to_nat (Z.of_nat (length l) + i))
       else None.

Fixpoint update_nth {A : Type} (l : list A) (n : nat) (v : A) : list A :=
  match l, n with
  | [], _ => []
  | _ :: t, O => v :: t
  | a :: t, S n' => a :: update_nth t n' v
  end.

(** [l[i] = v]: same index rule, IndexError is [None]. *)
Definition py_setitem {A : Type} (l : list A) (i : Z) (v : A) : option (list A) :=
  let n := Z.of_nat (length l) in
  if (0 <=? i) && (i <? n) then Some (update_nth l (Z.to_nat i) v)
  else if (i <? 0) && (0 <=? n + i) then Some (update_nth l (Z.to_nat (n + i)) v)
  else None.

(** [maze[y][x]] *)
Definition maze_get (maze : grid) (x y : Z) : option Z :=
  match py_index maze y with
  | Some row => py_index row x
  | None => None
  end.

(** [maze[y][x] = v] *)
Definition maze_set (maze : grid) (x y v : Z) : option grid :=
  match py_index maze y with
  | Some row =>
      match py_setitem row x v with
      | Some row' => py_setitem maze y row'
      | None => None
      end
  | None => None
  end.

(** [len(maze[0]) if maze else 0] *)
Definition maze_width (maze : grid) : Z :=
  match maze with
  | row :: _ => Z.of_nat (length row)
  | [] => 0
  end.

(** [maze[y][x] == v] behind the bounds guard of the searches.  On a
    rectangular maze the guard keeps the lookup in range; a lookup that would
    raise is read as "not equal". *)
Definition maze_is (maze : grid) (x y v : Z) : bool :=
  match maze_get maze x y with
  | Some u => u =? v
  | None => false
  end.

(** [range(a, b)] *)
Definition py_range (a b : Z) : list Z :=
  map (fun i => a + Z.of_nat i) (seq 0 (Z.to_nat (b - a))).

(** [l.remove(c)]: drops the first occurrence. *)
Fixpoint remove_first (c : cell) (l : list cell) : list cell :=
  match l with
  | [] => []
  | d :: l' => if cell_eqb c d then l' else d :: remove_first c l'
  end.

(** ** The [random] module

    The generator is an oracle: an infinite tape of raw draws.  Every
    function of [random] used by the program reads the tape from the front;
    quantifying over all tapes covers every seed. *)

Module Random.

Definition rng : Type := nat -> nat.

Definition advance (r : rng) : rng := fun n => r (S n).

(** An integer in [[0, n)]; [n] is positive wherever the program draws. *)
Definition randbelow (n : nat) (r : rng) : nat * rng :=
  (Nat.modulo (r O) n, advance r).

(** [random.choice(seq)] on a non-empty sequence. *)
Definition choice {A : Type} (dflt : A) (l : list A) (r : rng) : A * rng :=
  let (i, r') := randbelow (length l) r in (nth i l dflt, r').

(** [random.randrange(1, stop, 2)]: None when the range is empty
    (ValueError). *)
Definition randrange_odd (stop : Z) (r : rng) : option (Z * rng) :=
  let n := (stop - 1 + 1) / 2 in
  if n <=? 0 then None
  else let (i, r') := randbelow (Z.to_nat n) r in Some (1 + 2 * Z.of_nat i, r').

(** [random.random() < 0.3]: the draw is read in tenths. *)
Definition random_lt_03 (r : rng) : bool * rng :=
  (Nat.ltb (Nat.modulo (r O) 10) 3, advance r).

Definition swap {A : Type} (l : list A) (i j : nat) : list A :=
  match nth_error l i, nth_error l j with
  | Some a, Some b => update_nth (update_nth l i b) j a
  | _, _ => l
  end.

(** [random.shuffle(x)]:
    [for i in reversed(range(1, len(x))): j = randbelow(i + 1); x[i], x[j] = x[j], x[i]] *)
Fixpoint shuffle_from {A : Type} (i : nat) (x : list A) (r : rng) : list A * rng :=
  match i with
  | O => (x, r)
  | S i' => let (j, r') := randbelow (S i) r in shuffle_from i' (swap x i j) r'
  end.

Definition shuffle {A : Type} (x : list A) (r : rng) : list A * rng :=
  shuffle_from (Nat.pred (length x)) x r.

End Random.

(** ** config.py *)

Module GameConfig.

Definition DIRECTIONS : list (Z * Z) := [(0, 1); (1, 0); (0, -1); (-1, 0)].
Definition ALGORITHMS : list string :=
  ["BFS"; "UCS"; "DFS"; "DLS"; "IDS"; "Bidirectional"]%string.
Definition REQUIRED_KEYS : Z := 3.
Definition ENEMY_MOVE_INTERVAL : Z := 5.

End GameConfig.

(** ** path_finding.py

    [GameConfig.DIRECTIONS] is a module-level list that
    [Enemy.create_patrol_path] shuffles in place, so the searches read it as
    it stands at the time of the call: the parameter [dirs]. *)

Module PathFinder.

Import Random.

(** The outcome [(result, nodes_explored)] of a strategy. *)
Definition found : Type := (option (list cell) * Z)%type.

(** [0 <= nx < width and 0 <= ny < height and maze[ny][nx] == 0] *)
Definition open_cell (maze : grid) (width height : Z) (n : cell) : bool :=
  let '(nx, ny) := n in
  (0 <=? nx) && (nx <? width) && (0 <=? ny) && (ny <? height)
  && maze_is maze nx ny 0.

Section Searches.

Variable dirs : list (Z * Z).
Variable maze : grid.
Variables width height : Z.

(** The [for dx, dy in GameConfig.DIRECTIONS] body of [_bfs]. *)
Definition bfs_expand (x y : Z) (path : list cell)
  (visited : list cell) (queue : list (cell * list cell))
  : list cell * list (cell * list cell) :=
  fold_left
    (fun (st : list cell * list (cell * list cell)) (d : Z * Z) =>
       let '(visited, queue) := st in
       let '(dx, dy) := d in
       let nx := x + dx in
       let ny := y + dy in
       if open_cell maze width height (nx, ny) && negb (mem (nx, ny) visited)
       then ((nx, ny) :: visited, queue ++ [((nx, ny), path ++ [(nx, ny)])])
       else (visited, queue))
    dirs (visited, queue).

(** The [while queue] loop of [_bfs]. *)
Fixpoint bfs_loop (fuel : nat) (goal : cell)
  (queue : list (cell * list cell)) (visited : list cell)
  (nodes_explored : Z) : option found :=
  match fuel with
  | O => None
  | S fuel' =>
      match queue with
      | [] => Some (None, nodes_explored)
      | ((x, y), path) :: queue' =>
          let nodes_explored := nodes_explored + 1 in
          if cell_eqb (x, y) goal then Some (Some path, nodes_explored)
          else
            let '(visited', queue'') := bfs_expand x y path visited queue' in
            bfs_loop fuel' goal queue'' visited' nodes_explored
      end
  end.

(** Every loop iteration of a search takes a cell that was put on the
    frontier; a cell enters it at most once per direction. *)
Definition budget : nat := S (S (4 * S (Z.to_nat width * Z.to_nat height))).

Definition _bfs (start goal : cell) : option found :=
  bfs_loop budget goal [(start, [start])] [start] 0.

(** *** UCS

    Heap items are tuples [(cost, position, path)], ordered as Python orders
    tuples and lists.  [heapq] keeps a binary heap whose pop yields the least
    item; only the popped items are observed, so the heap is held as the
    sorted list of its items. *)

Definition cell_compare (a b : cell) : comparison :=
  match fst a ?= fst b with
  | Eq => snd a ?= snd b
  | c => c
  end.

Fixpoint path_compare (p q : list cell) : comparison :=
  match p, q with
  | [], [] => Eq
  | [], _ :: _ => Lt
  | _ :: _, [] => Gt
  | a :: p', b :: q' =>
      match cell_compare a b with
      | Eq => path_compare p' q'
      | c => c
      end
  end.

Definition item : Type := (Z * cell * list cell)%type.

Definition item_compare (a b : item) : comparison :=
  let '(ca, pa, la) := a in
  let '(cb, pb, lb) := b in
  match ca ?= cb with
  | Eq => match cell_compare pa pb with
          | Eq => path_compare la lb
          | c => c
          end
  | c => c
  end.

Fixpoint heappush (heap : list item) (e : item) : list item :=
  match heap with
  | [] => [e]
  | h :: heap' =>
      match item_compare e h with
      | Lt => e :: h :: heap'
      | _ => h :: heappush heap' e
      end
  end.

Definition ucs_expand (cost x y : Z) (path : list cell)
  (visited : list cell) (heap : list item) : list item :=
  fold_left
    (fun (heap : list item) (d : Z * Z) =>
       let '(dx, dy) := d in
       let nx := x + dx in
       let ny := y + dy in
       if open_cell maze width height (nx, ny) && negb (mem (nx, ny) visited)
       then let new_cost := cost + 1 in
            heappush heap (new_cost, (nx, ny), path ++ [(nx, ny)])
       else heap)
    dirs heap.

Fixpoint ucs_loop (fuel : nat) (goal : cell)
  (heap : list item) (visited : list cell) (nodes_explored : Z)
  : option found :=
  match fuel with
  | O => None
  | S fuel' =>
      match heap with
      | [] => Some (None, nodes_explored)
      | (cost, (x, y), path) :: heap' =>
          let nodes_explored := nodes_explored + 1 in
          if mem (x, y) visited
          then ucs_loop fuel' goal heap' visited nodes_explored
          else
            let visited := (x, y) :: visited in
            if cell_eqb (x, y) goal then Some (Some path, nodes_explored)
            else ucs_loop fuel' goal (ucs_expand cost x y path visited heap')
                          visited nodes_explored
      end
  end.

Definition _ucs (start goal : cell) : option found :=
  ucs_loop budget goal [(0, start, [start])] [] 0.

(** *** DFS

    The stack is held with its top at the head.  [directions] is a private
    copy of [GameConfig.DIRECTIONS], shuffled in place at every expansion. *)

Definition dfs_expand (x y : Z) (path : list cell) (directions : list (Z * Z))
  (visited : list cell) (stack : list (cell * list cell))
  : list (cell * list cell) :=
  fold_left
    (fun (stack : list (cell * list cell)) (d : Z * Z) =>
       let '(dx, dy) := d in
       let nx := x + dx in
       let ny := y + dy in
       if open_cell maze width height (nx, ny) && negb (mem (nx, ny) visited)
       then ((nx, ny), path ++ [(nx, ny)]) :: stack
       else stack)
    directions stack.

Fixpoint dfs_loop (fuel : nat) (goal : cell)
  (stack : list (cell * list cell)) (visited : list cell)
  (directions : list (Z * Z)) (nodes_explored : Z) (r : rng)
  : option (found * rng) :=
  match fuel with
  | O => None
  | S fuel' =>
      match stack with
      | [] => Some ((None, nodes_explored), r)
      | ((x, y), path) :: stack' =>
          let nodes_explored := nodes_explored + 1 in
          if mem (x, y) visited
          then dfs_loop fuel' goal stack' visited directions nodes_explored r
          else
            let visited := (x, y) :: visited in
            if cell_eqb (x, y) goal then Some ((Some path, nodes_explored), r)
            else
              let (directions', r') := shuffle directions r in
              dfs_loop fuel' goal
                (dfs_expand x y path directions' visited stack')
                visited directions' nodes_explored r'
      end
  end.

Definition _dfs (start goal : cell) (r : rng) : option (found * rng) :=
  dfs_loop budget goal [(start, [start])] [] dirs 0 r.

(** *** DLS and IDS

    [levels] is [remaining_depth + 1]: no level left is the
    [remaining_depth < 0] exit.  Each recursive call receives a copy of
    [visited], so the caller's set is what the siblings see.
    [dls_neighbours] is the [for dx, dy in GameConfig.DIRECTIONS] loop of
    [_dls_recursive], with the recursive call as [recurse].

    These are the searches as long as the interpreter's recursion limit is
    not reached: a run with depth limit [d] nests at most [d + 2] calls, 52
    and 101 at the limits [find_path] passes.  [PathFinderLimit] below
    carries the limit and raises RecursionError beyond it. *)

Definition dls_neighbours (recurse : Z -> Z -> list cell -> found)
  (x y : Z) (path visited : list cell) : list (Z * Z) -> Z -> found :=
  fix each (ds : list (Z * Z)) (nodes_explored : Z) : found :=
    match ds with
    | [] => (None, nodes_explored)
    | (dx, dy) :: ds' =>
        let nx := x + dx in
        let ny := y + dy in
        if open_cell maze width height (nx, ny) && negb (mem (nx, ny) visited)
        then
          let '(result, explored) := recurse nx ny (path ++ [(nx, ny)]) in
          let nodes_explored := nodes_explored + explored in
          match result with
          | Some p => (Some p, nodes_explored)
          | None => each ds' nodes_explored
          end
        else each ds' nodes_explored
    end.

Fixpoint dls_levels (levels : nat) (x y : Z) (goal : cell)
  (path : list cell) (visited : list cell) : found :=
  match levels with
  | O => (None, 0)
  | S levels' =>
      if cell_eqb (x, y) goal then (Some path, 1)
      else
        let visited := (x, y) :: visited in
        dls_neighbours
          (fun nx ny new_path => dls_levels levels' nx ny goal new_path visited)
          x y path visited dirs 1
  end.

Definition _dls_recursive (x y : Z) (goal : cell) (path : list cell)
  (visited : list cell) (remaining_depth : Z) : found :=
  dls_levels (Z.to_nat (remaining_depth + 1)) x y goal path visited.

Definition _dls (start goal : cell) (depth_limit : Z) : found :=
  _dls_recursive (fst start) (snd start) goal [start] [] depth_limit.

(** [for depth in range(max_depth)], with [count] iterations left. *)
Fixpoint ids_loop (count : nat) (depth : Z) (start goal : cell)
  (total_nodes_explored : Z) : found :=
  match count with
  | O => (None, total_nodes_explored)
  | S count' =>
      let '(result, nodes_explored) := _dls start goal depth in
      let total_nodes_explored := total_nodes_explored + nodes_explored in
      match result with
      | Some p => (Some p, total_nodes_explored)
      | None => ids_loop count' (depth + 1) start goal total_nodes_explored
      end
  end.

Definition _ids (start goal : cell) (max_depth : Z) : found :=
  ids_loop (Z.to_nat max_depth) 0 start goal 0.

(** *** Bidirectional

    [forward_visited] and [backward_visited] are dicts from a cell to the
    path that reached it; a key is inserted once, so an association list
    read at the first match holds the same bindings.  [p[-2::-1]] is the
    path without its last cell, reversed. *)

Fixpoint lookup (c : cell) (m : list (cell * list cell)) : option (list cell) :=
  match m with
  | [] => None
  | (k, v) :: m' => if cell_eqb c k then Some v else lookup c m'
  end.

Definition rev_but_last (p : list cell) : list cell := rev (removelast p).

Definition bidi_expand (x y : Z) (path : list cell)
  (visited : list (cell * list cell)) (queue : list (cell * list cell))
  : list (cell * list cell) * list (cell * list cell) :=
  fold_left
    (fun (st : list (cell * list cell) * list (cell * list cell)) (d : Z * Z) =>
       let '(visited, queue) := st in
       let '(dx, dy) := d in
       let nx := x + dx in
       let ny := y + dy in
       if open_cell maze width height (nx, ny)
          && negb (mem (nx, ny) (map fst visited))
       then let new_path := path ++ [(nx, ny)] in
            (((nx, ny), new_path) :: visited, queue ++ [((nx, ny), new_path)])
       else (visited, queue))
    dirs (visited, queue).

(** One side's step when its queue is non-empty: either the meeting path or
    the side's new visited map and queue. *)
Definition bidi_step (forward : bool)
  (x y : Z) (path : list cell) (queue' : list (cell * list cell))
  (mine other : list (cell * list cell))
  : list cell + (list (cell * list cell) * list (cell * list cell)) :=
  match lookup (x, y) other with
  | Some other_path =>
      inl (if forward then path ++ rev_but_last other_path
           else other_path ++ rev_but_last path)
  | None => inr (bidi_expand x y path mine queue')
  end.

Fixpoint bidi_loop (fuel : nat)
  (forward_queue : list (cell * list cell))
  (forward_visited : list (cell * list cell))
  (backward_queue : list (cell * list cell))
  (backward_visited : list (cell * list cell))
  (nodes_explored : Z) : option found :=
  match fuel with
  | O => None
  | S fuel' =>
      match forward_queue, backward_queue with
      | [], [] => Some (None, nodes_explored)
      | _, _ =>
          (* forward search step *)
          let fwd :=
            match forward_queue with
            | [] => inr (forward_visited, forward_queue, nodes_explored)
            | ((x, y), path) :: queue' =>
                match bidi_step true x y path queue'
                        forward_visited backward_visited with
                | inl full_path => inl (full_path, nodes_explored + 1)
                | inr (v, q) => inr (v, q, nodes_explored + 1)
                end
            end in
          match fwd with
          | inl (full_path, n) => Some (Some full_path, n)
          | inr (forward_visited, forward_queue, nodes_explored) =>
              (* backward search step *)
              match backward_queue with
              | [] =>
                  bidi_loop fuel' forward_queue forward_visited
                    backward_queue backward_visited nodes_explored
              | ((x, y), path) :: queue' =>
                  match bidi_step false x y path queue'
                          backward_visited forward_visited with
                  | inl full_path => Some (Some full_path, nodes_explored + 1)
                  | inr (v, q) =>
                      bidi_loop fuel' forward_queue forward_visited
                        q v (nodes_explored + 1)
                  end
              end
          end
      end
  end.

Definition _bidirectional (start goal : cell) : option found :=
  if cell_eqb start goal then Some (Some [start], 1)
  else bidi_loop budget [(start, [start])] [(start, [start])]
         [(goal, [goal])] [(goal, [goal])] 0.

End Searches.

(** [find_path]: [search_time], a wall-clock difference, is left out. *)
Definition find_path (dirs : list (Z * Z)) (r : rng)
  (start goal : cell) (algorithm : string) (maze : grid)
  : option (found * rng) :=
  let height := Z.of_nat (length maze) in
  let width := maze_width maze in
  let pure (o : option found) :=
    match o with Some f => Some (f, r) | None => None end in
  if String.eqb algorithm "BFS" then
    pure (_bfs dirs maze width height start goal)
  else if String.eqb algorithm "UCS" then
    pure (_ucs dirs maze width height start goal)
  else if String.eqb algorithm "DFS" then
    _dfs dirs maze width height start goal r
  else if String.eqb algorithm "DLS" then
    pure (Some (_dls dirs maze width height start goal 50))
  else if String.eqb algorithm "IDS" then
    pure (Some (_ids dirs maze width height start goal 100))
  else if String.eqb algorithm "Bidirectional" then
    pure (_bidirectional dirs maze width height start goal)
  else
    pure (_bfs dirs maze width height start goal).

End PathFinder.

(** ** maze_generator.py *)

(** How a computation of the program can end: with a value, with a Python
    exception, or (for a [while] loop of the model) out of budget. *)
Inductive exn : Type :=
  IndexError | ValueError | ZeroDivisionError | RecursionError.

Inductive result (A : Type) : Type :=
| Ret (a : A)
| Raise (e : exn)
| OutOfBudget.

Arguments Ret {A} a.
Arguments Raise {A} e.
Arguments OutOfBudget {A}.

Definition bind {A B : Type} (m : result A) (k : A -> result B) : result B :=
  match m with
  | Ret a => k a
  | Raise e => Raise e
  | OutOfBudget => OutOfBudget
  end.

Definition lift {A : Type} (e : exn) (o : option A) : result A :=
  match o with
  | Some a => Ret a
  | None => Raise e
  end.

Notation "x <- m ;; k" := (bind m (fun x => k))
  (at level 61, m at next level, right associativity).
Notation "' p <- m ;; k" := (bind m (fun x => let p := x in k))
  (at level 61, p pattern, m at next level, right associativity).

Module MazeGenerator.

Import Random.

(** [[[1 for _ in range(width)] for _ in range(height)]] *)
Definition all_walls (width height : Z) : grid :=
  repeat (repeat 1 (Z.to_nat width)) (Z.to_nat height).

Definition directions : list (Z * Z) := [(0, 2); (2, 0); (0, -2); (-2, 0)].

(** [0 < nx < width - 1 and 0 < ny < height - 1 and maze[ny][nx] == 1] *)
Definition inner_wall (width height : Z) (maze : grid) (nx ny : Z) : bool :=
  (0 <? nx) && (nx <? width - 1) && (0 <? ny) && (ny <? height - 1)
  && maze_is maze nx ny 1.

(** The [neighbors] list built for the cell on top of the stack; [//] is
    floor division, as [Z.div]. *)
Definition neighbors (width height : Z) (maze : grid) (current_x current_y : Z)
  : list (Z * Z * Z * Z) :=
  map (fun d : Z * Z =>
         (current_x + fst d, current_y + snd d, fst d / 2, snd d / 2))
      (filter (fun d : Z * Z =>
                 inner_wall width height maze
                   (current_x + fst d) (current_y + snd d))
              directions).

(** The [while stack] loop; the stack is held with its top at the head. *)
Fixpoint carve (fuel : nat) (width height : Z) (maze : grid)
  (stack : list cell) (r : rng) : result (grid * rng) :=
  match fuel with
  | O => OutOfBudget
  | S fuel' =>
      match stack with
      | [] => Ret (maze, r)
      | (current_x, current_y) :: below =>
          match neighbors width height maze current_x current_y with
          | [] => carve fuel' width height maze below r
          | n0 :: ns =>
              let '((nx, ny, wall_x, wall_y), r') := choice n0 (n0 :: ns) r in
              maze <- lift IndexError
                        (maze_set maze (current_x + wall_x) (current_y + wall_y) 0) ;;
              maze <- lift IndexError (maze_set maze nx ny 0) ;;
              carve fuel' width height maze ((nx, ny) :: stack) r'
          end
      end
  end.

(** The inner [for dx, dy in GameConfig.DIRECTIONS] of the loop phase:
    [random.random()] is drawn only when the three tests before it hold. *)
Fixpoint break_wall (width height : Z) (maze : grid) (x y : Z)
  (ds : list (Z * Z)) (r : rng) : result (grid * rng) :=
  match ds with
  | [] => Ret (maze, r)
  | (dx, dy) :: ds' =>
      let nx := x + dx in
      let ny := y + dy in
      if inner_wall width height maze nx ny
      then let (hit, r') := random_lt_03 r in
           if hit
           then maze <- lift IndexError (maze_set maze nx ny 0) ;; Ret (maze, r')
           else break_wall width height maze x y ds' r'
      else break_wall width height maze x y ds' r
  end.

(** [for _ in range(self.width // 2)], with [count] trials left. *)
Fixpoint add_loops (count : nat) (dirs : list (Z * Z)) (width height : Z)
  (maze : grid) (r : rng) : result (grid * rng) :=
  match count with
  | O => Ret (maze, r)
  | S count' =>
      '(x, r) <- lift ValueError (randrange_odd (width - 1) r) ;;
      '(y, r) <- lift ValueError (randrange_odd (height - 1) r) ;;
      v <- lift IndexError (maze_get maze x y) ;;
      if v =? 0
      then '(maze, r) <- break_wall width height maze x y dirs r ;;
           add_loops count' dirs width height maze r
      else add_loops count' dirs width height maze r
  end.

(** The stack is pushed when a wall cell is carved and popped otherwise. *)
Definition carve_budget (width height : Z) : nat :=
  S (S (2 * (Z.to_nat width * Z.to_nat height))).

Definition generate_maze (dirs : list (Z * Z)) (width height : Z) (r : rng)
  : result (grid * rng) :=
  let maze := all_walls width height in
  let start_x := 1 in
  let start_y := 1 in
  maze <- lift IndexError (maze_set maze start_x start_y 0) ;;
  '(maze, r) <- carve (carve_budget width height) width height maze
                  [(start_x, start_y)] r ;;
  '(maze, r) <- add_loops (Z.to_nat (width / 2)) dirs width height maze r ;;
  maze <- lift IndexError (maze_set maze 1 1 0) ;;
  maze <- lift IndexError (maze_set maze (width - 2) (height - 2) 0) ;;
  Ret (maze, r).

End MazeGenerator.

(** ** game_objects.py: the enemy *)

Module Enemy.

Import Random.

Record enemy : Type := mk_enemy {
  pos : option cell;
  path : list cell;
  move_counter : Z;
  initial_pos : option cell
}.

(** [Enemy(pos)] *)
Definition init (p : option cell) : enemy := mk_enemy p [] 0 p.

(** The inner [for dx, dy in directions] of the greedy walk: the first
    direction, in the order at hand, that leads to an open unvisited cell. *)
Fixpoint next_cell (maze : grid) (width height : Z) (current : cell)
  (visited : list cell) (ds : list (Z * Z)) : option cell :=
  match ds with
  | [] => None
  | (dx, dy) :: ds' =>
      let nx := fst current + dx in
      let ny := snd current + dy in
      if PathFinder.open_cell maze width height (nx, ny)
         && negb (mem (nx, ny) visited)
      then Some (nx, ny)
      else next_cell maze width height current visited ds'
  end.

(** [for _ in range(10)], with [count] rounds left.  [directions] is the
    very list [GameConfig.DIRECTIONS]: each shuffle is kept for the next
    round and for every later reader of the configuration. *)
Fixpoint walk (count : nat) (maze : grid) (width height : Z)
  (directions : list (Z * Z)) (current : cell) (path visited : list cell)
  (r : rng) : list cell * list (Z * Z) * rng :=
  match count with
  | O => (path, directions, r)
  | S count' =>
      let (directions, r) := shuffle directions r in
      match next_cell maze width height current visited directions with
      | Some n =>
          walk count' maze width height directions n (path ++ [n])
               (n :: visited) r
      | None => (path, directions, r)
      end
  end.

(** The second loop: no visited test, the spawn cell's first open
    neighbour. *)
Definition back_and_forth (maze : grid) (width height : Z) (spawn : cell)
  (directions : list (Z * Z)) : list cell :=
  match next_cell maze width height spawn [] directions with
  | Some n => [spawn; n]
  | None => [spawn]
  end.

(** Returns the enemy and the state in which it leaves
    [GameConfig.DIRECTIONS] and the generator. *)
Definition create_patrol_path (e : enemy) (dirs : list (Z * Z))
  (maze : grid) (width height : Z) (r : rng)
  : enemy * list (Z * Z) * rng :=
  match pos e with
  | None => (e, dirs, r)
  | Some p =>
      let '(walked, directions, r) :=
        walk 10 maze width height dirs p [p] [p] r in
      let final :=
        if (Z.of_nat (length walked) <? 3)
        then back_and_forth maze width height p directions
        else walked in
      (mk_enemy (pos e) final (move_counter e) (initial_pos e), directions, r)
  end.

(** [self.path.index(self.pos)], ValueError is [None]. *)
Fixpoint index_of (c : cell) (l : list cell) : option Z :=
  match l with
  | [] => None
  | d :: l' =>
      if cell_eqb d c then Some 0
      else match index_of c l' with
           | Some i => Some (i + 1)
           | None => None
           end
  end.

(** [a % b] *)
Definition py_mod (a b : Z) : result Z :=
  if b =? 0 then Raise ZeroDivisionError else Ret (a mod b).

Definition move (e : enemy) : result enemy :=
  match pos e with
  | None => Ret e
  | Some p =>
      if match path e with [] => true | _ => false end
         || (Z.of_nat (length (path e)) <? 2)
      then Ret e
      else
        let move_interval := GameConfig.ENEMY_MOVE_INTERVAL in
        let counter := move_counter e + 1 in
        if move_interval <=? counter
        then
          let current_index :=
            match index_of p (path e) with
            | Some i => i
            | None => 0
            end in
          next_index <- py_mod (current_index + 1) (Z.of_nat (length (path e))) ;;
          p' <- lift IndexError (py_index (path e) next_index) ;;
          Ret (mk_enemy (Some p') (path e) 0 (initial_pos e))
        else Ret (mk_enemy (pos e) (path e) counter (initial_pos e))
  end.

End Enemy.

(** ** main3.py: feature placement of the single-file game *)

Module HardMazeGame.

Import Random.

(** The attributes of the game object that feature placement reads and
    writes.  [max_moves], the move allowance shown to the player, is display
    state derived from [find_path] after the features are fixed and is not
    carried. *)
Record game : Type := mk_game {
  width : Z;
  height : Z;
  maze : grid;
  end_pos : cell;
  required_keys : Z;
  traps : list cell;
  keys : list cell;
  teleporters : list (cell * cell);
  enemy_pos : option cell;
  enemy_path : list cell;
  enemy_move_counter : Z
}.

Definition set_features (g : game) (traps' keys' : list cell)
  (teleporters' : list (cell * cell)) : game :=
  mk_game (width g) (height g) (maze g) (end_pos g) (required_keys g)
    traps' keys' teleporters' (enemy_pos g) (enemy_path g)
    (enemy_move_counter g).

Definition set_enemy (g : game) (p : option cell) (route : list cell) : game :=
  mk_game (width g) (height g) (maze g) (end_pos g) (required_keys g)
    (traps g) (keys g) (teleporters g) p route (enemy_move_counter g).

(** The double loop collecting [empty_spaces], row by row. *)
Definition empty_spaces (g : game) : list cell :=
  flat_map
    (fun y =>
       flat_map
         (fun x =>
            if maze_is (maze g) x y 0 && negb (mem (x, y) [(1, 1); end_pos g])
            then [(x, y)] else [])
         (py_range 1 (width g - 1)))
    (py_range 1 (height g - 1)).

(** [for _ in range(n): if available: pos = random.choice(available);
    placed.append(pos); available.remove(pos)] *)
Fixpoint place (count : nat) (available placed : list cell) (r : rng)
  : list cell * list cell * rng :=
  match count with
  | O => (placed, available, r)
  | S count' =>
      match available with
      | [] => place count' available placed r
      | a0 :: _ =>
          let (p, r) := choice a0 available r in
          place count' (remove_first p available) (placed ++ [p]) r
      end
  end.

(** [for _ in range(2)]: two cells drawn and removed per pair.  The guard
    [len(tele_candidates) >= 4] keeps every draw on a non-empty list. *)
Fixpoint place_pairs (count : nat) (candidates : list cell)
  (pairs : list (cell * cell)) (r : rng) : list (cell * cell) * rng :=
  match count with
  | O => (pairs, r)
  | S count' =>
      let (pos1, r) := choice (0, 0) candidates r in
      let candidates := remove_first pos1 candidates in
      let (pos2, r) := choice (0, 0) candidates r in
      let candidates := remove_first pos2 candidates in
      place_pairs count' candidates (pairs ++ [(pos1, pos2)]) r
  end.

(** The inner [for dx, dy in [(1, 0), (0, 1), (-1, 0), (0, -1)]] of
    [create_enemy_path]. *)
Definition patrol_directions : list (Z * Z) := [(1, 0); (0, 1); (-1, 0); (0, -1)].

Fixpoint patrol (count : nat) (g : game) (current : cell) (route : list cell)
  : list cell :=
  match count with
  | O => route
  | S count' =>
      match Enemy.next_cell (maze g) (width g) (height g) current route
              patrol_directions with
      | Some n => patrol count' g n (route ++ [n])
      | None => patrol count' g current route
      end
  end.

Definition create_enemy_path (g : game) : game :=
  match enemy_pos g with
  | None => g
  | Some p => set_enemy g (enemy_pos g) (patrol 6 g p [p])
  end.

(** *** The solvability test *)

Definition directions : list (Z * Z) := [(0, 1); (1, 0); (0, -1); (-1, 0)].

Definition avoid_expand (g : game) (blocked : list cell) (x y : Z)
  (path : list cell) (visited : list cell) (queue : list (cell * list cell))
  : list cell * list (cell * list cell) :=
  fold_left
    (fun (st : list cell * list (cell * list cell)) (d : Z * Z) =>
       let '(visited, queue) := st in
       let '(dx, dy) := d in
       let nx := x + dx in
       let ny := y + dy in
       if PathFinder.open_cell (maze g) (width g) (height g) (nx, ny)
          && negb (mem (nx, ny) visited)
          && negb (mem (nx, ny) blocked)
       then ((nx, ny) :: visited, queue ++ [((nx, ny), path ++ [(nx, ny)])])
       else (visited, queue))
    directions (visited, queue).

Fixpoint avoid_loop (fuel : nat) (g : game) (blocked : list cell) (goal : cell)
  (queue : list (cell * list cell)) (visited : list cell) : option bool :=
  match fuel with
  | O => None
  | S fuel' =>
      match queue with
      | [] => Some false
      | ((x, y), path) :: queue' =>
          if cell_eqb (x, y) goal then Some true
          else
            let '(visited', queue'') :=
              avoid_expand g blocked x y path visited queue' in
            avoid_loop fuel' g blocked goal queue'' visited'
      end
  end.

Definition bfs_avoid_enemy (g : game) (blocked : list cell)
  (start goal : cell) : option bool :=
  avoid_loop (PathFinder.budget (width g) (height g)) g blocked goal
    [(start, [start])] [start].

Definition manhattan (a b : cell) : Z :=
  Z.abs (fst a - fst b) + Z.abs (snd a - snd b).

(** [min(test_keys, key=...)]: the first of the least. *)
Fixpoint nearest (test_pos : cell) (best : cell) (rest : list cell) : cell :=
  match rest with
  | [] => best
  | k :: rest' =>
      if manhattan k test_pos <? manhattan best test_pos
      then nearest test_pos k rest'
      else nearest test_pos best rest'
  end.

(** [while test_keys], with one round per key. *)
Fixpoint keys_loop (rounds : nat) (g : game) (blocked : list cell)
  (test_pos : cell) (test_keys : list cell) : option (bool * cell) :=
  match test_keys with
  | [] => Some (true, test_pos)
  | k0 :: ks =>
      match rounds with
      | O => None
      | S rounds' =>
          let nearest_key := nearest test_pos k0 ks in
          match bfs_avoid_enemy g blocked test_pos nearest_key with
          | None => None
          | Some false => Some (false, test_pos)
          | Some true =>
              keys_loop rounds' g blocked nearest_key
                (remove_first nearest_key test_keys)
          end
      end
  end.

Definition is_solvable_with_enemy (g : game) : option bool :=
  let blocked := enemy_path g in
  match keys_loop (length (keys g)) g blocked (1, 1) (keys g) with
  | None => None
  | Some (false, _) => Some false
  | Some (true, test_pos) => bfs_avoid_enemy g blocked test_pos (end_pos g)
  end.

(** *** setup_difficulty_features *)

Definition not_in (l : list cell) (c : cell) : bool := negb (mem c l).

(** One pass of the retry loop up to the solvability test. *)
Definition attempt (g : game) (r : rng) : game * rng :=
  let g := set_features g [] [] [] in
  let spaces := empty_spaces g in
  let '(keys, _, r) :=
    place (Z.to_nat (required_keys g)) spaces [] r in
  let g := set_features g (traps g) keys (teleporters g) in
  let trap_candidates := filter (not_in (HardMazeGame.keys g)) spaces in
  let num_traps := Z.min 8 (Z.of_nat (length trap_candidates) / 10) in
  let '(traps, _, r) := place (Z.to_nat num_traps) trap_candidates [] r in
  let g := set_features g traps (HardMazeGame.keys g) (teleporters g) in
  let tele_candidates :=
    filter (fun p => not_in (HardMazeGame.keys g) p
                     && not_in (HardMazeGame.traps g) p) spaces in
  let '(teleporters, r) :=
    if 4 <=? Z.of_nat (length tele_candidates)
    then place_pairs 2 tele_candidates [] r
    else ([], r) in
  let g := set_features g (HardMazeGame.traps g) (HardMazeGame.keys g)
             teleporters in
  let enemy_candidates :=
    filter (fun p => not_in (HardMazeGame.keys g) p
                     && not_in (HardMazeGame.traps g) p) spaces in
  let '(spawn, r) :=
    match enemy_candidates with
    | [] => (None, r)
    | c0 :: _ => let (p, r) := choice c0 enemy_candidates r in (Some p, r)
    end in
  let g := set_enemy g spawn (enemy_path g) in
  (create_enemy_path g, r).

(** The code after the retry loop. *)
Definition fallback (g : game) (r : rng) : game * rng :=
  let g := set_features g [] [] [] in
  let spaces := empty_spaces g in
  let '(keys, spaces, r) :=
    place (Z.to_nat (required_keys g)) spaces [] r in
  let g := set_features g (traps g) keys (teleporters g) in
  let '(spawn, r) :=
    match spaces with
    | [] => (None, r)
    | c0 :: _ => let (p, r) := choice c0 spaces r in (Some p, r)
    end in
  let g := set_enemy g spawn (enemy_path g) in
  (create_enemy_path g, r).

(** How [setup_difficulty_features] came to return: from inside the retry
    loop on a configuration that passed the test, or after the loop. *)
Inductive exit : Type := Accepted | FellBack.

(** [for attempt in range(max_attempts)], with [count] attempts left. *)
Fixpoint retry (count : nat) (g : game) (r : rng) : option (exit * game * rng) :=
  match count with
  | O => let (g, r) := fallback g r in Some (FellBack, g, r)
  | S count' =>
      let (g, r) := attempt g r in
      match is_solvable_with_enemy g with
      | None => None
      | Some true => Some (Accepted, g, r)
      | Some false => retry count' g r
      end
  end.

Definition max_attempts : nat := 20.

Definition setup_difficulty_features (g : game) (r : rng)
  : option (exit * game * rng) :=
  retry max_attempts g r.

(** [move_enemy] *)
Definition move_enemy (g : game) : result game :=
  match enemy_pos g, enemy_path g with
  | None, _ => Ret g
  | Some _, [] => Ret g
  | Some p, _ :: _ =>
      let counter := enemy_move_counter g + 1 in
      if 5 <=? counter
      then
        let current_index :=
          match Enemy.index_of p (enemy_path g) with
          | Some i => i
          | None => 0
          end in
        next_index <- Enemy.py_mod (current_index + 1)
                        (Z.of_nat (length (enemy_path g))) ;;
        p' <- lift IndexError (py_index (enemy_path g) next_index) ;;
        Ret (mk_game (width g) (height g) (maze g) (end_pos g)
               (required_keys g) (traps g) (keys g) (teleporters g)
               (Some p') (enemy_path g) 0)
      else
        Ret (mk_game (width g) (height g) (maze g) (end_pos g)
               (required_keys g) (traps g) (keys g) (teleporters g)
               (enemy_pos g) (enemy_path g) counter)
  end.

End HardMazeGame.

(** ** maze_generator.py: get_empty_spaces; game_objects.py: the objects

    [str(n)] of an integer is its decimal numeral, [str([x, y])] of a
    position the two numerals in brackets. *)

Definition str_int (n : Z) : string := NilZero.string_of_int (Z.to_int n).

Definition str_cell (c : cell) : string :=
  ("[" ++ str_int (fst c) ++ ", " ++ str_int (snd c) ++ "]")%string.

(** [for x in xs: if maze[y][x] == 0 and keep([x, y]): out.append([x, y])];
    a lookup out of range raises IndexError. *)
Fixpoint scan_row (maze : grid) (keep : cell -> bool) (y : Z) (xs : list Z)
  (out : list cell) : result (list cell) :=
  match xs with
  | [] => Ret out
  | x :: xs' =>
      v <- lift IndexError (maze_get maze x y) ;;
      scan_row maze keep y xs'
        (if (v =? 0) && keep (x, y) then out ++ [(x, y)] else out)
  end.

(** [for y in ys: for x in xs: ...] *)
Fixpoint scan_rows (maze : grid) (keep : cell -> bool) (ys xs : list Z)
  (out : list cell) : result (list cell) :=
  match ys with
  | [] => Ret out
  | y :: ys' =>
      out <- scan_row maze keep y xs out ;;
      scan_rows maze keep ys' xs out
  end.

Module MazeGeneratorSpaces.

(** [MazeGenerator.get_empty_spaces]; [exclude_positions] defaults to the
    start and the exit. *)
Definition get_empty_spaces (width height : Z) (maze : grid)
  (exclude_positions : option (list cell)) : result (list cell) :=
  let exclude_positions :=
    match exclude_positions with
    | None => [(1, 1); (width - 2, height - 2)]
    | Some l => l
    end in
  scan_rows maze (fun c => negb (mem c exclude_positions))
    (py_range 1 (height - 1)) (py_range 1 (width - 1)) [].

End MazeGeneratorSpaces.

Module Player.

Record player : Type := mk_player {
  pos : cell;
  moves_count : Z;
  keys_collected : Z
}.

(** [Player(start_pos)]; the default [start_pos] is [[1, 1]]. *)
Definition init (start_pos : cell) : player := mk_player start_pos 0 0.

Definition move (p : player) (new_pos : cell) : player :=
  mk_player new_pos (moves_count p + 1) (keys_collected p).

Definition collect_key (p : player) : player :=
  mk_player (pos p) (moves_count p) (keys_collected p + 1).

Definition reset (p : player) (start_pos : cell) : player :=
  mk_player start_pos 0 0.

End Player.

Module EnemyReset.

(** [Enemy.reset] *)
Definition reset (e : Enemy.enemy) : Enemy.enemy :=
  Enemy.mk_enemy (Enemy.initial_pos e) [] 0 (Enemy.initial_pos e).

End EnemyReset.

Module GameItems.

Import Random.

Record items : Type := mk_items {
  keys : list cell;
  traps : list cell;
  teleporters : list (cell * cell);
  moving_walls : list cell
}.

Definition init : items := mk_items [] [] [] [].

(** The teleporter loop of [setup_items]: two cells drawn and removed per
    pair, behind the guard [len(available_spaces) >= 2]. *)
Fixpoint place_pairs (count : nat) (available : list cell)
  (pairs : list (cell * cell)) (r : rng)
  : list (cell * cell) * list cell * rng :=
  match count with
  | O => (pairs, available, r)
  | S count' =>
      if 2 <=? Z.of_nat (length available)
      then
        let (pos1, r) := choice (0, 0) available r in
        let available := remove_first pos1 available in
        let (pos2, r) := choice (0, 0) available r in
        let available := remove_first pos2 available in
        place_pairs count' available (pairs ++ [(pos1, pos2)]) r
      else place_pairs count' available pairs r
  end.

(** Returns the items, the spaces left and the generator. *)
Definition setup_items (it : items) (empty_spaces : list cell)
  (required_keys : Z) (r : rng) : items * list cell * rng :=
  let available_spaces := empty_spaces in
  let keys_to_place :=
    Z.min required_keys (Z.of_nat (length available_spaces)) in
  let '(keys, available_spaces, r) :=
    HardMazeGame.place (Z.to_nat keys_to_place) available_spaces (keys it) r in
  let num_traps :=
    Z.min 8 (Z.min (Z.of_nat (length available_spaces) / 10)
                   (Z.of_nat (length available_spaces))) in
  let '(traps, available_spaces, r) :=
    HardMazeGame.place (Z.to_nat num_traps) available_spaces (traps it) r in
  let '(teleporters, available_spaces, r) :=
    if 4 <=? Z.of_nat (length available_spaces)
    then
      let pairs_to_create := Z.min 2 (Z.of_nat (length available_spaces) / 2) in
      place_pairs (Z.to_nat pairs_to_create) available_spaces (teleporters it) r
    else (teleporters it, available_spaces, r) in
  (mk_items keys traps teleporters (moving_walls it), available_spaces, r).

(** Returns the items and the answer. *)
Definition remove_key (it : items) (pos : cell) : items * bool :=
  if mem pos (keys it)
  then (mk_items (remove_first pos (keys it)) (traps it) (teleporters it)
          (moving_walls it), true)
  else (it, false).

Fixpoint destination (pos : cell) (teleporters : list (cell * cell))
  : option cell :=
  match teleporters with
  | [] => None
  | (pos1, pos2) :: rest =>
      if cell_eqb pos pos1 then Some pos2
      else if cell_eqb pos pos2 then Some pos1
      else destination pos rest
  end.

Definition get_teleporter_destination (it : items) (pos : cell) : option cell :=
  destination pos (teleporters it).

Definition is_trap (it : items) (pos : cell) : bool := mem pos (traps it).

Definition reset (it : items) : items := mk_items [] [] [] [].

End GameItems.

(** [GameObjects]: the flashlight ([PowerUps]) runs on wall-clock floats and
    is not carried. *)
Module GameObjects.

Import Random.

Record objects : Type := mk_objects {
  width : Z;
  height : Z;
  player : Player.player;
  enemy : Enemy.enemy;
  items : GameItems.items;
  start_pos : cell;
  end_pos : cell;
  map_revealed : bool;
  visibility_radius : Z
}.

Definition init (width height : Z) : objects :=
  mk_objects width height (Player.init (1, 1)) (Enemy.init None) GameItems.init
    (1, 1) (width - 2, height - 2) false 4.

(** [sorted(spaces, key=key, reverse=True)]: greatest key first, cells of
    equal key in the order they had. *)
Fixpoint insert_reverse (key : cell -> Z) (c : cell) (sorted : list cell)
  : list cell :=
  match sorted with
  | [] => [c]
  | d :: sorted' =>
      if key c <? key d then d :: insert_reverse key c sorted'
      else c :: sorted
  end.

Definition sorted_reverse (key : cell -> Z) (l : list cell) : list cell :=
  fold_right (insert_reverse key) [] l.

(** Returns the objects and the state in which the call leaves
    [GameConfig.DIRECTIONS] and the generator. *)
Definition setup_objects (o : objects) (dirs : list (Z * Z)) (maze : grid)
  (r : rng) : result (objects * list (Z * Z) * rng) :=
  empty_spaces <- scan_rows maze (fun _ => true)
                    (py_range 0 (height o)) (py_range 0 (width o)) [] ;;
  let empty_spaces :=
    if mem (start_pos o) empty_spaces
    then remove_first (start_pos o) empty_spaces else empty_spaces in
  let empty_spaces :=
    if mem (end_pos o) empty_spaces
    then remove_first (end_pos o) empty_spaces else empty_spaces in
  let player := Player.reset (player o) (start_pos o) in
  '(enemy, empty_spaces, dirs, r) <-
    match empty_spaces with
    | [] => Ret (enemy o, empty_spaces, dirs, r)
    | _ :: _ =>
        let far_spaces :=
          sorted_reverse
            (fun p => Z.abs (fst p - fst (start_pos o))
                      + Z.abs (snd p - snd (start_pos o)))
            empty_spaces in
        enemy_start_pos <- lift IndexError (py_index far_spaces 0) ;;
        let e := Enemy.mk_enemy (Some enemy_start_pos) (Enemy.path (enemy o))
                   (Enemy.move_counter (enemy o)) (Some enemy_start_pos) in
        let empty_spaces := remove_first enemy_start_pos empty_spaces in
        let '(e, dirs, r) :=
          Enemy.create_patrol_path e dirs maze (width o) (height o) r in
        Ret (e, empty_spaces, dirs, r)
    end ;;
  let required_keys := GameConfig.REQUIRED_KEYS in
  let '(items, _, r) :=
    GameItems.setup_items (items o) empty_spaces required_keys r in
  Ret (mk_objects (width o) (height o) player enemy items (start_pos o)
         (end_pos o) (map_revealed o) (visibility_radius o), dirs, r).

(** Returns the objects and the event string. *)
Definition handle_player_move (o : objects) (maze : grid) : objects * string :=
  let player_pos := Player.pos (player o) in
  if GameItems.is_trap (items o) player_pos then (o, "trap"%string)
  else if match Enemy.pos (enemy o) with
          | Some q => cell_eqb player_pos q
          | None => false
          end
  then (o, "enemy"%string)
  else
    let (items', removed) := GameItems.remove_key (items o) player_pos in
    if removed
    then
      let player' := Player.collect_key (player o) in
      let required_keys := GameConfig.REQUIRED_KEYS in
      (mk_objects (width o) (height o) player' (enemy o) items' (start_pos o)
         (end_pos o) (map_revealed o) (visibility_radius o),
       ("key collected! You now have " ++ str_int (Player.keys_collected player')
        ++ "/" ++ str_int required_keys ++ " keys.")%string)
    else
      match GameItems.get_teleporter_destination items' player_pos with
      | Some destination =>
          (mk_objects (width o) (height o) (Player.move (player o) destination)
             (enemy o) items' (start_pos o) (end_pos o) (map_revealed o)
             (visibility_radius o),
           ("teleport to " ++ str_cell destination ++ "!")%string)
      | None => (o, "move"%string)
      end.

Definition reset (o : objects) : objects :=
  mk_objects (width o) (height o) (Player.reset (player o) (start_pos o))
    (EnemyReset.reset (enemy o)) (GameItems.reset (items o)) (start_pos o)
    (end_pos o) false (visibility_radius o).

(** The [player_pos] setter. *)
Definition set_player_pos (o : objects) (value : cell) : objects :=
  mk_objects (width o) (height o) (Player.move (player o) value) (enemy o)
    (items o) (start_pos o) (end_pos o) (map_revealed o) (visibility_radius o).

Definition move_enemy (o : objects) : result objects :=
  e <- Enemy.move (enemy o) ;;
  Ret (mk_objects (width o) (height o) (player o) e (items o) (start_pos o)
         (end_pos o) (map_revealed o) (visibility_radius o)).

End GameObjects.

(** ** main3.py: the solvers of the single-file game

    The six searches of [HardMazeGame] read the game's own maze through
    [is_safe_cell], which also refuses traps, and walk a local list
    [directions].  [find_path_bfs] follows teleporters as well. *)

Module HardMazeSolver.

Import Random HardMazeGame.

(** [is_safe_cell]: the maze is read only inside the bounds. *)
Definition is_safe_cell (g : game) (x y : Z) : bool :=
  if negb ((0 <=? x) && (x <? width g) && (0 <=? y) && (y <? height g))
  then false
  else if maze_is (maze g) x y 1 then false
  else if mem (x, y) (traps g) then false
  else true.

(** The [for pos1, pos2 in self.teleporters] loop of [get_teleport]. *)
Fixpoint teleport_of (c : cell) (teleporters : list (cell * cell))
  : option cell :=
  match teleporters with
  | [] => None
  | (pos1, pos2) :: rest =>
      if cell_eqb c pos1 then Some pos2
      else if cell_eqb c pos2 then Some pos1
      else teleport_of c rest
  end.

Definition get_teleport (g : game) (x y : Z) : option cell :=
  teleport_of (x, y) (teleporters g).

(** *** BFS, with teleporters *)

Definition bfs_expand (g : game) (x y : Z) (path : list cell)
  (visited : list cell) (queue : list (cell * list cell))
  : list cell * list (cell * list cell) :=
  fold_left
    (fun (st : list cell * list (cell * list cell)) (d : Z * Z) =>
       let '(visited, queue) := st in
       let '(dx, dy) := d in
       let nx := x + dx in
       let ny := y + dy in
       if is_safe_cell g nx ny && negb (mem (nx, ny) visited)
       then
         let visited := (nx, ny) :: visited in
         let queue := queue ++ [((nx, ny), path ++ [(nx, ny)])] in
         match get_teleport g nx ny with
         | Some tele =>
             if negb (mem tele visited)
             then (tele :: visited,
                   queue ++ [(tele, path ++ [(nx, ny); tele])])
             else (visited, queue)
         | None => (visited, queue)
         end
       else (visited, queue))
    directions (visited, queue).

Fixpoint bfs_loop (fuel : nat) (g : game) (goal : cell)
  (queue : list (cell * list cell)) (visited : list cell)
  (nodes_explored : Z) : option PathFinder.found :=
  match fuel with
  | O => None
  | S fuel' =>
      match queue with
      | [] => Some (None, nodes_explored)
      | ((x, y), path) :: queue' =>
          let nodes_explored := nodes_explored + 1 in
          if cell_eqb (x, y) goal then Some (Some path, nodes_explored)
          else
            let '(visited', queue'') := bfs_expand g x y path visited queue' in
            bfs_loop fuel' g goal queue'' visited' nodes_explored
      end
  end.

(** A cell enters the queue once: as a safe cell inside the bounds or as
    the far end of a teleporter. *)
Definition bfs_budget (g : game) : nat :=
  (PathFinder.budget (width g) (height g) + 2 * length (teleporters g))%nat.

Definition find_path_bfs (g : game) (start goal : cell)
  : option PathFinder.found :=
  bfs_loop (bfs_budget g) g goal [(start, [start])] [start] 0.

(** *** UCS *)

Definition ucs_expand (g : game) (cost x y : Z) (path : list cell)
  (visited : list cell) (heap : list PathFinder.item) : list PathFinder.item :=
  fold_left
    (fun (heap : list PathFinder.item) (d : Z * Z) =>
       let '(dx, dy) := d in
       let nx := x + dx in
       let ny := y + dy in
       if is_safe_cell g nx ny && negb (mem (nx, ny) visited)
       then let new_cost := cost + 1 in
            PathFinder.heappush heap (new_cost, (nx, ny), path ++ [(nx, ny)])
       else heap)
    directions heap.

Fixpoint ucs_loop (fuel : nat) (g : game) (goal : cell)
  (heap : list PathFinder.item) (visited : list cell) (nodes_explored : Z)
  : option PathFinder.found :=
  match fuel with
  | O => None
  | S fuel' =>
      match heap with
      | [] => Some (None, nodes_explored)
      | (cost, (x, y), path) :: heap' =>
          let nodes_explored := nodes_explored + 1 in
          if mem (x, y) visited
          then ucs_loop fuel' g goal heap' visited nodes_explored
          else
            let visited := (x, y) :: visited in
            if cell_eqb (x, y) goal then Some (Some path, nodes_explored)
            else ucs_loop fuel' g goal (ucs_expand g cost x y path visited heap')
                          visited nodes_explored
      end
  end.

Definition find_path_ucs (g : game) (start goal : cell)
  : option PathFinder.found :=
  ucs_loop (PathFinder.budget (width g) (height g)) g goal
    [(0, start, [start])] [] 0.

(** *** DFS: the local [directions] is shuffled in place at every
    expansion. *)

Definition dfs_expand (g : game) (x y : Z) (path : list cell)
  (directions : list (Z * Z)) (visited : list cell)
  (stack : list (cell * list cell)) : list (cell * list cell) :=
  fold_left
    (fun (stack : list (cell * list cell)) (d : Z * Z) =>
       let '(dx, dy) := d in
       let nx := x + dx in
       let ny := y + dy in
       if is_safe_cell g nx ny && negb (mem (nx, ny) visited)
       then ((nx, ny), path ++ [(nx, ny)]) :: stack
       else stack)
    directions stack.

Fixpoint dfs_loop (fuel : nat) (g : game) (goal : cell)
  (stack : list (cell * list cell)) (visited : list cell)
  (directions : list (Z * Z)) (nodes_explored : Z) (r : rng)
  : option (PathFinder.found * rng) :=
  match fuel with
  | O => None
  | S fuel' =>
      match stack with
      | [] => Some ((None, nodes_explored), r)
      | ((x, y), path) :: stack' =>
          let nodes_explored := nodes_explored + 1 in
          if mem (x, y) visited
          then dfs_loop fuel' g goal stack' visited directions nodes_explored r
          else
            let visited := (x, y) :: visited in
            if cell_eqb (x, y) goal then Some ((Some path, nodes_explored), r)
            else
              let (directions', r') := shuffle directions r in
              dfs_loop fuel' g goal
                (dfs_expand g x y path directions' visited stack')
                visited directions' nodes_explored r'
      end
  end.

Definition find_path_dfs (g : game) (start goal : cell) (r : rng)
  : option (PathFinder.found * rng) :=
  dfs_loop (PathFinder.budget (width g) (height g)) g goal
    [(start, [start])] [] directions 0 r.

(** *** DLS and IDS: [levels] is [remaining_depth + 1]; each recursive call
    receives a copy of [visited].  As in [PathFinder], these are the
    searches as long as the interpreter's recursion limit is not reached;
    [find_path] passes the limits 50 and 100. *)

Definition dls_neighbours (g : game)
  (recurse : Z -> Z -> list cell -> PathFinder.found)
  (x y : Z) (path visited : list cell)
  : list (Z * Z) -> Z -> PathFinder.found :=
  fix each (ds : list (Z * Z)) (nodes_explored : Z) : PathFinder.found :=
    match ds with
    | [] => (None, nodes_explored)
    | (dx, dy) :: ds' =>
        let nx := x + dx in
        let ny := y + dy in
        if is_safe_cell g nx ny && negb (mem (nx, ny) visited)
        then
          let '(result, explored) := recurse nx ny (path ++ [(nx, ny)]) in
          let nodes_explored := nodes_explored + explored in
          match result with
          | Some p => (Some p, nodes_explored)
          | None => each ds' nodes_explored
          end
        else each ds' nodes_explored
    end.

Fixpoint dls_levels (levels : nat) (g : game) (x y : Z) (goal : cell)
  (path : list cell) (visited : list cell) : PathFinder.found :=
  match levels with
  | O => (None, 0)
  | S levels' =>
      if cell_eqb (x, y) goal then (Some path, 1)
      else
        let visited := (x, y) :: visited in
        dls_neighbours g
          (fun nx ny new_path => dls_levels levels' g nx ny goal new_path visited)
          x y path visited directions 1
  end.

Definition dls_recursive (g : game) (goal : cell) (x y : Z) (path : list cell)
  (visited : list cell) (remaining_depth : Z) : PathFinder.found :=
  dls_levels (Z.to_nat (remaining_depth + 1)) g x y goal path visited.

Definition find_path_dls (g : game) (start goal : cell) (depth_limit : Z)
  : PathFinder.found :=
  dls_recursive g goal (fst start) (snd start) [start] [] depth_limit.

(** [for depth in range(max_depth)], with [count] iterations left. *)
Fixpoint ids_loop (count : nat) (g : game) (depth : Z) (start goal : cell)
  (total_nodes_explored : Z) : PathFinder.found :=
  match count with
  | O => (None, total_nodes_explored)
  | S count' =>
      let '(result, nodes_explored) := find_path_dls g start goal depth in
      let total_nodes_explored := total_nodes_explored + nodes_explored in
      match result with
      | Some p => (Some p, total_nodes_explored)
      | None => ids_loop count' g (depth + 1) start goal total_nodes_explored
      end
  end.

Definition find_path_ids (g : game) (start goal : cell) (max_depth : Z)
  : PathFinder.found :=
  ids_loop (Z.to_nat max_depth) g 0 start goal 0.

(** *** Bidirectional *)

Definition bidi_expand (g : game) (x y : Z) (path : list cell)
  (visited : list (cell * list cell)) (queue : list (cell * list cell))
  : list (cell * list cell) * list (cell * list cell) :=
  fold_left
    (fun (st : list (cell * list cell) * list (cell * list cell)) (d : Z * Z) =>
       let '(visited, queue) := st in
       let '(dx, dy) := d in
       let nx := x + dx in
       let ny := y + dy in
       if is_safe_cell g nx ny && negb (mem (nx, ny) (map fst visited))
       then let new_path := path ++ [(nx, ny)] in
            (((nx, ny), new_path) :: visited, queue ++ [((nx, ny), new_path)])
       else (visited, queue))
    directions (visited, queue).

Definition bidi_step (g : game) (forward : bool)
  (x y : Z) (path : list cell) (queue' : list (cell * list cell))
  (mine other : list (cell * list cell))
  : list cell + (list (cell * list cell) * list (cell * list cell)) :=
  match PathFinder.lookup (x, y) other with
  | Some other_path =>
      inl (if forward then path ++ PathFinder.rev_but_last other_path
           else other_path ++ PathFinder.rev_but_last path)
  | None => inr (bidi_expand g x y path mine queue')
  end.

Fixpoint bidi_loop (fuel : nat) (g : game)
  (forward_queue : list (cell * list cell))
  (forward_visited : list (cell * list cell))
  (backward_queue : list (cell * list cell))
  (backward_visited : list (cell * list cell))
  (nodes_explored : Z) : option PathFinder.found :=
  match fuel with
  | O => None
  | S fuel' =>
      match forward_queue, backward_queue with
      | [], [] => Some (None, nodes_explored)
      | _, _ =>
          (* forward search step *)
          let fwd :=
            match forward_queue with
            | [] => inr (forward_visited, forward_queue, nodes_explored)
            | ((x, y), path) :: queue' =>
                match bidi_step g true x y path queue'
                        forward_visited backward_visited with
                | inl full_path => inl (full_path, nodes_explored + 1)
                | inr (v, q) => inr (v, q, nodes_explored + 1)
                end
            end in
          match fwd with
          | inl (full_path, n) => Some (Some full_path, n)
          | inr (forward_visited, forward_queue, nodes_explored) =>
              (* backward search step *)
              match backward_queue with
              | [] =>
                  bidi_loop fuel' g forward_queue forward_visited
                    backward_queue backward_visited nodes_explored
              | ((x, y), path) :: queue' =>
                  match bidi_step g false x y path queue'
                          backward_visited forward_visited with
                  | inl full_path => Some (Some full_path, nodes_explored + 1)
                  | inr (v, q) =>
                      bidi_loop fuel' g forward_queue forward_visited
                        q v (nodes_explored + 1)
                  end
              end
          end
      end
  end.

Definition find_path_bidirectional (g : game) (start goal : cell)
  : option PathFinder.found :=
  if cell_eqb start goal then Some (Some [start], 1)
  else bidi_loop (PathFinder.budget (width g) (height g)) g
         [(start, [start])] [(start, [start])]
         [(goal, [goal])] [(goal, [goal])] 0.

(** [find_path]: [search_time], a wall-clock difference, is left out. *)
Definition find_path (g : game) (r : rng) (start goal : cell)
  (algorithm : string) : option (PathFinder.found * rng) :=
  let pure (o : option PathFinder.found) :=
    match o with Some f => Some (f, r) | None => None end in
  if String.eqb algorithm "BFS" then pure (find_path_bfs g start goal)
  else if String.eqb algorithm "UCS" then pure (find_path_ucs g start goal)
  else if String.eqb algorithm "DFS" then find_path_dfs g start goal r
  else if String.eqb algorithm "DLS" then
    pure (Some (find_path_dls g start goal 50))
  else if String.eqb algorithm "IDS" then
    pure (Some (find_path_ids g start goal 100))
  else if String.eqb algorithm "Bidirectional" then
    pure (find_path_bidirectional g start goal)
  else pure (find_path_bfs g start goal).

End HardMazeSolver.

(** ** path_finding.py: DLS and IDS under the recursion limit

    [_dls_recursive] is a Python recursion, one interpreter frame per call:
    a call that would nest deeper than [sys.getrecursionlimit()] allows
    raises RecursionError, which nothing in [_dls], [_ids] or [find_path]
    catches.  [frames] is the number of nested calls of [_dls_recursive]
    that the interpreter still allows when the search starts (the limit,
    1000 unless it was changed, less the frames of the callers). *)

Module PathFinderLimit.

Section Searches.

Variable dirs : list (Z * Z).
Variable maze : grid.
Variables width height : Z.

(** The [for dx, dy in GameConfig.DIRECTIONS] loop of [_dls_recursive],
    with the recursive call as [recurse]. *)
Definition dls_neighbours
  (recurse : Z -> Z -> list cell -> result PathFinder.found)
  (x y : Z) (path visited : list cell)
  : list (Z * Z) -> Z -> result PathFinder.found :=
  fix each (ds : list (Z * Z)) (nodes_explored : Z)
    : result PathFinder.found :=
    match ds with
    | [] => Ret (None, nodes_explored)
    | (dx, dy) :: ds' =>
        let nx := x + dx in
        let ny := y + dy in
        if PathFinder.open_cell maze width height (nx, ny)
           && negb (mem (nx, ny) visited)
        then
          '(result, explored) <- recurse nx ny (path ++ [(nx, ny)]) ;;
          let nodes_explored := nodes_explored + explored in
          match result with
          | Some p => Ret (Some p, nodes_explored)
          | None => each ds' nodes_explored
          end
        else each ds' nodes_explored
    end.

(** One call of [_dls_recursive] with [frames] calls still allowed;
    [levels] is [remaining_depth + 1]. *)
Fixpoint dls_frames (frames levels : nat) (x y : Z) (goal : cell)
  (path : list cell) (visited : list cell) {struct frames}
  : result PathFinder.found :=
  match frames with
  | O => Raise RecursionError
  | S frames' =>
      match levels with
      | O => Ret (None, 0)
      | S levels' =>
          if cell_eqb (x, y) goal then Ret (Some path, 1)
          else
            let visited := (x, y) :: visited in
            dls_neighbours
              (fun nx ny new_path =>
                 dls_frames frames' levels' nx ny goal new_path visited)
              x y path visited dirs 1
      end
  end.

Definition _dls_recursive (frames : nat) (x y : Z) (goal : cell)
  (path : list cell) (visited : list cell) (remaining_depth : Z)
  : result PathFinder.found :=
  dls_frames frames (Z.to_nat (remaining_depth + 1)) x y goal path visited.

Definition _dls (frames : nat) (start goal : cell) (depth_limit : Z)
  : result PathFinder.found :=
  _dls_recursive frames (fst start) (snd start) goal [start] [] depth_limit.

(** [for depth in range(max_depth)], with [count] iterations left. *)
Fixpoint ids_loop (frames : nat) (count : nat) (depth : Z) (start goal : cell)
  (total_nodes_explored : Z) : result PathFinder.found :=
  match count with
  | O => Ret (None, total_nodes_explored)
  | S count' =>
      '(result, nodes_explored) <- _dls frames start goal depth ;;
      let total_nodes_explored := total_nodes_explored + nodes_explored in
      match result with
      | Some p => Ret (Some p, total_nodes_explored)
      | None =>
          ids_loop frames count' (depth + 1) start goal total_nodes_explored
      end
  end.

Definition _ids (frames : nat) (start goal : cell) (max_depth : Z)
  : result PathFinder.found :=
  ids_loop frames (Z.to_nat max_depth) 0 start goal 0.

End Searches.

End PathFinderLimit.

(** * Vocabulary of the specification *)

(** A Path cell of a grid: a cell inside it that holds 0. *)
Definition path_cell (maze : grid) (c : cell) : Prop :=
  0 <= fst c /\ 0 <= snd c /\ maze_get maze (fst c) (snd c) = Some 0.

(** 4-directional adjacency. *)
Definition adjacent (a b : cell) : Prop :=
  Z.abs (fst a - fst b) + Z.abs (snd a - snd b) = 1.

(** Reachability from [s] by 4-directional steps restricted to Path cells. *)
Inductive reachable (maze : grid) (s : cell) : cell -> Prop :=
| reach_start : path_cell maze s -> reachable maze s s
| reach_next c d :
    reachable maze s c -> adjacent c d -> path_cell maze d ->
    reachable maze s d.

(** A room cell: odd coordinates, strictly inside the border. *)
Definition room (width height : Z) (c : cell) : Prop :=
  0 < fst c < width - 1 /\ 0 < snd c < height - 1
  /\ fst c mod 2 = 1 /\ snd c mod 2 = 1.

(** A step to one of the four neighbours. *)
Definition unit_step (d : Z * Z) : Prop := Z.abs (fst d) + Z.abs (snd d) = 1.

(** The list only ever holds the four unit steps, in some order. *)
Definition compass (dirs : list (Z * Z)) : Prop :=
  Permutation GameConfig.DIRECTIONS dirs.

(** The spawn cell has an in-bounds Path cell next to it. *)
Definition has_open_neighbour (maze : grid) (width height : Z) (p : cell) : Prop :=
  exists d, In d GameConfig.DIRECTIONS
    /\ PathFinder.open_cell maze width height (fst p + fst d, snd p + snd d) = true.

(** A route of the searches from [start]: it begins at [start], every
    further cell is one unit step from the cell before it and is open (in
    bounds, holding 0).  [route maze width height start p c]: [p] is such a
    route and ends at [c].  The first cell is not tested. *)
Inductive route (maze : grid) (width height : Z) (start : cell)
  : list cell -> cell -> Prop :=
| route_start : route maze width height start [start] start
| route_step p c n :
    route maze width height start p c ->
    unit_step (fst n - fst c, snd n - snd c) ->
    PathFinder.open_cell maze width height n = true ->
    route maze width height start (p ++ [n]) n.

(** A shortest route from [start] to [goal] has [cells] cells. *)
Definition shortest (maze : grid) (width height : Z) (start goal : cell)
  (cells : nat) : Prop :=
  (exists p, route maze width height start p goal /\ length p = cells)
  /\ (forall p, route maze width height start p goal -> (cells <= length p)%nat).

(** The grid is a [width] by [height] rectangle. *)
Definition rectangular (maze : grid) (width height : Z) : bool :=
  (Z.of_nat (length maze) =? height)
  && forallb (fun row : list Z => Z.of_nat (length row) =? width) maze.

(** Every row is as long as the first. *)
Definition well_formed (maze : grid) : bool :=
  rectangular maze (maze_width maze) (Z.of_nat (length maze)).

(** ** Measures of the search loops *)

(** The cells inside the bounds. *)
Definition zone (width height : Z) : list cell :=
  flat_map (fun y => map (fun x => (x, y)) (py_range 0 width))
    (py_range 0 height).

(** How many cells of [universe] are not in [visited]. *)
Definition unseen (universe visited : list cell) : nat :=
  length (filter (fun c => negb (mem c visited)) universe).

(** ** Invariant of the frontiers *)

(** Every frontier entry pairs a cell with a route from [start] to it. *)
Definition all_routes (maze : grid) (width height : Z) (start : cell)
  (queue : list (cell * list cell)) : Prop :=
  forall c p, In (c, p) queue -> route maze width height start p c.

(** ** Routes read from the front *)

(** [hops maze width height c rest]: from [c], the cells of [rest] are
    taken one unit step at a time, each onto an open cell. *)
Fixpoint hops (maze : grid) (width height : Z) (c : cell) (rest : list cell)
  : Prop :=
  match rest with
  | [] => True
  | n :: rest' =>
      unit_step (fst n - fst c, snd n - snd c)
      /\ PathFinder.open_cell maze width height n = true
      /\ hops maze width height n rest'
  end.

(** The node counts of the depth-limited searches at depths [depth],
    [depth + 1], ... ([count] of them), summed. *)
Fixpoint dls_nodes (dirs : list (Z * Z)) (maze : grid) (width height : Z)
  (start goal : cell) (count : nat) (depth : Z) : Z :=
  match count with
  | O => 0
  | S count' =>
      snd (PathFinder._dls dirs maze width height start goal depth)
      + dls_nodes dirs maze width height start goal count' (depth + 1)
  end.

(** ** The solvability constraint *)

(** [k] is one of [keys] and no key is closer to [pos] in Manhattan
    distance. *)
Definition is_nearest (pos : cell) (keys : list cell) (k : cell) : Prop :=
  In k keys
  /\ forall k', In k' keys ->
       HardMazeGame.manhattan k pos <= HardMazeGame.manhattan k' pos.

(** [order] lists [keys] nearest first: each key is a nearest one of those
    that remain, seen from the key before it (from [pos] for the first). *)
Inductive nearest_first : cell -> list cell -> list cell -> Prop :=
| nearest_first_done pos : nearest_first pos [] []
| nearest_first_next pos keys k order :
    is_nearest pos keys k ->
    nearest_first k (remove_first k keys) order ->
    nearest_first pos keys (k :: order).

(** [b] can be reached from [a] with the cells of [blocked] impassable:
    the breadth-first test says so, and there is a route from [a] to [b]
    none of whose cells after the first is blocked. *)
Definition is_reachable (g : HardMazeGame.game) (blocked : list cell)
  (a b : cell) : Prop :=
  HardMazeGame.bfs_avoid_enemy g blocked a b = Some true
  /\ exists p,
       route (HardMazeGame.maze g) (HardMazeGame.width g)
         (HardMazeGame.height g) a p b
       /\ forall c, In c (tl p) -> ~ In c blocked.

(** Every consecutive leg of [a], [stops] is reachable. *)
Fixpoint legs (reach : cell -> cell -> Prop) (a : cell) (stops : list cell)
  : Prop :=
  match stops with
  | [] => True
  | b :: stops' => reach a b /\ legs reach b stops'
  end.

(** The chain start, keys nearest first, exit is reachable leg by leg with
    exactly the enemy patrol cells blocked. *)
Definition solvable (g : HardMazeGame.game) : Prop :=
  exists order,
    nearest_first (1, 1) (HardMazeGame.keys g) order
    /\ legs (is_reachable g (HardMazeGame.enemy_path g)) (1, 1)
         (order ++ [HardMazeGame.end_pos g]).

(** Every frontier entry of [bfs_avoid_enemy] pairs a cell with a route to
    it that enters no blocked cell. *)
Definition all_clear_routes (g : HardMazeGame.game) (blocked : list cell)
  (start : cell) (queue : list (cell * list cell)) : Prop :=
  forall c p, In (c, p) queue ->
    route (HardMazeGame.maze g) (HardMazeGame.width g) (HardMazeGame.height g)
      start p c
    /\ forall x, In x (tl p) -> ~ In x blocked.

(** ** Invariants of the heap and the stack *)

(** Every heap item carries a route from [start] to its cell. *)
Definition heap_routes (maze : grid) (width height : Z) (start : cell)
  (heap : list PathFinder.item) : Prop :=
  forall cost c p, In (cost, c, p) heap -> route maze width height start p c.

(** ** Invariants of a breadth-first side *)

(** The cells one step from [c] that are open and not among [keys], in the
    order of [dirs]: what one expansion adds to the frontier. *)
Definition fresh_neighbours (dirs : list (Z * Z)) (maze : grid)
  (width height : Z) (c : cell) (keys : list cell) : list cell :=
  filter (fun n => PathFinder.open_cell maze width height n && negb (mem n keys))
    (map (fun d : Z * Z => (fst c + fst d, snd c + snd d)) dirs).

(** The frontier entry of a cell reached from the end of [path]. *)
Definition entry (path : list cell) (n : cell) : cell * list cell :=
  (n, path ++ [n]).

(** A cell that was reached and has left the queue. *)
Definition closed (queue visited : list (cell * list cell)) (c : cell) : Prop :=
  In c (map fst visited) /\ ~ In c (map fst queue).

(** A path of a frontier entry is no longer than any route to its cell. *)
Definition least (maze : grid) (width height : Z) (root : cell)
  (c : cell) (p : list cell) : Prop :=
  route maze width height root p c
  /\ forall q, route maze width height root q c -> (length p <= length q)%nat.

(** The state of one breadth-first search from [root]: [queue] is the FIFO
    frontier, [visited] maps every reached cell to the path that reached it. *)
Record side (dirs : list (Z * Z)) (maze : grid) (width height : Z)
  (root : cell) (queue visited : list (cell * list cell)) : Prop := {
  side_queue : forall e, In e queue -> In e visited;
  side_least : forall c p, In (c, p) visited -> least maze width height root c p;
  side_nodup : NoDup (map fst queue);
  side_sorted :
    StronglySorted
      (fun a b : cell * list cell => (length (snd a) <= length (snd b))%nat)
      queue;
  side_band :
    forall a b, In a queue -> In b queue ->
      (length (snd b) <= length (snd a) + 1)%nat;
  side_closure :
    forall u d, closed queue visited u -> In d dirs ->
      PathFinder.open_cell maze width height (fst u + fst d, snd u + snd d) = true ->
      In (fst u + fst d, snd u + snd d) (map fst visited);
  side_root : In root (map fst visited);
  side_root_queued :
    In root (map fst queue) -> queue = [(root, [root])];
  side_layers :
    forall u pu w pw, In (u, pu) visited ->
      route maze width height root pw w ->
      (length pw + 1 < length pu)%nat ->
      closed queue visited w
}.

(** What keeps the two searches of [_bidirectional] from passing each other
    unnoticed: no expanded cell of one side is next to an expanded cell of the
    other, and neither side has expanded the other's root. *)
Record apart (start goal : cell)
  (forward_queue forward_visited backward_queue backward_visited
     : list (cell * list cell)) : Prop := {
  apart_first :
    In start (map fst forward_queue) ->
    forall n, ~ closed backward_queue backward_visited n;
  apart_step :
    forall c n,
      closed forward_queue forward_visited c ->
      closed backward_queue backward_visited n ->
      ~ unit_step (fst n - fst c, snd n - snd c);
  apart_goal : ~ closed forward_queue forward_visited goal;
  apart_start : ~ closed backward_queue backward_visited start
}.

(** The state of [_ucs]: [heap] holds the frontier items by cost, [visited]
    the expanded cells.  Every open neighbour of an expanded cell is expanded
    or waits in the heap at a cost one above the cheapest way to that cell. *)
Record ucs_state (dirs : list (Z * Z)) (maze : grid) (width height : Z)
  (start : cell) (heap : list PathFinder.item) (visited : list cell) : Prop := {
  ucs_routes :
    forall cost c p, In (cost, c, p) heap ->
      route maze width height start p c /\ cost + 1 = Z.of_nat (length p);
  ucs_sorted :
    StronglySorted
      (fun a b : PathFinder.item => fst (fst a) <= fst (fst b)) heap;
  ucs_closure :
    forall u d, In u visited -> In d dirs ->
      PathFinder.open_cell maze width height (fst u + fst d, snd u + snd d) = true ->
      In (fst u + fst d, snd u + snd d) visited
      \/ exists cost p,
           In (cost, (fst u + fst d, snd u + snd d), p) heap
           /\ forall q, route maze width height start q u ->
                        cost <= Z.of_nat (length q);
  ucs_root : In start visited \/ heap = [(0, start, [start])]
}.

(** ** Invariant of the depth-first stack *)

(** The cells [_dfs] has expanded are closed under open neighbours, up to
    the cells waiting on the stack; the goal is not among them. *)
Definition dfs_closed (maze : grid) (width height : Z) (start goal : cell)
  (stack : list (cell * list cell)) (visited : list cell) : Prop :=
  (forall u w, In u visited ->
     unit_step (fst w - fst u, snd w - snd u) ->
     PathFinder.open_cell maze width height w = true ->
     In w visited \/ In w (map fst stack))
  /\ (In start visited \/ In start (map fst stack))
  /\ ~ In goal visited.

(** ** Invariant of the solvability test's frontier *)

(** The cells [bfs_avoid_enemy] has seen: a seen cell waits in the queue
    or has all its open unblocked neighbours seen; the goal, once seen,
    waits in the queue. *)
Definition avoid_closed (g : HardMazeGame.game) (blocked : list cell)
  (start goal : cell) (queue : list (cell * list cell)) (visited : list cell)
  : Prop :=
  (forall e, In e queue -> In (fst e) visited)
  /\ (forall u, In u visited ->
        In u (map fst queue)
        \/ forall w, unit_step (fst w - fst u, snd w - snd u) ->
             PathFinder.open_cell (HardMazeGame.maze g) (HardMazeGame.width g)
               (HardMazeGame.height g) w = true ->
             ~ In w blocked -> In w visited)
  /\ In start visited
  /\ (In goal visited -> In goal (map fst queue)).

(** ** The frame of a generated maze *)

(** A [width] by [height] rectangle of 0s and 1s whose 0s all lie strictly
    inside the border. *)
Definition framed (width height : Z) (maze : grid) : Prop :=
  rectangular maze width height = true
  /\ forall x y, 0 <= x < width -> 0 <= y < height ->
       maze_get maze x y = Some 1
       \/ (maze_get maze x y = Some 0
           /\ 0 < x < width - 1 /\ 0 < y < height - 1).

(** Strictly inside the border. *)
Definition inside (width height : Z) (c : cell) : Prop :=
  0 < fst c < width - 1 /\ 0 < snd c < height - 1.

(** ** The patrol as the game loop drives it *)

(** [n] consecutive calls of [Enemy.move]. *)
Fixpoint enemy_moves (n : nat) (e : Enemy.enemy) : result Enemy.enemy :=
  match n with
  | O => Ret e
  | S n' => e' <- Enemy.move e ;; enemy_moves n' e'
  end.

(** ** Placed features *)

(** A cell that may receive a feature: a Path cell strictly inside the
    border that is neither the start nor the exit. *)
Definition free_cell (g : HardMazeGame.game) (c : cell) : Prop :=
  inside (HardMazeGame.width g) (HardMazeGame.height g) c
  /\ maze_get (HardMazeGame.maze g) (fst c) (snd c) = Some 0
  /\ c <> (1, 1) /\ c <> HardMazeGame.end_pos g.

(** Both ends of every teleporter pair. *)
Definition endpoints (teleporters : list (cell * cell)) : list cell :=
  flat_map (fun t : cell * cell => [fst t; snd t]) teleporters.

(** What [setup_difficulty_features] leaves of the board it was given, and
    where it puts the features: keys, traps and teleporter ends on pairwise
    distinct free cells, as many keys as required or as there is room for,
    and the enemy on a free cell that holds neither a key nor a trap. *)
Definition well_placed (g g' : HardMazeGame.game) : Prop :=
  HardMazeGame.width g' = HardMazeGame.width g
  /\ HardMazeGame.height g' = HardMazeGame.height g
  /\ HardMazeGame.maze g' = HardMazeGame.maze g
  /\ HardMazeGame.end_pos g' = HardMazeGame.end_pos g
  /\ HardMazeGame.required_keys g' = HardMazeGame.required_keys g
  /\ NoDup (HardMazeGame.keys g' ++ HardMazeGame.traps g'
             ++ endpoints (HardMazeGame.teleporters g'))
  /\ (forall c, In c (HardMazeGame.keys g' ++ HardMazeGame.traps g'
                        ++ endpoints (HardMazeGame.teleporters g')) ->
         free_cell g c)
  /\ length (HardMazeGame.keys g')
     = Nat.min (Z.to_nat (HardMazeGame.required_keys g))
         (length (HardMazeGame.empty_spaces g))
  /\ (forall q, HardMazeGame.enemy_pos g' = Some q ->
         free_cell g q /\ ~ In q (HardMazeGame.keys g')
         /\ ~ In q (HardMazeGame.traps g')).

(** ** Scanning a grid *)

(** The cells of the rows [ys] and columns [xs], row by row. *)
Definition cells_of (ys xs : list Z) : list cell :=
  flat_map (fun y => map (fun x => (x, y)) xs) ys.

(** Row order: [a] is read before [b] by [for y ...: for x ...:]. *)
Definition row_order (a b : cell) : Prop :=
  snd a < snd b \/ (snd a = snd b /\ fst a < fst b).

(** A cell [setup_objects] may use: an in-bounds Path cell that is neither
    the start nor the exit. *)
Definition open_spot (o : GameObjects.objects) (maze : grid) (c : cell) : Prop :=
  0 <= fst c < GameObjects.width o /\ 0 <= snd c < GameObjects.height o
  /\ maze_get maze (fst c) (snd c) = Some 0
  /\ c <> GameObjects.start_pos o /\ c <> GameObjects.end_pos o.

(** ** The cells main3.py's solvers may enter *)

(** The maze as [is_safe_cell] sees it: a Path cell where the cell is safe
    (inside the bounds, not a Wall, not a trap), a Wall elsewhere. *)
Definition safe_grid (g : HardMazeGame.game) : grid :=
  map (fun y =>
         map (fun x => if HardMazeSolver.is_safe_cell g x y then 0 else 1)
             (py_range 0 (HardMazeGame.width g)))
      (py_range 0 (HardMazeGame.height g)).

(** One move of a solution of [find_path_bfs]: a unit step onto a safe
    cell, or the jump from one end of a teleporter to the other. *)
Definition hop (g : HardMazeGame.game) (a b : cell) : Prop :=
  (unit_step (fst b - fst a, snd b - snd a)
   /\ HardMazeSolver.is_safe_cell g (fst b) (snd b) = true)
  \/ HardMazeSolver.get_teleport g (fst a) (snd a) = Some b.

(** [trail g start p c]: [p] leads from [start] to [c] by such moves. *)
Inductive trail (g : HardMazeGame.game) (start : cell)
  : list cell -> cell -> Prop :=
| trail_start : trail g start [start] start
| trail_hop p c n :
    trail g start p c -> hop g c n -> trail g start (p ++ [n]) n.

(** Every entry of the queue of [find_path_bfs] pairs a cell with a trail
    from [start] to it. *)
Definition all_trails (g : HardMazeGame.game) (start : cell)
  (queue : list (cell * list cell)) : Prop :=
  forall c p, In (c, p) queue -> trail g start p c.

(** ** The enemy as the game loops drive it *)

(** [n] consecutive calls of main3.py's [move_enemy]. *)
Fixpoint game_moves (n : nat) (g : HardMazeGame.game)
  : result HardMazeGame.game :=
  match n with
  | O => Ret g
  | S n' => g' <- HardMazeGame.move_enemy g ;; game_moves n' g'
  end.

(** An in-bounds Path cell. *)
Definition on_path_cell (maze : grid) (width height : Z) (c : cell) : Prop :=
  0 <= fst c < width /\ 0 <= snd c < height
  /\ maze_get maze (fst c) (snd c) = Some 0.

(** The node counts of the depth-limited searches at depths [depth],
    [depth + 1], ... ([count] of them) under the recursion limit, summed. *)
Fixpoint limit_nodes (frames : nat) (dirs : list (Z * Z)) (maze : grid)
  (width height : Z) (start goal : cell) (count : nat) (depth : Z) : Z :=
  match count with
  | O => 0
  | S count' =>
      match PathFinderLimit._dls dirs maze width height frames start goal depth
      with
      | Ret f => snd f
      | _ => 0
      end
      + limit_nodes frames dirs maze width height start goal count' (depth + 1)
  end.

(** ** Invariants of the generator *)

(** Every cell of the [width] by [height] rectangle can be read. *)
Definition covers (width height : Z) (maze : grid) : Prop :=
  forall x y, 0 <= x < width -> 0 <= y < height ->
    exists v, maze_get maze x y = Some v.

Definition binary (maze : grid) : Prop :=
  forall x y v, 0 <= x -> 0 <= y -> maze_get maze x y = Some v ->
    v = 0 \/ v = 1.

Definition connected (maze : grid) : Prop :=
  forall c, path_cell maze c -> reachable maze (1, 1) c.

Definition sound (width height : Z) (maze : grid) : Prop :=
  covers width height maze /\ binary maze /\ connected maze
  /\ path_cell maze (1, 1).

(** [maze'] is [maze] with some walls carved: a cell either keeps its value
    or goes from 1 to 0. *)
Definition carved_from (maze maze' : grid) : Prop :=
  forall x y, 0 <= x -> 0 <= y ->
    maze_get maze' x y = maze_get maze x y
    \/ (maze_get maze x y = Some 1 /\ maze_get maze' x y = Some 0).

(** A room whose four lattice neighbours inside the border are all carved. *)
Definition finished (width height : Z) (maze : grid) (c : cell) : Prop :=
  forall d, In d MazeGenerator.directions ->
    room width height (fst c + fst d, snd c + snd d) ->
    path_cell maze (fst c + fst d, snd c + snd d).

(** The invariant of the [while stack] loop. *)
Definition carving (width height : Z) (maze : grid) (stack : list cell) : Prop :=
  sound width height maze
  /\ (forall c, In c stack -> room width height c /\ path_cell maze c)
  /\ (forall c, room width height c -> path_cell maze c ->
        In c stack \/ finished width height maze c).

(** The number of cells of a row, of a grid, that hold 1: what the carving
    loop of the generator uses up. *)
Definition row_walls (row : list Z) : nat :=
  length (filter (fun v => v =? 1) row).

Definition walls (maze : grid) : nat := list_sum (map row_walls maze).

(** Linear arithmetic with division and remainder by constants. *)
Ltac zlia := Z.to_euclidean_division_equations; lia.

(** * Example inputs *)

(** A generator whose first draws are [l]; every later draw is 0. *)
Definition tape (l : list nat) : Random.rng := fun n => nth n l O.

(** The 5 by 5 maze whose three corridors make one winding passage from
    (1,1) to (3,3); [generate_maze] carves it when it turns right, down and
    left and no loop is added. *)
Definition snake : grid :=
  [[1; 1; 1; 1; 1];
   [1; 0; 0; 0; 1];
   [1; 1; 1; 0; 1];
   [1; 0; 0; 0; 1];
   [1; 1; 1; 1; 1]].


(** A corridor of two Path cells ending on a wall. *)
Definition corridor : grid := [[0; 0; 1]].

(** A freshly constructed 5 by 5 game on [snake], before any feature is
    placed. *)
Definition snake_game : HardMazeGame.game :=
  HardMazeGame.mk_game 5 5 snake (3, 3) 3 [] [] [] None [] 0.

(** A 7 by 7 maze with one passage around a block of walls. *)
Definition ring : grid :=
  [[1; 1; 1; 1; 1; 1; 1];
   [1; 0; 0; 0; 0; 0; 1];
   [1; 0; 1; 1; 1; 0; 1];
   [1; 0; 1; 1; 1; 0; 1];
   [1; 0; 1; 1; 1; 0; 1];
   [1; 0; 0; 0; 0; 0; 1];
   [1; 1; 1; 1; 1; 1; 1]].

Definition ring_game : HardMazeGame.game :=
  HardMazeGame.mk_game 7 7 ring (5, 5) 3 [] [] [] None [] 0.

(** The game and the generator [setup_difficulty_features] leaves when it
    is run on [ring_game] with a generator that draws zeros. *)
Definition ring_placed : HardMazeGame.game :=
  match HardMazeGame.setup_difficulty_features ring_game (tape []) with
  | Some (_, g, _) => g
  | None => ring_game
  end.

Definition ring_tape : Random.rng :=
  match HardMazeGame.setup_difficulty_features ring_game (tape []) with
  | Some (_, _, r) => r
  | None => tape []
  end.

(** [ring] with a trap in the upper passage and a teleporter across the
    block. *)
Definition ring_trapped : HardMazeGame.game :=
  HardMazeGame.mk_game 7 7 ring (5, 5) 3 [(3, 1)] [] [((1, 3), (5, 3))]
    None [] 0.

(** The objects, the directions and the generator that [setup_objects]
    leaves on a fresh 7 by 7 game on [ring]. *)
Definition ring_objects : GameObjects.objects :=
  match GameObjects.setup_objects (GameObjects.init 7 7) GameConfig.DIRECTIONS
          ring (tape [3; 1; 2]%nat) with
  | Ret (o, _, _) => o
  | _ => GameObjects.init 7 7
  end.

Definition ring_directions : list (Z * Z) :=
  match GameObjects.setup_objects (GameObjects.init 7 7) GameConfig.DIRECTIONS
          ring (tape [3; 1; 2]%nat) with
  | Ret (_, dirs, _) => dirs
  | _ => GameConfig.DIRECTIONS
  end.

Definition ring_objects_tape : Random.rng :=
  match GameObjects.setup_objects (GameObjects.init 7 7) GameConfig.DIRECTIONS
          ring (tape [3; 1; 2]%nat) with
  | Ret (_, _, r) => r
  | _ => tape []
  end.

(** One row of 1200 Path cells. *)
Definition long_corridor : grid := [repeat 0 1200].

(** * Properties *)

(** ** Cells, membership and indexing *)

Lemma cell_eqb_eq (a b : cell) : cell_eqb a b = true <-> a = b.
Proof.
  destruct a as [ax ay], b as [bx by_]. unfold cell_eqb. simpl.
  rewrite andb_true_iff, !Z.eqb_eq. split.
  - intros [-> ->]. reflexivity.
  - intros H. inversion H. auto.
Qed.

Lemma cell_eqb_refl (a : cell) : cell_eqb a a = true.
Proof. apply cell_eqb_eq. reflexivity. Qed.

Lemma cell_eqb_neq (a b : cell) : cell_eqb a b = false <-> a <> b.
Proof.
  split.
  - intros H E. apply cell_eqb_eq in E. congruence.
  - intros H. destruct (cell_eqb a b) eqn:E; auto.
    apply cell_eqb_eq in E. contradiction.
Qed.

Lemma cell_eqb_sym (a b : cell) : cell_eqb a b = cell_eqb b a.
Proof.
  destruct (cell_eqb b a) eqn:E.
  - apply cell_eqb_eq in E. subst. apply cell_eqb_refl.
  - apply cell_eqb_neq in E. apply cell_eqb_neq. congruence.
Qed.

Lemma cell_eq_dec (a b : cell) : {a = b} + {a <> b}.
Proof.
  destruct (cell_eqb a b) eqn:E.
  - left. apply cell_eqb_eq. exact E.
  - right. apply cell_eqb_neq. exact E.
Qed.

Lemma mem_In (c : cell) (s : list cell) : mem c s = true <-> In c s.
Proof.
  induction s as [|d s IH]; simpl.
  - split; [discriminate | tauto].
  - rewrite orb_true_iff, IH, cell_eqb_eq. split; intros [H|H]; auto.
Qed.

Lemma mem_not_In (c : cell) (s : list cell) : mem c s = false <-> ~ In c s.
Proof.
  rewrite <- mem_In. destruct (mem c s); split; intros; congruence.
Qed.

Lemma surjective_cell (c : cell) : (fst c, snd c) = c.
Proof. destruct c. reflexivity. Qed.

(** ** path_finding.py: dispatch and the trivial query *)

Module PathFinderFacts.

Import Random PathFinder.

Lemma named_algorithm (a : string) :
  In a GameConfig.ALGORITHMS <->
  (a =? "BFS")%string = true \/ (a =? "UCS")%string = true \/
  (a =? "DFS")%string = true \/ (a =? "DLS")%string = true \/
  (a =? "IDS")%string = true \/ (a =? "Bidirectional")%string = true.
Proof.
  unfold GameConfig.ALGORITHMS. simpl. rewrite !String.eqb_eq.
  intuition (subst; auto).
Qed.

Lemma find_path_default dirs r start goal algorithm maze :
  ~ In algorithm GameConfig.ALGORITHMS ->
  find_path dirs r start goal algorithm maze =
  find_path dirs r start goal "BFS" maze.
Proof.
  intros H. rewrite named_algorithm in H.
  unfold find_path.
  destruct (algorithm =? "BFS")%string eqn:E1; [exfalso; tauto|].
  destruct (algorithm =? "UCS")%string eqn:E2; [exfalso; tauto|].
  destruct (algorithm =? "DFS")%string eqn:E3; [exfalso; tauto|].
  destruct (algorithm =? "DLS")%string eqn:E4; [exfalso; tauto|].
  destruct (algorithm =? "IDS")%string eqn:E5; [exfalso; tauto|].
  destruct (algorithm =? "Bidirectional")%string eqn:E6; [exfalso; tauto|].
  reflexivity.
Qed.

Section TrivialQuery.

Variable dirs : list (Z * Z).
Variable maze : grid.
Variables width height : Z.
Variable start : cell.

Lemma bfs_same_cell : _bfs dirs maze width height start start = Some (Some [start], 1).
Proof.
  unfold _bfs, budget. destruct start as [x y]. simpl.
  rewrite cell_eqb_refl. reflexivity.
Qed.

Lemma ucs_same_cell : _ucs dirs maze width height start start = Some (Some [start], 1).
Proof.
  unfold _ucs, budget. destruct start as [x y]. simpl.
  rewrite cell_eqb_refl. reflexivity.
Qed.

Lemma dfs_same_cell r :
  _dfs dirs maze width height start start r = Some ((Some [start], 1), r).
Proof.
  unfold _dfs, budget. destruct start as [x y]. simpl.
  rewrite cell_eqb_refl. reflexivity.
Qed.

Lemma dls_same_cell depth_limit :
  0 <= depth_limit ->
  _dls dirs maze width height start start depth_limit = (Some [start], 1).
Proof.
  intros H. unfold _dls, _dls_recursive.
  destruct (Z.to_nat (depth_limit + 1)) eqn:E; [lia|].
  simpl. rewrite surjective_cell, cell_eqb_refl. reflexivity.
Qed.

Lemma ids_same_cell max_depth :
  0 < max_depth ->
  _ids dirs maze width height start start max_depth = (Some [start], 1).
Proof.
  intros H. unfold _ids.
  destruct (Z.to_nat max_depth) eqn:E; [lia|].
  simpl. rewrite dls_same_cell by lia. reflexivity.
Qed.

Lemma bidirectional_same_cell :
  _bidirectional dirs maze width height start start = Some (Some [start], 1).
Proof. unfold _bidirectional. rewrite cell_eqb_refl. reflexivity. Qed.

End TrivialQuery.

End PathFinderFacts.

(** C8.  Whatever the strategy name, the directions order, the maze and the
    generator, a query whose goal is its start returns the one-cell path
    [[start]] with exactly one node explored, and leaves the generator
    untouched: Bidirectional by its first test, the other strategies at the
    first cell they take from their frontier. *)
Theorem start_is_goal_single_cell :
  forall dirs r start algorithm maze,
    PathFinder.find_path dirs r start start algorithm maze
    = Some ((Some [start], 1), r).
Proof.
  intros. unfold PathFinder.find_path.
  rewrite PathFinderFacts.bfs_same_cell, PathFinderFacts.ucs_same_cell,
    PathFinderFacts.dfs_same_cell, PathFinderFacts.bidirectional_same_cell,
    PathFinderFacts.dls_same_cell, PathFinderFacts.ids_same_cell by lia.
  repeat match goal with |- context [String.eqb ?a ?b] =>
    destruct (String.eqb a b) end; reflexivity.
Qed.

(** ** Rows and grids *)

Section UpdateNth.

Context {A : Type}.

Lemma length_update_nth (l : list A) n v : length (update_nth l n v) = length l.
Proof.
  revert n. induction l as [|a l IH]; intros [|n]; simpl; auto.
Qed.

Lemma nth_error_update_nth_eq (l : list A) n v :
  (n < length l)%nat -> nth_error (update_nth l n v) n = Some v.
Proof.
  revert n. induction l as [|a l IH]; intros [|n] H; simpl in *; try lia; auto.
  apply IH. lia.
Qed.

Lemma nth_error_update_nth_neq (l : list A) n m v :
  n <> m -> nth_error (update_nth l n v) m = nth_error l m.
Proof.
  revert n m. induction l as [|a l IH]; intros [|n] [|m] H; simpl; auto.
  congruence.
Qed.

Lemma py_index_nonneg (l : list A) i :
  0 <= i -> py_index l i = nth_error l (Z.to_nat i).
Proof.
  intros H. unfold py_index. destruct (0 <=? i) eqn:E; auto.
  apply Z.leb_gt in E. lia.
Qed.

Lemma py_setitem_nonneg (l : list A) i v l' :
  0 <= i -> py_setitem l i v = Some l' ->
  (Z.to_nat i < length l)%nat /\ l' = update_nth l (Z.to_nat i) v.
Proof.
  intros H. unfold py_setitem.
  destruct ((0 <=? i) && (i <? Z.of_nat (length l))) eqn:E.
  - apply andb_true_iff in E. destruct E as [_ E]. apply Z.ltb_lt in E.
    intros [= <-]. split; [lia | reflexivity].
  - destruct (i <? 0) eqn:E'; [apply Z.ltb_lt in E'; lia|]. discriminate.
Qed.

Lemma py_setitem_in (l : list A) i v :
  0 <= i -> (Z.to_nat i < length l)%nat ->
  py_setitem l i v = Some (update_nth l (Z.to_nat i) v).
Proof.
  intros H1 H2. unfold py_setitem.
  replace ((0 <=? i) && (i <? Z.of_nat (length l))) with true; auto.
  symmetry. apply andb_true_iff. split; [apply Z.leb_le | apply Z.ltb_lt]; lia.
Qed.

End UpdateNth.

Section GridFacts.

Implicit Types (maze : grid) (x y v : Z).

Lemma maze_get_nonneg maze x y :
  0 <= x -> 0 <= y ->
  maze_get maze x y =
  match nth_error maze (Z.to_nat y) with
  | Some row => nth_error row (Z.to_nat x)
  | None => None
  end.
Proof.
  intros Hx Hy. unfold maze_get. rewrite py_index_nonneg by assumption.
  destruct (nth_error maze (Z.to_nat y)); auto. apply py_index_nonneg. assumption.
Qed.

Lemma maze_set_some maze x y u v :
  0 <= x -> 0 <= y -> maze_get maze x y = Some u ->
  exists maze', maze_set maze x y v = Some maze'.
Proof.
  intros Hx Hy H. rewrite maze_get_nonneg in H by assumption.
  unfold maze_set. rewrite py_index_nonneg by assumption.
  destruct (nth_error maze (Z.to_nat y)) as [row|] eqn:Er; [|discriminate].
  assert (Hlx : (Z.to_nat x < length row)%nat).
  { apply nth_error_Some. congruence. }
  assert (Hly : (Z.to_nat y < length maze)%nat).
  { apply nth_error_Some. congruence. }
  rewrite (py_setitem_in row), (py_setitem_in maze) by assumption. eauto.
Qed.

Lemma maze_set_inv maze x y v maze' :
  0 <= x -> 0 <= y -> maze_set maze x y v = Some maze' ->
  exists row,
    nth_error maze (Z.to_nat y) = Some row /\
    (Z.to_nat x < length row)%nat /\
    maze' = update_nth maze (Z.to_nat y) (update_nth row (Z.to_nat x) v).
Proof.
  intros Hx Hy. unfold maze_set. rewrite py_index_nonneg by assumption.
  destruct (nth_error maze (Z.to_nat y)) as [row|] eqn:Er; [|discriminate].
  destruct (py_setitem row x v) as [row'|] eqn:E1; [|discriminate].
  apply py_setitem_nonneg in E1; [|assumption]. destruct E1 as [Hl ->].
  intros E2. apply py_setitem_nonneg in E2; [|assumption]. destruct E2 as [_ ->].
  exists row. auto.
Qed.

Lemma maze_get_set maze x y v maze' x' y' :
  0 <= x -> 0 <= y -> 0 <= x' -> 0 <= y' ->
  maze_set maze x y v = Some maze' ->
  maze_get maze' x' y' =
  if (x' =? x) && (y' =? y) then Some v else maze_get maze x' y'.
Proof.
  intros Hx Hy Hx' Hy' H.
  destruct (maze_set_inv _ _ _ _ _ Hx Hy H) as (row & Er & Hl & ->).
  rewrite !maze_get_nonneg by assumption.
  destruct (y' =? y) eqn:Ey.
  - apply Z.eqb_eq in Ey. subst y'.
    rewrite nth_error_update_nth_eq by (apply nth_error_Some; congruence).
    rewrite Er. destruct (x' =? x) eqn:Ex; simpl.
    + apply Z.eqb_eq in Ex. subst x'. apply nth_error_update_nth_eq. assumption.
    + apply Z.eqb_neq in Ex. apply nth_error_update_nth_neq. lia.
  - apply Z.eqb_neq in Ey. rewrite andb_false_r.
    rewrite nth_error_update_nth_neq by lia. reflexivity.
Qed.

Lemma row_walls_clear row n u :
  nth_error row n = Some u ->
  (if u =? 1 then S (row_walls (update_nth row n 0)) else row_walls (update_nth row n 0))
  = row_walls row.
Proof.
  unfold row_walls.
  revert n. induction row as [|a row IH]; intros [|n] H;
    cbn [nth_error update_nth filter length] in *; try discriminate.
  - injection H as H. subst a. change (0 =? 1) with false. cbv iota.
    destruct (u =? 1); reflexivity.
  - specialize (IH _ H).
    destruct (a =? 1); cbn [length]; destruct (u =? 1); lia.
Qed.

Lemma walls_update maze n row row' :
  nth_error maze n = Some row ->
  (walls (update_nth maze n row') + row_walls row = walls maze + row_walls row')%nat.
Proof.
  revert n. induction maze as [|a maze IH]; intros [|n] H; simpl in *; try discriminate.
  - injection H as ->. unfold walls. simpl. lia.
  - specialize (IH _ H). unfold walls in *. simpl. lia.
Qed.

Lemma walls_clear maze x y u maze' :
  0 <= x -> 0 <= y ->
  maze_get maze x y = Some u -> maze_set maze x y 0 = Some maze' ->
  (if u =? 1 then S (walls maze') else walls maze') = walls maze.
Proof.
  intros Hx Hy Hg Hs.
  destruct (maze_set_inv _ _ _ _ _ Hx Hy Hs) as (row & Er & Hl & ->).
  rewrite maze_get_nonneg, Er in Hg by assumption.
  pose proof (row_walls_clear _ _ _ Hg) as H1.
  pose proof (walls_update _ _ _ (update_nth row (Z.to_nat x) 0) Er) as H2.
  destruct (u =? 1); lia.
Qed.

Lemma nth_error_repeat {A : Type} (a : A) n k :
  (k < n)%nat -> nth_error (repeat a n) k = Some a.
Proof.
  revert k. induction n as [|n IH]; intros [|k] H; simpl; try lia; auto.
  apply IH. lia.
Qed.

Lemma all_walls_get width height x y :
  0 <= x < width -> 0 <= y < height ->
  maze_get (MazeGenerator.all_walls width height) x y = Some 1.
Proof.
  intros Hx Hy. rewrite maze_get_nonneg by lia.
  unfold MazeGenerator.all_walls.
  rewrite nth_error_repeat by lia. apply nth_error_repeat. lia.
Qed.

Lemma all_walls_get_inv width height x y v :
  0 <= x -> 0 <= y ->
  maze_get (MazeGenerator.all_walls width height) x y = Some v ->
  v = 1 /\ x < width /\ y < height.
Proof.
  intros Hx Hy. rewrite maze_get_nonneg by lia.
  unfold MazeGenerator.all_walls.
  destruct (nth_error (repeat (repeat 1 (Z.to_nat width)) (Z.to_nat height))
              (Z.to_nat y)) as [row|] eqn:E; [|discriminate].
  assert (Hy' : (Z.to_nat y < Z.to_nat height)%nat).
  { rewrite <- (repeat_length (repeat 1 (Z.to_nat width)) (Z.to_nat height)).
    apply nth_error_Some. congruence. }
  rewrite nth_error_repeat in E by assumption. injection E as <-.
  intros H.
  assert (Hx' : (Z.to_nat x < Z.to_nat width)%nat).
  { rewrite <- (repeat_length 1 (Z.to_nat width)).
    apply nth_error_Some. congruence. }
  rewrite nth_error_repeat in H by assumption. injection H as <-.
  repeat split; lia.
Qed.

Lemma walls_all_walls width height :
  walls (MazeGenerator.all_walls width height)
  = (Z.to_nat width * Z.to_nat height)%nat.
Proof.
  unfold MazeGenerator.all_walls, walls.
  assert (Hr : row_walls (repeat 1 (Z.to_nat width)) = Z.to_nat width).
  { unfold row_walls. induction (Z.to_nat width) as [|n IH];
      cbn [repeat filter length]; auto.
    change (1 =? 1) with true. cbn [length]. congruence. }
  induction (Z.to_nat height) as [|n IH]; simpl; [lia|].
  rewrite IH, Hr. lia.
Qed.

Lemma rectangular_covers maze width height :
  rectangular maze width height = true -> covers width height maze.
Proof.
  unfold rectangular. rewrite andb_true_iff, Z.eqb_eq, forallb_forall.
  intros [Hh Hrows] x y Hx Hy. rewrite maze_get_nonneg by lia.
  destruct (nth_error maze (Z.to_nat y)) as [row|] eqn:Er.
  - specialize (Hrows row (nth_error_In _ _ Er)). apply Z.eqb_eq in Hrows.
    destruct (nth_error row (Z.to_nat x)) as [v|] eqn:Ev; [eauto|].
    apply nth_error_None in Ev. lia.
  - apply nth_error_None in Er. lia.
Qed.

End GridFacts.

(** ** maze_generator.py *)

Module MazeGeneratorFacts.

Import Random MazeGenerator.

Lemma path_cell_clear maze w maze' :
  0 <= fst w -> 0 <= snd w ->
  maze_set maze (fst w) (snd w) 0 = Some maze' ->
  forall c, path_cell maze' c <-> c = w \/ path_cell maze c.
Proof.
  intros Hx Hy Hs [cx cy]. destruct w as [wx wy]. unfold path_cell. simpl in *.
  split.
  - intros (H1 & H2 & H3).
    rewrite (maze_get_set _ _ _ _ _ _ _ Hx Hy H1 H2 Hs) in H3.
    destruct ((cx =? wx) && (cy =? wy)) eqn:E.
    + apply andb_true_iff in E. rewrite !Z.eqb_eq in E. left. f_equal; tauto.
    + right. auto.
  - intros [H | (H1 & H2 & H3)].
    + injection H as -> ->. repeat split; try assumption.
      rewrite (maze_get_set _ _ _ _ _ _ _ Hx Hy Hx Hy Hs).
      rewrite !Z.eqb_refl. reflexivity.
    + repeat split; try assumption.
      rewrite (maze_get_set _ _ _ _ _ _ _ Hx Hy H1 H2 Hs).
      destruct ((cx =? wx) && (cy =? wy)); auto.
Qed.

Lemma reachable_mono maze maze' s c :
  (forall d, path_cell maze d -> path_cell maze' d) ->
  reachable maze s c -> reachable maze' s c.
Proof.
  intros Hm H. induction H as [Hs | c d _ IH Ha Hd].
  - apply reach_start. auto.
  - eapply reach_next; eauto.
Qed.

Lemma carved_from_refl maze : carved_from maze maze.
Proof. intros x y _ _. left. reflexivity. Qed.

Lemma carved_from_trans m1 m2 m3 :
  carved_from m1 m2 -> carved_from m2 m3 -> carved_from m1 m3.
Proof.
  intros H12 H23 x y Hx Hy.
  destruct (H12 x y Hx Hy) as [E1 | [E1 E1']], (H23 x y Hx Hy) as [E2 | [E2 E2']].
  - left. congruence.
  - right. split; congruence.
  - right. split; congruence.
  - congruence.
Qed.

Lemma carved_from_path maze maze' c :
  carved_from maze maze' -> path_cell maze c -> path_cell maze' c.
Proof.
  intros H (H1 & H2 & H3). repeat split; try assumption.
  destruct (H _ _ H1 H2) as [E | [E _]]; congruence.
Qed.

Lemma carved_from_covers width height maze maze' :
  carved_from maze maze' -> covers width height maze -> covers width height maze'.
Proof.
  intros H Hc x y Hx Hy. destruct (Hc x y Hx Hy) as [v Hv].
  destruct (H x y) as [E | [_ E]]; try lia; rewrite E; eauto.
Qed.

Lemma carved_from_binary maze maze' :
  carved_from maze maze' -> binary maze -> binary maze'.
Proof.
  intros H Hb x y v Hx Hy Hv.
  destruct (H x y Hx Hy) as [E | [_ E]].
  - rewrite E in Hv. eauto.
  - left. congruence.
Qed.

Lemma carved_from_reachable maze maze' s c :
  carved_from maze maze' -> reachable maze s c -> reachable maze' s c.
Proof.
  intros H. apply reachable_mono. intros d. apply carved_from_path. exact H.
Qed.

(** Writing 0 over a cell that holds 0 or 1. *)
Lemma clear_carved_from maze x y v maze' :
  0 <= x -> 0 <= y -> maze_get maze x y = Some v -> v = 0 \/ v = 1 ->
  maze_set maze x y 0 = Some maze' -> carved_from maze maze'.
Proof.
  intros Hx Hy Hg Hv Hs x' y' Hx' Hy'.
  rewrite (maze_get_set _ _ _ _ _ _ _ Hx Hy Hx' Hy' Hs).
  destruct ((x' =? x) && (y' =? y)) eqn:E; [|left; reflexivity].
  apply andb_true_iff in E. rewrite !Z.eqb_eq in E. destruct E as [-> ->].
  destruct Hv as [-> | ->]; [left | right]; auto.
Qed.

(** Carving a cell that is already a Path cell, or that touches one, keeps
    the maze sound. *)
Lemma sound_clear width height maze w maze' :
  sound width height maze ->
  0 <= fst w -> 0 <= snd w ->
  maze_set maze (fst w) (snd w) 0 = Some maze' ->
  path_cell maze w \/ (exists p, path_cell maze p /\ adjacent p w) ->
  sound width height maze'.
Proof.
  intros (Hc & Hb & Hr & Hs) Hx Hy Hset Hw.
  pose proof (path_cell_clear _ _ _ Hx Hy Hset) as Hp.
  assert (Hm : forall d, path_cell maze d -> path_cell maze' d).
  { intros d Hd. apply Hp. auto. }
  assert (Hcv : covers width height maze').
  { intros x y Hx' Hy'.
    rewrite (maze_get_set _ _ _ _ _ _ _ Hx Hy (proj1 Hx') (proj1 Hy') Hset).
    destruct ((x =? fst w) && (y =? snd w)); eauto. }
  assert (Hbv : binary maze').
  { intros x y v Hx' Hy'.
    rewrite (maze_get_set _ _ _ _ _ _ _ Hx Hy Hx' Hy' Hset).
    destruct ((x =? fst w) && (y =? snd w)); eauto.
    intros [= <-]. auto. }
  split; [exact Hcv|]. split; [exact Hbv|]. split; [|apply Hm; exact Hs].
  intros c Hc'. apply Hp in Hc'. destruct Hc' as [-> | Hc'].
  - destruct Hw as [Hw | (p & Hpp & Ha)].
    + apply (reachable_mono maze); auto.
    + apply reach_next with (c := p); auto.
      * apply (reachable_mono maze); auto.
      * apply Hp. auto.
  - apply (reachable_mono maze); auto.
Qed.

Lemma choice_In {A : Type} (d : A) (l : list A) r :
  l <> [] -> In (fst (choice d l r)) l.
Proof.
  intros H. unfold choice, randbelow. simpl. apply nth_In.
  apply Nat.mod_upper_bound. destruct l; simpl; congruence.
Qed.

Lemma inner_wall_true width height maze x y :
  inner_wall width height maze x y = true <->
  0 < x < width - 1 /\ 0 < y < height - 1 /\ maze_get maze x y = Some 1.
Proof.
  unfold inner_wall, maze_is.
  rewrite !andb_true_iff, !Z.ltb_lt.
  destruct (maze_get maze x y) as [v|].
  - rewrite Z.eqb_eq. split.
    + intros ((((H1 & H2) & H3) & H4) & ->). auto.
    + intros ((H1 & H2) & (H3 & H4) & [= ->]). auto.
  - split; [intros [_ H]; discriminate | intros (_ & _ & H); discriminate].
Qed.

Lemma neighbors_In width height maze cx cy nx ny wx wy :
  In (nx, ny, wx, wy) (neighbors width height maze cx cy) ->
  exists d, In d directions
    /\ inner_wall width height maze nx ny = true
    /\ nx = cx + fst d /\ ny = cy + snd d
    /\ wx = fst d / 2 /\ wy = snd d / 2.
Proof.
  unfold neighbors. rewrite in_map_iff.
  intros (d & [= <- <- <- <-] & Hd). apply filter_In in Hd.
  exists d. tauto.
Qed.

Lemma neighbors_nil width height maze cx cy d :
  neighbors width height maze cx cy = [] -> In d directions ->
  inner_wall width height maze (cx + fst d) (cy + snd d) = false.
Proof.
  unfold neighbors. intros H Hd.
  destruct (inner_wall width height maze (cx + fst d) (cy + snd d)) eqn:E; auto.
  assert (Hin : In d (filter (fun d : Z * Z =>
            inner_wall width height maze (cx + fst d) (cy + snd d)) directions)).
  { apply filter_In. auto. }
  apply (in_map (fun d : Z * Z => (cx + fst d, cy + snd d, fst d / 2, snd d / 2)))
    in Hin.
  rewrite H in Hin. destruct Hin.
Qed.

Lemma directions_cases d :
  In d directions ->
  (fst d = 0 /\ snd d = 2) \/ (fst d = 2 /\ snd d = 0) \/
  (fst d = 0 /\ snd d = -2) \/ (fst d = -2 /\ snd d = 0).
Proof.
  unfold directions. simpl. intros [<-|[<-|[<-|[<-|[]]]]]; simpl; auto.
Qed.

Lemma carve_pop width height maze c below :
  carving width height maze (c :: below) ->
  neighbors width height maze (fst c) (snd c) = [] ->
  carving width height maze below.
Proof.
  intros (Hs & Hst & Hd) Hn. split; [exact Hs|]. split.
  - intros c' Hc'. apply Hst. right. exact Hc'.
  - intros c' Hr Hp. destruct (Hd c' Hr Hp) as [[<- | Hin] | Hf]; auto.
    right. intros d Hdir Hroom.
    pose proof (neighbors_nil _ _ _ _ _ d Hn Hdir) as Hw.
    destruct Hs as (Hc & Hb & _).
    destruct Hroom as (Hx & Hy & _). simpl in Hx, Hy.
    destruct (Hc (fst c + fst d) (snd c + snd d)) as [v Hv]; try lia.
    destruct (Hb (fst c + fst d) (snd c + snd d) v ltac:(lia) ltac:(lia) Hv) as [-> | ->].
    + repeat split; simpl; try lia. exact Hv.
    + assert (inner_wall width height maze (fst c + fst d) (snd c + snd d) = true).
      { apply inner_wall_true. auto. }
      congruence.
Qed.

Lemma carve_push width height maze cx cy below nx ny wx wy :
  carving width height maze ((cx, cy) :: below) ->
  In (nx, ny, wx, wy) (neighbors width height maze cx cy) ->
  exists m1 m2,
    maze_set maze (cx + wx) (cy + wy) 0 = Some m1
    /\ maze_set m1 nx ny 0 = Some m2
    /\ carving width height m2 ((nx, ny) :: (cx, cy) :: below)
    /\ carved_from maze m2
    /\ (walls m2 < walls maze)%nat.
Proof.
  intros (Hs & Hst & Hd) Hn.
  destruct (neighbors_In _ _ _ _ _ _ _ _ _ Hn) as (d & Hdir & Hw & -> & -> & -> & ->).
  apply directions_cases in Hdir.
  apply inner_wall_true in Hw. destruct Hw as (Hnx & Hny & Hnv).
  destruct (Hst (cx, cy) (or_introl eq_refl)) as [(Hcx & Hcy & Hox & Hoy) Hcp].
  simpl in Hcx, Hcy, Hox, Hoy.
  pose proof Hs as (Hc & Hb & _).
  set (w := (cx + fst d / 2, cy + snd d / 2)).
  assert (Hwx : 0 <= fst w < width) by (unfold w; simpl; zlia).
  assert (Hwy : 0 <= snd w < height) by (unfold w; simpl; zlia).
  destruct (Hc _ _ Hwx Hwy) as [v Hv].
  destruct (maze_set_some maze (fst w) (snd w) v 0) as [m1 Hm1]; try lia; auto.
  pose proof (Hb _ _ _ (proj1 Hwx) (proj1 Hwy) Hv) as Hv01.
  assert (Hs1 : sound width height m1).
  { apply (sound_clear _ _ maze w); try lia; auto.
    right. exists (cx, cy). split; auto. unfold adjacent, w. simpl. zlia. }
  assert (Hc1 : carved_from maze m1).
  { apply (clear_carved_from maze (fst w) (snd w) v); try lia; auto. }
  assert (Hn1 : maze_get m1 (cx + fst d) (cy + snd d) = Some 1).
  { rewrite (maze_get_set maze (fst w) (snd w) 0 m1); try lia; auto.
    replace ((cx + fst d =? fst w) && (cy + snd d =? snd w)) with false; auto.
    symmetry. apply andb_false_iff. rewrite !Z.eqb_neq. unfold w. simpl. zlia. }
  destruct (maze_set_some m1 (cx + fst d) (cy + snd d) 1 0) as [m2 Hm2];
    try lia; auto.
  assert (Hpw : path_cell m1 w).
  { apply (path_cell_clear maze w); try lia; auto. }
  set (n := (cx + fst d, cy + snd d)).
  assert (Hs2 : sound width height m2).
  { apply (sound_clear _ _ m1 n); unfold n; simpl; try lia; auto.
    right. exists w. split; auto. unfold adjacent, w. simpl. zlia. }
  assert (Hc2 : carved_from m1 m2).
  { apply (clear_carved_from m1 (cx + fst d) (cy + snd d) 1); try lia; auto. }
  assert (Hc12 : carved_from maze m2) by (eapply carved_from_trans; eauto).
  assert (Hpn : forall c, path_cell m2 c <-> c = n \/ path_cell m1 c).
  { apply (path_cell_clear m1 n); unfold n; simpl; try lia; auto. }
  assert (Hpw' : forall c, path_cell m1 c <-> c = w \/ path_cell maze c).
  { apply (path_cell_clear maze w); try lia; auto. }
  exists m1, m2. split; [exact Hm1|]. split; [exact Hm2|]. split; [|split; [exact Hc12|]].
  - split; [exact Hs2|]. split.
    + intros c [<- | Hin].
      * split; [|apply Hpn; auto].
        unfold room. simpl. repeat split; try lia; zlia.
      * destruct (Hst c Hin) as [Hr Hp]. split; auto.
        eapply carved_from_path; eauto.
    + intros c Hr Hp. apply Hpn in Hp. destruct Hp as [-> | Hp]; [left; left; auto|].
      apply Hpw' in Hp. destruct Hp as [-> | Hp].
      * exfalso. destruct Hr as (_ & _ & Hr1 & Hr2). unfold w in Hr1, Hr2.
        simpl in Hr1, Hr2. zlia.
      * destruct (Hd c Hr Hp) as [Hin | Hf]; [left; right; exact Hin|].
        right. intros d' Hd' Hr'. eapply carved_from_path; eauto.
  - pose proof (walls_clear maze (fst w) (snd w) v m1 ltac:(lia) ltac:(lia) Hv Hm1) as E1.
    pose proof (walls_clear m1 (cx + fst d) (cy + snd d) 1 m2 ltac:(lia) ltac:(lia) Hn1 Hm2) as E2.
    change (1 =? 1) with true in E2. cbv iota in E2.
    destruct (v =? 1); lia.
Qed.

Lemma carve_ok width height :
  forall fuel maze stack r,
    carving width height maze stack ->
    (2 * walls maze + length stack < fuel)%nat ->
    exists maze' r',
      carve fuel width height maze stack r = Ret (maze', r')
      /\ carving width height maze' []
      /\ carved_from maze maze'.
Proof.
  induction fuel as [|fuel IH]; intros maze stack r Hinv Hfuel; [lia|].
  destruct stack as [|[cx cy] below]; cbn [carve].
  - exists maze, r. split; [reflexivity|]. split; [exact Hinv | apply carved_from_refl].
  - destruct (neighbors width height maze cx cy) as [|n0 ns] eqn:En.
    + apply IH; [|simpl in Hfuel; lia].
      apply (carve_pop _ _ _ (cx, cy)); auto.
    + pose proof (choice_In n0 (n0 :: ns) r ltac:(discriminate)) as Hin.
      destruct (choice n0 (n0 :: ns) r) as [[[[nx ny] wx] wy] r'].
      cbn [fst] in Hin. rewrite <- En in Hin.
      destruct (carve_push _ _ _ _ _ _ _ _ _ _ Hinv Hin)
        as (m1 & m2 & E1 & E2 & Hinv' & Hc & Hw).
      rewrite E1. cbn [lift bind]. rewrite E2. cbn [lift bind].
      destruct (IH m2 ((nx, ny) :: (cx, cy) :: below) r' Hinv') as (m' & r'' & E & Hi & Hc').
      { simpl in *. lia. }
      exists m', r''. split; [exact E|]. split; [exact Hi|].
      eapply carved_from_trans; eauto.
Qed.

Lemma rooms_all_path width height maze :
  carving width height maze [] ->
  forall c, room width height c -> path_cell maze c.
Proof.
  intros ((_ & _ & _ & Hstart) & _ & Hd).
  assert (Hstep : forall c d, In d directions -> room width height c ->
            path_cell maze c ->
            room width height (fst c + fst d, snd c + snd d) ->
            path_cell maze (fst c + fst d, snd c + snd d)).
  { intros c d Hdir Hr Hp Hr'. destruct (Hd c Hr Hp) as [[] | Hf]. apply Hf; auto. }
  assert (Hcol : forall j : nat, room width height (1, 1 + 2 * Z.of_nat j) ->
            path_cell maze (1, 1 + 2 * Z.of_nat j)).
  { induction j as [|j IH]; intros Hr.
    - exact Hstart.
    - assert (Hr' : room width height (1, 1 + 2 * Z.of_nat j)).
      { destruct Hr as (H1 & H2 & H3 & H4). unfold room in *. cbn [fst snd] in *.
        repeat split; try lia; zlia. }
      pose proof (Hstep _ (0, 2) ltac:(simpl; auto) Hr' (IH Hr')) as Hs.
      cbn [fst snd] in Hs. replace (1 + 0) with 1 in Hs by lia.
      replace (1 + 2 * Z.of_nat j + 2) with (1 + 2 * Z.of_nat (S j)) in Hs by lia.
      exact (Hs Hr). }
  assert (Hall : forall i j : nat,
            room width height (1 + 2 * Z.of_nat i, 1 + 2 * Z.of_nat j) ->
            path_cell maze (1 + 2 * Z.of_nat i, 1 + 2 * Z.of_nat j)).
  { induction i as [|i IH]; intros j Hr.
    - apply Hcol. exact Hr.
    - assert (Hr' : room width height (1 + 2 * Z.of_nat i, 1 + 2 * Z.of_nat j)).
      { destruct Hr as (H1 & H2 & H3 & H4). unfold room in *. cbn [fst snd] in *.
        repeat split; try lia; zlia. }
      pose proof (Hstep _ (2, 0) ltac:(simpl; auto) Hr' (IH j Hr')) as Hs.
      cbn [fst snd] in Hs.
      replace (1 + 2 * Z.of_nat j + 0) with (1 + 2 * Z.of_nat j) in Hs by lia.
      replace (1 + 2 * Z.of_nat i + 2) with (1 + 2 * Z.of_nat (S i)) in Hs by lia.
      exact (Hs Hr). }
  intros [x y] Hr.
  pose proof Hr as (H1 & H2 & H3 & H4). cbn [fst snd] in H1, H2, H3, H4.
  replace x with (1 + 2 * Z.of_nat (Z.to_nat ((x - 1) / 2))) in * by zlia.
  replace y with (1 + 2 * Z.of_nat (Z.to_nat ((y - 1) / 2))) in * by zlia.
  apply Hall. exact Hr.
Qed.



Lemma break_wall_ok width height x y :
  forall ds maze r,
  exists maze' r',
    break_wall width height maze x y ds r = Ret (maze', r')
    /\ carved_from maze maze'
    /\ (sound width height maze -> path_cell maze (x, y) ->
        Forall unit_step ds -> sound width height maze').
Proof.
  induction ds as [|[dx dy] ds IH]; intros maze r; cbn [break_wall].
  - exists maze, r. split; [reflexivity|]. split; [apply carved_from_refl | auto].
  - destruct (inner_wall width height maze (x + dx) (y + dy)) eqn:Ew.
    + apply inner_wall_true in Ew. destruct Ew as (Hx & Hy & Hv).
      destruct (random_lt_03 r) as [hit r'].
      destruct hit.
      * destruct (maze_set_some maze (x + dx) (y + dy) 1 0) as [m' Hm'];
          try lia; auto.
        rewrite Hm'. cbn [lift bind]. exists m', r'.
        split; [reflexivity|]. split.
        -- apply (clear_carved_from maze (x + dx) (y + dy) 1); try lia; auto.
        -- intros Hs Hp Hu. inversion Hu as [|? ? Hd _]; subst.
           apply (sound_clear _ _ maze (x + dx, y + dy)); simpl; try lia; auto.
           right. exists (x, y). split; auto.
           unfold adjacent, unit_step in *. simpl in *. lia.
      * destruct (IH maze r') as (m' & r'' & E & Hc & Hs).
        exists m', r''. split; [exact E|]. split; [exact Hc|].
        intros H1 H2 H3. inversion H3; subst. auto.
    + destruct (IH maze r) as (m' & r'' & E & Hc & Hs).
      exists m', r''. split; [exact E|]. split; [exact Hc|].
      intros H1 H2 H3. inversion H3; subst. auto.
Qed.

Lemma randrange_odd_ok stop r :
  2 <= stop ->
  exists x r', randrange_odd stop r = Some (x, r')
    /\ 1 <= x < stop /\ x mod 2 = 1.
Proof.
  intros H. unfold randrange_odd.
  assert (Hn : 0 < (stop - 1 + 1) / 2) by zlia.
  destruct ((stop - 1 + 1) / 2 <=? 0) eqn:E; [apply Z.leb_le in E; lia|].
  unfold randbelow.
  set (i := Nat.modulo (r O) (Z.to_nat ((stop - 1 + 1) / 2))).
  assert (Hi : (i < Z.to_nat ((stop - 1 + 1) / 2))%nat).
  { apply Nat.mod_upper_bound. lia. }
  exists (1 + 2 * Z.of_nat i), (advance r). split; [reflexivity|].
  split; zlia.
Qed.

Lemma add_loops_ok dirs width height :
  3 <= width -> 3 <= height ->
  forall count maze r,
    covers width height maze ->
    exists maze' r',
      add_loops count dirs width height maze r = Ret (maze', r')
      /\ carved_from maze maze'
      /\ (sound width height maze -> Forall unit_step dirs ->
          sound width height maze').
Proof.
  intros Hw Hh. induction count as [|count IH]; intros maze r Hc; cbn [add_loops].
  - exists maze, r. split; [reflexivity|]. split; [apply carved_from_refl | auto].
  - destruct (randrange_odd_ok (width - 1) r ltac:(lia)) as (x & r1 & -> & Hx & _).
    cbn [lift bind].
    destruct (randrange_odd_ok (height - 1) r1 ltac:(lia)) as (y & r2 & -> & Hy & _).
    cbn [lift bind].
    destruct (Hc x y ltac:(lia) ltac:(lia)) as [v Hv]. rewrite Hv. cbn [lift bind].
    destruct (v =? 0) eqn:Ev.
    + apply Z.eqb_eq in Ev. subst v.
      destruct (break_wall_ok width height x y dirs maze r2)
        as (m1 & r3 & -> & Hc1 & Hs1).
      cbn [bind].
      destruct (IH m1 r3 (carved_from_covers _ _ _ _ Hc1 Hc))
        as (m2 & r4 & E & Hc2 & Hs2).
      exists m2, r4. split; [exact E|]. split.
      * eapply carved_from_trans; eauto.
      * intros Hs Hu. apply Hs2; auto. apply Hs1; auto.
        repeat split; simpl; try lia. exact Hv.
    + apply IH. exact Hc.
Qed.

Lemma compass_unit dirs : compass dirs -> Forall unit_step dirs.
Proof.
  intros H. apply Forall_forall. intros d Hd.
  apply (Permutation_in _ (Permutation_sym H)) in Hd.
  unfold GameConfig.DIRECTIONS in Hd. simpl in Hd.
  destruct Hd as [<-|[<-|[<-|[<-|[]]]]]; reflexivity.
Qed.

Lemma carving_initial width height :
  3 <= width -> 3 <= height ->
  exists m0,
    maze_set (all_walls width height) 1 1 0 = Some m0
    /\ carving width height m0 [(1, 1)]
    /\ (walls m0 < Z.to_nat width * Z.to_nat height)%nat.
Proof.
  intros Hw Hh.
  pose proof (all_walls_get width height 1 1 ltac:(lia) ltac:(lia)) as Hg.
  destruct (maze_set_some (all_walls width height) 1 1 1 0) as [m0 Hm0];
    try lia; auto.
  exists m0. split; [exact Hm0|].
  assert (Hp : forall c, path_cell m0 c <-> c = (1, 1)).
  { intros c. rewrite (path_cell_clear (all_walls width height) (1, 1));
      simpl; try lia; auto.
    split; auto. intros [H | (H1 & H2 & H3)]; auto.
    apply all_walls_get_inv in H3; try lia. }
  assert (Hc : carved_from (all_walls width height) m0).
  { apply (clear_carved_from _ 1 1 1); try lia; auto. }
  split; [split; [|split]|].
  - split; [|split; [|split]].
    + apply (carved_from_covers _ _ _ _ Hc).
      intros x y Hx Hy. exists 1. apply all_walls_get; auto.
    + apply (carved_from_binary _ _ Hc).
      intros x y v Hx Hy Hv. apply all_walls_get_inv in Hv; try lia.
    + intros c Hc'. pose proof Hc' as Hc''. apply Hp in Hc'. subst c.
      apply reach_start. exact Hc''.
    + apply Hp. reflexivity.
  - intros c [<- | []]. split; [|apply Hp; reflexivity].
    unfold room. simpl. repeat split; try lia; reflexivity.
  - intros c _ Hc'. apply Hp in Hc'. left. left. auto.
  - pose proof (walls_clear _ 1 1 1 m0 ltac:(lia) ltac:(lia) Hg Hm0) as E.
    change (1 =? 1) with true in E. cbv iota in E.
    rewrite walls_all_walls in E. lia.
Qed.

Lemma generate_maze_sound width height dirs r :
  width mod 2 = 1 -> height mod 2 = 1 -> 3 <= width -> 3 <= height ->
  compass dirs ->
  exists maze r',
    generate_maze dirs width height r = Ret (maze, r')
    /\ sound width height maze
    /\ (forall c, room width height c -> path_cell maze c).
Proof.
  intros Ow Oh Hw Hh Hdirs. unfold generate_maze.
  destruct (carving_initial width height Hw Hh) as (m0 & -> & Hinv0 & Hwalls).
  cbn [lift bind].
  destruct (carve_ok width height (carve_budget width height) m0 [(1, 1)] r Hinv0)
    as (m1 & r1 & -> & Hinv1 & _).
  { unfold carve_budget. simpl. lia. }
  cbn [bind].
  pose proof (rooms_all_path _ _ _ Hinv1) as Hrooms1.
  destruct Hinv1 as (Hs1 & _).
  destruct (add_loops_ok dirs width height Hw Hh (Z.to_nat (width / 2)) m1 r1
              (proj1 Hs1)) as (m2 & r2 & -> & Hc2 & Hs2).
  cbn [bind].
  specialize (Hs2 Hs1 (compass_unit _ Hdirs)).
  assert (Hrooms2 : forall c, room width height c -> path_cell m2 c).
  { intros c Hc. eapply carved_from_path; eauto. }
  pose proof Hs2 as (Hcov2 & _ & _ & Hst2).
  destruct Hst2 as (_ & _ & Hg2).
  destruct (maze_set_some m2 1 1 0 0) as [m3 Hm3]; try lia; auto.
  rewrite Hm3. cbn [lift bind].
  assert (Hs3 : sound width height m3).
  { apply (sound_clear _ _ m2 (1, 1)); simpl; try lia; auto.
    left. apply Hs2. }
  assert (Hrooms3 : forall c, room width height c -> path_cell m3 c).
  { intros c Hc. apply (path_cell_clear m2 (1, 1)); simpl; try lia; auto. }
  assert (Hend : room width height (width - 2, height - 2)).
  { unfold room. simpl. repeat split; try lia; zlia. }
  pose proof (Hrooms3 _ Hend) as (_ & _ & Hg3). simpl in Hg3.
  destruct (maze_set_some m3 (width - 2) (height - 2) 0 0) as [m4 Hm4];
    try lia; auto.
  rewrite Hm4. cbn [lift bind].
  exists m4, r2. split; [reflexivity|]. split.
  - apply (sound_clear _ _ m3 (width - 2, height - 2)); simpl; try lia; auto.
  - intros c Hc.
    apply (path_cell_clear m3 (width - 2, height - 2)); simpl; try lia; auto.
Qed.

End MazeGeneratorFacts.

(** C1.  For odd [width] and [height] of at least 5, whatever the generator
    draws and whatever order [GameConfig.DIRECTIONS] stands in,
    [generate_maze] returns a grid (no exception, the carving loop ends within
    its budget) in which every Path cell is reachable from (1,1) through Path
    cells, and every room cell (odd coordinates strictly inside the border) is
    a Path cell, hence reachable. *)
Theorem generated_maze_connected :
  forall width height dirs r,
    width mod 2 = 1 -> height mod 2 = 1 -> 5 <= width -> 5 <= height ->
    compass dirs ->
    exists maze r',
      MazeGenerator.generate_maze dirs width height r = Ret (maze, r')
      /\ (forall c, path_cell maze c -> reachable maze (1, 1) c)
      /\ (forall c, room width height c ->
            path_cell maze c /\ reachable maze (1, 1) c).
Proof.
  intros width height dirs r Ow Oh Hw Hh Hd.
  destruct (MazeGeneratorFacts.generate_maze_sound width height dirs r Ow Oh ltac:(lia) ltac:(lia) Hd)
    as (maze & r' & E & Hs & Hr).
  exists maze, r'. split; [exact E|].
  destruct Hs as (_ & _ & Hc & _). split; [exact Hc|].
  intros c Hroom. split; [apply Hr; exact Hroom|]. apply Hc. apply Hr. exact Hroom.
Qed.

Lemma generated_maze_connected_witness :
  exists maze r',
    MazeGenerator.generate_maze GameConfig.DIRECTIONS 5 5 (fun _ => 1%nat)
    = Ret (maze, r')
    /\ (forall c, path_cell maze c -> reachable maze (1, 1) c)
    /\ (forall c, room 5 5 c -> path_cell maze c /\ reachable maze (1, 1) c).
Proof.
  apply generated_maze_connected;
    [reflexivity | reflexivity | lia | lia | apply Permutation_refl].
Defined.

(** C6.  On a grid that covers the [width] by [height] rectangle the loop
    phase runs to its end and only carves: every cell keeps its value or goes
    from Wall (1) to Path (0), so a Path cell stays a Path cell and every cell
    reachable from (1,1) before the phase is reachable after it. *)
Theorem loop_injection_only_carves :
  forall count dirs width height maze r,
    3 <= width -> 3 <= height -> rectangular maze width height = true ->
    exists maze' r',
      MazeGenerator.add_loops count dirs width height maze r = Ret (maze', r')
      /\ carved_from maze maze'
      /\ (forall c, path_cell maze c -> path_cell maze' c)
      /\ (forall c, reachable maze (1, 1) c -> reachable maze' (1, 1) c).
Proof.
  intros count dirs width height maze r Hw Hh Hc.
  destruct (MazeGeneratorFacts.add_loops_ok dirs width height Hw Hh count maze r
              (rectangular_covers _ _ _ Hc))
    as (maze' & r' & E & Hcf & _).
  exists maze', r'. split; [exact E|]. split; [exact Hcf|]. split.
  - intros c. apply MazeGeneratorFacts.carved_from_path. exact Hcf.
  - intros c. apply MazeGeneratorFacts.carved_from_reachable. exact Hcf.
Qed.

Lemma loop_injection_only_carves_witness :
  (3 <= 5 /\ 3 <= 5 /\ rectangular snake 5 5 = true)
  /\ exists maze' r',
      MazeGenerator.add_loops 2 GameConfig.DIRECTIONS 5 5 snake (fun _ => 0%nat)
      = Ret (maze', r')
      /\ carved_from snake maze'
      /\ (forall c, path_cell snake c -> path_cell maze' c)
      /\ (forall c, reachable snake (1, 1) c -> reachable maze' (1, 1) c).
Proof.
  split; [repeat split; try lia; reflexivity|].
  apply loop_injection_only_carves; [lia | lia | reflexivity].
Defined.

Module RandomFacts.

Import Random.

Lemma update_head_perm {A : Type} (a b : A) :
  forall l j, nth_error l j = Some b ->
    Permutation (b :: update_nth l j a) (a :: l).
Proof.
  induction l as [|c l IH]; intros [|j] H; simpl in *; try discriminate.
  - injection H as ->. apply perm_swap.
  - apply perm_trans with (c :: b :: update_nth l j a); [apply perm_swap|].
    apply perm_trans with (c :: a :: l); [|apply perm_swap].
    apply perm_skip. apply IH. exact H.
Qed.

Lemma swap_perm {A : Type} : forall (l : list A) i j, Permutation (swap l i j) l.
Proof.
  unfold swap. induction l as [|a l IH]; intros i j.
  - destruct i; reflexivity.
  - destruct i as [|i], j as [|j]; simpl.
    + reflexivity.
    + destruct (nth_error l j) as [b|] eqn:E; [|reflexivity].
      apply update_head_perm. exact E.
    + destruct (nth_error l i) as [b|] eqn:E; [|reflexivity].
      apply update_head_perm. exact E.
    + specialize (IH i j).
      destruct (nth_error l i) as [b|]; [|reflexivity].
      destruct (nth_error l j) as [c|]; [|reflexivity].
      apply perm_skip. exact IH.
Qed.

Lemma shuffle_from_perm {A : Type} :
  forall i (x : list A) r, Permutation (fst (shuffle_from i x r)) x.
Proof.
  induction i as [|i IH]; intros x r; simpl.
  - reflexivity.
  - eapply perm_trans; [apply IH | apply swap_perm].
Qed.

Lemma shuffle_perm {A : Type} (x : list A) r :
  Permutation (fst (shuffle x r)) x.
Proof. apply shuffle_from_perm. Qed.

End RandomFacts.

Module EnemyFacts.

Import Random Enemy.

Lemma next_cell_some maze width height current visited ds n :
  next_cell maze width height current visited ds = Some n ->
  exists d, In d ds
    /\ n = (fst current + fst d, snd current + snd d)
    /\ PathFinder.open_cell maze width height n = true
    /\ mem n visited = false.
Proof.
  induction ds as [|[dx dy] ds IH]; cbn [next_cell]; [discriminate|].
  destruct (PathFinder.open_cell maze width height
              (fst current + dx, snd current + dy)) eqn:E1;
    destruct (mem (fst current + dx, snd current + dy) visited) eqn:E2;
    cbn [andb negb].
  - intros H. destruct (IH H) as (d & Hd & Hn). exists d. split; [right|]; auto.
  - intros H. injection H as H. subst n. exists (dx, dy).
    split; [left; reflexivity|]. auto.
  - intros H. destruct (IH H) as (d & Hd & Hn). exists d. split; [right|]; auto.
  - intros H. destruct (IH H) as (d & Hd & Hn). exists d. split; [right|]; auto.
Qed.

Lemma next_cell_none maze width height current visited ds :
  next_cell maze width height current visited ds = None ->
  forall d, In d ds ->
    PathFinder.open_cell maze width height
      (fst current + fst d, snd current + snd d) = true ->
    mem (fst current + fst d, snd current + snd d) visited = true.
Proof.
  induction ds as [|[dx dy] ds IH]; cbn [next_cell]; [intros _ d []|].
  destruct (PathFinder.open_cell maze width height
              (fst current + dx, snd current + dy)) eqn:E1;
    destruct (mem (fst current + dx, snd current + dy) visited) eqn:E2;
    cbn [andb negb]; try discriminate;
    intros H d [<- | Hd] Ho; cbn [fst snd] in *; try congruence;
    apply IH; auto.
Qed.

(** The greedy walk keeps the spawn at the head of the path, and leaves the
    directions a permutation of what they were. *)
Lemma walk_shape maze width height :
  forall count directions current path visited r,
    let '(walked, directions', _) :=
      walk count maze width height directions current path visited r in
    Permutation directions' directions /\ exists more, walked = path ++ more.
Proof.
  induction count as [|count IH]; intros directions current path visited r;
    cbn [walk].
  - split; [reflexivity | exists []; symmetry; apply app_nil_r].
  - pose proof (RandomFacts.shuffle_perm directions r) as Hp.
    destruct (shuffle directions r) as [ds r1]. cbn [fst] in Hp.
    destruct (next_cell maze width height current visited ds) as [n|].
    + specialize (IH ds n (path ++ [n]) (n :: visited) r1).
      destruct (walk count maze width height ds n (path ++ [n]) (n :: visited) r1)
        as [[walked ds'] r2].
      destruct IH as [IH1 [more IH2]]. split.
      * eapply perm_trans; eauto.
      * exists (n :: more). rewrite IH2, <- app_assoc. reflexivity.
    + split; [exact Hp | exists []; symmetry; apply app_nil_r].
Qed.

Lemma back_and_forth_length maze width height p dirs :
  compass dirs ->
  (has_open_neighbour maze width height p ->
   (2 <= length (back_and_forth maze width height p dirs))%nat)
  /\ (~ has_open_neighbour maze width height p ->
      back_and_forth maze width height p dirs = [p]).
Proof.
  intros Hc. unfold back_and_forth.
  destruct (next_cell maze width height p [] dirs) as [n|] eqn:E.
  - split; [simpl; lia|]. intros Hno. exfalso. apply Hno.
    destruct (next_cell_some _ _ _ _ _ _ _ E) as (d & Hd & -> & Ho & _).
    exists d. split; [|exact Ho].
    apply (Permutation_in _ (Permutation_sym Hc)). exact Hd.
  - split; [|reflexivity]. intros (d & Hd & Ho). exfalso.
    apply (Permutation_in _ Hc) in Hd.
    pose proof (next_cell_none _ _ _ _ _ _ E d Hd Ho) as Hm. discriminate.
Qed.

Lemma index_of_bounds c l i :
  index_of c l = Some i -> 0 <= i < Z.of_nat (length l).
Proof.
  revert i. induction l as [|d l IH]; intros i; simpl; [discriminate|].
  destruct (cell_eqb d c).
  - intros [= <-]. lia.
  - destruct (index_of c l) as [k|]; [|discriminate].
    intros [= <-]. specialize (IH k eq_refl). lia.
Qed.

Lemma move_total (e : enemy) : exists e', move e = Ret e'.
Proof.
  unfold move. destruct (pos e) as [p|]; [|eauto].
  destruct (match path e with [] => true | _ :: _ => false end
            || (Z.of_nat (length (path e)) <? 2)) eqn:E; [eauto|].
  apply orb_false_iff in E. destruct E as [_ E]. apply Z.ltb_ge in E.
  destruct (GameConfig.ENEMY_MOVE_INTERVAL <=? move_counter e + 1); [|eauto].
  set (ci := match index_of p (path e) with Some i => i | None => 0 end).
  assert (Hci : 0 <= ci < Z.of_nat (length (path e))).
  { unfold ci. destruct (index_of p (path e)) eqn:Ei.
    - eapply index_of_bounds; eauto.
    - lia. }
  unfold py_mod.
  destruct (Z.of_nat (length (path e)) =? 0) eqn:E0;
    [apply Z.eqb_eq in E0; lia|].
  cbn [bind].
  assert (Hm : 0 <= (ci + 1) mod Z.of_nat (length (path e))
               < Z.of_nat (length (path e))).
  { apply Z.mod_pos_bound. lia. }
  rewrite py_index_nonneg by lia.
  destruct (nth_error (path e)
              (Z.to_nat ((ci + 1) mod Z.of_nat (length (path e))))) eqn:En.
  - cbn [lift bind]. eauto.
  - apply nth_error_None in En. lia.
Qed.


Lemma no_neighbour_next_cell maze width height p visited ds :
  ~ has_open_neighbour maze width height p ->
  (forall d, In d ds -> In d GameConfig.DIRECTIONS) ->
  next_cell maze width height p visited ds = None.
Proof.
  intros Hno Hin.
  destruct (next_cell maze width height p visited ds) as [n|] eqn:E; auto.
  exfalso. apply Hno.
  destruct (next_cell_some _ _ _ _ _ _ _ E) as (d & Hd & -> & Ho & _).
  exists d. auto.
Qed.

Lemma walk_stuck maze width height p :
  ~ has_open_neighbour maze width height p ->
  forall count directions path visited r,
    compass directions ->
    fst (fst (walk count maze width height directions p path visited r)) = path.
Proof.
  intros Hno. destruct count as [|count]; intros directions path visited r Hc;
    cbn [walk]; [reflexivity|].
  pose proof (RandomFacts.shuffle_perm directions r) as Hp.
  destruct (shuffle directions r) as [ds r1]. cbn [fst] in Hp.
  rewrite no_neighbour_next_cell; auto.
  intros d Hd. apply (Permutation_in _ Hp) in Hd.
  apply (Permutation_in _ (Permutation_sym Hc)). exact Hd.
Qed.

Lemma create_patrol_path_spec e dirs maze width height r p :
  pos e = Some p -> compass dirs ->
  forall e' dirs' r',
    create_patrol_path e dirs maze width height r = (e', dirs', r') ->
    compass dirs'
    /\ dirs' = snd (fst (walk 10 maze width height dirs p [p] [p] r))
    /\ ((length (fst (fst (walk 10 maze width height dirs p [p] [p] r))) < 3)%nat ->
        path e' = back_and_forth maze width height p dirs')
    /\ (exists rest, path e' = p :: rest)
    /\ (has_open_neighbour maze width height p -> (2 <= length (path e'))%nat)
    /\ (~ has_open_neighbour maze width height p -> path e' = [p]).
Proof.
  intros Hpos Hc e' dirs' r'. unfold create_patrol_path. rewrite Hpos.
  pose proof (walk_shape maze width height 10 dirs p [p] [p] r) as Hw.
  pose proof (fun H => walk_stuck maze width height p H 10 dirs [p] [p] r Hc) as Hs.
  destruct (walk 10 maze width height dirs p [p] [p] r) as [[walked ds] r1].
  cbn [fst snd] in *. destruct Hw as [Hperm [more Hmore]].
  intros H. injection H as <- <- <-. cbn [path].
  assert (Hc' : compass ds).
  { unfold compass in *. eapply perm_trans; [exact Hc|]. apply Permutation_sym. exact Hperm. }
  destruct (back_and_forth_length maze width height p ds Hc') as [Hb1 Hb2].
  split; [exact Hc'|]. split; [reflexivity|].
  destruct (Z.of_nat (length walked) <? 3) eqn:E.
  - split; [reflexivity|]. split; [|split; auto].
    unfold back_and_forth. destruct (next_cell maze width height p [] ds); eauto.
  - apply Z.ltb_ge in E. split; [lia|]. split; [|split].
    + exists more. exact Hmore.
    + intros _. lia.
    + intros Hno. specialize (Hs Hno).
      assert (length walked = 1%nat) by (rewrite Hs; reflexivity). lia.
Qed.

End EnemyFacts.

Module HardMazeGameFacts.

Import Random HardMazeGame.





Lemma move_enemy_total (g : game) : exists g', move_enemy g = Ret g'.
Proof.
  unfold move_enemy. destruct (enemy_pos g) as [p|]; [|eauto].
  destruct (enemy_path g) as [|c route] eqn:Er; [eauto|].
  destruct (5 <=? enemy_move_counter g + 1); [|eauto].
  set (ci := match Enemy.index_of p (c :: route) with Some i => i | None => 0 end).
  assert (Hci : 0 <= ci < Z.of_nat (length (c :: route))).
  { unfold ci. destruct (Enemy.index_of p (c :: route)) eqn:Ei.
    - eapply EnemyFacts.index_of_bounds; eauto.
    - simpl. lia. }
  unfold Enemy.py_mod.
  destruct (Z.of_nat (length (c :: route)) =? 0) eqn:E0;
    [apply Z.eqb_eq in E0; simpl in E0; lia|].
  cbn [bind].
  assert (Hm : 0 <= (ci + 1) mod Z.of_nat (length (c :: route))
               < Z.of_nat (length (c :: route))).
  { apply Z.mod_pos_bound. lia. }
  rewrite py_index_nonneg by lia.
  destruct (nth_error (c :: route)
              (Z.to_nat ((ci + 1) mod Z.of_nat (length (c :: route))))) eqn:En.
  - cbn [lift bind]. eauto.
  - apply nth_error_None in En. lia.
Qed.

End HardMazeGameFacts.




(** ** Measures *)

Section Measures.

Lemma py_range_In a b x : In x (py_range a b) <-> a <= x < b.
Proof.
  unfold py_range. rewrite in_map_iff. split.
  - intros (i & <- & Hi). apply in_seq in Hi. lia.
  - intros H. exists (Z.to_nat (x - a)). split; [lia|]. apply in_seq. lia.
Qed.

Lemma py_range_length a b : length (py_range a b) = Z.to_nat (b - a).
Proof. unfold py_range. rewrite length_map, length_seq. reflexivity. Qed.

Lemma zone_In width height x y :
  0 <= x < width -> 0 <= y < height -> In (x, y) (zone width height).
Proof.
  intros Hx Hy. unfold zone. apply in_flat_map. exists y. split.
  - apply py_range_In. exact Hy.
  - apply in_map_iff. exists x. split; [reflexivity|]. apply py_range_In. exact Hx.
Qed.

Lemma zone_length width height :
  length (zone width height) = (Z.to_nat width * Z.to_nat height)%nat.
Proof.
  unfold zone. rewrite flat_map_concat_map.
  assert (H : forall l : list Z,
           length (concat (map (fun y => map (fun x => (x, y)) (py_range 0 width)) l))
           = (Z.to_nat width * length l)%nat).
  { induction l as [|a l IH]; simpl; [lia|].
    rewrite length_app, length_map, py_range_length, IH.
    replace (width - 0) with width by lia. lia. }
  rewrite H, py_range_length. replace (height - 0) with height by lia.
  reflexivity.
Qed.

Lemma open_cell_zone maze width height c :
  PathFinder.open_cell maze width height c = true -> In c (zone width height).
Proof.
  destruct c as [x y]. unfold PathFinder.open_cell.
  rewrite !andb_true_iff, !Z.leb_le, !Z.ltb_lt.
  intros ((((H1 & H2) & H3) & H4) & _). apply zone_In; lia.
Qed.

Lemma unseen_le universe visited : (unseen universe visited <= length universe)%nat.
Proof. unfold unseen. apply filter_length_le. Qed.

Lemma unseen_cons_le universe visited c :
  (unseen universe (c :: visited) <= unseen universe visited)%nat.
Proof.
  unfold unseen. induction universe as [|u universe IH]; cbn [filter mem length];
    [lia|].
  cbn [mem] in IH.
  destruct (cell_eqb u c); destruct (mem u visited);
    cbn [orb negb length]; lia.
Qed.

Lemma unseen_cons_lt universe visited c :
  In c universe -> mem c visited = false ->
  (unseen universe (c :: visited) < unseen universe visited)%nat.
Proof.
  unfold unseen. induction universe as [|u universe IH]; cbn [filter mem length In];
    [tauto|].
  intros [-> | Hin] Hm.
  - rewrite cell_eqb_refl, Hm. cbn [orb negb length].
    pose proof (unseen_cons_le universe visited c) as H. unfold unseen in H.
    cbn [mem] in H. lia.
  - specialize (IH Hin Hm). cbn [mem] in IH.
    destruct (cell_eqb u c); destruct (mem u visited);
      cbn [orb negb length]; lia.
Qed.

End Measures.

Module SearchFacts.

Import Random PathFinder.

Section Bfs.

Variable dirs : list (Z * Z).
Variable maze : grid.
Variables width height : Z.

(** *** BFS stays within its budget *)

Lemma bfs_expand_measure x y path :
  forall ds visited queue,
    let '(visited', queue') :=
      fold_left
        (fun (st : list cell * list (cell * list cell)) (d : Z * Z) =>
           let '(visited, queue) := st in
           let '(dx, dy) := d in
           let nx := x + dx in
           let ny := y + dy in
           if open_cell maze width height (nx, ny) && negb (mem (nx, ny) visited)
           then ((nx, ny) :: visited, queue ++ [((nx, ny), path ++ [(nx, ny)])])
           else (visited, queue))
        ds (visited, queue) in
    (length queue' + unseen (zone width height) visited'
     <= length queue + unseen (zone width height) visited)%nat.
Proof.
  induction ds as [|[dx dy] ds IH]; intros visited queue; cbn [fold_left].
  - lia.
  - destruct (open_cell maze width height (x + dx, y + dy)) eqn:Eo;
      destruct (mem (x + dx, y + dy) visited) eqn:Em; cbn [andb negb];
      try apply IH.
    specialize (IH ((x + dx, y + dy) :: visited)
                  (queue ++ [((x + dx, y + dy), path ++ [(x + dx, y + dy)])])).
    destruct (fold_left _ ds _) as [v' q'].
    pose proof (unseen_cons_lt (zone width height) visited (x + dx, y + dy)
                  (open_cell_zone _ _ _ _ Eo) Em) as Hlt.
    rewrite length_app in IH. cbn [length] in IH. unfold cell in *. lia.
Qed.

Lemma bfs_loop_finishes goal :
  forall fuel queue visited n,
    (length queue + unseen (zone width height) visited < fuel)%nat ->
    exists f, bfs_loop dirs maze width height fuel goal queue visited n = Some f.
Proof.
  induction fuel as [|fuel IH]; intros queue visited n H; [lia|].
  cbn [bfs_loop]. destruct queue as [|[[x y] path] queue]; [eauto|].
  destruct (cell_eqb (x, y) goal); [eauto|].
  pose proof (bfs_expand_measure x y path dirs visited queue) as Hm.
  unfold bfs_expand.
  destruct (fold_left _ dirs (visited, queue)) as [v' q'].
  apply IH. simpl in H. lia.
Qed.

Lemma bfs_finishes start goal :
  exists f, _bfs dirs maze width height start goal = Some f.
Proof.
  apply bfs_loop_finishes. unfold budget.
  pose proof (unseen_le (zone width height) [start]) as H.
  rewrite zone_length in H. simpl length. lia.
Qed.

(** *** BFS returns routes *)

Hypothesis dirs_unit : Forall unit_step dirs.

Lemma step_route start p c d :
  route maze width height start p c ->
  In d dirs ->
  open_cell maze width height (fst c + fst d, snd c + snd d) = true ->
  route maze width height start (p ++ [(fst c + fst d, snd c + snd d)])
    (fst c + fst d, snd c + snd d).
Proof.
  intros Hr Hd Ho. apply route_step with (c := c); auto.
  rewrite Forall_forall in dirs_unit. specialize (dirs_unit d Hd).
  unfold unit_step in *. cbn [fst snd].
  replace (fst c + fst d - fst c) with (fst d) by lia.
  replace (snd c + snd d - snd c) with (snd d) by lia. exact dirs_unit.
Qed.

Lemma bfs_expand_routes start x y path :
  route maze width height start path (x, y) ->
  forall ds visited queue,
    (forall d, In d ds -> In d dirs) ->
    all_routes maze width height start queue ->
    all_routes maze width height start
      (snd (fold_left
        (fun (st : list cell * list (cell * list cell)) (d : Z * Z) =>
           let '(visited, queue) := st in
           let '(dx, dy) := d in
           let nx := x + dx in
           let ny := y + dy in
           if open_cell maze width height (nx, ny) && negb (mem (nx, ny) visited)
           then ((nx, ny) :: visited, queue ++ [((nx, ny), path ++ [(nx, ny)])])
           else (visited, queue))
        ds (visited, queue))).
Proof.
  intros Hp. induction ds as [|[dx dy] ds IH]; intros visited queue Hin Hq;
    cbn [fold_left].
  - exact Hq.
  - assert (Hin' : forall d, In d ds -> In d dirs) by (intros; apply Hin; right; auto).
    destruct (open_cell maze width height (x + dx, y + dy)) eqn:Eo;
      destruct (mem (x + dx, y + dy) visited); cbn [andb negb];
      try (apply IH; assumption).
    apply IH; [assumption|].
    intros c p Hcp. apply in_app_or in Hcp. destruct Hcp as [Hcp | [[= <- <-] | []]].
    + apply Hq. exact Hcp.
    + apply (step_route start path (x, y) (dx, dy)); auto.
      apply Hin. left. reflexivity.
Qed.

Lemma bfs_loop_route start goal :
  forall fuel queue visited n p k,
    all_routes maze width height start queue ->
    bfs_loop dirs maze width height fuel goal queue visited n = Some (Some p, k) ->
    route maze width height start p goal.
Proof.
  induction fuel as [|fuel IH]; intros queue visited n p k Hq; [discriminate|].
  cbn [bfs_loop]. destruct queue as [|[[x y] path] queue]; [discriminate|].
  destruct (cell_eqb (x, y) goal) eqn:Eg.
  - intros [= <- <-]. apply cell_eqb_eq in Eg. subst goal.
    apply Hq. left. reflexivity.
  - pose proof (bfs_expand_routes start x y path (Hq _ _ (or_introl eq_refl))
                  dirs visited queue (fun d H => H)
                  (fun c q H => Hq c q (or_intror H))) as He.
    unfold bfs_expand.
    destruct (fold_left _ dirs (visited, queue)) as [v' q']. cbn [snd] in He.
    apply IH. exact He.
Qed.

Lemma bfs_route start goal p k :
  _bfs dirs maze width height start goal = Some (Some p, k) ->
  route maze width height start p goal.
Proof.
  apply bfs_loop_route. intros c q [[= <- <-] | []]. apply route_start.
Qed.

End Bfs.

End SearchFacts.

(** C7.  An algorithm name that is none of BFS, UCS, DFS, DLS, IDS and
    Bidirectional is answered exactly as the name BFS is, on the same start,
    goal and maze; on a grid whose rows all have the length of the first the
    call returns a result and a node count, never an error, and leaves the
    generator untouched. *)
Theorem unknown_algorithm_defaults_to_bfs :
  forall dirs r start goal algorithm maze,
    ~ In algorithm GameConfig.ALGORITHMS ->
    well_formed maze = true ->
    PathFinder.find_path dirs r start goal algorithm maze
    = PathFinder.find_path dirs r start goal "BFS" maze
    /\ exists result nodes_explored,
         PathFinder.find_path dirs r start goal algorithm maze
         = Some ((result, nodes_explored), r).
Proof.
  intros dirs r start goal algorithm maze H _.
  split; [apply PathFinderFacts.find_path_default; exact H|].
  rewrite (PathFinderFacts.find_path_default _ _ _ _ _ _ H).
  unfold PathFinder.find_path. cbn [String.eqb Ascii.eqb Bool.eqb].
  cbv iota.
  match goal with |- context [PathFinder._bfs ?d ?m ?w ?h ?s ?g] =>
    destruct (SearchFacts.bfs_finishes d m w h s g) as [[res n] ->] end.
  eauto.
Qed.

Lemma unknown_algorithm_defaults_to_bfs_witness :
  (~ In "A*"%string GameConfig.ALGORITHMS /\ well_formed corridor = true)
  /\ PathFinder.find_path GameConfig.DIRECTIONS (tape []) (0, 0) (1, 0)
       "A*" corridor
     = PathFinder.find_path GameConfig.DIRECTIONS (tape []) (0, 0) (1, 0)
         "BFS" corridor
  /\ exists result nodes_explored,
       PathFinder.find_path GameConfig.DIRECTIONS (tape []) (0, 0) (1, 0)
         "A*" corridor
       = Some ((result, nodes_explored), tape []).
Proof.
  assert (H : ~ In "A*"%string GameConfig.ALGORITHMS).
  { vm_compute. intuition discriminate. }
  split; [split; [exact H | reflexivity]|].
  apply unknown_algorithm_defaults_to_bfs; [exact H | reflexivity].
Defined.

Module RouteFacts.

Section Routes.

Variable maze : grid.
Variables width height : Z.

Lemma hops_app c l1 n l2 :
  hops maze width height c (l1 ++ n :: l2) ->
  hops maze width height c (l1 ++ [n]) /\ hops maze width height n l2.
Proof.
  revert c. induction l1 as [|a l1 IH]; intros c; cbn [app hops].
  - tauto.
  - intros (H1 & H2 & H3). destruct (IH a H3). tauto.
Qed.

Lemma last_cons_default (a c d : cell) l : last (a :: l) c = last (a :: l) d.
Proof.
  revert a. induction l as [|b l IH]; intros a; [reflexivity|].
  change (last (b :: l) c = last (b :: l) d). apply IH.
Qed.

Lemma last_cons (a c : cell) l : last (a :: l) c = last l a.
Proof.
  revert a c. induction l as [|b l IH]; intros a c; [reflexivity|].
  change (last (b :: l) c = last (b :: l) a). apply last_cons_default.
Qed.

Lemma hops_snoc c l n :
  hops maze width height c l ->
  unit_step (fst n - fst (last l c), snd n - snd (last l c)) ->
  PathFinder.open_cell maze width height n = true ->
  hops maze width height c (l ++ [n]).
Proof.
  revert c. induction l as [|a l IH]; intros c; cbn [app hops].
  - simpl. tauto.
  - intros (H1 & H2 & H3) Hu Ho. repeat split; auto. apply IH; auto.
    rewrite last_cons in Hu. exact Hu.
Qed.

(** A route is its start followed by hops that end at its last cell. *)
Lemma route_hops start p c :
  route maze width height start p c <->
  exists rest, p = start :: rest /\ hops maze width height start rest
               /\ last rest start = c.
Proof.
  split.
  - intros H. induction H as [|p c n _ (rest & -> & Hh & Hl) Hu Ho].
    + exists []. simpl. auto.
    + exists (rest ++ [n]). split; [reflexivity|]. split.
      * apply hops_snoc; auto. rewrite Hl. exact Hu.
      * apply last_last.
  - intros (rest & -> & Hh & Hl). revert c Hl.
    induction rest as [|n rest IH] using rev_ind; intros c Hl.
    + simpl in Hl. subst c. apply route_start.
    + rewrite last_last in Hl. subst c.
      apply hops_app in Hh. destruct Hh as [Hh _].
      change (start :: rest ++ [n]) with ((start :: rest) ++ [n]).
      assert (Hpre : hops maze width height start rest).
      { clear IH. revert start Hh. induction rest as [|a rest IH]; intros s; cbn [app hops].
        - tauto.
        - intros (H1 & H2 & H3). repeat split; auto. }
      apply route_step with (c := last rest start).
      * apply IH; auto.
      * clear IH Hpre. revert start Hh.
        induction rest as [|a rest IH]; intros s; cbn [app hops].
        -- simpl. tauto.
        -- intros (_ & _ & H3). rewrite last_cons. apply IH. exact H3.
      * clear IH Hpre. revert start Hh.
        induction rest as [|a rest IH]; intros s; cbn [app hops].
        -- tauto.
        -- intros (_ & _ & H3). apply (IH a). exact H3.
Qed.

Lemma route_length_pos start p c :
  route maze width height start p c -> (1 <= length p)%nat.
Proof.
  intros H. apply route_hops in H. destruct H as (rest & -> & _). simpl. lia.
Qed.

(** Cutting the loops out of a route. *)
Lemma hops_simple :
  forall rest s,
    hops maze width height s rest ->
    exists rest',
      hops maze width height s rest'
      /\ last rest' s = last rest s
      /\ NoDup (s :: rest')
      /\ incl rest' rest
      /\ (length rest' <= length rest)%nat.
Proof.
  induction rest as [|n rest IH]; intros s Hh.
  - exists []. repeat split; auto.
    + constructor; [intros [] | constructor].
    + apply incl_refl.
  - cbn [hops] in Hh. destruct Hh as (Hu & Ho & Hh).
    destruct (IH n Hh) as (r' & Hh' & Hl' & Hnd & Hincl & Hlen).
    destruct (in_dec cell_eq_dec s (n :: r')) as [Hin | Hnin].
    + apply in_split in Hin. destruct Hin as (l1 & l2 & E).
      exists l2.
      assert (Hh2 : hops maze width height n r') by exact Hh'.
      assert (Hs : hops maze width height s l2).
      { destruct l1 as [|a l1].
        - injection E as E1 E2. subst. exact Hh'.
        - injection E as E1 E2. subst a r'.
          apply hops_app in Hh'. tauto. }
      split; [exact Hs|]. split; [|split; [|split]].
      * rewrite (last_cons n s rest), <- Hl'.
        rewrite <- (last_cons n s r'), E.
        rewrite <- (last_cons s s l2).
        clear. induction l1 as [|a l1 IH]; [reflexivity|].
        destruct l1; simpl in *; auto.
      * rewrite E in Hnd. apply NoDup_app_remove_l in Hnd. exact Hnd.
      * intros x Hx.
        assert (Hx' : In x (n :: r')) by (rewrite E; apply in_or_app; right; right; exact Hx).
        destruct Hx' as [-> | Hx']; [left; reflexivity | right; apply Hincl; exact Hx'].
      * apply (f_equal (@length cell)) in E. rewrite length_app in E.
        simpl in E. simpl. lia.
    + exists (n :: r'). cbn [hops]. repeat split; auto.
      * rewrite !last_cons. rewrite <- Hl'. reflexivity.
      * constructor; auto.
      * intros x [-> | Hx]; [left; reflexivity | right; apply Hincl; exact Hx].
      * simpl. lia.
Qed.

(** Two distinct cells one open step apart. *)
Lemma shortest_two start goal :
  start <> goal ->
  unit_step (fst goal - fst start, snd goal - snd start) ->
  PathFinder.open_cell maze width height goal = true ->
  shortest maze width height start goal 2.
Proof.
  intros Hne Hu Ho. split.
  - exists [start; goal]. split; [|reflexivity].
    apply (route_step maze width height start [start] start goal);
      [apply route_start | exact Hu | exact Ho].
  - intros p Hp. apply route_hops in Hp. destruct Hp as (rest & -> & _ & Hl).
    destruct rest as [|n rest]; [simpl in Hl; congruence | simpl; lia].
Qed.

End Routes.

End RouteFacts.

Module DlsFacts.

Import PathFinder.

Lemma unit_step_compass dirs d : compass dirs -> unit_step d -> In d dirs.
Proof.
  intros Hc Hu. apply (Permutation_in _ Hc).
  destruct d as [a b]. unfold unit_step in Hu. cbn [fst snd] in Hu.
  assert (H : (a = 0 /\ b = 1) \/ (a = 1 /\ b = 0)
              \/ (a = 0 /\ b = -1) \/ (a = -1 /\ b = 0)) by lia.
  unfold GameConfig.DIRECTIONS.
  destruct H as [[-> ->] | [[-> ->] | [[-> ->] | [-> ->]]]]; simpl; auto.
Qed.

Section Dls.

Variable dirs : list (Z * Z).
Variable maze : grid.
Variables width height : Z.
Variables start goal : cell.
Hypothesis dirs_compass : compass dirs.

Lemma dls_sound :
  forall levels x y path visited p k,
    route maze width height start path (x, y) ->
    dls_levels dirs maze width height levels x y goal path visited = (Some p, k) ->
    route maze width height start p goal
    /\ (length p < length path + levels)%nat.
Proof.
  induction levels as [|levels IH]; intros x y path visited p k Hr;
    cbn [dls_levels]; [discriminate|].
  destruct (cell_eqb (x, y) goal) eqn:Eg.
  - apply cell_eqb_eq in Eg. intros [= <- <-]. subst goal. split; [exact Hr | lia].
  - assert (Hin : forall ds nodes,
              (forall d, In d ds -> In d dirs) ->
              dls_neighbours maze width height
                (fun nx ny new_path =>
                   dls_levels dirs maze width height levels nx ny goal new_path
                     ((x, y) :: visited))
                x y path ((x, y) :: visited) ds nodes = (Some p, k) ->
              route maze width height start p goal
              /\ (length p < length path + S levels)%nat).
    { induction ds as [|[dx dy] ds IHds]; intros nodes Hds; cbn [dls_neighbours];
        [discriminate|].
      assert (Hds' : forall d, In d ds -> In d dirs)
        by (intros; apply Hds; right; auto).
      destruct (open_cell maze width height (x + dx, y + dy)) eqn:Eo;
        destruct (mem (x + dx, y + dy) ((x, y) :: visited));
        cbn [andb negb]; try (apply IHds; assumption).
      destruct (dls_levels dirs maze width height levels (x + dx) (y + dy) goal
                  (path ++ [(x + dx, y + dy)]) ((x, y) :: visited))
        as [[p0|] explored] eqn:Er; [|apply IHds; assumption].
      intros [= <- <-].
      destruct (IH _ _ _ _ _ _
                  (SearchFacts.step_route dirs maze width height
                     (MazeGeneratorFacts.compass_unit _ dirs_compass) start path (x, y) (dx, dy)
                     Hr (Hds _ (or_introl eq_refl)) Eo) Er) as [H1 H2].
      split; [exact H1|]. rewrite length_app in H2. simpl in H2. lia. }
    apply Hin. auto.
Qed.

Lemma dls_complete :
  forall levels x y path visited rest,
    hops maze width height (x, y) rest ->
    last rest (x, y) = goal ->
    NoDup ((x, y) :: rest) ->
    (forall c, In c rest -> ~ In c visited) ->
    (length rest < levels)%nat ->
    exists p k,
      dls_levels dirs maze width height levels x y goal path visited = (Some p, k).
Proof.
  induction levels as [|levels IH]; intros x y path visited rest Hh Hl Hnd Hv Hlen;
    [lia|].
  cbn [dls_levels].
  destruct (cell_eqb (x, y) goal) eqn:Eg; [eauto|].
  apply cell_eqb_neq in Eg.
  destruct rest as [|[a b] rest]; [simpl in Hl; congruence|].
  cbn [hops] in Hh. destruct Hh as (Hu & Ho & Hh).
  apply (unit_step_compass dirs _ dirs_compass) in Hu. cbn [fst snd] in Hu.
  remember (a - x) as dx eqn:Edx. remember (b - y) as dy eqn:Edy.
  assert (Ea : a = x + dx) by lia. assert (Eb : b = y + dy) by lia.
  clear Edx Edy. subst a b.
  apply NoDup_cons_iff in Hnd. destruct Hnd as [Hnotin Hnd'].
  assert (Hrec : exists p k,
            dls_levels dirs maze width height levels (x + dx) (y + dy) goal
              (path ++ [(x + dx, y + dy)]) ((x, y) :: visited)
            = (Some p, k)).
  { apply (IH _ _ _ _ rest).
    - exact Hh.
    - rewrite <- Hl. symmetry. apply RouteFacts.last_cons.
    - exact Hnd'.
    - intros c Hc [<- | Hc'].
      + apply Hnotin. right. exact Hc.
      + apply (Hv c); [right; exact Hc | exact Hc'].
    - simpl in Hlen. lia. }
  assert (Hfresh : mem (x + dx, y + dy) ((x, y) :: visited) = false).
  { apply mem_not_In. intros [E | Hc].
    - apply Hnotin. left. symmetry. exact E.
    - apply (Hv (x + dx, y + dy)); [left; reflexivity | exact Hc]. }
  assert (Hloop : forall ds nodes, In (dx, dy) ds ->
            exists p k,
              dls_neighbours maze width height
                (fun nx ny new_path =>
                   dls_levels dirs maze width height levels nx ny goal new_path
                     ((x, y) :: visited))
                x y path ((x, y) :: visited) ds nodes = (Some p, k));
    [|apply Hloop; exact Hu].
  induction ds as [|[ex ey] ds IHds]; intros nodes Hin; [destruct Hin|].
  cbn [dls_neighbours].
  destruct (cell_eq_dec (ex, ey) (dx, dy)) as [E | Hne].
  - injection E as -> ->. rewrite Ho, Hfresh. cbn [andb negb].
    destruct Hrec as (p & k & ->). eauto.
  - destruct Hin as [E | Hin]; [contradiction|].
    destruct (open_cell maze width height (x + ex, y + ey)
              && negb (mem (x + ex, y + ey) ((x, y) :: visited)));
      [|apply IHds; exact Hin].
    destruct (dls_levels dirs maze width height levels (x + ex) (y + ey) goal
                (path ++ [(x + ex, y + ey)]) ((x, y) :: visited))
      as [[p0|] explored]; [eauto | apply IHds; exact Hin].
Qed.

End Dls.

Section Ids.

Variable dirs : list (Z * Z).
Variable maze : grid.
Variables width height : Z.
Variables start goal : cell.
Variable cells : nat.
Hypothesis dirs_compass : compass dirs.
Hypothesis cells_shortest : shortest maze width height start goal cells.

Lemma dls_too_shallow depth :
  0 <= depth -> depth + 1 < Z.of_nat cells ->
  fst (_dls dirs maze width height start goal depth) = None.
Proof.
  intros H0 H. unfold _dls, _dls_recursive.
  destruct (dls_levels dirs maze width height (Z.to_nat (depth + 1))
              (fst start) (snd start) goal [start] []) as [[p|] k] eqn:E;
    [|reflexivity].
  exfalso.
  assert (Hr : route maze width height start [start] (fst start, snd start))
    by (rewrite surjective_cell; apply route_start).
  destruct (dls_sound dirs maze width height start goal dirs_compass
              _ _ _ _ _ _ _ Hr E) as [Hp Hlen].
  destruct cells_shortest as [_ Hmin]. specialize (Hmin p Hp).
  simpl in Hlen. lia.
Qed.

Lemma dls_deep_enough depth :
  depth + 1 = Z.of_nat cells ->
  exists p k,
    _dls dirs maze width height start goal depth = (Some p, k)
    /\ route maze width height start p goal /\ length p = cells.
Proof.
  intros H. unfold _dls, _dls_recursive.
  pose proof cells_shortest as [(p0 & Hp0 & Hl0) Hmin].
  apply RouteFacts.route_hops in Hp0. destruct Hp0 as (rest & -> & Hh & Hl).
  destruct (RouteFacts.hops_simple maze width height rest start Hh)
    as (rest' & Hh' & Hl' & Hnd & _ & Hlen).
  destruct (dls_complete dirs maze width height goal dirs_compass
              (Z.to_nat (depth + 1)) (fst start) (snd start) [start] [] rest')
    as (p & k & E).
  - rewrite surjective_cell. exact Hh'.
  - rewrite surjective_cell. congruence.
  - rewrite surjective_cell. exact Hnd.
  - intros c _ [].
  - simpl in Hl0. lia.
  - exists p, k. split; [exact E|].
    assert (Hr : route maze width height start [start] (fst start, snd start))
      by (rewrite surjective_cell; apply route_start).
    destruct (dls_sound dirs maze width height start goal dirs_compass
                _ _ _ _ _ _ _ Hr E) as [Hp Hlen'].
    split; [exact Hp|]. specialize (Hmin p Hp). simpl in Hlen'. lia.
Qed.

Lemma ids_loop_miss :
  forall count depth total,
    0 <= depth -> depth + Z.of_nat count < Z.of_nat cells ->
    ids_loop dirs maze width height count depth start goal total
    = (None, total + dls_nodes dirs maze width height start goal count depth).
Proof.
  induction count as [|count IH]; intros depth total H0 H;
    cbn [ids_loop dls_nodes].
  - f_equal. lia.
  - pose proof (dls_too_shallow depth H0 ltac:(lia)) as Hd.
    destruct (_dls dirs maze width height start goal depth) as [res k].
    cbn [fst snd] in *. subst res.
    rewrite IH by lia. f_equal. lia.
Qed.

Lemma ids_loop_hit :
  forall count depth total,
    0 <= depth -> depth + 1 <= Z.of_nat cells ->
    Z.of_nat cells <= depth + Z.of_nat count ->
    exists p,
      ids_loop dirs maze width height count depth start goal total
      = (Some p,
         total + dls_nodes dirs maze width height start goal
                   (Z.to_nat (Z.of_nat cells - depth)) depth)
      /\ route maze width height start p goal /\ length p = cells.
Proof.
  induction count as [|count IH]; intros depth total H0 H1 H2; [lia|].
  cbn [ids_loop].
  destruct (Z.eq_dec (depth + 1) (Z.of_nat cells)) as [E | E].
  - destruct (dls_deep_enough depth E) as (p & k & Ed & Hp & Hl).
    replace (Z.to_nat (Z.of_nat cells - depth)) with 1%nat by lia.
    cbn [dls_nodes]. rewrite Ed. cbn [snd].
    exists p. split; [f_equal; lia | auto].
  - pose proof (dls_too_shallow depth H0 ltac:(lia)) as Hd.
    replace (Z.to_nat (Z.of_nat cells - depth))
      with (S (Z.to_nat (Z.of_nat cells - (depth + 1)))) by lia.
    cbn [dls_nodes].
    destruct (_dls dirs maze width height start goal depth) as [res k].
    cbn [fst snd] in *. subst res.
    destruct (IH (depth + 1) (total + k) ltac:(lia) ltac:(lia) ltac:(lia))
      as (p & Ep & Hp & Hl).
    exists p. split; [|auto]. rewrite Ep. f_equal. lia.
Qed.

End Ids.

End DlsFacts.

Module PlacementFacts.

Import Random HardMazeGame.

Lemma nearest_spec pos :
  forall rest best,
    In (nearest pos best rest) (best :: rest)
    /\ manhattan (nearest pos best rest) pos <= manhattan best pos
    /\ forall k, In k rest ->
         manhattan (nearest pos best rest) pos <= manhattan k pos.
Proof.
  induction rest as [|k rest IH]; intros best; cbn [nearest].
  - split; [left; reflexivity|]. split; [lia | intros k []].
  - destruct (manhattan k pos <? manhattan best pos) eqn:E.
    + apply Z.ltb_lt in E. destruct (IH k) as (H1 & H2 & H3).
      split; [right; exact H1|]. split; [lia|].
      intros k' [<- | Hk']; [exact H2 | apply H3; exact Hk'].
    + apply Z.ltb_ge in E. destruct (IH best) as (H1 & H2 & H3).
      split; [destruct H1 as [H1 | H1]; [left | right; right]; exact H1|].
      split; [exact H2|].
      intros k' [<- | Hk']; [lia | apply H3; exact Hk'].
Qed.

Lemma nearest_is_nearest pos k0 ks :
  is_nearest pos (k0 :: ks) (nearest pos k0 ks).
Proof.
  destruct (nearest_spec pos ks k0) as (H1 & H2 & H3).
  split; [exact H1|]. intros k' [<- | Hk']; auto.
Qed.

Lemma remove_first_length c l :
  In c l -> S (length (remove_first c l)) = length l.
Proof.
  induction l as [|d l IH]; cbn [remove_first In]; [tauto|].
  destruct (cell_eqb c d) eqn:E.
  - reflexivity.
  - intros [-> | H]; [rewrite cell_eqb_refl in E; discriminate|].
    cbn [length]. rewrite IH; auto.
Qed.

Section Avoid.

Variable g : game.
Variable blocked : list cell.

Lemma avoid_expand_measure x y path :
  forall ds visited queue,
    let '(visited', queue') :=
      fold_left
        (fun (st : list cell * list (cell * list cell)) (d : Z * Z) =>
           let '(visited, queue) := st in
           let '(dx, dy) := d in
           let nx := x + dx in
           let ny := y + dy in
           if PathFinder.open_cell (maze g) (width g) (height g) (nx, ny)
              && negb (mem (nx, ny) visited)
              && negb (mem (nx, ny) blocked)
           then ((nx, ny) :: visited, queue ++ [((nx, ny), path ++ [(nx, ny)])])
           else (visited, queue))
        ds (visited, queue) in
    (length queue' + unseen (zone (width g) (height g)) visited'
     <= length queue + unseen (zone (width g) (height g)) visited)%nat.
Proof.
  induction ds as [|[dx dy] ds IH]; intros visited queue; cbn [fold_left].
  - lia.
  - destruct (PathFinder.open_cell (maze g) (width g) (height g) (x + dx, y + dy))
      eqn:Eo;
      destruct (mem (x + dx, y + dy) visited) eqn:Em;
      destruct (mem (x + dx, y + dy) blocked); cbn [andb negb];
      try apply IH.
    specialize (IH ((x + dx, y + dy) :: visited)
                  (queue ++ [((x + dx, y + dy), path ++ [(x + dx, y + dy)])])).
    destruct (fold_left _ ds _) as [v' q'].
    pose proof (unseen_cons_lt (zone (width g) (height g)) visited (x + dx, y + dy)
                  (open_cell_zone _ _ _ _ Eo) Em) as Hlt.
    rewrite length_app in IH. cbn [length] in IH. unfold cell in *. lia.
Qed.

Lemma avoid_loop_finishes goal :
  forall fuel queue visited,
    (length queue + unseen (zone (width g) (height g)) visited < fuel)%nat ->
    exists b, avoid_loop fuel g blocked goal queue visited = Some b.
Proof.
  induction fuel as [|fuel IH]; intros queue visited H; [lia|].
  cbn [avoid_loop]. destruct queue as [|[[x y] path] queue]; [eauto|].
  destruct (cell_eqb (x, y) goal); [eauto|].
  pose proof (avoid_expand_measure x y path directions visited queue) as Hm.
  unfold avoid_expand.
  destruct (fold_left _ directions (visited, queue)) as [v' q'].
  apply IH. simpl in H. lia.
Qed.

Lemma bfs_avoid_enemy_finishes start goal :
  exists b, bfs_avoid_enemy g blocked start goal = Some b.
Proof.
  apply avoid_loop_finishes. unfold PathFinder.budget.
  pose proof (unseen_le (zone (width g) (height g)) [start]) as H.
  rewrite zone_length in H. simpl length. lia.
Qed.

Lemma directions_unit : Forall unit_step directions.
Proof. unfold directions. repeat constructor. Qed.

Lemma avoid_expand_routes start x y path :
  route (maze g) (width g) (height g) start path (x, y) ->
  (forall c, In c (tl path) -> ~ In c blocked) ->
  forall ds visited queue,
    (forall d, In d ds -> In d directions) ->
    all_clear_routes g blocked start queue ->
    all_clear_routes g blocked start
      (snd (fold_left
        (fun (st : list cell * list (cell * list cell)) (d : Z * Z) =>
           let '(visited, queue) := st in
           let '(dx, dy) := d in
           let nx := x + dx in
           let ny := y + dy in
           if PathFinder.open_cell (maze g) (width g) (height g) (nx, ny)
              && negb (mem (nx, ny) visited)
              && negb (mem (nx, ny) blocked)
           then ((nx, ny) :: visited, queue ++ [((nx, ny), path ++ [(nx, ny)])])
           else (visited, queue))
        ds (visited, queue))).
Proof.
  intros Hp Hclear. induction ds as [|[dx dy] ds IH]; intros visited queue Hin Hq;
    cbn [fold_left].
  - exact Hq.
  - assert (Hin' : forall d, In d ds -> In d directions)
      by (intros; apply Hin; right; auto).
    destruct (PathFinder.open_cell (maze g) (width g) (height g) (x + dx, y + dy))
      eqn:Eo;
      destruct (mem (x + dx, y + dy) visited);
      destruct (mem (x + dx, y + dy) blocked) eqn:Eb; cbn [andb negb];
      try (apply IH; assumption).
    apply IH; [assumption|].
    intros c p Hcp. apply in_app_or in Hcp. destruct Hcp as [Hcp | [[= <- <-] | []]].
    + apply Hq. exact Hcp.
    + split.
      * apply (SearchFacts.step_route directions (maze g) (width g) (height g)
                 directions_unit start path (x, y) (dx, dy)); auto.
        apply Hin. left. reflexivity.
      * intros c Hc.
        assert (Hne : path <> []).
        { intros ->. apply RouteFacts.route_length_pos in Hp. simpl in Hp. lia. }
        destruct path as [|a path]; [congruence|]. cbn [app tl] in Hc.
        apply in_app_or in Hc. destruct Hc as [Hc | [<- | []]].
        -- apply Hclear. exact Hc.
        -- apply mem_not_In. exact Eb.
Qed.

Lemma avoid_loop_sound start goal :
  forall fuel queue visited,
    all_clear_routes g blocked start queue ->
    avoid_loop fuel g blocked goal queue visited = Some true ->
    exists p,
      route (maze g) (width g) (height g) start p goal
      /\ forall c, In c (tl p) -> ~ In c blocked.
Proof.
  induction fuel as [|fuel IH]; intros queue visited Hq; [discriminate|].
  cbn [avoid_loop]. destruct queue as [|[[x y] path] queue]; [discriminate|].
  destruct (Hq _ _ (or_introl eq_refl)) as [Hr Hc].
  destruct (cell_eqb (x, y) goal) eqn:Eg.
  - intros _. apply cell_eqb_eq in Eg. subst goal. exists path. auto.
  - pose proof (avoid_expand_routes start x y path Hr Hc
                  directions visited queue (fun d H => H)
                  (fun c q H => Hq c q (or_intror H))) as He.
    unfold avoid_expand.
    destruct (fold_left _ directions (visited, queue)) as [v' q']. cbn [snd] in He.
    apply IH. exact He.
Qed.

Lemma bfs_avoid_enemy_reachable start goal :
  bfs_avoid_enemy g blocked start goal = Some true ->
  is_reachable g blocked start goal.
Proof.
  intros H. split; [exact H|].
  apply (avoid_loop_sound start goal _ _ _) in H; [exact H|].
  intros c q [[= <- <-] | []]. split; [apply route_start | intros x []].
Qed.

Lemma keys_loop_spec :
  forall rounds test_pos test_keys last_pos,
    keys_loop rounds g blocked test_pos test_keys = Some (true, last_pos) ->
    exists order,
      nearest_first test_pos test_keys order
      /\ legs (is_reachable g blocked) test_pos order
      /\ last_pos = last order test_pos.
Proof.
  induction rounds as [|rounds IH]; intros test_pos test_keys last_pos;
    destruct test_keys as [|k0 ks]; cbn [keys_loop].
  - intros [= <-]. exists []. repeat split. constructor.
  - discriminate.
  - intros [= <-]. exists []. repeat split. constructor.
  - destruct (bfs_avoid_enemy g blocked test_pos (nearest test_pos k0 ks))
      as [[|]|] eqn:Eb; try discriminate.
    intros H. destruct (IH _ _ _ H) as (order & Ho & Hl & ->).
    exists (nearest test_pos k0 ks :: order). split; [|split].
    + constructor; [apply nearest_is_nearest | exact Ho].
    + cbn [legs]. split; [apply bfs_avoid_enemy_reachable; exact Eb | exact Hl].
    + symmetry. apply RouteFacts.last_cons.
Qed.

Lemma keys_loop_finishes :
  forall rounds test_pos test_keys,
    (length test_keys <= rounds)%nat ->
    exists out, keys_loop rounds g blocked test_pos test_keys = Some out.
Proof.
  induction rounds as [|rounds IH]; intros test_pos test_keys H;
    destruct test_keys as [|k0 ks]; cbn [keys_loop]; eauto.
  - simpl in H. lia.
  - destruct (bfs_avoid_enemy_finishes test_pos (nearest test_pos k0 ks))
      as [[|] ->]; [|eauto].
    apply IH.
    pose proof (remove_first_length (nearest test_pos k0 ks) (k0 :: ks)
                  (proj1 (nearest_is_nearest test_pos k0 ks))) as E.
    simpl in H. cbn [length] in E. lia.
Qed.

Lemma legs_snoc (reach : cell -> cell -> Prop) :
  forall stops a b,
    legs reach a stops -> reach (last stops a) b -> legs reach a (stops ++ [b]).
Proof.
  induction stops as [|c stops IH]; intros a b; cbn [legs app].
  - simpl. tauto.
  - intros [H1 H2] H3. split; [exact H1|]. apply IH; [exact H2|].
    rewrite RouteFacts.last_cons in H3. exact H3.
Qed.

End Avoid.

Lemma is_solvable_with_enemy_solvable g :
  is_solvable_with_enemy g = Some true -> solvable g.
Proof.
  unfold is_solvable_with_enemy.
  destruct (keys_loop (length (keys g)) g (enemy_path g) (1, 1) (keys g))
    as [[[|] last_pos]|] eqn:Ek; try discriminate.
  intros Hb.
  destruct (keys_loop_spec g (enemy_path g) _ _ _ _ Ek) as (order & Ho & Hl & ->).
  exists order. split; [exact Ho|].
  apply legs_snoc; [exact Hl|]. apply bfs_avoid_enemy_reachable. exact Hb.
Qed.

Lemma is_solvable_with_enemy_finishes g :
  exists b, is_solvable_with_enemy g = Some b.
Proof.
  unfold is_solvable_with_enemy.
  destruct (keys_loop_finishes g (enemy_path g) (length (keys g)) (1, 1) (keys g)
              (le_n _)) as [[[|] last_pos] ->].
  - apply bfs_avoid_enemy_finishes.
  - eauto.
Qed.

Lemma retry_accepted :
  forall count g r g' r',
    retry count g r = Some (Accepted, g', r') ->
    is_solvable_with_enemy g' = Some true.
Proof.
  induction count as [|count IH]; intros g r g' r'; cbn [retry].
  - destruct (fallback g r). discriminate.
  - destruct (attempt g r) as [g1 r1].
    destruct (is_solvable_with_enemy g1) as [[|]|] eqn:E; try discriminate.
    + intros [= <- <-]. exact E.
    + apply IH.
Qed.

Lemma retry_finishes :
  forall count g r, exists out, retry count g r = Some out.
Proof.
  induction count as [|count IH]; intros g r; cbn [retry].
  - destruct (fallback g r). eauto.
  - destruct (attempt g r) as [g1 r1].
    destruct (is_solvable_with_enemy_finishes g1) as [[|] ->]; eauto.
Qed.

End PlacementFacts.

(** C2.  Whenever [setup_difficulty_features] returns from inside its retry
    loop, the features it leaves satisfy the solvability constraint with
    exactly the enemy patrol cells blocked (traps are not blocked): the test
    [is_solvable_with_enemy] holds of them, and there is a nearest-first
    (Manhattan distance, greedy) ordering of the keys such that every
    consecutive leg of start, keys in that order, exit passes the
    breadth-first test and has a route entering no patrol cell. *)
Theorem accepted_features_solvable :
  forall g r g' r',
    HardMazeGame.setup_difficulty_features g r
    = Some (HardMazeGame.Accepted, g', r') ->
    HardMazeGame.is_solvable_with_enemy g' = Some true /\ solvable g'.
Proof.
  intros g r g' r' H. apply PlacementFacts.retry_accepted in H.
  split; [exact H|]. apply PlacementFacts.is_solvable_with_enemy_solvable. exact H.
Qed.

Lemma accepted_features_solvable_witness :
  HardMazeGame.setup_difficulty_features ring_game (tape [])
  = Some (HardMazeGame.Accepted, ring_placed, ring_tape)
  /\ HardMazeGame.is_solvable_with_enemy ring_placed = Some true
  /\ solvable ring_placed.
Proof.
  assert (H : HardMazeGame.setup_difficulty_features ring_game (tape [])
              = Some (HardMazeGame.Accepted, ring_placed, ring_tape))
    by (vm_compute; reflexivity).
  split; [exact H|].
  exact (accepted_features_solvable ring_game (tape []) ring_placed ring_tape H).
Defined.

(** C4, the code at the failing input.  The 5 by 5 maze [snake] is one
    [generate_maze] returns.  On it, with the generator drawing zeros, all
    twenty attempts are rejected and [setup_difficulty_features] returns
    normally from the code after the loop, with traps and teleporters
    cleared, three keys and an enemy whose patrol covers the exit and the
    first key: the configuration fails the solvability test, is not
    solvable, and no error is reported. *)
Theorem fallback_is_not_validated :
  (exists r', MazeGenerator.generate_maze GameConfig.DIRECTIONS 5 5
                (tape [1; 0; 0; 0; 0; 5; 0; 0; 5]%nat) = Ret (snake, r'))
  /\ exists g' r',
       HardMazeGame.setup_difficulty_features snake_game (tape [])
       = Some (HardMazeGame.FellBack, g', r')
       /\ HardMazeGame.traps g' = []
       /\ HardMazeGame.teleporters g' = []
       /\ HardMazeGame.keys g' = [(2, 1); (3, 1); (3, 2)]
       /\ In (HardMazeGame.end_pos g') (HardMazeGame.enemy_path g')
       /\ HardMazeGame.is_solvable_with_enemy g' = Some false
       /\ ~ solvable g'.
Proof.
  split; [eexists; vm_compute; reflexivity|].
  destruct (HardMazeGame.setup_difficulty_features snake_game (tape []))
    as [[[e g'] r']|] eqn:E; [|vm_compute in E; discriminate].
  assert (He : e = HardMazeGame.FellBack).
  { apply (f_equal (fun o => match o with
                             | Some (e, _, _) => Some e
                             | None => None
                             end)) in E.
    vm_compute in E. injection E as E. symmetry. exact E. }
  assert (Hg : g' = HardMazeGame.mk_game 5 5 snake (3, 3) 3 []
                      [(2, 1); (3, 1); (3, 2)] [] (Some (1, 3))
                      [(1, 3); (2, 3); (3, 3); (3, 2); (3, 1); (2, 1); (1, 1)] 0).
  { apply (f_equal (fun o => match o with
                             | Some (_, g, _) => Some g
                             | None => None
                             end)) in E.
    vm_compute in E. injection E as E. symmetry. exact E. }
  subst e g'. eexists. exists r'. split; [reflexivity|].
  repeat (split; [vm_compute; tauto|]).
  intros (order & Ho & Hl).
  inversion Ho as [|? ? k order' [Hin Hmin] _]; subst.
  cbn [legs app] in Hl. destruct Hl as [[Hb _] _].
  cbn [HardMazeGame.keys] in Hin, Hmin.
  assert (Hk : k = (2, 1)).
  { pose proof (Hmin (2, 1) ltac:(simpl; auto)) as H0.
    destruct Hin as [<- | [<- | [<- | []]]]; auto; vm_compute in H0;
      exfalso; apply H0; reflexivity. }
  subst k. vm_compute in Hb. discriminate.
Qed.

(** C10, the code at the failing input.  In the one-row maze [[0, 0, 1]]
    the goal (2,0) is a Wall cell.  Bidirectional seeds its backward
    frontier with the goal without testing it, meets the forward search at
    (1,0) and returns a path whose last cell is that Wall cell, so the path
    is not a route; the five other strategies return no path.  With the
    goal (3,0), outside the grid, the returned path leaves the bounds. *)
Theorem bidirectional_path_ends_on_wall :
  PathFinder.find_path GameConfig.DIRECTIONS (tape []) (0, 0) (2, 0)
    "Bidirectional" corridor
  = Some ((Some [(0, 0); (1, 0); (2, 0)], 3), tape [])
  /\ maze_get corridor 2 0 = Some 1
  /\ PathFinder.open_cell corridor 3 1 (2, 0) = false
  /\ ~ route corridor 3 1 (0, 0) [(0, 0); (1, 0); (2, 0)] (2, 0)
  /\ (forall algorithm,
        In algorithm ["BFS"; "UCS"; "DFS"; "DLS"; "IDS"]%string ->
        exists nodes_explored r',
          PathFinder.find_path GameConfig.DIRECTIONS (tape []) (0, 0) (2, 0)
            algorithm corridor
          = Some ((None, nodes_explored), r'))
  /\ PathFinder.find_path GameConfig.DIRECTIONS (tape []) (0, 0) (3, 0)
       "Bidirectional" [[0; 0; 0]]
     = Some ((Some [(0, 0); (1, 0); (2, 0); (3, 0)], 4), tape []).
Proof.
  split; [vm_compute; reflexivity|].
  split; [reflexivity|]. split; [reflexivity|]. split; [|split].
  - intros H. apply RouteFacts.route_hops in H.
    destruct H as (rest & E & Hh & _). injection E as <-.
    cbn [hops] in Hh. destruct Hh as (_ & _ & _ & Ho & _).
    vm_compute in Ho. discriminate.
  - intros algorithm H. cbn [In] in H.
    destruct H as [<- | [<- | [<- | [<- | [<- | []]]]]];
      eexists; eexists; vm_compute; reflexivity.
  - vm_compute. reflexivity.
Qed.

(** C3, the code at the failing input.  Same query: the goal (2,0) of
    [[0, 0, 1]] is a Wall cell.  BFS and UCS return no path after exploring
    two nodes, as do DFS, DLS and IDS; Bidirectional returns a path of three
    cells.  The three strategies the claim calls equal do not agree. *)
Theorem bidirectional_disagrees_with_bfs :
  PathFinder.find_path GameConfig.DIRECTIONS (tape []) (0, 0) (2, 0)
    "BFS" corridor = Some ((None, 2), tape [])
  /\ PathFinder.find_path GameConfig.DIRECTIONS (tape []) (0, 0) (2, 0)
       "UCS" corridor = Some ((None, 2), tape [])
  /\ (exists p,
        PathFinder.find_path GameConfig.DIRECTIONS (tape []) (0, 0) (2, 0)
          "Bidirectional" corridor = Some ((Some p, 3), tape [])
        /\ length p = 3%nat)
  /\ (forall p, ~ route corridor 3 1 (0, 0) p (2, 0)).
Proof.
  split; [vm_compute; reflexivity|]. split; [vm_compute; reflexivity|].
  split.
  - eexists. split; [vm_compute; reflexivity | reflexivity].
  - intros p H. inversion H as [E1 E2 | q c n Hr Hu Ho E1 E2].
    vm_compute in Ho. discriminate.
Qed.

Module UcsDfsFacts.

Import Random PathFinder.

Lemma heappush_In heap e x :
  In x (heappush heap e) <-> x = e \/ In x heap.
Proof.
  induction heap as [|h heap IH]; cbn [heappush].
  - simpl. intuition.
  - destruct (item_compare e h); cbn [In]; rewrite ?IH; intuition.
Qed.

Lemma heappush_length heap e : length (heappush heap e) = S (length heap).
Proof.
  induction heap as [|h heap IH]; cbn [heappush]; [reflexivity|].
  destruct (item_compare e h); cbn [length]; rewrite ?IH; reflexivity.
Qed.

Lemma compass_length dirs : compass dirs -> length dirs = 4%nat.
Proof. intros H. apply Permutation_length in H. symmetry. exact H. Qed.

Lemma route_end maze width height start p c :
  route maze width height start p c ->
  In c (start :: zone width height).
Proof.
  intros H. destruct H as [|p c n _ _ Ho].
  - left. reflexivity.
  - right. apply (open_cell_zone maze). exact Ho.
Qed.

Section Ucs.

Variable dirs : list (Z * Z).
Variable maze : grid.
Variables width height : Z.
Variable start : cell.
Hypothesis dirs_compass : compass dirs.

Lemma ucs_expand_spec cost x y path visited :
  route maze width height start path (x, y) ->
  forall ds heap,
    (forall d, In d ds -> In d dirs) ->
    heap_routes maze width height start heap ->
    let heap' :=
      fold_left
        (fun (heap : list item) (d : Z * Z) =>
           let '(dx, dy) := d in
           let nx := x + dx in
           let ny := y + dy in
           if open_cell maze width height (nx, ny) && negb (mem (nx, ny) visited)
           then let new_cost := cost + 1 in
                heappush heap (new_cost, (nx, ny), path ++ [(nx, ny)])
           else heap)
        ds heap in
    heap_routes maze width height start heap'
    /\ (length heap' <= length heap + length ds)%nat.
Proof.
  intros Hp. induction ds as [|[dx dy] ds IH]; intros heap Hin Hr;
    cbn [fold_left].
  - split; auto. simpl. lia.
  - assert (Hin' : forall d, In d ds -> In d dirs)
      by (intros; apply Hin; right; auto).
    destruct (open_cell maze width height (x + dx, y + dy)) eqn:Eo;
      destruct (mem (x + dx, y + dy) visited); cbn [andb negb];
      try (destruct (IH heap Hin' Hr) as (H1 & H3);
           split; [exact H1|]; eapply Nat.le_trans; [exact H3|];
           cbn [length]; lia).
    destruct (IH (heappush heap (cost + 1, (x + dx, y + dy),
                                 path ++ [(x + dx, y + dy)])) Hin')
      as (H1 & H3).
    + intros c0 c p Hc. apply heappush_In in Hc. destruct Hc as [Hc | Hc].
      * injection Hc as -> -> ->.
        apply (SearchFacts.step_route dirs maze width height
                 (MazeGeneratorFacts.compass_unit _ dirs_compass)
                 start path (x, y) (dx, dy)); auto.
        apply Hin. left. reflexivity.
      * eapply Hr; eauto.
    + split; [exact H1|]. rewrite heappush_length in H3.
      eapply Nat.le_trans; [exact H3|]. cbn [length]. lia.
Qed.

Lemma ucs_loop_spec goal :
  forall fuel heap visited n,
    heap_routes maze width height start heap ->
    (length heap + 4 * unseen (start :: zone width height) visited < fuel)%nat ->
    exists f,
      ucs_loop dirs maze width height fuel goal heap visited n = Some f
      /\ forall p, fst f = Some p -> route maze width height start p goal.
Proof.
  induction fuel as [|fuel IH]; intros heap visited n Hr Hm; [lia|].
  cbn [ucs_loop]. destruct heap as [|[[cost [x y]] path] heap].
  - eexists. split; [reflexivity|]. discriminate.
  - assert (Hr' : heap_routes maze width height start heap)
      by (intros c0 c q H; apply (Hr c0); right; exact H).
    pose proof (Hr cost _ _ (or_introl eq_refl)) as Hp.
    destruct (mem (x, y) visited) eqn:Em.
    + apply IH; [exact Hr' | simpl in Hm; lia].
    + destruct (cell_eqb (x, y) goal) eqn:Eg.
      * eexists. split; [reflexivity|]. cbn [fst]. intros p [= <-].
        apply cell_eqb_eq in Eg. subst goal. exact Hp.
      * unfold ucs_expand.
        destruct (ucs_expand_spec cost x y path ((x, y) :: visited) Hp
                    dirs heap (fun d H => H) Hr') as [H1 H2].
        apply IH; [exact H1|].
        pose proof (unseen_cons_lt (start :: zone width height) visited (x, y)
                      (route_end _ _ _ _ _ _ Hp) Em) as Hlt.
        rewrite (compass_length _ dirs_compass) in H2.
        simpl in Hm. unfold cell in *. lia.
Qed.

Lemma ucs_spec goal :
  exists f,
    _ucs dirs maze width height start goal = Some f
    /\ forall p, fst f = Some p -> route maze width height start p goal.
Proof.
  apply ucs_loop_spec.
  - intros c0 c p [[= <- <- <-] | []]. apply route_start.
  - unfold budget.
    pose proof (unseen_le (start :: zone width height) []) as H.
    simpl length in *. rewrite zone_length in H. lia.
Qed.

(** *** DFS *)

Lemma dfs_expand_spec x y path directions visited :
  route maze width height start path (x, y) ->
  Forall unit_step directions ->
  forall ds stack,
    (forall d, In d ds -> In d directions) ->
    all_routes maze width height start stack ->
    let stack' :=
      fold_left
        (fun (stack : list (cell * list cell)) (d : Z * Z) =>
           let '(dx, dy) := d in
           let nx := x + dx in
           let ny := y + dy in
           if open_cell maze width height (nx, ny) && negb (mem (nx, ny) visited)
           then ((nx, ny), path ++ [(nx, ny)]) :: stack
           else stack)
        ds stack in
    all_routes maze width height start stack'
    /\ (length stack' <= length stack + length ds)%nat.
Proof.
  intros Hp Hu. induction ds as [|[dx dy] ds IH]; intros stack Hin Hr;
    cbn [fold_left].
  - split; auto. simpl. lia.
  - assert (Hin' : forall d, In d ds -> In d directions)
      by (intros; apply Hin; right; auto).
    destruct (open_cell maze width height (x + dx, y + dy)) eqn:Eo;
      destruct (mem (x + dx, y + dy) visited); cbn [andb negb];
      try (destruct (IH stack Hin' Hr) as (H1 & H3);
           split; [exact H1|]; eapply Nat.le_trans; [exact H3|];
           cbn [length]; lia).
    destruct (IH (((x + dx, y + dy), path ++ [(x + dx, y + dy)]) :: stack) Hin')
      as (H1 & H3).
    + intros c p [Hc | Hc].
      * injection Hc as <- <-.
        apply (SearchFacts.step_route directions maze width height Hu
                 start path (x, y) (dx, dy)); auto.
        apply Hin. left. reflexivity.
      * apply Hr. exact Hc.
    + split; [exact H1|]. eapply Nat.le_trans; [exact H3|]. cbn [length]. lia.
Qed.

Lemma dfs_loop_spec goal :
  forall fuel stack visited directions n r,
    all_routes maze width height start stack ->
    compass directions ->
    (length stack + 4 * unseen (start :: zone width height) visited < fuel)%nat ->
    exists f r',
      dfs_loop maze width height fuel goal stack visited directions n r
      = Some (f, r')
      /\ forall p, fst f = Some p -> route maze width height start p goal.
Proof.
  induction fuel as [|fuel IH]; intros stack visited directions n r Hr Hc Hm;
    [lia|].
  cbn [dfs_loop]. destruct stack as [|[[x y] path] stack].
  - eexists. eexists. split; [reflexivity|]. discriminate.
  - assert (Hr' : all_routes maze width height start stack)
      by (intros c q H; apply Hr; right; exact H).
    pose proof (Hr _ _ (or_introl eq_refl)) as Hp.
    destruct (mem (x, y) visited) eqn:Em.
    + apply IH; [exact Hr' | exact Hc | simpl in Hm; lia].
    + destruct (cell_eqb (x, y) goal) eqn:Eg.
      * eexists. eexists. split; [reflexivity|]. cbn [fst]. intros p [= <-].
        apply cell_eqb_eq in Eg. subst goal. exact Hp.
      * pose proof (RandomFacts.shuffle_perm directions r) as Hs.
        destruct (shuffle directions r) as [directions' r']. cbn [fst] in Hs.
        assert (Hc' : compass directions').
        { unfold compass in *. eapply perm_trans; [exact Hc|].
          apply Permutation_sym. exact Hs. }
        unfold dfs_expand.
        destruct (dfs_expand_spec x y path directions' ((x, y) :: visited) Hp
                    (MazeGeneratorFacts.compass_unit _ Hc')
                    directions' stack (fun d H => H) Hr') as [H1 H2].
        apply IH; [exact H1 | exact Hc' |].
        pose proof (unseen_cons_lt (start :: zone width height) visited (x, y)
                      (route_end _ _ _ _ _ _ Hp) Em) as Hlt.
        rewrite (compass_length _ Hc') in H2.
        simpl in Hm. unfold cell in *. lia.
Qed.

Lemma dfs_spec goal r :
  exists f r',
    _dfs dirs maze width height start goal r = Some (f, r')
    /\ forall p, fst f = Some p -> route maze width height start p goal.
Proof.
  apply dfs_loop_spec.
  - intros c p [[= <- <-] | []]. apply route_start.
  - exact dirs_compass.
  - unfold budget.
    pose proof (unseen_le (start :: zone width height) []) as H.
    simpl length in *. rewrite zone_length in H. lia.
Qed.

End Ucs.

End UcsDfsFacts.
Module BidiFacts.

Import Random PathFinder.

Lemma lookup_In c m p : lookup c m = Some p -> In (c, p) m.
Proof.
  induction m as [|[k v] m IH]; cbn [lookup]; [discriminate|].
  destruct (cell_eqb c k) eqn:E.
  - intros [= <-]. apply cell_eqb_eq in E. subst k. left. reflexivity.
  - intros H. right. apply IH. exact H.
Qed.

Section Join.

Variable maze : grid.
Variables width height : Z.

Lemma hops_concat c l1 l2 :
  hops maze width height c l1 ->
  hops maze width height (last l1 c) l2 ->
  hops maze width height c (l1 ++ l2).
Proof.
  revert c. induction l1 as [|a l1 IH]; intros c; cbn [app hops].
  - simpl. tauto.
  - intros (H1 & H2 & H3) H4. repeat split; auto. apply IH; auto.
    rewrite RouteFacts.last_cons in H4. exact H4.
Qed.

Lemma last_app_cell (l1 l2 : list cell) c : last (l1 ++ l2) c = last l2 (last l1 c).
Proof.
  revert c. induction l1 as [|a l1 IH]; intros c; [reflexivity|].
  change ((a :: l1) ++ l2) with (a :: (l1 ++ l2)).
  rewrite !RouteFacts.last_cons. apply IH.
Qed.

Lemma route_concat start p c l :
  route maze width height start p c ->
  hops maze width height c l ->
  route maze width height start (p ++ l) (last l c).
Proof.
  intros Hr Hl. apply RouteFacts.route_hops in Hr.
  destruct Hr as (rest & -> & Hh & <-).
  apply RouteFacts.route_hops. exists (rest ++ l). split; [reflexivity|].
  split; [apply hops_concat; assumption | apply last_app_cell].
Qed.

(** Walking a chain of hops backwards, when its first cell is open too. *)
Lemma hops_reverse :
  forall l a,
    PathFinder.open_cell maze width height a = true ->
    hops maze width height a l ->
    hops maze width height (last l a) (rev (removelast (a :: l)))
    /\ last (rev (removelast (a :: l))) (last l a) = a.
Proof.
  induction l as [|b l IH]; intros a Ha Hh.
  - simpl. auto.
  - cbn [hops] in Hh. destruct Hh as (Hu & Hb & Hh).
    destruct (IH b Hb Hh) as [H1 H2].
    change (removelast (a :: b :: l)) with (a :: removelast (b :: l)).
    cbn [rev]. rewrite RouteFacts.last_cons. split.
    + apply RouteFacts.hops_snoc; [exact H1 | | exact Ha].
      rewrite H2. unfold unit_step in *. cbn [fst snd] in *. lia.
    + apply last_last.
Qed.

Lemma meet start goal fpath bpath c :
  PathFinder.open_cell maze width height goal = true ->
  route maze width height start fpath c ->
  route maze width height goal bpath c ->
  route maze width height start (fpath ++ rev_but_last bpath) goal.
Proof.
  intros Hg Hf Hb. apply RouteFacts.route_hops in Hb.
  destruct Hb as (rest & -> & Hh & <-).
  destruct (hops_reverse rest goal Hg Hh) as [H1 H2].
  unfold rev_but_last. rewrite <- H2 at 2.
  apply route_concat; assumption.
Qed.

End Join.

Section Bidi.

Variable dirs : list (Z * Z).
Variable maze : grid.
Variables width height : Z.
Hypothesis dirs_compass : compass dirs.

Lemma bidi_expand_spec root x y path :
  route maze width height root path (x, y) ->
  forall ds visited queue,
    (forall d, In d ds -> In d dirs) ->
    all_routes maze width height root visited ->
    all_routes maze width height root queue ->
    let out :=
      fold_left
        (fun (st : list (cell * list cell) * list (cell * list cell))
             (d : Z * Z) =>
           let '(visited, queue) := st in
           let '(dx, dy) := d in
           let nx := x + dx in
           let ny := y + dy in
           if open_cell maze width height (nx, ny)
              && negb (mem (nx, ny) (map fst visited))
           then let new_path := path ++ [(nx, ny)] in
                (((nx, ny), new_path) :: visited, queue ++ [((nx, ny), new_path)])
           else (visited, queue))
        ds (visited, queue) in
    all_routes maze width height root (fst out)
    /\ all_routes maze width height root (snd out)
    /\ (length (snd out) + unseen (zone width height) (map fst (fst out))
        <= length queue + unseen (zone width height) (map fst visited))%nat.
Proof.
  intros Hp. induction ds as [|[dx dy] ds IH]; intros visited queue Hin Hv Hq;
    cbn [fold_left].
  - cbn [fst snd]. auto.
  - assert (Hin' : forall d, In d ds -> In d dirs)
      by (intros; apply Hin; right; auto).
    destruct (open_cell maze width height (x + dx, y + dy)) eqn:Eo;
      destruct (mem (x + dx, y + dy) (map fst visited)) eqn:Em;
      cbn [andb negb]; try (apply IH; assumption).
    assert (Hn : route maze width height root (path ++ [(x + dx, y + dy)])
                   (x + dx, y + dy)).
    { apply (SearchFacts.step_route dirs maze width height
               (MazeGeneratorFacts.compass_unit _ dirs_compass)
               root path (x, y) (dx, dy)); auto.
      apply Hin. left. reflexivity. }
    destruct (IH (((x + dx, y + dy), path ++ [(x + dx, y + dy)]) :: visited)
                (queue ++ [((x + dx, y + dy), path ++ [(x + dx, y + dy)])]) Hin')
      as (H1 & H2 & H3).
    + intros c p [Hc | Hc]; [injection Hc as <- <-; exact Hn | apply Hv; exact Hc].
    + intros c p Hc. apply in_app_or in Hc.
      destruct Hc as [Hc | [Hc | []]]; [apply Hq; exact Hc|].
      injection Hc as <- <-. exact Hn.
    + split; [exact H1|]. split; [exact H2|].
      eapply Nat.le_trans; [exact H3|].
      pose proof (unseen_cons_lt (zone width height) (map fst visited)
                    (x + dx, y + dy) (open_cell_zone _ _ _ _ Eo) Em) as Hlt.
      rewrite length_app. cbn [length map fst]. unfold cell in *. lia.
Qed.

Variables start goal : cell.

Lemma bidi_loop_spec :
  forall fuel fq fv bq bv n,
    all_routes maze width height start fq ->
    all_routes maze width height start fv ->
    all_routes maze width height goal bq ->
    all_routes maze width height goal bv ->
    (length fq + unseen (zone width height) (map fst fv)
     + (length bq + unseen (zone width height) (map fst bv)) < fuel)%nat ->
    exists f,
      bidi_loop dirs maze width height fuel fq fv bq bv n = Some f
      /\ (open_cell maze width height goal = true ->
          forall p, fst f = Some p -> route maze width height start p goal).
Proof.
  induction fuel as [|fuel IH]; intros fq fv bq bv n Hfq Hfv Hbq Hbv Hm; [lia|].
  cbn [bidi_loop].
  destruct fq as [|[[x y] path] fq].
  - destruct bq as [|[[bx by_] bpath] bq].
    + eexists. split; [reflexivity|]. discriminate.
    + unfold bidi_step.
      destruct (lookup (bx, by_) fv) as [fpath|] eqn:El.
      * eexists. split; [reflexivity|]. cbn [fst]. intros Hg p [= <-].
        apply lookup_In in El.
        apply (meet maze width height start goal fpath bpath (bx, by_) Hg).
        -- apply Hfv. exact El.
        -- apply Hbq. left. reflexivity.
      * unfold bidi_expand.
        destruct (bidi_expand_spec goal bx by_ bpath
                    (Hbq _ _ (or_introl eq_refl)) dirs bv bq (fun d H => H) Hbv
                    (fun c q H => Hbq c q (or_intror H))) as (H1 & H2 & H3).
        destruct (fold_left _ dirs (bv, bq)) as [v' q']. cbn [fst snd] in *.
        apply IH; auto. cbn [length] in *. unfold cell in *. lia.
  - unfold bidi_step at 1.
    destruct (lookup (x, y) bv) as [bpath'|] eqn:El.
    + eexists. split; [reflexivity|]. cbn [fst]. intros Hg p [= <-].
      apply lookup_In in El.
      apply (meet maze width height start goal path bpath' (x, y) Hg).
      * apply Hfq. left. reflexivity.
      * apply Hbv. exact El.
    + unfold bidi_expand at 1.
      destruct (bidi_expand_spec start x y path
                  (Hfq _ _ (or_introl eq_refl)) dirs fv fq (fun d H => H) Hfv
                  (fun c q H => Hfq c q (or_intror H))) as (F1 & F2 & F3).
      destruct (fold_left _ dirs (fv, fq)) as [fv' fq']. cbn [fst snd] in *.
      destruct bq as [|[[bx by_] bpath] bq].
      * apply IH; auto. cbn [length] in *. unfold cell in *. lia.
      * unfold bidi_step.
        destruct (lookup (bx, by_) fv') as [fpath|] eqn:El'.
        -- eexists. split; [reflexivity|]. cbn [fst]. intros Hg p [= <-].
           apply lookup_In in El'.
           apply (meet maze width height start goal fpath bpath (bx, by_) Hg).
           ++ apply F1. exact El'.
           ++ apply Hbq. left. reflexivity.
        -- unfold bidi_expand.
           destruct (bidi_expand_spec goal bx by_ bpath
                       (Hbq _ _ (or_introl eq_refl)) dirs bv bq (fun d H => H) Hbv
                       (fun c q H => Hbq c q (or_intror H))) as (H1 & H2 & H3).
           destruct (fold_left _ dirs (bv, bq)) as [v' q']. cbn [fst snd] in *.
           apply IH; auto. cbn [length] in *. unfold cell in *. lia.
Qed.

Lemma bidirectional_spec :
  exists f,
    _bidirectional dirs maze width height start goal = Some f
    /\ (open_cell maze width height goal = true ->
        forall p, fst f = Some p -> route maze width height start p goal).
Proof.
  unfold _bidirectional. destruct (cell_eqb start goal) eqn:E.
  - eexists. split; [reflexivity|]. cbn [fst]. intros _ p [= <-].
    apply cell_eqb_eq in E. subst goal. apply route_start.
  - apply bidi_loop_spec.
    + intros c p [[= <- <-] | []]. apply route_start.
    + intros c p [[= <- <-] | []]. apply route_start.
    + intros c p [[= <- <-] | []]. apply route_start.
    + intros c p [[= <- <-] | []]. apply route_start.
    + unfold budget.
      pose proof (unseen_le (zone width height) [start]) as H1.
      pose proof (unseen_le (zone width height) [goal]) as H2.
      rewrite zone_length in *. cbn [length map fst]. lia.
Qed.

End Bidi.

End BidiFacts.

Module FindPathFacts.

Import Random PathFinder.

Section Ids.

Variable dirs : list (Z * Z).
Variable maze : grid.
Variables width height : Z.
Variables start goal : cell.
Hypothesis dirs_compass : compass dirs.

Lemma dls_route depth_limit p k :
  _dls dirs maze width height start goal depth_limit = (Some p, k) ->
  route maze width height start p goal.
Proof.
  unfold _dls, _dls_recursive. intros E.
  assert (Hr : route maze width height start [start] (fst start, snd start))
    by (rewrite surjective_cell; apply route_start).
  exact (proj1 (DlsFacts.dls_sound dirs maze width height start goal dirs_compass
                  _ _ _ _ _ _ _ Hr E)).
Qed.

Lemma ids_loop_route :
  forall count depth total p k,
    ids_loop dirs maze width height count depth start goal total = (Some p, k) ->
    route maze width height start p goal.
Proof.
  induction count as [|count IH]; intros depth total p k; cbn [ids_loop];
    [discriminate|].
  destruct (_dls dirs maze width height start goal depth) as [[q|] n] eqn:E.
  - intros [= <- <-]. eapply dls_route; eauto.
  - apply IH.
Qed.

End Ids.

End FindPathFacts.

(** X1.  Every strategy answers, and answers with a route.  On a grid whose
    rows all have the length of the first, with [GameConfig.DIRECTIONS] some
    order of the four unit steps, [find_path] returns for every algorithm
    name (each search loop ends within its budget); a path returned by BFS,
    UCS, DFS, DLS or IDS is a route from start to goal, and so is one
    returned by Bidirectional when the goal is an open cell. *)
Theorem find_path_returns_routes :
  forall dirs r start goal algorithm maze,
    compass dirs -> well_formed maze = true ->
    exists result nodes_explored r',
      PathFinder.find_path dirs r start goal algorithm maze
      = Some ((result, nodes_explored), r')
      /\ forall p,
           result = Some p ->
           algorithm <> "Bidirectional"%string
           \/ PathFinder.open_cell maze (maze_width maze)
                (Z.of_nat (length maze)) goal = true ->
           route maze (maze_width maze) (Z.of_nat (length maze)) start p goal.
Proof.
  intros dirs r start goal algorithm maze Hc _.
  set (width := maze_width maze). set (height := Z.of_nat (length maze)).
  assert (Hbfs : exists result nodes_explored,
             PathFinder._bfs dirs maze width height start goal
             = Some (result, nodes_explored)
             /\ forall p, result = Some p ->
                  route maze width height start p goal).
  { destruct (SearchFacts.bfs_finishes dirs maze width height start goal)
      as [[res n] E].
    exists res, n. split; [exact E|]. intros p ->.
    exact (SearchFacts.bfs_route dirs maze width height
             (MazeGeneratorFacts.compass_unit _ Hc) start goal p n E). }
  unfold PathFinder.find_path. fold width height.
  destruct (String.eqb algorithm "BFS").
  { destruct Hbfs as (res & n & -> & H). exists res, n, r. split; auto. }
  destruct (String.eqb algorithm "UCS").
  { destruct (UcsDfsFacts.ucs_spec dirs maze width height start Hc goal)
      as ([res n] & -> & H).
    exists res, n, r. split; auto. }
  destruct (String.eqb algorithm "DFS").
  { destruct (UcsDfsFacts.dfs_spec dirs maze width height start Hc goal r)
      as ([res n] & r' & -> & H).
    exists res, n, r'. split; auto. }
  destruct (String.eqb algorithm "DLS").
  { destruct (PathFinder._dls dirs maze width height start goal 50)
      as [res n] eqn:E.
    exists res, n, r. split; [reflexivity|]. intros p -> _.
    eapply FindPathFacts.dls_route; eauto. }
  destruct (String.eqb algorithm "IDS").
  { destruct (PathFinder._ids dirs maze width height start goal 100)
      as [res n] eqn:E.
    exists res, n, r. split; [reflexivity|]. intros p -> _.
    eapply FindPathFacts.ids_loop_route; eauto. }
  destruct (String.eqb algorithm "Bidirectional") eqn:Eb.
  { apply String.eqb_eq in Eb. subst algorithm.
    destruct (BidiFacts.bidirectional_spec dirs maze width height Hc start goal)
      as ([res n] & -> & H).
    exists res, n, r. split; [reflexivity|]. intros p -> [Hne | Ho];
      [congruence|]. apply H; auto. }
  destruct Hbfs as (res & n & -> & H). exists res, n, r. split; auto.
Qed.

Lemma find_path_returns_routes_witness :
  (compass GameConfig.DIRECTIONS /\ well_formed ring = true)
  /\ exists result nodes_explored r',
      PathFinder.find_path GameConfig.DIRECTIONS (tape [2; 1; 3]%nat)
        (1, 1) (5, 5) "DFS" ring
      = Some ((result, nodes_explored), r')
      /\ forall p,
           result = Some p ->
           "DFS"%string <> "Bidirectional"%string
           \/ PathFinder.open_cell ring (maze_width ring)
                (Z.of_nat (length ring)) (5, 5) = true ->
           route ring (maze_width ring) (Z.of_nat (length ring)) (1, 1) p (5, 5).
Proof.
  split; [split; [apply Permutation_refl | reflexivity]|].
  apply find_path_returns_routes; [apply Permutation_refl | reflexivity].
Defined.

(** ** path_finding.py: shortest routes *)

Module SideFacts.

Import PathFinder.

Lemma dirs_nodup dirs : compass dirs -> NoDup dirs.
Proof.
  intros H. apply (Permutation_NoDup H).
  unfold GameConfig.DIRECTIONS.
  repeat constructor; simpl; intuition discriminate.
Qed.

Lemma dirs_opposite dirs d :
  compass dirs -> In d dirs -> In (- fst d, - snd d) dirs.
Proof.
  intros Hc Hd. apply (Permutation_in _ Hc).
  apply (Permutation_in _ (Permutation_sym Hc)) in Hd.
  unfold GameConfig.DIRECTIONS in *. simpl in *.
  destruct Hd as [<-|[<-|[<-|[<-|[]]]]]; simpl; auto.
Qed.

Section Expand.

Variable dirs : list (Z * Z).
Variable maze : grid.
Variables width height : Z.
Hypothesis dirs_compass : compass dirs.

Lemma shift_injective (c : cell) (d1 d2 : Z * Z) :
  (fst c + fst d1, snd c + snd d1) = (fst c + fst d2, snd c + snd d2) ->
  d1 = d2.
Proof.
  destruct d1, d2. cbn [fst snd]. intros [= H1 H2]. f_equal; lia.
Qed.

Lemma fresh_neighbours_In c keys n :
  In n (fresh_neighbours dirs maze width height c keys) <->
  (exists d, In d dirs /\ n = (fst c + fst d, snd c + snd d))
  /\ open_cell maze width height n = true /\ ~ In n keys.
Proof.
  unfold fresh_neighbours. rewrite filter_In, in_map_iff, andb_true_iff,
    negb_true_iff, mem_not_In.
  split.
  - intros [(d & <- & Hd) H]. split; [exists d; auto | exact H].
  - intros [(d & Hd & ->) H]. split; [exists d; auto | exact H].
Qed.

Lemma fresh_neighbours_nodup c keys :
  NoDup (fresh_neighbours dirs maze width height c keys).
Proof.
  unfold fresh_neighbours. apply NoDup_filter.
  apply Finite.Injective_map_NoDup; [|apply dirs_nodup; exact dirs_compass].
  intros d1 d2. apply shift_injective.
Qed.

(** The loop body of [_bfs] over the directions, in closed form. *)
Lemma bfs_expand_closed x y path :
  forall ds visited queue,
    NoDup ds ->
    bfs_expand ds maze width height x y path visited queue
    = (rev (fresh_neighbours ds maze width height (x, y) visited) ++ visited,
       queue ++ map (entry path)
                  (fresh_neighbours ds maze width height (x, y) visited)).
Proof.
  unfold bfs_expand.
  induction ds as [|[dx dy] ds IH]; intros visited queue Hnd; cbn [fold_left].
  - unfold fresh_neighbours. simpl. rewrite app_nil_r. reflexivity.
  - inversion Hnd as [|? ? Hnotin Hnd']; subst.
    unfold fresh_neighbours at 1 2. cbn [map filter fst snd].
    destruct (open_cell maze width height (x + dx, y + dy)
              && negb (mem (x + dx, y + dy) visited)) eqn:E.
    + rewrite IH by assumption.
      assert (Hsame : fresh_neighbours ds maze width height (x, y)
                        ((x + dx, y + dy) :: visited)
                      = fresh_neighbours ds maze width height (x, y) visited).
      { unfold fresh_neighbours. apply filter_ext_in. intros n Hn.
        cbn [mem]. apply in_map_iff in Hn. destruct Hn as (d & <- & Hd).
        replace (cell_eqb (fst (x, y) + fst d, snd (x, y) + snd d) (x + dx, y + dy))
          with false; [reflexivity|].
        symmetry. apply cell_eqb_neq. intros Heq.
        apply (shift_injective (x, y) d (dx, dy)) in Heq. subst d. contradiction. }
      rewrite Hsame. cbn [rev map]. rewrite <- !app_assoc. reflexivity.
    + apply IH. assumption.
Qed.

(** The same for the visited map of [_bidirectional]. *)
Lemma bidi_expand_closed x y path :
  forall ds visited queue,
    NoDup ds ->
    bidi_expand ds maze width height x y path visited queue
    = (rev (map (entry path)
              (fresh_neighbours ds maze width height (x, y) (map fst visited)))
         ++ visited,
       queue ++ map (entry path)
                  (fresh_neighbours ds maze width height (x, y) (map fst visited))).
Proof.
  unfold bidi_expand.
  induction ds as [|[dx dy] ds IH]; intros visited queue Hnd; cbn [fold_left].
  - unfold fresh_neighbours. simpl. rewrite app_nil_r. reflexivity.
  - inversion Hnd as [|? ? Hnotin Hnd']; subst.
    unfold fresh_neighbours at 1 2. cbn [map filter fst snd].
    destruct (open_cell maze width height (x + dx, y + dy)
              && negb (mem (x + dx, y + dy) (map fst visited))) eqn:E.
    + rewrite IH by assumption.
      change (map fst (((x + dx, y + dy), path ++ [(x + dx, y + dy)]) :: visited))
        with ((x + dx, y + dy) :: map fst visited).
      assert (Hsame : fresh_neighbours ds maze width height (x, y)
                        ((x + dx, y + dy) :: map fst visited)
                      = fresh_neighbours ds maze width height (x, y)
                          (map fst visited)).
      { unfold fresh_neighbours. apply filter_ext_in. intros n Hn.
        cbn [mem]. apply in_map_iff in Hn. destruct Hn as (d & <- & Hd).
        replace (cell_eqb (fst (x, y) + fst d, snd (x, y) + snd d) (x + dx, y + dy))
          with false; [reflexivity|].
        symmetry. apply cell_eqb_neq. intros Heq.
        apply (shift_injective (x, y) d (dx, dy)) in Heq. subst d. contradiction. }
      rewrite Hsame. cbn [rev map]. unfold entry at 3 6.
      rewrite <- !app_assoc. reflexivity.
    + apply IH. assumption.
Qed.

End Expand.

Lemma all_sorted {A : Type} (R : A -> A -> Prop) (l : list A) :
  (forall a b, In a l -> In b l -> R a b) -> StronglySorted R l.
Proof.
  induction l as [|x l IH]; intros H; constructor.
  - apply IH. intros a b Ha Hb. apply H; right; assumption.
  - apply Forall_forall. intros b Hb. apply H; [left; reflexivity | right; exact Hb].
Qed.

Lemma sorted_app {A : Type} (R : A -> A -> Prop) (l1 l2 : list A) :
  StronglySorted R l1 -> StronglySorted R l2 ->
  (forall a b, In a l1 -> In b l2 -> R a b) ->
  StronglySorted R (l1 ++ l2).
Proof.
  induction l1 as [|x l1 IH]; intros H1 H2 H; cbn [app]; [exact H2|].
  inversion H1 as [|? ? Hs Hf]; subst. constructor.
  - apply IH; [exact Hs | exact H2 |]. intros a b Ha Hb. apply H; [right|]; assumption.
  - apply Forall_app. split; [exact Hf|].
    apply Forall_forall. intros b Hb. apply H; [left; reflexivity | exact Hb].
Qed.

Lemma shift_back (u n : cell) :
  (fst u + (fst n - fst u), snd u + (snd n - snd u)) = n.
Proof. destruct u, n. cbn [fst snd]. f_equal; lia. Qed.

Section Side.

Variable dirs : list (Z * Z).
Variable maze : grid.
Variables width height : Z.
Variable root : cell.
Hypothesis dirs_compass : compass dirs.

Lemma keys_entries (p : list cell) (N : list cell) :
  map fst (map (entry p) N) = N.
Proof. rewrite map_map. cbn [entry fst]. apply map_id. Qed.

Lemma side_cells queue visited x :
  side dirs maze width height root queue visited ->
  In x (map fst queue) -> In x (map fst visited).
Proof.
  intros H Hx. apply in_map_iff in Hx. destruct Hx as (e & <- & He).
  apply in_map. apply (side_queue _ _ _ _ _ _ _ H). exact He.
Qed.

Lemma side_initial :
  side dirs maze width height root [(root, [root])] [(root, [root])].
Proof.
  split.
  - auto.
  - intros c p [[= <- <-]|[]]. split; [constructor|].
    intros q Hq. eapply RouteFacts.route_length_pos. exact Hq.
  - repeat constructor. simpl. tauto.
  - repeat constructor.
  - intros a b [<-|[]] [<-|[]]. simpl. lia.
  - intros u d [Hin Hn] _ _. exfalso. apply Hn. exact Hin.
  - left. reflexivity.
  - reflexivity.
  - intros u pu w pw [[= <- <-]|[]] Hr Hl. apply RouteFacts.route_length_pos in Hr.
    cbn [length] in Hl. lia.
Qed.

Lemma side_neighbour queue visited u w :
  side dirs maze width height root queue visited ->
  closed queue visited u ->
  unit_step (fst w - fst u, snd w - snd u) ->
  open_cell maze width height w = true ->
  In w (map fst visited).
Proof.
  intros H Hu Hstep Hopen.
  pose proof (side_closure _ _ _ _ _ _ _ H u (fst w - fst u, snd w - snd u) Hu) as Hc.
  cbn [fst snd] in Hc. rewrite shift_back in Hc. apply Hc; [|exact Hopen].
  apply DlsFacts.unit_step_compass; assumption.
Qed.

(** Every cell with a route shorter than the path at the head of the queue
    has been expanded. *)
Lemma side_head c p queue visited :
  side dirs maze width height root ((c, p) :: queue) visited ->
  forall pw w,
    route maze width height root pw w ->
    (length pw < length p)%nat ->
    closed ((c, p) :: queue) visited w.
Proof.
  intros H pw w Hr. induction Hr as [|pw u w Hr IH Hstep Hopen]; intros Hl.
  - split; [exact (side_root _ _ _ _ _ _ _ H)|].
    intros Hq. apply (side_root_queued _ _ _ _ _ _ _ H) in Hq.
    injection Hq as _ Hp _. subst p. cbn [length] in Hl. lia.
  - rewrite length_app in Hl. cbn [length] in Hl.
    assert (Hu : closed ((c, p) :: queue) visited u) by (apply IH; lia).
    assert (Hw : In w (map fst visited)).
    { apply (side_neighbour _ _ u w H Hu Hstep Hopen). }
    split; [exact Hw|].
    intros Hq. apply in_map_iff in Hq. destruct Hq as ([w' pq] & Hfst & Hq).
    cbn [fst] in Hfst. subst w'.
    assert (Hleast : least maze width height root w pq).
    { apply (side_least _ _ _ _ _ _ _ H). apply (side_queue _ _ _ _ _ _ _ H). exact Hq. }
    destruct Hleast as [_ Hmin].
    specialize (Hmin (pw ++ [w]) (route_step _ _ _ _ _ _ _ Hr Hstep Hopen)).
    rewrite length_app in Hmin. cbn [length] in Hmin.
    assert (Hhead : (length p <= length pq)%nat).
    { destruct Hq as [[= _ <-]|Hq]; [lia|].
      pose proof (side_sorted _ _ _ _ _ _ _ H) as Hs.
      inversion Hs as [|? ? _ Hf]; subst.
      rewrite Forall_forall in Hf. apply (Hf _ Hq). }
    lia.
Qed.

Section Step.

Variables (c : cell) (p : list cell).
Variables queue visited : list (cell * list cell).
Hypothesis before : side dirs maze width height root ((c, p) :: queue) visited.

Local Abbreviation N := (fresh_neighbours dirs maze width height c (map fst visited)).
Local Abbreviation queue' := (queue ++ map (entry p) N).
Local Abbreviation visited' := (rev (map (entry p) N) ++ visited).

Lemma step_keys : map fst visited' = rev N ++ map fst visited.
Proof.
  rewrite map_app, map_rev, keys_entries. reflexivity.
Qed.

Lemma step_cells : map fst queue' = map fst queue ++ N.
Proof. rewrite map_app, keys_entries. reflexivity. Qed.

Lemma head_visited : In (c, p) visited.
Proof. apply (side_queue _ _ _ _ _ _ _ before). left. reflexivity. Qed.

Lemma head_route : route maze width height root p c.
Proof. apply (side_least _ _ _ _ _ _ _ before _ _ head_visited). Qed.

Lemma head_once : ~ In c (map fst queue).
Proof.
  pose proof (side_nodup _ _ _ _ _ _ _ before) as H. cbn [map fst] in H.
  inversion H; assumption.
Qed.

Lemma closed_step w :
  closed queue' visited' w <-> closed ((c, p) :: queue) visited w \/ w = c.
Proof.
  unfold closed. rewrite step_keys, step_cells. cbn [map fst].
  rewrite !in_app_iff, <- in_rev.
  split.
  - intros [[HN|Hv] Hq]; [exfalso; apply Hq; right; exact HN|].
    destruct (cell_eq_dec w c) as [->|Hne]; [right; reflexivity|left].
    split; [exact Hv|]. intros [Hc|Hq']; [congruence|]. apply Hq. left. exact Hq'.
  - intros [[Hv Hq]| ->].
    + split; [right; exact Hv|]. intros [Hq'|HN].
      * apply Hq. right. exact Hq'.
      * apply fresh_neighbours_In in HN. tauto.
    + split.
      * right. apply (in_map fst _ _ head_visited).
      * intros [Hq'|HN]; [exact (head_once Hq')|].
        apply fresh_neighbours_In in HN. destruct HN as (_ & _ & HN).
        apply HN. apply (in_map fst _ _ head_visited).
Qed.

Lemma entry_least n :
  In n N -> least maze width height root n (p ++ [n]).
Proof.
  intros Hn. apply fresh_neighbours_In in Hn.
  destruct Hn as ((d & Hd & ->) & Hopen & Hnew). split.
  - apply (SearchFacts.step_route dirs maze width height
             (MazeGeneratorFacts.compass_unit _ dirs_compass));
      [exact head_route | exact Hd | exact Hopen].
  - intros q Hq. rewrite length_app. cbn [length].
    remember (fst c + fst d, snd c + snd d) as n eqn:En.
    destruct Hq as [|q' u n Hq' Hstep Hopen'].
    + exfalso. apply Hnew. exact (side_root _ _ _ _ _ _ _ before).
    + rewrite length_app. cbn [length].
      destruct (Nat.lt_ge_cases (length q') (length p)) as [Hlt|Hge]; [|lia].
      exfalso. apply Hnew.
      pose proof (side_head _ _ _ _ before _ _ Hq' Hlt) as Hu.
      apply (side_neighbour _ _ u n before Hu Hstep Hopen).
Qed.

Lemma head_band e :
  In e queue -> (length p <= length (snd e) <= length p + 1)%nat.
Proof.
  intros He. split.
  - pose proof (side_sorted _ _ _ _ _ _ _ before) as Hs.
    inversion Hs as [|? ? _ Hf]; subst.
    rewrite Forall_forall in Hf. apply (Hf _ He).
  - apply (side_band _ _ _ _ _ _ _ before (c, p) e); [left; reflexivity | right; exact He].
Qed.

Lemma step_band e :
  In e queue' -> (length p <= length (snd e) <= length p + 1)%nat.
Proof.
  rewrite in_app_iff, in_map_iff.
  intros [He|(n & <- & _)]; [apply head_band; exact He|].
  cbn [entry snd]. rewrite length_app. cbn [length]. lia.
Qed.

Lemma step_root_gone : ~ In root (map fst queue').
Proof.
  rewrite step_cells, in_app_iff. intros [Hq|HN].
  - assert (Hq' : In root (map fst ((c, p) :: queue))) by (right; exact Hq).
    apply (side_root_queued _ _ _ _ _ _ _ before) in Hq'.
    injection Hq' as _ _ Hnil. subst queue. destruct Hq.
  - apply fresh_neighbours_In in HN. destruct HN as (_ & _ & HN).
    apply HN. exact (side_root _ _ _ _ _ _ _ before).
Qed.

(** One iteration of the loop keeps the invariant. *)
Lemma side_step : side dirs maze width height root queue' visited'.
Proof.
  split.
  - intros e. rewrite !in_app_iff, <- in_rev.
    intros [He|He]; [right|left; exact He].
    apply (side_queue _ _ _ _ _ _ _ before). right. exact He.
  - intros x px. rewrite in_app_iff, <- in_rev, in_map_iff.
    intros [(n & [= <- <-] & Hn)|Hv].
    + apply entry_least. exact Hn.
    + apply (side_least _ _ _ _ _ _ _ before). exact Hv.
  - rewrite step_cells. apply NoDup_app.
    + pose proof (side_nodup _ _ _ _ _ _ _ before) as H. inversion H; assumption.
    + apply fresh_neighbours_nodup. exact dirs_compass.
    + intros a Ha HN. apply fresh_neighbours_In in HN. destruct HN as (_ & _ & HN).
      apply HN. apply (side_cells _ _ _ before). right. exact Ha.
  - apply sorted_app.
    + pose proof (side_sorted _ _ _ _ _ _ _ before) as Hs. inversion Hs; assumption.
    + apply all_sorted. intros a b Ha Hb.
      apply in_map_iff in Ha. destruct Ha as (na & <- & _).
      apply in_map_iff in Hb. destruct Hb as (nb & <- & _).
      cbn [entry snd]. rewrite !length_app. cbn [length]. lia.
    + intros a b Ha Hb. apply head_band in Ha.
      apply in_map_iff in Hb. destruct Hb as (nb & <- & _).
      cbn [entry snd]. rewrite length_app. cbn [length]. lia.
  - intros a b Ha Hb. apply step_band in Ha. apply step_band in Hb. lia.
  - intros u d Hu Hd Hopen. rewrite step_keys, in_app_iff, <- in_rev.
    apply closed_step in Hu. destruct Hu as [Hu| ->].
    + right. apply (side_closure _ _ _ _ _ _ _ before u d Hu Hd Hopen).
    + destruct (mem (fst c + fst d, snd c + snd d) (map fst visited)) eqn:E.
      * right. apply mem_In. exact E.
      * left. apply fresh_neighbours_In. split; [exists d; auto|].
        split; [exact Hopen|]. apply mem_not_In. exact E.
  - rewrite step_keys, in_app_iff. right. exact (side_root _ _ _ _ _ _ _ before).
  - intros Hq. exfalso. exact (step_root_gone Hq).
  - intros u pu w pw. rewrite in_app_iff, <- in_rev, in_map_iff.
    intros [(n & [= <- <-] & Hn)|Hv] Hr Hl; apply closed_step; left.
    + rewrite length_app in Hl. cbn [length] in Hl.
      apply (side_head _ _ _ _ before _ _ Hr). lia.
    + apply (side_layers _ _ _ _ _ _ _ before u pu w pw Hv Hr Hl).
Qed.

End Step.

(** When the queue is empty every cell that has a route has been expanded. *)
Lemma side_done visited :
  side dirs maze width height root [] visited ->
  forall pw w, route maze width height root pw w -> closed [] visited w.
Proof.
  intros H pw w Hr. induction Hr as [|pw u w Hr IH Hstep Hopen].
  - split; [exact (side_root _ _ _ _ _ _ _ H) | intros []].
  - split; [|intros []].
    apply (side_neighbour _ _ u w H IH Hstep Hopen).
Qed.

End Side.

Section Bfs.

Variable dirs : list (Z * Z).
Variable maze : grid.
Variables width height : Z.
Variables start goal : cell.
Hypothesis dirs_compass : compass dirs.

(** [_bfs] keeps only the cells of the visited map; the paths are the ones
    that were queued with them. *)
Lemma bfs_loop_least :
  forall fuel queue visited n f,
    side dirs maze width height start queue visited ->
    ~ closed queue visited goal ->
    bfs_loop dirs maze width height fuel goal queue (map fst visited) n = Some f ->
    match fst f with
    | Some p => least maze width height start goal p
    | None => forall q, ~ route maze width height start q goal
    end.
Proof.
  induction fuel as [|fuel IH]; intros queue visited n f Hs Hg; [discriminate|].
  cbn [bfs_loop]. destruct queue as [|[[x y] path] queue].
  - intros [= <-]. cbn [fst]. intros q Hq. apply Hg.
    apply (side_done dirs maze width height start dirs_compass visited Hs q goal Hq).
  - destruct (cell_eqb (x, y) goal) eqn:E.
    + intros [= <-]. cbn [fst]. apply cell_eqb_eq in E. subst goal.
      apply (side_least _ _ _ _ _ _ _ Hs).
      apply (side_queue _ _ _ _ _ _ _ Hs). left. reflexivity.
    + rewrite (bfs_expand_closed maze width height x y path dirs
                 (map fst visited) queue (dirs_nodup dirs dirs_compass)).
      rewrite <- (step_keys dirs maze width height (x, y) path visited).
      apply IH.
      * apply side_step; assumption.
      * intros Hc.
        apply (proj1 (closed_step dirs maze width height start _ _ _ _ Hs goal)) in Hc.
        destruct Hc as [Hc|Hc]; [exact (Hg Hc)|].
        apply cell_eqb_neq in E. congruence.
Qed.

(** [_bfs] returns a shortest route, or nothing when there is no route. *)
Lemma bfs_least :
  exists f,
    _bfs dirs maze width height start goal = Some f
    /\ match fst f with
       | Some p => least maze width height start goal p
       | None => forall q, ~ route maze width height start q goal
       end.
Proof.
  destruct (SearchFacts.bfs_finishes dirs maze width height start goal) as [f Hf].
  exists f. split; [exact Hf|].
  unfold _bfs in Hf.
  apply (bfs_loop_least (budget width height)
           [(start, [start])] [(start, [start])] 0 f).
  - apply side_initial.
  - intros [Hin Hn]. exact (Hn Hin).
  - exact Hf.
Qed.

End Bfs.

Lemma removelast_length {A : Type} (l : list A) :
  length (removelast l) = pred (length l).
Proof.
  induction l as [|a l IH]; [reflexivity|].
  destruct l as [|b l]; [reflexivity|].
  change (removelast (a :: b :: l)) with (a :: removelast (b :: l)).
  cbn [length] in *. rewrite IH. reflexivity.
Qed.

Lemma lookup_none c m : lookup c m = None -> ~ In c (map fst m).
Proof.
  induction m as [|[k v] m IH]; cbn [lookup map fst]; [tauto|].
  destruct (cell_eqb c k) eqn:E; [discriminate|].
  intros H [Hk|Hin]; [|exact (IH H Hin)].
  apply cell_eqb_neq in E. congruence.
Qed.

Section Routes.

Variable maze : grid.
Variables width height : Z.

Lemma route_last_open s p c :
  route maze width height s p c ->
  c = s \/ open_cell maze width height c = true.
Proof. intros [|]; auto. Qed.

Lemma route_single s p c :
  route maze width height s p c -> length p = 1%nat -> c = s.
Proof.
  intros [|p' u n Hr _ _]; [reflexivity|].
  rewrite length_app. cbn [length]. apply RouteFacts.route_length_pos in Hr. lia.
Qed.

(** A step changes one coordinate by one: the cells of a route alternate
    between the two colours of the chessboard. *)
Lemma route_parity s p c :
  route maze width height s p c ->
  (Z.of_nat (length p) + fst c + snd c - fst s - snd s) mod 2 = 1.
Proof.
  induction 1 as [|p u n Hr IH Hstep _].
  - cbn [length]. replace (Z.of_nat 1 + fst s + snd s - fst s - snd s) with 1 by lia.
    reflexivity.
  - rewrite length_app, Nat2Z.inj_add. cbn [length].
    unfold unit_step in Hstep. cbn [fst snd] in Hstep.
    revert IH Hstep. generalize (Z.of_nat (length p)). intros z IH Hstep.
    change (Z.of_nat 1) with 1. zlia.
Qed.

Lemma route_split s q g :
  route maze width height s q g ->
  forall k, (1 <= k < length q)%nat ->
    exists q1 v w l2,
      q = q1 ++ w :: l2
      /\ route maze width height s q1 v
      /\ length q1 = k
      /\ unit_step (fst w - fst v, snd w - snd v)
      /\ open_cell maze width height w = true
      /\ hops maze width height w l2
      /\ last l2 w = g.
Proof.
  induction 1 as [|q u n Hr IH Hstep Hopen]; intros k Hk.
  - cbn [length] in Hk. lia.
  - rewrite length_app in Hk. cbn [length] in Hk.
    destruct (Nat.eq_dec k (length q)) as [->|Hne].
    + exists q, u, n, []. cbn [hops last]. auto 10.
    + destruct (IH k) as (q1 & v & w & l2 & -> & H1 & H2 & H3 & H4 & H5 & H6); [lia|].
      exists q1, v, w, (l2 ++ [n]). rewrite <- app_assoc. cbn [app].
      split; [reflexivity|]. split; [exact H1|]. split; [exact H2|].
      split; [exact H3|]. split; [exact H4|]. split.
      * apply RouteFacts.hops_snoc; [exact H5 | rewrite H6; exact Hstep | exact Hopen].
      * apply last_last.
Qed.

Lemma route_turn w l g :
  hops maze width height w l -> last l w = g ->
  open_cell maze width height w = true ->
  exists pb, route maze width height g pb w /\ length pb = S (length l).
Proof.
  intros Hh Hg Hopen.
  destruct (BidiFacts.hops_reverse maze width height l w Hopen Hh) as [H1 H2].
  rewrite Hg in H1, H2.
  exists (g :: rev (removelast (w :: l))). split.
  - apply RouteFacts.route_hops. exists (rev (removelast (w :: l))). auto.
  - cbn [length]. rewrite length_rev, removelast_length. reflexivity.
Qed.

(** A route walked backwards, when its first cell is open too. *)
Lemma route_back s q g :
  route maze width height s q g ->
  open_cell maze width height s = true ->
  exists pb, route maze width height g pb s /\ length pb = length q.
Proof.
  intros Hr Hopen. apply RouteFacts.route_hops in Hr.
  destruct Hr as (rest & -> & Hh & Hl).
  destruct (route_turn s rest g Hh Hl Hopen) as (pb & H1 & H2).
  exists pb. split; [exact H1|]. rewrite H2. reflexivity.
Qed.

(** A route cut after its [k]-th cell: the part before the cut, and the part
    after it walked from the far end. *)
Lemma route_cut s q g :
  route maze width height s q g ->
  forall k, (1 <= k < length q)%nat ->
    exists v w pf pb,
      route maze width height s pf v /\ length pf = k
      /\ route maze width height g pb w /\ (length pb + k = length q)%nat
      /\ unit_step (fst w - fst v, snd w - snd v).
Proof.
  intros Hr k Hk.
  destruct (route_split s q g Hr k Hk)
    as (q1 & v & w & l2 & -> & H1 & H2 & H3 & H4 & H5 & H6).
  destruct (route_turn w l2 g H5 H6 H4) as (pb & Hb1 & Hb2).
  exists v, w, q1, pb. rewrite length_app. cbn [length].
  repeat (split; [assumption|]). split; [lia | exact H3].
Qed.

End Routes.

Section Bidirectional.

Variable dirs : list (Z * Z).
Variable maze : grid.
Variables width height : Z.
Variables start goal : cell.
Hypothesis dirs_compass : compass dirs.
Hypothesis goal_open : open_cell maze width height goal = true.
Hypothesis distinct : start <> goal.

Lemma unit_step_opposite (a b : cell) :
  unit_step (fst b - fst a, snd b - snd a) ->
  unit_step (fst a - fst b, snd a - snd b).
Proof. unfold unit_step. cbn [fst snd]. lia. Qed.

Lemma apart_initial :
  apart start goal [(start, [start])] [(start, [start])]
    [(goal, [goal])] [(goal, [goal])].
Proof.
  split.
  - intros _ n [Hin Hn]. exact (Hn Hin).
  - intros c n [Hin Hn]. contradiction.
  - intros [Hin Hn]. exact (Hn Hin).
  - intros [Hin Hn]. exact (Hn Hin).
Qed.

(** The forward side expands a cell the backward side has not reached. *)
Lemma forward_step_apart c p fq fv bq bv :
  side dirs maze width height start ((c, p) :: fq) fv ->
  side dirs maze width height goal bq bv ->
  apart start goal ((c, p) :: fq) fv bq bv ->
  ~ In c (map fst bv) ->
  apart start goal
    (fq ++ map (entry p) (fresh_neighbours dirs maze width height c (map fst fv)))
    (rev (map (entry p) (fresh_neighbours dirs maze width height c (map fst fv)))
       ++ fv)
    bq bv.
Proof.
  intros Hf Hb Ha Hc. split.
  - intros Hin. exfalso.
    exact (step_root_gone dirs maze width height start c p fq fv Hf Hin).
  - intros c0 n Hc0 Hn Hstep.
    apply (proj1 (closed_step dirs maze width height start _ _ _ _ Hf c0)) in Hc0.
    destruct Hc0 as [Hc0| ->]; [exact (apart_step _ _ _ _ _ _ Ha c0 n Hc0 Hn Hstep)|].
    assert (Hr : route maze width height start p c).
    { apply (side_least _ _ _ _ _ _ _ Hf). apply (side_queue _ _ _ _ _ _ _ Hf).
      left. reflexivity. }
    apply route_last_open in Hr. destruct Hr as [->|Hopen].
    + apply (apart_first _ _ _ _ _ _ Ha (or_introl eq_refl) n Hn).
    + apply Hc.
      apply (side_neighbour dirs maze width height goal dirs_compass bq bv n c Hb Hn);
        [|exact Hopen].
      apply unit_step_opposite. exact Hstep.
  - intros Hg.
    apply (proj1 (closed_step dirs maze width height start _ _ _ _ Hf goal)) in Hg.
    destruct Hg as [Hg| ->]; [exact (apart_goal _ _ _ _ _ _ Ha Hg)|].
    apply Hc. exact (side_root _ _ _ _ _ _ _ Hb).
  - exact (apart_start _ _ _ _ _ _ Ha).
Qed.

(** The backward side expands a cell the forward side has not reached. *)
Lemma backward_step_apart n p fq fv bq bv :
  side dirs maze width height start fq fv ->
  side dirs maze width height goal ((n, p) :: bq) bv ->
  apart start goal fq fv ((n, p) :: bq) bv ->
  ~ In start (map fst fq) ->
  ~ In n (map fst fv) ->
  apart start goal fq fv
    (bq ++ map (entry p) (fresh_neighbours dirs maze width height n (map fst bv)))
    (rev (map (entry p) (fresh_neighbours dirs maze width height n (map fst bv)))
       ++ bv).
Proof.
  intros Hf Hb Ha Hs Hn. split.
  - intros Hin. contradiction.
  - intros c0 n0 Hc0 Hn0 Hstep.
    apply (proj1 (closed_step dirs maze width height goal _ _ _ _ Hb n0)) in Hn0.
    destruct Hn0 as [Hn0| ->]; [exact (apart_step _ _ _ _ _ _ Ha c0 n0 Hc0 Hn0 Hstep)|].
    assert (Hr : route maze width height goal p n).
    { apply (side_least _ _ _ _ _ _ _ Hb). apply (side_queue _ _ _ _ _ _ _ Hb).
      left. reflexivity. }
    assert (Hopen : open_cell maze width height n = true).
    { apply route_last_open in Hr. destruct Hr as [->|Hopen]; assumption. }
    apply Hn.
    apply (side_neighbour dirs maze width height start dirs_compass fq fv c0 n Hf Hc0
             Hstep Hopen).
  - exact (apart_goal _ _ _ _ _ _ Ha).
  - intros Hg.
    apply (proj1 (closed_step dirs maze width height goal _ _ _ _ Hb start)) in Hg.
    destruct Hg as [Hg| ->]; [exact (apart_start _ _ _ _ _ _ Ha Hg)|].
    apply Hn. exact (side_root _ _ _ _ _ _ _ Hf).
Qed.

Lemma joined_length (p bp : list cell) :
  (1 <= length bp)%nat ->
  (length (p ++ rev_but_last bp) + 1 = length p + length bp)%nat.
Proof.
  intros H. unfold rev_but_last.
  rewrite length_app, length_rev, removelast_length. lia.
Qed.

(** Two routes that meet and any route between the roots have lengths of
    matching parity. *)
Lemma meeting_parity u p bp q :
  route maze width height start p u ->
  route maze width height goal bp u ->
  route maze width height start q goal ->
  (length q + 1 < length p + length bp)%nat ->
  (length q + 3 <= length p + length bp)%nat.
Proof.
  intros Hp Hb Hq Hlt.
  apply route_parity in Hp, Hb, Hq.
  revert Hp Hb Hq. unfold cell in *.
  generalize (fst u) (snd u) (fst start) (snd start) (fst goal) (snd goal).
  intros. zlia.
Qed.

(** The path returned when the forward side pops a cell that the backward
    side has reached is no longer than any route. *)
Lemma forward_meeting u p fq fv bq bv bp :
  side dirs maze width height start ((u, p) :: fq) fv ->
  side dirs maze width height goal bq bv ->
  apart start goal ((u, p) :: fq) fv bq bv ->
  In (u, bp) bv ->
  forall q, route maze width height start q goal ->
    (length (p ++ rev_but_last bp) <= length q)%nat.
Proof.
  intros Hf Hb Ha Hin q Hq.
  assert (Hp : least maze width height start u p).
  { apply (side_least _ _ _ _ _ _ _ Hf). apply (side_queue _ _ _ _ _ _ _ Hf).
    left. reflexivity. }
  assert (Hbp : least maze width height goal u bp)
    by (apply (side_least _ _ _ _ _ _ _ Hb); exact Hin).
  destruct Hp as [Hp Hpmin]. destruct Hbp as [Hbp Hbmin].
  pose proof (RouteFacts.route_length_pos _ _ _ _ _ _ Hp) as HP.
  pose proof (RouteFacts.route_length_pos _ _ _ _ _ _ Hbp) as HB.
  pose proof (joined_length p bp HB) as Hlen.
  destruct (Nat.le_gt_cases (length p + length bp) (length q + 1)) as [|Hlt]; [lia|].
  exfalso.
  pose proof (meeting_parity u p bp q Hp Hbp Hq Hlt) as Hpar.
  assert (HQ : (2 <= length q)%nat).
  { pose proof (RouteFacts.route_length_pos _ _ _ _ _ _ Hq).
    destruct (Nat.eq_dec (length q) 1) as [E|]; [|lia].
    apply route_single in Hq; [|exact E]. congruence. }
  destruct (Nat.eq_dec (length bp) 1) as [EB|NB].
  { (* the forward side reached the goal itself *)
    assert (u = goal) by (apply (route_single _ _ _ _ _ _ Hbp EB)). subst u.
    specialize (Hpmin q Hq). lia. }
  destruct (Nat.eq_dec (length bp) 2) as [EB|NB2].
  { apply (apart_goal _ _ _ _ _ _ Ha).
    apply (side_head dirs maze width height start dirs_compass u p fq fv Hf q goal Hq).
    lia. }
  destruct (Nat.eq_dec (length p) 1) as [EP|NP].
  { (* the backward side reached the start *)
    assert (u = start) by (apply (route_single _ _ _ _ _ _ Hp EP)). subst u.
    assert (Hopen : open_cell maze width height start = true).
    { destruct (route_last_open _ _ _ _ _ _ Hbp) as [E|E]; [congruence|exact E]. }
    destruct (route_back _ _ _ _ _ _ Hq Hopen) as (pb & Hb1 & Hb2).
    specialize (Hbmin pb Hb1). lia. }
  set (k := if (length bp <=? length q + 1)%nat
            then (length q + 2 - length bp)%nat else 1%nat).
  assert (Hk : (1 <= k < length q)%nat
               /\ (k < length p)%nat
               /\ (length q - k + 1 < length bp)%nat).
  { unfold k. destruct (Nat.leb_spec (length bp) (length q + 1)); lia. }
  destruct Hk as (Hk1 & Hk2 & Hk3).
  destruct (route_cut _ _ _ _ _ _ Hq k Hk1)
    as (v & w & pf & pb & Hpf & Hlf & Hpb & Hlb & Hstep).
  apply (apart_step _ _ _ _ _ _ Ha v w); [| |exact Hstep].
  - apply (side_head dirs maze width height start dirs_compass u p fq fv Hf pf v Hpf).
    lia.
  - apply (side_layers _ _ _ _ _ _ _ Hb u bp w pb Hin Hpb). lia.
Qed.

(** The same when the backward side pops a cell that the forward side has
    reached. *)
Lemma backward_meeting u p fq fv bq bv fp :
  side dirs maze width height start fq fv ->
  side dirs maze width height goal ((u, p) :: bq) bv ->
  apart start goal fq fv ((u, p) :: bq) bv ->
  ~ In start (map fst fq) ->
  In (u, fp) fv ->
  forall q, route maze width height start q goal ->
    (length (fp ++ rev_but_last p) <= length q)%nat.
Proof.
  intros Hf Hb Ha Hs Hin q Hq.
  assert (Hp : least maze width height goal u p).
  { apply (side_least _ _ _ _ _ _ _ Hb). apply (side_queue _ _ _ _ _ _ _ Hb).
    left. reflexivity. }
  assert (Hfp : least maze width height start u fp)
    by (apply (side_least _ _ _ _ _ _ _ Hf); exact Hin).
  destruct Hp as [Hp Hpmin]. destruct Hfp as [Hfp Hfmin].
  pose proof (RouteFacts.route_length_pos _ _ _ _ _ _ Hp) as HB.
  pose proof (RouteFacts.route_length_pos _ _ _ _ _ _ Hfp) as HP.
  pose proof (joined_length fp p HB) as Hlen.
  destruct (Nat.le_gt_cases (length fp + length p) (length q + 1)) as [|Hlt]; [lia|].
  exfalso.
  pose proof (meeting_parity u fp p q Hfp Hp Hq Hlt) as Hpar.
  assert (HQ : (2 <= length q)%nat).
  { pose proof (RouteFacts.route_length_pos _ _ _ _ _ _ Hq).
    destruct (Nat.eq_dec (length q) 1) as [E|]; [|lia].
    apply route_single in Hq; [|exact E]. congruence. }
  destruct (Nat.eq_dec (length fp) 1) as [EP|NP].
  { assert (u = start) by (apply (route_single _ _ _ _ _ _ Hfp EP)). subst u.
    assert (Hopen : open_cell maze width height start = true).
    { destruct (route_last_open _ _ _ _ _ _ Hp) as [E|E]; [congruence|exact E]. }
    destruct (route_back _ _ _ _ _ _ Hq Hopen) as (pb & Hb1 & Hb2).
    specialize (Hpmin pb Hb1). lia. }
  destruct (Nat.eq_dec (length p) 1) as [EB|NB].
  { assert (u = goal) by (apply (route_single _ _ _ _ _ _ Hp EB)). subst u.
    specialize (Hfmin q Hq). lia. }
  destruct (Nat.leb_spec (length p) (length q)) as [Hle|Hgt].
  - destruct (route_cut _ _ _ _ _ _ Hq (length q + 1 - length p)%nat)
      as (v & w & pf & pb & Hpf & Hlf & Hpb & Hlb & Hstep); [lia|].
    apply (apart_step _ _ _ _ _ _ Ha v w); [| |exact Hstep].
    + apply (side_layers _ _ _ _ _ _ _ Hf u fp v pf Hin Hpf). lia.
    + apply (side_head dirs maze width height goal dirs_compass u p bq bv Hb pb w Hpb).
      lia.
  - destruct (route_cut _ _ _ _ _ _ Hq 1%nat)
      as (v & w & pf & pb & Hpf & Hlf & Hpb & Hlb & Hstep); [lia|].
    apply (apart_step _ _ _ _ _ _ Ha v w); [| |exact Hstep].
    + assert (v = start) by (apply (route_single _ _ _ _ _ _ Hpf Hlf)). subst v.
      split; [exact (side_root _ _ _ _ _ _ _ Hf) | exact Hs].
    + apply (side_head dirs maze width height goal dirs_compass u p bq bv Hb pb w Hpb).
      lia.
Qed.

Lemma bidi_loop_least :
  forall fuel fq fv bq bv n f,
    side dirs maze width height start fq fv ->
    side dirs maze width height goal bq bv ->
    apart start goal fq fv bq bv ->
    bidi_loop dirs maze width height fuel fq fv bq bv n = Some f ->
    match fst f with
    | Some p => forall q, route maze width height start q goal ->
                          (length p <= length q)%nat
    | None => forall q, ~ route maze width height start q goal
    end.
Proof.
  assert (Hback : forall fuel,
    (forall fq fv bq bv n f,
        side dirs maze width height start fq fv ->
        side dirs maze width height goal bq bv ->
        apart start goal fq fv bq bv ->
        bidi_loop dirs maze width height fuel fq fv bq bv n = Some f ->
        match fst f with
        | Some p => forall q, route maze width height start q goal ->
                              (length p <= length q)%nat
        | None => forall q, ~ route maze width height start q goal
        end) ->
    forall fq fv x y path bq bv n f,
      side dirs maze width height start fq fv ->
      side dirs maze width height goal (((x, y), path) :: bq) bv ->
      apart start goal fq fv (((x, y), path) :: bq) bv ->
      ~ In start (map fst fq) ->
      match bidi_step dirs maze width height false x y path bq bv fv with
      | inl full_path => Some (Some full_path, n + 1)
      | inr (v, q) => bidi_loop dirs maze width height fuel fq fv q v (n + 1)
      end = Some f ->
      match fst f with
      | Some p => forall q, route maze width height start q goal ->
                            (length p <= length q)%nat
      | None => forall q, ~ route maze width height start q goal
      end).
  { intros fuel IH fq fv x y path bq bv n f Hf Hb Ha Hs.
    unfold bidi_step. destruct (lookup (x, y) fv) as [fp|] eqn:El.
    - intros [= <-]. cbn [fst]. apply BidiFacts.lookup_In in El.
      apply (backward_meeting (x, y) path fq fv bq bv fp Hf Hb Ha Hs El).
    - apply lookup_none in El.
      rewrite (bidi_expand_closed maze width height x y path dirs bv bq
                 (dirs_nodup dirs dirs_compass)).
      apply IH.
      + exact Hf.
      + apply side_step; assumption.
      + apply backward_step_apart; assumption. }
  induction fuel as [|fuel IH]; intros fq fv bq bv n f Hf Hb Ha; [discriminate|].
  cbn [bidi_loop]. destruct fq as [|[[x y] path] fq].
  - destruct bq as [|[[bx by_] bpath] bq].
    + intros [= <-]. cbn [fst]. intros q Hq.
      apply (apart_goal _ _ _ _ _ _ Ha).
      apply (side_done dirs maze width height start dirs_compass fv Hf q goal Hq).
    + apply (Hback fuel IH); auto.
  - unfold bidi_step at 1. destruct (lookup (x, y) bv) as [bp|] eqn:El.
    + intros [= <-]. cbn [fst]. apply BidiFacts.lookup_In in El.
      apply (forward_meeting (x, y) path fq fv bq bv bp Hf Hb Ha El).
    + apply lookup_none in El.
      rewrite (bidi_expand_closed maze width height x y path dirs fv fq
                 (dirs_nodup dirs dirs_compass)).
      pose proof (side_step dirs maze width height start dirs_compass _ _ _ _ Hf) as Hf'.
      pose proof (forward_step_apart _ _ _ _ _ _ Hf Hb Ha El) as Ha'.
      pose proof (step_root_gone dirs maze width height start _ _ _ _ Hf) as Hs'.
      destruct bq as [|[[bx by_] bpath] bq].
      * apply IH; assumption.
      * apply (Hback fuel IH); assumption.
Qed.

(** [_bidirectional] returns a shortest route, or nothing when there is no
    route, when the goal is an open cell. *)
Lemma bidirectional_least :
  exists f,
    _bidirectional dirs maze width height start goal = Some f
    /\ match fst f with
       | Some p => least maze width height start goal p
       | None => forall q, ~ route maze width height start q goal
       end.
Proof.
  destruct (BidiFacts.bidirectional_spec dirs maze width height dirs_compass start goal)
    as (f & Hf & Hr).
  exists f. split; [exact Hf|].
  unfold _bidirectional in Hf.
  destruct (cell_eqb start goal) eqn:E; [apply cell_eqb_eq in E; contradiction|].
  pose proof (bidi_loop_least _ _ _ _ _ _ _
                (side_initial dirs maze width height start)
                (side_initial dirs maze width height goal)
                apart_initial Hf) as H.
  destruct (fst f) as [p|] eqn:Ep; [|exact H].
  split; [apply (Hr goal_open p eq_refl) | exact H].
Qed.

End Bidirectional.

Section Ucs.

Variable dirs : list (Z * Z).
Variable maze : grid.
Variables width height : Z.
Variables start goal : cell.
Hypothesis dirs_compass : compass dirs.

Lemma item_compare_cost (e h : item) :
  match item_compare e h with
  | Lt => fst (fst e) <= fst (fst h)
  | _ => fst (fst h) <= fst (fst e)
  end.
Proof.
  destruct e as [[ce pe] le], h as [[ch ph] lh]. cbn [item_compare fst].
  destruct (Z.compare_spec ce ch) as [->|H|H]; [|lia|lia].
  destruct (cell_compare pe ph); [destruct (path_compare le lh)| |]; lia.
Qed.

Lemma heappush_sorted heap e :
  StronglySorted (fun a b : item => fst (fst a) <= fst (fst b)) heap ->
  StronglySorted (fun a b : item => fst (fst a) <= fst (fst b)) (heappush heap e).
Proof.
  induction heap as [|h heap IH]; intros Hs; cbn [heappush].
  - repeat constructor.
  - inversion Hs as [|? ? Hs' Hf]; subst.
    pose proof (item_compare_cost e h) as Hc.
    destruct (item_compare e h).
    + constructor; [apply IH; exact Hs'|].
      apply Forall_forall. intros x Hx. apply UcsDfsFacts.heappush_In in Hx.
      destruct Hx as [->|Hx]; [exact Hc|].
      rewrite Forall_forall in Hf. apply Hf. exact Hx.
    + constructor; [exact Hs|]. constructor; [exact Hc|].
      rewrite Forall_forall in Hf |- *. intros x Hx. specialize (Hf x Hx). lia.
    + constructor; [apply IH; exact Hs'|].
      apply Forall_forall. intros x Hx. apply UcsDfsFacts.heappush_In in Hx.
      destruct Hx as [->|Hx]; [exact Hc|].
      rewrite Forall_forall in Hf. apply Hf. exact Hx.
Qed.

(** The loop body of [_ucs] over the directions: what it pushes. *)
Lemma ucs_expand_closed cost x y path visited :
  forall ds heap,
    (forall e,
        In e (ucs_expand ds maze width height cost x y path visited heap) <->
        In e heap
        \/ exists n, In n (fresh_neighbours ds maze width height (x, y) visited)
                     /\ e = (cost + 1, n, path ++ [n]))
    /\ (StronglySorted (fun a b : item => fst (fst a) <= fst (fst b)) heap ->
        StronglySorted (fun a b : item => fst (fst a) <= fst (fst b))
          (ucs_expand ds maze width height cost x y path visited heap)).
Proof.
  unfold ucs_expand.
  induction ds as [|[dx dy] ds IH]; intros heap; cbn [fold_left].
  - split; [|auto]. intros e. unfold fresh_neighbours. simpl. split; [auto|].
    intros [H|(n & [] & _)]. exact H.
  - unfold fresh_neighbours. cbn [map filter fst snd].
    fold (fresh_neighbours ds maze width height (x, y) visited).
    destruct (open_cell maze width height (x + dx, y + dy)
              && negb (mem (x + dx, y + dy) visited)) eqn:E.
    + destruct (IH (heappush heap (cost + 1, (x + dx, y + dy),
                                   path ++ [(x + dx, y + dy)]))) as [H1 H2].
      split.
      * intros e. rewrite H1, UcsDfsFacts.heappush_In. cbn [In]. split.
        -- intros [[->|H]|(n & Hn & ->)]; eauto 6.
        -- intros [H|(n & [<-|Hn] & ->)]; eauto 6.
      * intros Hs. apply H2. apply heappush_sorted. exact Hs.
    + apply IH.
Qed.

Lemma ucs_head cost c p heap visited :
  ucs_state dirs maze width height start ((cost, c, p) :: heap) visited ->
  forall pw w, route maze width height start pw w ->
    Z.of_nat (length pw) <= cost -> In w visited.
Proof.
  intros H pw w Hr. induction Hr as [|pw u w Hr IH Hstep Hopen]; intros Hl.
  - destruct (ucs_root _ _ _ _ _ _ _ H) as [Hs|Hs]; [exact Hs|].
    injection Hs as -> _ _ _. cbn [length] in Hl. lia.
  - rewrite length_app, Nat2Z.inj_add in Hl. cbn [length] in Hl.
    assert (Hu : In u visited) by (apply IH; lia).
    pose proof (ucs_closure _ _ _ _ _ _ _ H u (fst w - fst u, snd w - snd u) Hu) as Hc.
    cbn [fst snd] in Hc. rewrite shift_back in Hc.
    destruct Hc as [Hc|(k & pk & Hin & Hk)];
      [apply DlsFacts.unit_step_compass; assumption | exact Hopen | exact Hc |].
    exfalso. specialize (Hk pw Hr).
    assert (Hmin : cost <= k).
    { destruct Hin as [[= -> _ _]|Hin]; [lia|].
      pose proof (ucs_sorted _ _ _ _ _ _ _ H) as Hs.
      inversion Hs as [|? ? _ Hf]; subst.
      rewrite Forall_forall in Hf. apply (Hf _ Hin). }
    lia.
Qed.

(** The path of an item popped for a cell that was not yet expanded is a
    shortest one. *)
Lemma ucs_head_least cost c p heap visited :
  ucs_state dirs maze width height start ((cost, c, p) :: heap) visited ->
  ~ In c visited ->
  least maze width height start c p.
Proof.
  intros H Hc.
  destruct (ucs_routes _ _ _ _ _ _ _ H cost c p (or_introl eq_refl)) as [Hr Hl].
  split; [exact Hr|]. intros q Hq.
  destruct (Z_le_gt_dec (Z.of_nat (length q)) cost) as [Hle|Hgt]; [|lia].
  exfalso. apply Hc. exact (ucs_head _ _ _ _ _ H q c Hq Hle).
Qed.

Lemma ucs_skip cost c p heap visited :
  ucs_state dirs maze width height start ((cost, c, p) :: heap) visited ->
  In c visited ->
  ucs_state dirs maze width height start heap visited.
Proof.
  intros H Hc. split.
  - intros k c0 p0 Hin. apply (ucs_routes _ _ _ _ _ _ _ H). right. exact Hin.
  - pose proof (ucs_sorted _ _ _ _ _ _ _ H) as Hs. inversion Hs; assumption.
  - intros u d Hu Hd Hopen.
    destruct (ucs_closure _ _ _ _ _ _ _ H u d Hu Hd Hopen)
      as [Hv|(k & pk & [Hin|Hin] & Hk)].
    + left. exact Hv.
    + left. injection Hin as _ <- _. exact Hc.
    + right. exists k, pk. auto.
  - destruct (ucs_root _ _ _ _ _ _ _ H) as [Hs|Hs]; [left; exact Hs|].
    left. injection Hs as _ <- _ _. exact Hc.
Qed.

Lemma ucs_step cost x y p heap visited :
  ucs_state dirs maze width height start ((cost, (x, y), p) :: heap) visited ->
  ~ In (x, y) visited ->
  ucs_state dirs maze width height start
    (ucs_expand dirs maze width height cost x y p ((x, y) :: visited) heap)
    ((x, y) :: visited).
Proof.
  intros H Hc.
  pose proof (ucs_head_least _ _ _ _ _ H Hc) as [Hr Hmin].
  destruct (ucs_routes _ _ _ _ _ _ _ H cost (x, y) p (or_introl eq_refl)) as [_ Hl].
  destruct (ucs_expand_closed cost x y p ((x, y) :: visited) dirs heap) as [Hin Hsorted].
  split.
  - intros k c0 p0 Hk. apply Hin in Hk. destruct Hk as [Hk|(n & Hn & [= -> -> ->])].
    + apply (ucs_routes _ _ _ _ _ _ _ H). right. exact Hk.
    + apply fresh_neighbours_In in Hn. destruct Hn as ((d & Hd & ->) & Hopen & _).
      split.
      * apply (SearchFacts.step_route dirs maze width height
                 (MazeGeneratorFacts.compass_unit _ dirs_compass)
                 start p (x, y) d Hr Hd Hopen).
      * rewrite length_app, Nat2Z.inj_add. cbn [length]. lia.
  - apply Hsorted. pose proof (ucs_sorted _ _ _ _ _ _ _ H) as Hs.
    inversion Hs; assumption.
  - intros u d [<-|Hu] Hd Hopen.
    + destruct (mem (fst (x, y) + fst d, snd (x, y) + snd d) ((x, y) :: visited)) eqn:E.
      * left. apply mem_In. exact E.
      * right. exists (cost + 1), (p ++ [(fst (x, y) + fst d, snd (x, y) + snd d)]).
        split.
        -- apply Hin. right. eexists. split; [|reflexivity].
           apply fresh_neighbours_In. split; [exists d; auto|].
           split; [exact Hopen | apply mem_not_In; exact E].
        -- intros q Hq. specialize (Hmin q Hq). lia.
    + destruct (ucs_closure _ _ _ _ _ _ _ H u d Hu Hd Hopen)
        as [Hv|(k & pk & [Hk|Hk] & Hb)].
      * left. right. exact Hv.
      * left. left. congruence.
      * right. exists k, pk. split; [|exact Hb]. apply Hin. left. exact Hk.
  - left. destruct (ucs_root _ _ _ _ _ _ _ H) as [Hs|Hs]; [right; exact Hs|].
    left. congruence.
Qed.

Lemma ucs_done visited :
  ucs_state dirs maze width height start [] visited ->
  forall pw w, route maze width height start pw w -> In w visited.
Proof.
  intros H pw w Hr. induction Hr as [|pw u w Hr IH Hstep Hopen].
  - destruct (ucs_root _ _ _ _ _ _ _ H) as [Hs|Hs]; [exact Hs|discriminate].
  - pose proof (ucs_closure _ _ _ _ _ _ _ H u (fst w - fst u, snd w - snd u) IH) as Hc.
    cbn [fst snd] in Hc. rewrite shift_back in Hc.
    destruct Hc as [Hc|(k & pk & [] & _)];
      [apply DlsFacts.unit_step_compass; assumption | exact Hopen | exact Hc].
Qed.

Lemma ucs_loop_least :
  forall fuel heap visited n f,
    ucs_state dirs maze width height start heap visited ->
    ~ In goal visited ->
    ucs_loop dirs maze width height fuel goal heap visited n = Some f ->
    match fst f with
    | Some p => least maze width height start goal p
    | None => forall q, ~ route maze width height start q goal
    end.
Proof.
  induction fuel as [|fuel IH]; intros heap visited n f Hs Hg; [discriminate|].
  cbn [ucs_loop]. destruct heap as [|[[cost [x y]] path] heap].
  - intros [= <-]. cbn [fst]. intros q Hq. apply Hg.
    exact (ucs_done visited Hs q goal Hq).
  - destruct (mem (x, y) visited) eqn:Em.
    + apply IH; [|exact Hg]. apply mem_In in Em.
      exact (ucs_skip _ _ _ _ _ Hs Em).
    + apply mem_not_In in Em. destruct (cell_eqb (x, y) goal) eqn:Eg.
      * intros [= <-]. cbn [fst]. apply cell_eqb_eq in Eg. subst goal.
        exact (ucs_head_least _ _ _ _ _ Hs Em).
      * apply IH; [exact (ucs_step _ _ _ _ _ _ Hs Em)|].
        apply cell_eqb_neq in Eg. intros [E|E]; [congruence|exact (Hg E)].
Qed.

(** [_ucs] returns a shortest route, or nothing when there is no route. *)
Lemma ucs_least :
  exists f,
    _ucs dirs maze width height start goal = Some f
    /\ match fst f with
       | Some p => least maze width height start goal p
       | None => forall q, ~ route maze width height start q goal
       end.
Proof.
  destruct (UcsDfsFacts.ucs_spec dirs maze width height start dirs_compass goal)
    as (f & Hf & _).
  exists f. split; [exact Hf|].
  unfold _ucs in Hf.
  apply (ucs_loop_least (budget width height) [(0, start, [start])] [] 0 f);
    [|intros []|exact Hf].
  split.
  - intros cost c p [[= <- <- <-]|[]]. split; [apply route_start|reflexivity].
  - repeat constructor.
  - intros u d [].
  - right. reflexivity.
Qed.

End Ucs.

Section Agree.

Variable dirs : list (Z * Z).
Variable maze : grid.
Variables width height : Z.
Variables start goal : cell.
Hypothesis dirs_compass : compass dirs.

Lemma least_length p q :
  least maze width height start goal p ->
  least maze width height start goal q ->
  length p = length q.
Proof.
  intros [Hp Hpmin] [Hq Hqmin]. specialize (Hpmin q Hq). specialize (Hqmin p Hp). lia.
Qed.

Lemma least_same_cell : least maze width height start start [start].
Proof.
  split; [apply route_start|]. intros q Hq.
  apply RouteFacts.route_length_pos in Hq. exact Hq.
Qed.

(** [_bidirectional], with the case it answers before searching. *)
Lemma bidirectional_answer :
  start = goal \/ open_cell maze width height goal = true ->
  exists f,
    _bidirectional dirs maze width height start goal = Some f
    /\ match fst f with
       | Some p => least maze width height start goal p
       | None => forall q, ~ route maze width height start q goal
       end.
Proof.
  intros Hg. destruct (cell_eq_dec start goal) as [E|E].
  - subst goal. eexists. split; [apply PathFinderFacts.bidirectional_same_cell|].
    cbn [fst]. apply least_same_cell.
  - destruct Hg as [Hg|Hg]; [contradiction|].
    apply bidirectional_least; assumption.
Qed.

(** Two answers of the kind the three searches give have the same length. *)
Lemma answers_agree (a b : option (list cell)) :
  match a with
  | Some p => least maze width height start goal p
  | None => forall q, ~ route maze width height start q goal
  end ->
  match b with
  | Some p => least maze width height start goal p
  | None => forall q, ~ route maze width height start q goal
  end ->
  option_map (@length cell) a = option_map (@length cell) b.
Proof.
  destruct a as [p|], b as [q|]; cbn [option_map]; intros Ha Hb.
  - f_equal. apply least_length; assumption.
  - exfalso. destruct Ha as [Ha _]. exact (Hb p Ha).
  - exfalso. destruct Hb as [Hb _]. exact (Ha q Hb).
  - reflexivity.
Qed.

End Agree.

End SideFacts.

(** X2.  The three breadth-first strategies agree on shortest routes.  On a grid
    whose rows all have the length of the first, with [GameConfig.DIRECTIONS]
    some order of the four unit steps, and with a goal that is the start or
    an in-bounds Path cell, BFS, UCS and Bidirectional all answer; either all
    three return nothing and no route exists, or each returns a route that no
    route is shorter than, so the three lengths are equal; and whenever DFS,
    DLS or IDS returns a path for the same query it is at least as long. *)
Theorem shortest_strategies_agree :
  forall dirs r start goal maze,
    compass dirs -> well_formed maze = true ->
    start = goal
    \/ PathFinder.open_cell maze (maze_width maze) (Z.of_nat (length maze)) goal
       = true ->
    exists bfs ucs bidi n_bfs n_ucs n_bidi,
      PathFinder.find_path dirs r start goal "BFS" maze = Some ((bfs, n_bfs), r)
      /\ PathFinder.find_path dirs r start goal "UCS" maze = Some ((ucs, n_ucs), r)
      /\ PathFinder.find_path dirs r start goal "Bidirectional" maze
         = Some ((bidi, n_bidi), r)
      /\ option_map (@length cell) ucs = option_map (@length cell) bfs
      /\ option_map (@length cell) bidi = option_map (@length cell) bfs
      /\ match bfs with
         | Some p => least maze (maze_width maze) (Z.of_nat (length maze)) start goal p
         | None =>
             forall q,
               ~ route maze (maze_width maze) (Z.of_nat (length maze)) start q goal
         end
      /\ forall dirs' r' algorithm q n r'',
           compass dirs' ->
           algorithm = "DFS"%string \/ algorithm = "DLS"%string
           \/ algorithm = "IDS"%string ->
           PathFinder.find_path dirs' r' start goal algorithm maze
           = Some ((Some q, n), r'') ->
           exists p, bfs = Some p /\ (length p <= length q)%nat.
Proof.
  intros dirs r start goal maze Hc _ Hg.
  set (width := maze_width maze) in *. set (height := Z.of_nat (length maze)) in *.
  destruct (SideFacts.bfs_least dirs maze width height start goal Hc)
    as ([bfs n_bfs] & Eb & Hb).
  destruct (SideFacts.ucs_least dirs maze width height start goal Hc)
    as ([ucs n_ucs] & Eu & Hu).
  destruct (SideFacts.bidirectional_answer dirs maze width height start goal Hc Hg)
    as ([bidi n_bidi] & Ed & Hd).
  cbn [fst] in Hb, Hu, Hd.
  exists bfs, ucs, bidi, n_bfs, n_ucs, n_bidi.
  unfold PathFinder.find_path. fold width height. simpl String.eqb.
  rewrite Eb, Eu, Ed.
  split; [reflexivity|]. split; [reflexivity|]. split; [reflexivity|].
  split; [apply (SideFacts.answers_agree maze width height start goal); assumption|].
  split; [apply (SideFacts.answers_agree maze width height start goal); assumption|].
  split; [exact Hb|].
  intros dirs' r' algorithm q n r'' Hc' Halg E.
  assert (Hq : route maze width height start q goal).
  { destruct Halg as [->|[->| ->]]; simpl String.eqb in E.
    - destruct (UcsDfsFacts.dfs_spec dirs' maze width height start Hc' goal r')
        as (f & r0 & Ef & Hf).
      rewrite Ef in E. injection E as -> _. apply Hf. reflexivity.
    - injection E as E _.
      exact (FindPathFacts.dls_route dirs' maze width height start goal Hc' _ _ _ E).
    - injection E as E _. unfold PathFinder._ids in E.
      exact (FindPathFacts.ids_loop_route dirs' maze width height start goal Hc'
               _ _ _ _ _ E). }
  destruct bfs as [p|]; [|exfalso; exact (Hb q Hq)].
  exists p. split; [reflexivity|]. destruct Hb as [_ Hmin]. exact (Hmin q Hq).
Qed.

Lemma shortest_strategies_agree_witness :
  (compass GameConfig.DIRECTIONS /\ well_formed ring = true
   /\ ((1, 1) = (5, 5)
       \/ PathFinder.open_cell ring (maze_width ring) (Z.of_nat (length ring)) (5, 5)
          = true))
  /\ exists bfs ucs bidi n_bfs n_ucs n_bidi,
      PathFinder.find_path GameConfig.DIRECTIONS (tape [2; 1; 3]%nat)
        (1, 1) (5, 5) "BFS" ring = Some ((bfs, n_bfs), tape [2; 1; 3]%nat)
      /\ PathFinder.find_path GameConfig.DIRECTIONS (tape [2; 1; 3]%nat)
           (1, 1) (5, 5) "UCS" ring = Some ((ucs, n_ucs), tape [2; 1; 3]%nat)
      /\ PathFinder.find_path GameConfig.DIRECTIONS (tape [2; 1; 3]%nat)
           (1, 1) (5, 5) "Bidirectional" ring
         = Some ((bidi, n_bidi), tape [2; 1; 3]%nat)
      /\ option_map (@length cell) ucs = option_map (@length cell) bfs
      /\ option_map (@length cell) bidi = option_map (@length cell) bfs
      /\ match bfs with
         | Some p =>
             least ring (maze_width ring) (Z.of_nat (length ring)) (1, 1) (5, 5) p
         | None =>
             forall q,
               ~ route ring (maze_width ring) (Z.of_nat (length ring)) (1, 1) q (5, 5)
         end
      /\ forall dirs' r' algorithm q n r'',
           compass dirs' ->
           algorithm = "DFS"%string \/ algorithm = "DLS"%string
           \/ algorithm = "IDS"%string ->
           PathFinder.find_path dirs' r' (1, 1) (5, 5) algorithm ring
           = Some ((Some q, n), r'') ->
           exists p, bfs = Some p /\ (length p <= length q)%nat.
Proof.
  split; [split; [apply Permutation_refl | split; [reflexivity | right; reflexivity]]|].
  apply shortest_strategies_agree;
    [apply Permutation_refl | reflexivity | right; reflexivity].
Defined.

(** ** path_finding.py: completeness of the depth-first strategies *)

Module DepthFacts.

Import Random PathFinder.

Section Dfs.

Variable maze : grid.
Variables width height : Z.
Variables start goal : cell.

(** What the stack of [_dfs] holds after the loop over the directions. *)
Lemma dfs_expand_In x y path visited :
  forall ds stack e,
    In e (dfs_expand maze width height x y path ds visited stack) <->
    In e stack
    \/ exists d, In d ds
         /\ open_cell maze width height (x + fst d, y + snd d) = true
         /\ ~ In (x + fst d, y + snd d) visited
         /\ e = ((x + fst d, y + snd d), path ++ [(x + fst d, y + snd d)]).
Proof.
  unfold dfs_expand.
  induction ds as [|[dx dy] ds IH]; intros stack e; cbn [fold_left].
  - split; [auto|]. intros [H|(d & [] & _)]. exact H.
  - destruct (open_cell maze width height (x + dx, y + dy)) eqn:Eo;
      destruct (mem (x + dx, y + dy) visited) eqn:Em; cbn [andb negb];
      rewrite IH; cbn [In]; split.
    + intros [H|(d & Hd & H)]; [auto|]. right. exists d. auto.
    + intros [H|(d & [<-|Hd] & Ho & Hv & He)]; [auto| |right; exists d; auto].
      cbn [fst snd] in Hv. apply mem_In in Em. contradiction.
    + intros [[<-|H]|(d & Hd & H)]; [|auto|right; exists d; auto].
      right. exists (dx, dy). cbn [fst snd]. apply mem_not_In in Em. auto.
    + intros [H|(d & [<-|Hd] & Ho & Hv & He)]; [auto| |right; exists d; auto].
      cbn [fst snd] in He. subst e. auto.
    + intros [H|(d & Hd & H)]; [auto|]. right. exists d. auto.
    + intros [H|(d & [<-|Hd] & Ho & Hv & He)]; [auto| |right; exists d; auto].
      cbn [fst snd] in Ho. congruence.
    + intros [H|(d & Hd & H)]; [auto|]. right. exists d. auto.
    + intros [H|(d & [<-|Hd] & Ho & Hv & He)]; [auto| |right; exists d; auto].
      cbn [fst snd] in Ho. congruence.
Qed.

Lemma dfs_loop_complete :
  forall fuel stack visited directions n r n' r',
    compass directions ->
    dfs_closed maze width height start goal stack visited ->
    dfs_loop maze width height fuel goal stack visited directions n r
    = Some ((None, n'), r') ->
    forall q, ~ route maze width height start q goal.
Proof.
  induction fuel as [|fuel IH]; intros stack visited directions n r n' r' Hc Hinv;
    [discriminate|].
  cbn [dfs_loop]. destruct Hinv as (Hcl & Hroot & Hgoal).
  destruct stack as [|[[x y] path] stack].
  - intros _ q Hq. apply Hgoal.
    assert (Hall : forall p c, route maze width height start p c -> In c visited).
    { intros p c Hr. induction Hr as [|p u w Hr IHr Hstep Hopen].
      - destruct Hroot as [H|[]]. exact H.
      - destruct (Hcl u w IHr Hstep Hopen) as [H|[]]. exact H. }
    exact (Hall q goal Hq).
  - destruct (mem (x, y) visited) eqn:Em.
    + apply mem_In in Em. apply IH; [exact Hc|]. split; [|split].
      * intros u w Hu Hstep Hopen.
        destruct (Hcl u w Hu Hstep Hopen) as [H|[H|H]]; auto.
        cbn [fst] in H. subst w. auto.
      * destruct Hroot as [H|[H|H]]; auto. cbn [fst] in H. subst start. auto.
      * exact Hgoal.
    + apply mem_not_In in Em. destruct (cell_eqb (x, y) goal) eqn:Eg; [discriminate|].
      apply cell_eqb_neq in Eg.
      destruct (shuffle directions r) as [directions' r0] eqn:Es.
      assert (Hc' : compass directions').
      { pose proof (RandomFacts.shuffle_perm directions r) as Hp.
        rewrite Es in Hp. cbn [fst] in Hp.
        unfold compass in *. eapply Permutation_trans; [exact Hc|].
        apply Permutation_sym. exact Hp. }
      apply IH; [exact Hc'|]. split; [|split].
      * intros u w Hu Hstep Hopen.
        destruct (mem w ((x, y) :: visited)) eqn:Ew; [left; apply mem_In; exact Ew|].
        apply mem_not_In in Ew. right.
        apply in_map_iff. destruct Hu as [<-|Hu].
        -- exists (w, path ++ [w]). split; [reflexivity|].
           apply dfs_expand_In. right.
           exists (fst w - x, snd w - y). cbn [fst snd] in *.
           replace (x + (fst w - x), y + (snd w - y)) with w
             by (destruct w; cbn [fst snd]; f_equal; lia).
           split; [apply DlsFacts.unit_step_compass; assumption|]. auto.
        -- destruct (Hcl u w Hu Hstep Hopen) as [H|[H|H]].
           ++ exfalso. apply Ew. right. exact H.
           ++ cbn [fst] in H. subst w. exfalso. apply Ew. left. reflexivity.
           ++ apply in_map_iff in H. destruct H as (e & He & Hin).
              exists e. split; [exact He|]. apply dfs_expand_In. left. exact Hin.
      * destruct Hroot as [H|[H|H]].
        -- left. right. exact H.
        -- left. left. exact H.
        -- right. apply in_map_iff in H. destruct H as (e & He & Hin).
           apply in_map_iff. exists e. split; [exact He|].
           apply dfs_expand_In. left. exact Hin.
      * intros [H|H]; [congruence|exact (Hgoal H)].
Qed.

End Dfs.

Section Dls.

Variable maze : grid.
Variables width height : Z.

(** A route is at least as long as the Manhattan distance it covers. *)
Lemma route_manhattan s p c :
  route maze width height s p c ->
  HardMazeGame.manhattan c s + 1 <= Z.of_nat (length p).
Proof.
  unfold HardMazeGame.manhattan.
  induction 1 as [|p u n Hr IH Hstep _].
  - cbn [length]. lia.
  - rewrite length_app, Nat2Z.inj_add. cbn [length].
    unfold unit_step in Hstep. cbn [fst snd] in Hstep. lia.
Qed.

End Dls.

End DepthFacts.

(** X3.  DFS finds a path whenever there is one.  On a grid whose rows all
    have the length of the first, with [GameConfig.DIRECTIONS] some order of
    the four unit steps and whatever the shuffles draw, [find_path] with
    "DFS" returns; what it returns is a route from start to goal, or nothing
    when no route exists. *)
Theorem dfs_finds_a_route_if_any :
  forall dirs r start goal maze,
    compass dirs -> well_formed maze = true ->
    exists result nodes_explored r',
      PathFinder.find_path dirs r start goal "DFS" maze
      = Some ((result, nodes_explored), r')
      /\ match result with
         | Some p =>
             route maze (maze_width maze) (Z.of_nat (length maze)) start p goal
         | None =>
             forall q,
               ~ route maze (maze_width maze) (Z.of_nat (length maze)) start q goal
         end.
Proof.
  intros dirs r start goal maze Hc _.
  set (width := maze_width maze). set (height := Z.of_nat (length maze)).
  destruct (UcsDfsFacts.dfs_spec dirs maze width height start Hc goal r)
    as ([result n] & r' & E & Hr).
  exists result, n, r'. unfold PathFinder.find_path. fold width height.
  simpl String.eqb. split; [exact E|].
  destruct result as [p|]; [apply Hr; reflexivity|].
  unfold PathFinder._dfs in E.
  assert (Hinv : dfs_closed maze width height start goal [(start, [start])] []).
  { split; [intros u w []|split; [right; left; reflexivity|intros []]]. }
  exact (DepthFacts.dfs_loop_complete maze width height start goal
           _ _ _ _ _ _ _ _ Hc Hinv E).
Qed.

Lemma dfs_finds_a_route_if_any_witness :
  (compass GameConfig.DIRECTIONS /\ well_formed corridor = true)
  /\ exists result nodes_explored r',
      PathFinder.find_path GameConfig.DIRECTIONS (tape [1; 2]%nat)
        (0, 0) (1, 0) "DFS" corridor
      = Some ((result, nodes_explored), r')
      /\ match result with
         | Some p =>
             route corridor (maze_width corridor) (Z.of_nat (length corridor))
               (0, 0) p (1, 0)
         | None =>
             forall q,
               ~ route corridor (maze_width corridor) (Z.of_nat (length corridor))
                   (0, 0) q (1, 0)
         end.
Proof.
  split; [split; [apply Permutation_refl | reflexivity]|].
  apply dfs_finds_a_route_if_any; [apply Permutation_refl | reflexivity].
Defined.

(** ** main3.py: the reachability test is exact *)

Module AvoidFacts.

Import Random HardMazeGame.

Section Avoid.

Variable g : game.
Variable blocked : list cell.

Lemma avoid_expand_seen x y path :
  forall ds visited queue,
    let out :=
      fold_left
        (fun (st : list cell * list (cell * list cell)) (d : Z * Z) =>
           let '(visited, queue) := st in
           let '(dx, dy) := d in
           let nx := x + dx in
           let ny := y + dy in
           if PathFinder.open_cell (maze g) (width g) (height g) (nx, ny)
              && negb (mem (nx, ny) visited)
              && negb (mem (nx, ny) blocked)
           then ((nx, ny) :: visited, queue ++ [((nx, ny), path ++ [(nx, ny)])])
           else (visited, queue))
        ds (visited, queue) in
    (forall c, In c visited -> In c (fst out))
    /\ (forall e, In e queue -> In e (snd out))
    /\ (forall c, In c (fst out) -> In c visited \/ In c (map fst (snd out)))
    /\ (forall e, In e (snd out) -> In e queue \/ In (fst e) (fst out))
    /\ (forall d, In d ds ->
          PathFinder.open_cell (maze g) (width g) (height g)
            (x + fst d, y + snd d) = true ->
          ~ In (x + fst d, y + snd d) blocked ->
          In (x + fst d, y + snd d) (fst out)).
Proof.
  induction ds as [|[dx dy] ds IH]; intros visited queue; cbn [fold_left].
  - cbn [fst snd]. repeat split; auto. intros d [].
  - destruct (PathFinder.open_cell (maze g) (width g) (height g) (x + dx, y + dy)
              && negb (mem (x + dx, y + dy) visited)
              && negb (mem (x + dx, y + dy) blocked)) eqn:E.
    + specialize (IH ((x + dx, y + dy) :: visited)
                    (queue ++ [((x + dx, y + dy), path ++ [(x + dx, y + dy)])])).
      cbv zeta in IH |- *. destruct IH as (H1 & H2 & H3 & H4 & H5).
      split; [intros c Hc; apply H1; right; exact Hc|].
      split; [intros e He; apply H2; apply in_or_app; left; exact He|].
      split.
      { intros c Hc. destruct (H3 c Hc) as [[<-|H]|H]; auto.
        right. apply in_map_iff.
        exists ((x + dx, y + dy), path ++ [(x + dx, y + dy)]).
        split; [reflexivity|]. apply H2. apply in_or_app. right. left. reflexivity. }
      split.
      { intros e He. destruct (H4 e He) as [H|H]; [|auto].
        apply in_app_or in H. destruct H as [H|[<-|[]]]; [auto|].
        right. cbn [fst]. apply H1. left. reflexivity. }
      intros d [<-|Hd] Ho Hb; [|apply H5; assumption].
      cbn [fst snd]. apply H1. left. reflexivity.
    + specialize (IH visited queue). cbv zeta in IH |- *.
      destruct IH as (H1 & H2 & H3 & H4 & H5).
      repeat (split; [assumption|]).
      intros d [<-|Hd] Ho Hb; [|apply H5; assumption].
      cbn [fst snd] in *. rewrite Ho in E. cbn [andb] in E.
      apply andb_false_iff in E. rewrite !negb_false_iff in E.
      destruct E as [E|E]; apply mem_In in E; [apply H1; exact E|contradiction].
Qed.

Variables start goal : cell.

Lemma avoid_closed_all queue visited :
  avoid_closed g blocked start goal queue visited ->
  queue = [] ->
  forall p c,
    route (maze g) (width g) (height g) start p c ->
    (forall x, In x (tl p) -> ~ In x blocked) ->
    In c visited.
Proof.
  intros (_ & Hcl & Hs & _) -> p c Hr.
  induction Hr as [|p u w Hr IH Hstep Hopen]; intros Hb; [exact Hs|].
  assert (Hp : exists a rest, p = a :: rest).
  { apply RouteFacts.route_length_pos in Hr. destruct p; [cbn in Hr; lia|eauto]. }
  destruct Hp as (a & rest & ->).
  assert (Hu : In u visited).
  { apply IH. intros x Hx. apply Hb. cbn [app tl] in *. apply in_or_app. auto. }
  destruct (Hcl u Hu) as [[]|H].
  apply (H w Hstep Hopen). apply Hb. cbn [app tl]. apply in_or_app. right.
  left. reflexivity.
Qed.

Lemma avoid_loop_complete :
  forall fuel queue visited,
    avoid_closed g blocked start goal queue visited ->
    avoid_loop fuel g blocked goal queue visited = Some false ->
    forall p,
      route (maze g) (width g) (height g) start p goal ->
      ~ forall x, In x (tl p) -> ~ In x blocked.
Proof.
  induction fuel as [|fuel IH]; intros queue visited Hinv; [discriminate|].
  cbn [avoid_loop]. destruct queue as [|[[x y] path] queue].
  - intros _ p Hp Hb.
    pose proof (avoid_closed_all [] visited Hinv eq_refl p goal Hp Hb) as Hg.
    destruct Hinv as (_ & _ & _ & Hgoal). destruct (Hgoal Hg).
  - destruct (cell_eqb (x, y) goal) eqn:Eg; [discriminate|].
    apply cell_eqb_neq in Eg. unfold avoid_expand.
    pose proof (avoid_expand_seen x y path directions visited queue) as Hex.
    cbv zeta in Hex.
    destruct (fold_left _ directions (visited, queue)) as [visited' queue'].
    cbn [fst snd] in Hex. destruct Hex as (H1 & H2 & H3 & H4 & H5).
    apply IH. destruct Hinv as (Hq & Hcl & Hs & Hgoal).
    split; [|split; [|split]].
    + intros e He. destruct (H4 e He) as [H|H]; [|exact H].
      apply H1. apply Hq. right. exact H.
    + intros u Hu. destruct (H3 u Hu) as [Hold|Hnew]; [|left; exact Hnew].
      destruct (Hcl u Hold) as [[Hhead|Htail]|Hfree].
      * right. cbn [fst] in Hhead. subst u. intros w Hstep Hopen Hb.
        pose proof (H5 (fst w - x, snd w - y)) as H. cbn [fst snd] in *.
        replace (x + (fst w - x), y + (snd w - y)) with w in H
          by (destruct w; cbn [fst snd]; f_equal; lia).
        apply H; auto.
        apply (DlsFacts.unit_step_compass GameConfig.DIRECTIONS);
          [apply Permutation_refl | exact Hstep].
      * left. apply in_map_iff in Htail. destruct Htail as (e & He & Hin).
        apply in_map_iff. exists e. auto.
      * right. intros w Hstep Hopen Hb. apply H1. apply Hfree; assumption.
    + apply H1. exact Hs.
    + intros Hg. destruct (H3 goal Hg) as [Hold|Hnew]; [|exact Hnew].
      destruct (Hgoal Hold) as [Hhead|Htail]; [cbn [fst] in Hhead; congruence|].
      apply in_map_iff in Htail. destruct Htail as (e & He & Hin).
      apply in_map_iff. exists e. auto.
Qed.

End Avoid.

End AvoidFacts.

(** X5.  The reachability test of [is_solvable_with_enemy] is exact.  On a
    game whose maze is a [width] by [height] rectangle, [bfs_avoid_enemy]
    returns, and it says True exactly when there is a route from [a] to [b]
    whose cells after the first are in-bounds Path cells outside [blocked];
    the first cell is never tested. *)
Theorem bfs_avoid_enemy_exact :
  forall g blocked a b,
    rectangular (HardMazeGame.maze g) (HardMazeGame.width g)
      (HardMazeGame.height g) = true ->
    exists answer,
      HardMazeGame.bfs_avoid_enemy g blocked a b = Some answer
      /\ (answer = true <->
          exists p,
            route (HardMazeGame.maze g) (HardMazeGame.width g)
              (HardMazeGame.height g) a p b
            /\ forall c, In c (tl p) -> ~ In c blocked).
Proof.
  intros g blocked a b _.
  destruct (PlacementFacts.bfs_avoid_enemy_finishes g blocked a b) as [answer E].
  exists answer. split; [exact E|]. destruct answer.
  - split; [intros _|reflexivity].
    apply (PlacementFacts.bfs_avoid_enemy_reachable g blocked a b E).
  - split; [discriminate|]. intros (p & Hp & Hb). exfalso.
    unfold HardMazeGame.bfs_avoid_enemy in E.
    refine (AvoidFacts.avoid_loop_complete g blocked a b _ _ _ _ E p Hp Hb).
    split; [|split; [|split]].
    + intros e [<-|[]]. left. reflexivity.
    + intros u [<-|[]]. left. left. reflexivity.
    + left. reflexivity.
    + intros [<-|[]]. left. reflexivity.
Qed.

Lemma bfs_avoid_enemy_exact_witness :
  rectangular (HardMazeGame.maze ring_game) (HardMazeGame.width ring_game)
    (HardMazeGame.height ring_game) = true
  /\ exists answer,
      HardMazeGame.bfs_avoid_enemy ring_game [(3, 1); (1, 3)] (1, 1) (5, 5)
      = Some answer
      /\ (answer = true <->
          exists p,
            route (HardMazeGame.maze ring_game) (HardMazeGame.width ring_game)
              (HardMazeGame.height ring_game) (1, 1) p (5, 5)
            /\ forall c, In c (tl p) -> ~ In c [(3, 1); (1, 3)]).
Proof.
  split; [reflexivity|].
  apply bfs_avoid_enemy_exact. reflexivity.
Defined.

(** ** maze_generator.py: the shape of the grid *)

Module FrameFacts.

Import Random MazeGenerator.

Lemma forallb_update_nth {A : Type} (f : A -> bool) (l : list A) n v :
  forallb f l = true -> f v = true -> forallb f (update_nth l n v) = true.
Proof.
  revert n. induction l as [|a l IH]; intros n Hl Hv; [destruct n; reflexivity|].
  cbn [forallb] in Hl. apply andb_true_iff in Hl. destruct Hl as [Ha Hl].
  destruct n; cbn [update_nth forallb]; apply andb_true_iff; auto.
Qed.

Lemma forallb_nth_error {A : Type} (f : A -> bool) (l : list A) n a :
  forallb f l = true -> nth_error l n = Some a -> f a = true.
Proof.
  intros Hl Hn. rewrite forallb_forall in Hl. apply Hl.
  eapply nth_error_In. exact Hn.
Qed.

Lemma framed_all_walls width height :
  0 <= width -> 0 <= height -> framed width height (all_walls width height).
Proof.
  intros Hw Hh. split.
  - unfold rectangular, all_walls. rewrite repeat_length.
    apply andb_true_iff. split; [apply Z.eqb_eq; lia|].
    apply forallb_forall. intros row Hrow. apply repeat_spec in Hrow. subst row.
    rewrite repeat_length. apply Z.eqb_eq. lia.
  - intros x y Hx Hy. left. apply all_walls_get; assumption.
Qed.

Lemma framed_clear width height maze x y maze' :
  framed width height maze ->
  0 < x < width - 1 -> 0 < y < height - 1 ->
  maze_set maze x y 0 = Some maze' ->
  framed width height maze'.
Proof.
  intros [Hr Hv] Hx Hy Hset. split.
  - destruct (maze_set_inv maze x y 0 maze' ltac:(lia) ltac:(lia) Hset)
      as (row & Hrow & Hlen & ->).
    unfold rectangular in *. apply andb_true_iff in Hr. destruct Hr as [H1 H2].
    rewrite length_update_nth. apply andb_true_iff. split; [exact H1|].
    apply forallb_update_nth; [exact H2|].
    rewrite length_update_nth.
    apply (forallb_nth_error _ _ _ _ H2 Hrow).
  - intros x' y' Hx' Hy'.
    rewrite (maze_get_set maze x y 0 maze' x' y') by (assumption || lia).
    destruct ((x' =? x) && (y' =? y)) eqn:E; [|apply Hv; assumption].
    apply andb_true_iff in E. destruct E as [E1 E2].
    apply Z.eqb_eq in E1, E2. subst x' y'. right. auto.
Qed.

Lemma carve_framed width height :
  forall fuel maze stack r maze' r',
    framed width height maze ->
    (forall c, In c stack -> inside width height c) ->
    carve fuel width height maze stack r = Ret (maze', r') ->
    framed width height maze'.
Proof.
  induction fuel as [|fuel IH]; intros maze stack r maze' r' Hf Hst; [discriminate|].
  destruct stack as [|[cx cy] below]; cbn [carve].
  - intros [= <- _]. exact Hf.
  - destruct (neighbors width height maze cx cy) as [|n0 ns] eqn:En.
    + apply IH; [exact Hf|]. intros c Hc. apply Hst. right. exact Hc.
    + pose proof (MazeGeneratorFacts.choice_In n0 (n0 :: ns) r ltac:(discriminate))
        as Hin.
      destruct (choice n0 (n0 :: ns) r) as [[[[nx ny] wx] wy] r0].
      cbn [fst] in Hin. rewrite <- En in Hin.
      apply MazeGeneratorFacts.neighbors_In in Hin.
      destruct Hin as (d & Hd & Hw & -> & -> & -> & ->).
      apply MazeGeneratorFacts.inner_wall_true in Hw. destruct Hw as (Hnx & Hny & _).
      destruct (Hst (cx, cy) (or_introl eq_refl)) as [Hcx Hcy]. cbn [fst snd] in *.
      assert (Hmid : 0 < cx + fst d / 2 < width - 1 /\ 0 < cy + snd d / 2 < height - 1).
      { apply MazeGeneratorFacts.directions_cases in Hd.
        destruct Hd as [[E1 E2]|[[E1 E2]|[[E1 E2]|[E1 E2]]]];
          rewrite E1, E2 in *;
          change (0 / 2) with 0; change (2 / 2) with 1; change (-2 / 2) with (-1);
          lia. }
      destruct (maze_set maze (cx + fst d / 2) (cy + snd d / 2) 0) as [m1|] eqn:E1;
        cbn [lift bind]; [|discriminate].
      destruct (maze_set m1 (cx + fst d) (cy + snd d) 0) as [m2|] eqn:E2;
        cbn [lift bind]; [|discriminate].
      apply IH.
      * apply (framed_clear width height m1 (cx + fst d) (cy + snd d) m2);
          [|assumption|assumption|exact E2].
        apply (framed_clear width height maze (cx + fst d / 2) (cy + snd d / 2) m1
                 Hf (proj1 Hmid) (proj2 Hmid) E1).
      * intros c [<-|Hc]; [split; assumption|]. apply Hst. exact Hc.
Qed.

Lemma break_wall_framed width height x y :
  forall ds maze r maze' r',
    framed width height maze ->
    break_wall width height maze x y ds r = Ret (maze', r') ->
    framed width height maze'.
Proof.
  induction ds as [|[dx dy] ds IH]; intros maze r maze' r' Hf; cbn [break_wall].
  - intros [= <- _]. exact Hf.
  - destruct (inner_wall width height maze (x + dx) (y + dy)) eqn:Ew.
    + apply MazeGeneratorFacts.inner_wall_true in Ew. destruct Ew as (Hx & Hy & _).
      destruct (random_lt_03 r) as [hit r0]. destruct hit; [|apply IH; exact Hf].
      destruct (maze_set maze (x + dx) (y + dy) 0) as [m1|] eqn:E1;
        cbn [lift bind]; [|discriminate].
      intros [= <- _]. apply (framed_clear width height maze _ _ m1 Hf Hx Hy E1).
    + apply IH. exact Hf.
Qed.

Lemma add_loops_framed dirs width height :
  forall count maze r maze' r',
    framed width height maze ->
    add_loops count dirs width height maze r = Ret (maze', r') ->
    framed width height maze'.
Proof.
  induction count as [|count IH]; intros maze r maze' r' Hf; cbn [add_loops].
  - intros [= <- _]. exact Hf.
  - destruct (randrange_odd (width - 1) r) as [[x r1]|]; cbn [lift bind];
      [|discriminate].
    destruct (randrange_odd (height - 1) r1) as [[y r2]|]; cbn [lift bind];
      [|discriminate].
    destruct (maze_get maze x y) as [v|]; cbn [lift bind]; [|discriminate].
    destruct (v =? 0); [|apply IH; exact Hf].
    destruct (break_wall width height maze x y dirs r2) as [[m1 r3]| |] eqn:Eb;
      cbn [bind]; [|discriminate|discriminate].
    apply IH. apply (break_wall_framed width height x y dirs maze r2 m1 r3 Hf Eb).
Qed.

(** [generate_maze] returns for every size from 3 by 3 on. *)
Lemma generate_maze_returns dirs width height r :
  3 <= width -> 3 <= height ->
  exists maze r', generate_maze dirs width height r = Ret (maze, r').
Proof.
  intros Hw Hh. unfold generate_maze.
  destruct (MazeGeneratorFacts.carving_initial width height Hw Hh)
    as (m0 & -> & Hinv0 & Hwalls).
  cbn [lift bind].
  destruct (MazeGeneratorFacts.carve_ok width height (carve_budget width height)
              m0 [(1, 1)] r Hinv0) as (m1 & r1 & -> & Hinv1 & _).
  { unfold carve_budget. simpl. lia. }
  cbn [bind]. destruct Hinv1 as ((Hcov1 & _) & _).
  destruct (MazeGeneratorFacts.add_loops_ok dirs width height Hw Hh
              (Z.to_nat (width / 2)) m1 r1 Hcov1) as (m2 & r2 & -> & Hc2 & _).
  cbn [bind].
  pose proof (MazeGeneratorFacts.carved_from_covers _ _ _ _ Hc2 Hcov1) as Hcov2.
  destruct (Hcov2 1 1 ltac:(lia) ltac:(lia)) as [v2 Hv2].
  destruct (maze_set_some m2 1 1 v2 0 ltac:(lia) ltac:(lia) Hv2) as [m3 Hm3].
  rewrite Hm3. cbn [lift bind].
  assert (Hcov3 : covers width height m3).
  { intros x y Hx Hy.
    rewrite (maze_get_set m2 1 1 0 m3 x y) by (assumption || lia).
    destruct ((x =? 1) && (y =? 1)); [eauto|apply Hcov2; assumption]. }
  destruct (Hcov3 (width - 2) (height - 2) ltac:(lia) ltac:(lia)) as [v3 Hv3].
  destruct (maze_set_some m3 (width - 2) (height - 2) v3 0
              ltac:(lia) ltac:(lia) Hv3) as [m4 Hm4].
  rewrite Hm4. cbn [lift bind]. eauto.
Qed.

Lemma generate_maze_framed dirs width height r maze r' :
  3 <= width -> 3 <= height ->
  generate_maze dirs width height r = Ret (maze, r') ->
  framed width height maze
  /\ maze_get maze 1 1 = Some 0
  /\ maze_get maze (width - 2) (height - 2) = Some 0.
Proof.
  intros Hw Hh. unfold generate_maze.
  pose proof (framed_all_walls width height ltac:(lia) ltac:(lia)) as Hf.
  destruct (maze_set (all_walls width height) 1 1 0) as [m0|] eqn:E0;
    cbn [lift bind]; [|discriminate].
  apply (framed_clear width height _ 1 1 m0 Hf ltac:(lia) ltac:(lia)) in E0.
  destruct (carve (carve_budget width height) width height m0 [(1, 1)] r)
    as [[m1 r1]| |] eqn:E1; cbn [bind]; [|discriminate|discriminate].
  apply (carve_framed width height _ _ _ _ _ _ E0) in E1;
    [|intros c [<-|[]]; split; cbn [fst snd]; lia].
  destruct (add_loops (Z.to_nat (width / 2)) dirs width height m1 r1)
    as [[m2 r2]| |] eqn:E2; cbn [bind]; [|discriminate|discriminate].
  apply (add_loops_framed dirs width height _ _ _ _ _ E1) in E2.
  destruct (maze_set m2 1 1 0) as [m3|] eqn:E3; cbn [lift bind]; [|discriminate].
  destruct (maze_set m3 (width - 2) (height - 2) 0) as [m4|] eqn:E4;
    cbn [lift bind]; [|discriminate].
  intros [= <- _].
  pose proof (framed_clear width height _ 1 1 m3 E2 ltac:(lia) ltac:(lia) E3) as F3.
  split; [|split].
  - apply (framed_clear width height m3 (width - 2) (height - 2) m4 F3
             ltac:(lia) ltac:(lia) E4).
  - rewrite (maze_get_set m3 (width - 2) (height - 2) 0 m4 1 1) by (assumption || lia).
    destruct ((1 =? width - 2) && (1 =? height - 2)); [reflexivity|].
    rewrite (maze_get_set m2 1 1 0 m3 1 1) by (assumption || lia).
    rewrite !Z.eqb_refl. reflexivity.
  - rewrite (maze_get_set m3 (width - 2) (height - 2) 0 m4) by (assumption || lia).
    rewrite !Z.eqb_refl. reflexivity.
Qed.

Lemma inner_wall_thin width height maze nx ny :
  width = 2 \/ height = 2 -> inner_wall width height maze nx ny = false.
Proof.
  intros H. unfold inner_wall.
  destruct (0 <? nx) eqn:E1; [|reflexivity].
  destruct (nx <? width - 1) eqn:E2; [|reflexivity].
  destruct (0 <? ny) eqn:E3; [|reflexivity].
  destruct (ny <? height - 1) eqn:E4; [|reflexivity].
  apply Z.ltb_lt in E1, E2, E3, E4. lia.
Qed.

Lemma neighbors_thin width height maze cx cy :
  width = 2 \/ height = 2 -> neighbors width height maze cx cy = [].
Proof.
  intros H. unfold neighbors, directions. cbn [filter fst snd].
  rewrite !(inner_wall_thin width height maze _ _ H). reflexivity.
Qed.

End FrameFacts.

(** X6.  The generated grid is framed.  For every width and height of at
    least 3 (odd or even), whatever the generator draws and whatever
    [GameConfig.DIRECTIONS] holds, [generate_maze] returns a grid of
    [height] rows of [width] cells, each 0 or 1, in which every 0 lies
    strictly inside the border (the border is all Wall), and the start (1,1)
    and the exit (width-2, height-2) are Path cells. *)
Theorem generated_maze_is_framed :
  forall dirs width height r,
    3 <= width -> 3 <= height ->
    exists maze r',
      MazeGenerator.generate_maze dirs width height r = Ret (maze, r')
      /\ rectangular maze width height = true
      /\ (forall x y, 0 <= x < width -> 0 <= y < height ->
            maze_get maze x y = Some 1
            \/ (maze_get maze x y = Some 0
                /\ 0 < x < width - 1 /\ 0 < y < height - 1))
      /\ maze_get maze 1 1 = Some 0
      /\ maze_get maze (width - 2) (height - 2) = Some 0.
Proof.
  intros dirs width height r Hw Hh.
  destruct (FrameFacts.generate_maze_returns dirs width height r Hw Hh)
    as (maze & r' & E).
  exists maze, r'. split; [exact E|].
  destruct (FrameFacts.generate_maze_framed dirs width height r maze r' Hw Hh E)
    as ([H1 H2] & H3 & H4).
  auto.
Qed.

Lemma generated_maze_is_framed_witness :
  (3 <= 4 /\ 3 <= 3)
  /\ exists maze r',
      MazeGenerator.generate_maze GameConfig.DIRECTIONS 4 3 (tape []) = Ret (maze, r')
      /\ rectangular maze 4 3 = true
      /\ (forall x y, 0 <= x < 4 -> 0 <= y < 3 ->
            maze_get maze x y = Some 1
            \/ (maze_get maze x y = Some 0 /\ 0 < x < 4 - 1 /\ 0 < y < 3 - 1))
      /\ maze_get maze 1 1 = Some 0
      /\ maze_get maze (4 - 2) (3 - 2) = Some 0.
Proof.
  split; [lia|]. apply generated_maze_is_framed; lia.
Defined.

(** X7.  Sizes below 3 make [generate_maze] raise.  With a width or height
    of 1 or less the first write [maze[1][1] = 0] raises IndexError; with
    both at least 2 and one of them equal to 2 the carving loop ends at once
    and the first [random.randrange(1, 1, 2)] of the loop phase raises
    ValueError. *)
Theorem generate_maze_too_small :
  forall dirs width height r,
    (width <= 1 \/ height <= 1 ->
     MazeGenerator.generate_maze dirs width height r = Raise IndexError)
    /\ (2 <= width -> 2 <= height -> width = 2 \/ height = 2 ->
        MazeGenerator.generate_maze dirs width height r = Raise ValueError).
Proof.
  intros dirs width height r. split.
  - intros H. unfold MazeGenerator.generate_maze.
    destruct (maze_set (MazeGenerator.all_walls width height) 1 1 0) as [m|] eqn:E;
      [exfalso|reflexivity].
    destruct (maze_set_inv _ 1 1 0 m ltac:(lia) ltac:(lia) E) as (row & Hrow & Hlen & _).
    assert (Hy : (Z.to_nat 1 < length (MazeGenerator.all_walls width height))%nat)
      by (apply nth_error_Some; congruence).
    unfold MazeGenerator.all_walls in Hy, Hrow. rewrite repeat_length in Hy.
    apply nth_error_In, repeat_spec in Hrow. subst row.
    rewrite repeat_length in Hlen. lia.
  - intros Hw Hh Hthin. unfold MazeGenerator.generate_maze.
    destruct (maze_set_some (MazeGenerator.all_walls width height) 1 1 1 0
                ltac:(lia) ltac:(lia)
                (all_walls_get width height 1 1 ltac:(lia) ltac:(lia)))
      as [m0 ->].
    cbn [lift bind]. unfold MazeGenerator.carve_budget.
    cbn [MazeGenerator.carve].
    rewrite (FrameFacts.neighbors_thin width height m0 1 1 Hthin).
    cbn [bind].
    destruct (Z.to_nat (width / 2)) as [|count] eqn:Ec; [zlia|].
    cbn [MazeGenerator.add_loops].
    destruct (Z.eq_dec width 2) as [-> | Hwide]; [reflexivity|].
    destruct Hthin as [? | ->]; [contradiction|].
    destruct (MazeGeneratorFacts.randrange_odd_ok (width - 1) r ltac:(lia))
      as (x & r1 & -> & _).
    reflexivity.
Qed.

(** ** game_objects.py and main3.py: the shape of a patrol path *)

Module PatrolFacts.

Import Random Enemy.

Lemma route_snoc_nodup maze width height s p c n :
  route maze width height s p c ->
  (forall x, In x p -> x <> n) -> NoDup p -> NoDup (p ++ [n]).
Proof.
  intros _ Hn Hp. apply NoDup_app; [exact Hp | repeat constructor; intros [] |].
  intros a Ha [E|[]]. exact (Hn a Ha (eq_sym E)).
Qed.

Lemma walk_route maze width height spawn :
  forall count directions current path visited r,
    compass directions ->
    route maze width height spawn path current ->
    (forall c, In c path -> In c visited) ->
    NoDup path ->
    let walked := fst (fst (walk count maze width height directions current
                              path visited r)) in
    (exists final, route maze width height spawn walked final)
    /\ NoDup walked
    /\ (length walked <= length path + count)%nat.
Proof.
  induction count as [|count IH]; intros directions current path visited r
    Hc Hr Hv Hnd; cbn [walk].
  - cbn [fst]. split; [eauto|]. split; [exact Hnd|lia].
  - pose proof (RandomFacts.shuffle_perm directions r) as Hp.
    destruct (shuffle directions r) as [ds r1]. cbn [fst] in Hp.
    assert (Hc' : compass ds).
    { unfold compass in *. eapply Permutation_trans; [exact Hc|].
      apply Permutation_sym. exact Hp. }
    destruct (next_cell maze width height current visited ds) as [n|] eqn:En.
    + destruct (EnemyFacts.next_cell_some _ _ _ _ _ _ _ En)
        as (d & Hd & Hn & Ho & Hm).
      apply mem_not_In in Hm.
      assert (Hstep : unit_step (fst n - fst current, snd n - snd current)).
      { pose proof (MazeGeneratorFacts.compass_unit _ Hc') as Hu.
        rewrite Forall_forall in Hu. specialize (Hu d Hd).
        subst n. unfold unit_step in *. cbn [fst snd]. 
        replace (fst current + fst d - fst current) with (fst d) by lia.
        replace (snd current + snd d - snd current) with (snd d) by lia.
        exact Hu. }
      specialize (IH ds n (path ++ [n]) (n :: visited) r1 Hc'
                    (route_step _ _ _ _ _ _ _ Hr Hstep Ho)).
      cbv zeta in IH.
      destruct IH as (H1 & H2 & H3).
      * intros c Hin. apply in_app_or in Hin. destruct Hin as [Hin|[<-|[]]];
          [right; apply Hv; exact Hin | left; reflexivity].
      * apply (route_snoc_nodup maze width height spawn path current n Hr);
          [|exact Hnd].
        intros x Hx ->. apply Hm. apply Hv. exact Hx.
      * split; [exact H1|]. split; [exact H2|].
        rewrite length_app in H3. cbn [length] in H3. lia.
    + cbn [fst]. split; [eauto|]. split; [exact Hnd|lia].
Qed.

Lemma back_and_forth_route maze width height spawn dirs :
  compass dirs ->
  (exists final,
      route maze width height spawn
        (back_and_forth maze width height spawn dirs) final)
  /\ NoDup (back_and_forth maze width height spawn dirs)
  /\ (length (back_and_forth maze width height spawn dirs) <= 2)%nat.
Proof.
  intros Hc. unfold back_and_forth.
  destruct (next_cell maze width height spawn [] dirs) as [n|] eqn:En.
  - destruct (EnemyFacts.next_cell_some _ _ _ _ _ _ _ En) as (d & Hd & Hn & Ho & _).
    pose proof (MazeGeneratorFacts.compass_unit _ Hc) as Hu.
    rewrite Forall_forall in Hu. specialize (Hu d Hd).
    assert (Hstep : unit_step (fst n - fst spawn, snd n - snd spawn)).
    { subst n. unfold unit_step in *. cbn [fst snd].
      replace (fst spawn + fst d - fst spawn) with (fst d) by lia.
      replace (snd spawn + snd d - snd spawn) with (snd d) by lia.
      exact Hu. }
    split; [|split; [|cbn [length]; lia]].
    + exists n.
      exact (route_step maze width height spawn [spawn] spawn n
               (route_start _ _ _ _) Hstep Ho).
    + constructor; [|repeat constructor; intros []].
      intros [E|[]]. rewrite <- E in Hstep. unfold unit_step in Hstep.
      cbn [fst snd] in Hstep. lia.
  - split; [exists spawn; apply route_start|].
    split; [repeat constructor; intros []|cbn [length]; lia].
Qed.

Lemma patrol_route (g : HardMazeGame.game) spawn :
  forall count current route0,
    route (HardMazeGame.maze g) (HardMazeGame.width g) (HardMazeGame.height g)
      spawn route0 current ->
    NoDup route0 ->
    (exists final,
        route (HardMazeGame.maze g) (HardMazeGame.width g) (HardMazeGame.height g)
          spawn (HardMazeGame.patrol count g current route0) final)
    /\ NoDup (HardMazeGame.patrol count g current route0)
    /\ (length (HardMazeGame.patrol count g current route0)
        <= length route0 + count)%nat.
Proof.
  induction count as [|count IH]; intros current route0 Hr Hnd;
    cbn [HardMazeGame.patrol].
  - split; [eauto|]. split; [exact Hnd|lia].
  - destruct (next_cell (HardMazeGame.maze g) (HardMazeGame.width g)
                (HardMazeGame.height g) current route0
                HardMazeGame.patrol_directions) as [n|] eqn:En.
    + destruct (EnemyFacts.next_cell_some _ _ _ _ _ _ _ En)
        as (d & Hd & Hn & Ho & Hm).
      apply mem_not_In in Hm.
      assert (Hstep : unit_step (fst n - fst current, snd n - snd current)).
      { subst n. unfold unit_step. cbn [fst snd].
        replace (fst current + fst d - fst current) with (fst d) by lia.
        replace (snd current + snd d - snd current) with (snd d) by lia.
        unfold HardMazeGame.patrol_directions in Hd. cbn [In] in Hd.
        destruct Hd as [<-|[<-|[<-|[<-|[]]]]]; reflexivity. }
      destruct (IH n (route0 ++ [n]) (route_step _ _ _ _ _ _ _ Hr Hstep Ho))
        as (H1 & H2 & H3).
      * apply (route_snoc_nodup _ _ _ spawn route0 current n Hr); [|exact Hnd].
        intros x Hx ->. exact (Hm Hx).
      * split; [exact H1|]. split; [exact H2|].
        rewrite length_app in H3. cbn [length] in H3. lia.
    + destruct (IH current route0 Hr Hnd) as (H1 & H2 & H3).
      split; [exact H1|]. split; [exact H2|]. lia.
Qed.

End PatrolFacts.

(** X8.  The patrol path of [Enemy.create_patrol_path] is a simple route.
    On a [width] by [height] maze, with [GameConfig.DIRECTIONS] some order
    of the four unit steps and whatever the shuffles draw, the path built
    for an enemy at [p] starts at [p], moves by unit steps onto in-bounds
    Path cells, visits no cell twice and has at most 11 cells; the enemy
    stays at [p]. *)
Theorem patrol_path_is_a_simple_route :
  forall e dirs maze width height r p,
    Enemy.pos e = Some p -> compass dirs ->
    rectangular maze width height = true ->
    let e' := fst (fst (Enemy.create_patrol_path e dirs maze width height r)) in
    (exists final, route maze width height p (Enemy.path e') final)
    /\ NoDup (Enemy.path e')
    /\ (length (Enemy.path e') <= 11)%nat
    /\ Enemy.pos e' = Some p.
Proof.
  intros e dirs maze width height r p Hp Hc _.
  unfold Enemy.create_patrol_path. rewrite Hp.
  pose proof (PatrolFacts.walk_route maze width height p 10 dirs p [p] [p] r Hc
                (route_start _ _ _ _) (fun c H => H)
                ltac:(repeat constructor; intros [])) as Hw.
  pose proof (EnemyFacts.walk_shape maze width height 10 dirs p [p] [p] r) as Hs.
  destruct (Enemy.walk 10 maze width height dirs p [p] [p] r)
    as [[walked directions] r1].
  cbv zeta in Hw. cbn [fst snd] in Hw |- *. destruct Hs as [Hperm _].
  cbn [Enemy.path Enemy.pos]. split; [|split; [|split; [|reflexivity]]];
    destruct (Z.of_nat (length walked) <? 3).
  - apply PatrolFacts.back_and_forth_route.
    unfold compass in *. eapply Permutation_trans; [exact Hc|].
    apply Permutation_sym. exact Hperm.
  - apply Hw.
  - apply PatrolFacts.back_and_forth_route.
    unfold compass in *. eapply Permutation_trans; [exact Hc|].
    apply Permutation_sym. exact Hperm.
  - apply Hw.
  - assert (Hcd : compass directions).
    { unfold compass in *. eapply Permutation_trans; [exact Hc|].
      apply Permutation_sym. exact Hperm. }
    pose proof (PatrolFacts.back_and_forth_route maze width height p directions Hcd)
      as (_ & _ & H). lia.
  - destruct Hw as (_ & _ & H). cbn [length] in H. lia.
Qed.

Lemma patrol_path_is_a_simple_route_witness :
  (Enemy.pos (Enemy.init (Some (1, 1))) = Some (1, 1)
   /\ compass GameConfig.DIRECTIONS /\ rectangular ring 7 7 = true)
  /\ let e' := fst (fst (Enemy.create_patrol_path (Enemy.init (Some (1, 1)))
                           GameConfig.DIRECTIONS ring 7 7 (tape [3; 1; 2]%nat))) in
     (exists final, route ring 7 7 (1, 1) (Enemy.path e') final)
     /\ NoDup (Enemy.path e')
     /\ (length (Enemy.path e') <= 11)%nat
     /\ Enemy.pos e' = Some (1, 1).
Proof.
  split; [split; [reflexivity | split; [apply Permutation_refl | reflexivity]]|].
  apply patrol_path_is_a_simple_route;
    [reflexivity | apply Permutation_refl | reflexivity].
Defined.

(** X9.  The patrol path of main3.py's [create_enemy_path] is a simple
    route: for an enemy at [q] it starts at [q], moves by unit steps onto
    in-bounds Path cells, visits no cell twice and has at most 7 cells. *)
Theorem enemy_path_is_a_simple_route :
  forall g q,
    HardMazeGame.enemy_pos g = Some q ->
    rectangular (HardMazeGame.maze g) (HardMazeGame.width g)
      (HardMazeGame.height g) = true ->
    let g' := HardMazeGame.create_enemy_path g in
    (exists final,
        route (HardMazeGame.maze g) (HardMazeGame.width g) (HardMazeGame.height g)
          q (HardMazeGame.enemy_path g') final)
    /\ NoDup (HardMazeGame.enemy_path g')
    /\ (length (HardMazeGame.enemy_path g') <= 7)%nat
    /\ HardMazeGame.enemy_pos g' = Some q.
Proof.
  intros g q Hq _. unfold HardMazeGame.create_enemy_path. rewrite Hq.
  cbn [HardMazeGame.set_enemy HardMazeGame.enemy_path HardMazeGame.enemy_pos].
  destruct (PatrolFacts.patrol_route g q 6 q [q] (route_start _ _ _ _)
              ltac:(repeat constructor; intros [])) as (H1 & H2 & H3).
  split; [exact H1|]. split; [exact H2|]. split; [|reflexivity].
  cbn [length] in H3. lia.
Qed.

Lemma enemy_path_is_a_simple_route_witness :
  (HardMazeGame.enemy_pos (HardMazeGame.set_enemy ring_game (Some (1, 1)) [])
   = Some (1, 1)
   /\ rectangular (HardMazeGame.maze ring_game) (HardMazeGame.width ring_game)
        (HardMazeGame.height ring_game) = true)
  /\ let g' := HardMazeGame.create_enemy_path
                 (HardMazeGame.set_enemy ring_game (Some (1, 1)) []) in
     (exists final,
         route ring 7 7 (1, 1) (HardMazeGame.enemy_path g') final)
     /\ NoDup (HardMazeGame.enemy_path g')
     /\ (length (HardMazeGame.enemy_path g') <= 7)%nat
     /\ HardMazeGame.enemy_pos g' = Some (1, 1).
Proof.
  split; [split; reflexivity|].
  apply (enemy_path_is_a_simple_route
           (HardMazeGame.set_enemy ring_game (Some (1, 1)) []) (1, 1));
    reflexivity.
Defined.
(** ** game_objects.py: the patrol step *)

Module MoveFacts.

Import Random Enemy.

Lemma index_of_nth (l : list cell) :
  forall i p, NoDup l -> nth_error l i = Some p ->
    index_of p l = Some (Z.of_nat i).
Proof.
  induction l as [|d l IH]; intros i p Hnd Hn; [destruct i; discriminate|].
  inversion Hnd as [|? ? Hnotin Hnd']; subst. cbn [index_of].
  destruct i as [|i]; cbn [nth_error] in Hn.
  - injection Hn as ->. rewrite cell_eqb_refl. reflexivity.
  - destruct (cell_eqb d p) eqn:E.
    + apply cell_eqb_eq in E. subst d. exfalso. apply Hnotin.
      eapply nth_error_In. exact Hn.
    + rewrite (IH i p Hnd' Hn). f_equal. lia.
Qed.

Lemma enemy_moves_app a b e :
  enemy_moves (a + b) e = (e' <- enemy_moves a e ;; enemy_moves b e').
Proof.
  revert e. induction a as [|a IH]; intros e; cbn [Nat.add enemy_moves bind];
    [reflexivity|].
  destruct (move e) as [e1| |]; cbn [bind]; [apply IH|reflexivity|reflexivity].
Qed.

Section Cycle.

Variable route0 : list cell.
Variable home : option cell.
Hypothesis route0_nodup : NoDup route0.
Hypothesis route0_long : (2 <= length route0)%nat.

Lemma move_waits p c :
  c + 1 < 5 ->
  move (mk_enemy (Some p) route0 c home) = Ret (mk_enemy (Some p) route0 (c + 1) home).
Proof.
  intros Hc. unfold move. cbn [pos path move_counter initial_pos].
  replace (Z.of_nat (length route0) <? 2) with false
    by (symmetry; apply Z.ltb_ge; lia).
  destruct route0 as [|a l]; [cbn [length] in route0_long; lia|].
  cbn [orb]. unfold GameConfig.ENEMY_MOVE_INTERVAL.
  replace (5 <=? c + 1) with false by (symmetry; apply Z.leb_gt; lia).
  reflexivity.
Qed.

Lemma move_advances p i c :
  nth_error route0 i = Some p -> 5 <= c + 1 ->
  exists p',
    nth_error route0 ((i + 1) mod length route0) = Some p'
    /\ move (mk_enemy (Some p) route0 c home) = Ret (mk_enemy (Some p') route0 0 home).
Proof.
  intros Hi Hc.
  assert (Hlt : ((i + 1) mod length route0 < length route0)%nat)
    by (apply Nat.mod_upper_bound; lia).
  destruct (nth_error route0 ((i + 1) mod length route0)) as [p'|] eqn:En;
    [|apply nth_error_None in En; lia].
  exists p'. split; [reflexivity|].
  unfold move. cbn [pos path move_counter initial_pos].
  replace (Z.of_nat (length route0) <? 2) with false
    by (symmetry; apply Z.ltb_ge; lia).
  replace (match route0 with [] => true | _ :: _ => false end) with false
    by (destruct route0; [cbn [length] in route0_long; lia|reflexivity]).
  cbn [orb]. unfold GameConfig.ENEMY_MOVE_INTERVAL.
  replace (5 <=? c + 1) with true by (symmetry; apply Z.leb_le; lia).
  rewrite (index_of_nth route0 i p route0_nodup Hi).
  unfold py_mod.
  replace (Z.of_nat (length route0) =? 0) with false
    by (symmetry; apply Z.eqb_neq; lia).
  cbn [bind].
  replace (Z.of_nat i + 1) with (Z.of_nat (i + 1)) by lia.
  rewrite <- Nat2Z.inj_mod.
  rewrite py_index_nonneg by lia. rewrite Nat2Z.id, En. reflexivity.
Qed.

Lemma moves_wait p :
  forall j c, 0 <= c -> c + Z.of_nat j < 5 ->
    enemy_moves j (mk_enemy (Some p) route0 c home)
    = Ret (mk_enemy (Some p) route0 (c + Z.of_nat j) home).
Proof.
  induction j as [|j IH]; intros c Hc Hj; cbn [enemy_moves].
  - replace (c + Z.of_nat 0) with c by lia. reflexivity.
  - rewrite move_waits by lia. cbn [bind]. rewrite IH by lia.
    do 2 f_equal. lia.
Qed.

Lemma moves_round p i :
  nth_error route0 i = Some p ->
  exists p',
    nth_error route0 ((i + 1) mod length route0) = Some p'
    /\ enemy_moves 5 (mk_enemy (Some p) route0 0 home)
       = Ret (mk_enemy (Some p') route0 0 home).
Proof.
  intros Hi.
  destruct (move_advances p i 4 Hi ltac:(lia)) as (p' & Hp' & Hm).
  exists p'. split; [exact Hp'|].
  change 5%nat with (4 + 1)%nat. rewrite enemy_moves_app.
  rewrite (moves_wait p 4 0) by (cbn; lia). cbn [bind].
  change (0 + Z.of_nat 4) with 4. cbn [enemy_moves]. rewrite Hm. reflexivity.
Qed.

Lemma moves_rounds p i :
  nth_error route0 i = Some p ->
  forall k,
    exists p',
      nth_error route0 ((i + k) mod length route0) = Some p'
      /\ enemy_moves (5 * k) (mk_enemy (Some p) route0 0 home)
         = Ret (mk_enemy (Some p') route0 0 home).
Proof.
  intros Hi. induction k as [|k IH].
  - exists p. split; [|reflexivity].
    rewrite Nat.add_0_r, Nat.mod_small; [exact Hi|].
    apply nth_error_Some. congruence.
  - destruct IH as (pk & Hpk & Hk).
    destruct (moves_round pk _ Hpk) as (p' & Hp' & Hr).
    exists p'. split.
    + replace ((i + S k) mod length route0)%nat
        with (((i + k) mod length route0 + 1) mod length route0)%nat; [exact Hp'|].
      rewrite Nat.Div0.add_mod_idemp_l. f_equal. lia.
    + replace (5 * S k)%nat with (5 * k + 5)%nat by lia.
      rewrite enemy_moves_app, Hk. cbn [bind]. exact Hr.
Qed.

End Cycle.

End MoveFacts.

(** X10.  The enemy advances one cell every fifth call of [Enemy.move].
    For an enemy standing on the [i]-th cell of a patrol path of at least 2
    distinct cells, with its counter at 0: after [5 * k + j] calls
    ([j < 5]) it stands on the cell of index [(i + k) mod len(path)], with
    its counter at [j]; no call raises.  From the last cell of the path it
    goes to the first. *)
Theorem enemy_advances_every_fifth_call :
  forall e p i k j,
    Enemy.pos e = Some p -> Enemy.move_counter e = 0 ->
    NoDup (Enemy.path e) -> (2 <= length (Enemy.path e))%nat ->
    nth_error (Enemy.path e) i = Some p -> (j < 5)%nat ->
    exists p',
      nth_error (Enemy.path e) ((i + k) mod length (Enemy.path e)) = Some p'
      /\ enemy_moves (5 * k + j) e
         = Ret (Enemy.mk_enemy (Some p') (Enemy.path e) (Z.of_nat j)
                  (Enemy.initial_pos e)).
Proof.
  intros [pos0 path0 counter0 home] p i k j. cbn [Enemy.pos Enemy.move_counter
    Enemy.path Enemy.initial_pos].
  intros -> -> Hnd Hlen Hi Hj.
  destruct (MoveFacts.moves_rounds path0 home Hnd Hlen p i Hi k) as (p' & Hp' & Hk).
  exists p'. split; [exact Hp'|].
  rewrite MoveFacts.enemy_moves_app, Hk. cbn [bind].
  rewrite (MoveFacts.moves_wait path0 home Hnd Hlen p' j 0) by lia.
  reflexivity.
Qed.

Lemma enemy_advances_every_fifth_call_witness :
  exists p',
    nth_error [(1, 1); (2, 1); (3, 1)] ((2 + 1) mod 3) = Some p'
    /\ enemy_moves (5 * 1 + 2)
         (Enemy.mk_enemy (Some (3, 1)) [(1, 1); (2, 1); (3, 1)] 0 (Some (1, 1)))
       = Ret (Enemy.mk_enemy (Some p') [(1, 1); (2, 1); (3, 1)] (Z.of_nat 2)
                (Some (1, 1))).
Proof.
  apply (enemy_advances_every_fifth_call
           (Enemy.mk_enemy (Some (3, 1)) [(1, 1); (2, 1); (3, 1)] 0 (Some (1, 1)))
           (3, 1) 2%nat 1%nat 2%nat).
  - reflexivity.
  - reflexivity.
  - repeat constructor; cbn; intuition discriminate.
  - cbn. lia.
  - reflexivity.
  - lia.
Defined.

(** ** main3.py: where features are placed *)

Module FeatureFacts.

Import Random HardMazeGame.

Lemma py_range_nodup a b : NoDup (py_range a b).
Proof.
  unfold py_range. apply Finite.Injective_map_NoDup; [|apply seq_NoDup].
  intros i j H. lia.
Qed.

Lemma flat_map_nodup {A B : Type} (f : A -> list B) (l : list A) :
  NoDup l -> (forall a, NoDup (f a)) ->
  (forall a b c, In c (f a) -> In c (f b) -> a = b) ->
  NoDup (flat_map f l).
Proof.
  intros Hl Hf Hinj. induction Hl as [|a l Ha Hl IH]; cbn [flat_map]; [constructor|].
  apply NoDup_app; [apply Hf | exact IH |].
  intros c Hc Hin. apply in_flat_map in Hin. destruct Hin as (b & Hb & Hcb).
  rewrite (Hinj a b c Hc Hcb) in Ha. contradiction.
Qed.

Lemma empty_spaces_In g c :
  In c (empty_spaces g) -> free_cell g c.
Proof.
  unfold empty_spaces. intros H.
  apply in_flat_map in H. destruct H as (y & Hy & H).
  apply in_flat_map in H. destruct H as (x & Hx & H).
  apply py_range_In in Hy, Hx.
  destruct (maze_is (maze g) x y 0 && negb (mem (x, y) [(1, 1); end_pos g])) eqn:E;
    [|destruct H].
  destruct H as [<-|[]]. apply andb_true_iff in E. destruct E as [E1 E2].
  apply negb_true_iff, mem_not_In in E2.
  unfold maze_is in E1. destruct (maze_get (maze g) x y) as [v|] eqn:Ev;
    [|discriminate].
  apply Z.eqb_eq in E1. subst v.
  repeat split; cbn [fst snd]; try lia; try exact Ev;
    intros Heq; apply E2; rewrite Heq; cbn [In]; auto.
Qed.

Lemma empty_spaces_nodup g : NoDup (empty_spaces g).
Proof.
  unfold empty_spaces. apply flat_map_nodup; [apply py_range_nodup| |].
  - intros y. apply flat_map_nodup; [apply py_range_nodup| |].
    + intros x. destruct (_ && _); repeat constructor. intros [].
    + intros x x' c H H'.
      destruct (maze_is (maze g) x y 0 && _); [|destruct H].
      destruct (maze_is (maze g) x' y 0 && _); [|destruct H'].
      destruct H as [<-|[]]. destruct H' as [[=]|[]]. congruence.
  - intros y y' c H H'.
    apply in_flat_map in H, H'. destruct H as (x & _ & H). destruct H' as (x' & _ & H').
    destruct (maze_is (maze g) x y 0 && _); [|destruct H].
    destruct (maze_is (maze g) x' y' 0 && _); [|destruct H'].
    destruct H as [<-|[]]. destruct H' as [[=]|[]]. congruence.
Qed.

Lemma remove_first_perm c l : In c l -> Permutation (c :: remove_first c l) l.
Proof.
  induction l as [|d l IH]; intros H; [destruct H|]. cbn [remove_first].
  destruct (cell_eqb c d) eqn:E.
  - apply cell_eqb_eq in E. subst d. reflexivity.
  - destruct H as [->|H]; [rewrite cell_eqb_refl in E; discriminate|].
    eapply Permutation_trans; [apply perm_swap|].
    apply perm_skip. apply IH. exact H.
Qed.

(** [place] moves cells from [available] to the end of [placed]. *)
Lemma place_perm :
  forall count available placed r,
    let '(placed', available', _) := place count available placed r in
    Permutation (placed' ++ available') (placed ++ available)
    /\ (exists new, placed' = placed ++ new)
    /\ (length placed' = length placed + Nat.min count (length available))%nat.
Proof.
  induction count as [|count IH]; intros available placed r; cbn [place].
  - split; [reflexivity|]. split; [exists []; symmetry; apply app_nil_r|].
    cbn [Nat.min]. lia.
  - destruct available as [|a0 rest] eqn:Ea.
    + specialize (IH [] placed r). destruct (place count [] placed r) as [[p' a'] r'].
      destruct IH as (H1 & H2 & H3). split; [exact H1|]. split; [exact H2|].
      cbn [length] in *. lia.
    + rewrite <- Ea.
      pose proof (MazeGeneratorFacts.choice_In a0 available r
                    ltac:(rewrite Ea; discriminate)) as Hin.
      destruct (choice a0 available r) as [p r1]. cbn [fst] in Hin.
      specialize (IH (remove_first p available) (placed ++ [p]) r1).
      destruct (place count (remove_first p available) (placed ++ [p]) r1)
        as [[p' a'] r'].
      destruct IH as (H1 & (new & H2) & H3).
      pose proof (remove_first_perm p available Hin) as Hp.
      pose proof (PlacementFacts.remove_first_length p available Hin) as Hl.
      split; [|split].
      * eapply Permutation_trans; [exact H1|]. rewrite <- app_assoc. cbn [app].
        apply Permutation_app_head. exact Hp.
      * exists (p :: new). rewrite H2, <- app_assoc. reflexivity.
      * rewrite H3, length_app. cbn [length]. 
        assert (length available = S (length rest)) by (rewrite Ea; reflexivity).
        lia.
Qed.

(** [place_pairs] moves two cells per pair out of [candidates], as long as
    there are enough of them. *)
Lemma place_pairs_perm :
  forall count candidates pairs r,
    (2 * count <= length candidates)%nat ->
    exists rest,
      Permutation (endpoints (fst (place_pairs count candidates pairs r)) ++ rest)
        (endpoints pairs ++ candidates)
      /\ (length (fst (place_pairs count candidates pairs r))
          = length pairs + count)%nat.
Proof.
  induction count as [|count IH]; intros candidates pairs r Hlen; cbn [place_pairs].
  - exists candidates. cbn [fst]. split; [reflexivity|lia].
  - assert (H1 : candidates <> []) by (destruct candidates; [cbn in Hlen; lia|discriminate]).
    pose proof (MazeGeneratorFacts.choice_In (0, 0) candidates r H1) as Hin1.
    destruct (choice (0, 0) candidates r) as [pos1 r1]. cbn [fst] in Hin1.
    pose proof (PlacementFacts.remove_first_length pos1 candidates Hin1) as Hl1.
    assert (H2 : remove_first pos1 candidates <> [])
      by (destruct (remove_first pos1 candidates); [cbn in Hl1; lia|discriminate]).
    pose proof (MazeGeneratorFacts.choice_In (0, 0) _ r1 H2) as Hin2.
    destruct (choice (0, 0) (remove_first pos1 candidates) r1) as [pos2 r2].
    cbn [fst] in Hin2.
    pose proof (PlacementFacts.remove_first_length pos2 _ Hin2) as Hl2.
    destruct (IH (remove_first pos2 (remove_first pos1 candidates))
                (pairs ++ [(pos1, pos2)]) r2 ltac:(lia)) as (rest & Hp & Hn).
    exists rest. split.
    + eapply Permutation_trans; [exact Hp|].
      unfold endpoints. rewrite flat_map_app. cbn [flat_map fst snd app].
      rewrite <- app_assoc. apply Permutation_app_head. cbn [app].
      eapply Permutation_trans;
        [apply perm_skip; apply (remove_first_perm pos2 _ Hin2)|].
      apply (remove_first_perm pos1 _ Hin1).
    + rewrite Hn, length_app. cbn [length]. lia.
Qed.

Lemma perm_nodup_left {A : Type} (l1 l2 l : list A) :
  Permutation (l1 ++ l2) l -> NoDup l ->
  NoDup l1 /\ (forall a, In a l1 -> In a l) /\ (forall a, In a l1 -> ~ In a l2)
  /\ (forall a, In a l2 -> In a l).
Proof.
  intros Hp Hnd.
  assert (H : NoDup (l1 ++ l2)) by (apply (Permutation_NoDup (Permutation_sym Hp) Hnd)).
  split; [apply (NoDup_app_remove_r _ _ H)|]. split; [|split].
  - intros a Ha. apply (Permutation_in _ Hp). apply in_or_app. auto.
  - intros a Ha Hb. revert H Ha Hb. clear. induction l1 as [|x l1 IH]; intros H Ha Hb;
      [destruct Ha|].
    cbn [app] in H. inversion H as [|? ? Hx H']; subst. destruct Ha as [->|Ha].
    + apply Hx. apply in_or_app. auto.
    + exact (IH H' Ha Hb).
  - intros a Ha. apply (Permutation_in _ Hp). apply in_or_app. auto.
Qed.

Lemma filter_not_in (ks l : list cell) c :
  In c (filter (not_in ks) l) <-> In c l /\ ~ In c ks.
Proof.
  rewrite filter_In. unfold not_in. rewrite negb_true_iff, mem_not_In. tauto.
Qed.

Lemma filter_not_in2 (ks ts l : list cell) c :
  In c (filter (fun p => not_in ks p && not_in ts p) l)
  <-> In c l /\ ~ In c ks /\ ~ In c ts.
Proof.
  rewrite filter_In, andb_true_iff. unfold not_in.
  rewrite !negb_true_iff, !mem_not_In. tauto.
Qed.

Lemma empty_spaces_same g g' :
  width g' = width g -> height g' = height g -> maze g' = maze g ->
  end_pos g' = end_pos g -> empty_spaces g' = empty_spaces g.
Proof. unfold empty_spaces. intros -> -> -> ->. reflexivity. Qed.

Lemma create_enemy_path_features g :
  width (create_enemy_path g) = width g
  /\ height (create_enemy_path g) = height g
  /\ maze (create_enemy_path g) = maze g
  /\ end_pos (create_enemy_path g) = end_pos g
  /\ required_keys (create_enemy_path g) = required_keys g
  /\ keys (create_enemy_path g) = keys g
  /\ traps (create_enemy_path g) = traps g
  /\ teleporters (create_enemy_path g) = teleporters g
  /\ enemy_pos (create_enemy_path g) = enemy_pos g.
Proof.
  unfold create_enemy_path. destruct (enemy_pos g) eqn:E;
    cbn [set_enemy width height maze end_pos required_keys keys traps teleporters
         enemy_pos]; repeat split; auto.
Qed.

Lemma three_nodup (ks ts es : list cell) :
  NoDup ks -> NoDup ts -> NoDup es ->
  (forall c, In c ts -> ~ In c ks) ->
  (forall c, In c es -> ~ In c ks /\ ~ In c ts) ->
  NoDup (ks ++ ts ++ es).
Proof.
  intros Hk Ht He Htk Hek. apply NoDup_app; [exact Hk | |].
  - apply NoDup_app; [exact Ht | exact He |].
    intros c Hc Hin. exact (proj2 (Hek c Hin) Hc).
  - intros c Hc Hin. apply in_app_or in Hin. destruct Hin as [Hin|Hin].
    + exact (Htk c Hin Hc).
    + exact (proj1 (Hek c Hin) Hc).
Qed.

Lemma attempt_well_placed g r : well_placed g (fst (attempt g r)).
Proof.
  unfold attempt.
  cbn [set_features width height maze end_pos required_keys traps keys teleporters
       enemy_pos enemy_path].
  set (g0 := set_features g [] [] []).
  assert (Hsp : empty_spaces g0 = empty_spaces g) by reflexivity.
  rewrite Hsp. set (spaces := empty_spaces g).
  pose proof (empty_spaces_nodup g) as Hnd. fold spaces in Hnd.
  pose proof (place_perm (Z.to_nat (required_keys g)) spaces [] r) as Hk.
  destruct (place (Z.to_nat (required_keys g)) spaces [] r) as [[ks a1] r1].
  destruct Hk as (Hk1 & _ & Hk3). cbn [app] in Hk1. cbn [length] in Hk3.
  destruct (perm_nodup_left ks a1 spaces Hk1 Hnd) as (Hkn & Hks & _ & _).
  set (tc := filter (not_in ks) spaces).
  pose proof (place_perm (Z.to_nat (Z.min 8 (Z.of_nat (length tc) / 10))) tc [] r1)
    as Ht.
  destruct (place (Z.to_nat (Z.min 8 (Z.of_nat (length tc) / 10))) tc [] r1)
    as [[ts a2] r2].
  destruct Ht as (Ht1 & _ & _). cbn [app] in Ht1.
  destruct (perm_nodup_left ts a2 tc Ht1 (NoDup_filter _ Hnd)) as (Htn & Hts & _ & _).
  set (cand := filter (fun p => not_in ks p && not_in ts p) spaces).
  assert (Hcn : NoDup cand) by (apply NoDup_filter; exact Hnd).
  set (tele := if 4 <=? Z.of_nat (length cand)
               then place_pairs 2 cand [] r2 else ([], r2)).
  assert (Hte : NoDup (endpoints (fst tele))
                /\ forall c, In c (endpoints (fst tele)) -> In c cand).
  { unfold tele. destruct (4 <=? Z.of_nat (length cand)) eqn:E4.
    - apply Z.leb_le in E4.
      destruct (place_pairs_perm 2 cand [] r2 ltac:(lia)) as (rest & Hp & _).
      cbn [endpoints flat_map app] in Hp.
      destruct (perm_nodup_left _ rest cand Hp Hcn) as (H1 & H2 & _). auto.
    - cbn [fst endpoints flat_map]. split; [constructor|intros c []]. }
  destruct tele as [tl r3]. cbn [fst] in Hte. destruct Hte as [Hen Hes].
  set (spawned := match cand with
                  | [] => (None, r3)
                  | c0 :: _ => let (p, r4) := choice c0 cand r3 in (Some p, r4)
                  end).
  assert (Hq : forall q, fst spawned = Some q -> In q cand).
  { unfold spawned. destruct cand as [|c0 rest] eqn:Ec; [discriminate|].
    pose proof (MazeGeneratorFacts.choice_In c0 (c0 :: rest) r3 ltac:(discriminate))
      as Hin.
    destruct (choice c0 (c0 :: rest) r3) as [p r4]. cbn [fst] in *.
    intros q [= <-]. exact Hin. }
  destruct spawned as [spawn r4]. cbn [fst] in Hq |- *.
  match goal with
  | |- well_placed g (create_enemy_path ?x) =>
      destruct (create_enemy_path_features x)
        as (F1 & F2 & F3 & F4 & F5 & F6 & F7 & F8 & F9)
  end.
  unfold well_placed. rewrite F1, F2, F3, F4, F5, F6, F7, F8, F9.
  cbn [set_enemy set_features g0 width height maze end_pos required_keys traps keys
       teleporters enemy_pos].
  repeat (split; [reflexivity|]).
  assert (Htk : forall c, In c ts -> In c spaces /\ ~ In c ks).
  { intros c Hc. apply (filter_not_in ks spaces c). apply Hts. exact Hc. }
  assert (Hek : forall c, In c (endpoints tl) ->
                          In c spaces /\ ~ In c ks /\ ~ In c ts).
  { intros c Hc. apply (filter_not_in2 ks ts spaces c). apply Hes. exact Hc. }
  split; [|split; [|split]].
  - apply three_nodup; auto.
    + intros c Hc. apply Htk. exact Hc.
    + intros c Hc. apply Hek. exact Hc.
  - intros c Hc. apply empty_spaces_In. fold spaces.
    apply in_app_or in Hc. destruct Hc as [Hc|Hc]; [apply Hks; exact Hc|].
    apply in_app_or in Hc. destruct Hc as [Hc|Hc];
      [apply Htk; exact Hc | apply Hek; exact Hc].
  - exact Hk3.
  - intros q Hspawn. specialize (Hq q Hspawn).
    apply (filter_not_in2 ks ts spaces q) in Hq. destruct Hq as (H1 & H2 & H3).
    split; [apply empty_spaces_In; exact H1|]. auto.
Qed.

Lemma fallback_well_placed g r :
  well_placed g (fst (fallback g r))
  /\ traps (fst (fallback g r)) = [] /\ teleporters (fst (fallback g r)) = [].
Proof.
  unfold fallback.
  cbn [set_features width height maze end_pos required_keys traps keys teleporters
       enemy_pos enemy_path].
  set (g0 := set_features g [] [] []).
  assert (Hsp : empty_spaces g0 = empty_spaces g) by reflexivity.
  rewrite Hsp. set (spaces := empty_spaces g).
  pose proof (empty_spaces_nodup g) as Hnd. fold spaces in Hnd.
  pose proof (place_perm (Z.to_nat (required_keys g)) spaces [] r) as Hk.
  destruct (place (Z.to_nat (required_keys g)) spaces [] r) as [[ks a1] r1].
  destruct Hk as (Hk1 & _ & Hk3). cbn [app] in Hk1. cbn [length] in Hk3.
  destruct (perm_nodup_left ks a1 spaces Hk1 Hnd) as (Hkn & Hks & Hka & Has).
  set (spawned := match a1 with
                  | [] => (None, r1)
                  | c0 :: _ => let (p, r4) := choice c0 a1 r1 in (Some p, r4)
                  end).
  assert (Hq : forall q, fst spawned = Some q -> In q a1).
  { unfold spawned. destruct a1 as [|c0 rest] eqn:Ec; [discriminate|].
    pose proof (MazeGeneratorFacts.choice_In c0 (c0 :: rest) r1 ltac:(discriminate))
      as Hin.
    destruct (choice c0 (c0 :: rest) r1) as [p r4]. cbn [fst] in *.
    intros q [= <-]. exact Hin. }
  destruct spawned as [spawn r4]. cbn [fst] in Hq |- *.
  match goal with
  | |- well_placed g (create_enemy_path ?x) /\ _ =>
      destruct (create_enemy_path_features x)
        as (F1 & F2 & F3 & F4 & F5 & F6 & F7 & F8 & F9)
  end.
  unfold well_placed. rewrite F1, F2, F3, F4, F5, F6, F7, F8, F9.
  cbn [set_enemy set_features g0 width height maze end_pos required_keys traps keys
       teleporters enemy_pos endpoints flat_map app].
  rewrite app_nil_r.
  split; [|split; reflexivity].
  repeat (split; [reflexivity|]).
  split; [exact Hkn|]. split; [|split; [exact Hk3|]].
  - intros c Hc. apply empty_spaces_In. apply Hks. exact Hc.
  - intros q Hspawn. specialize (Hq q Hspawn). split; [|split].
    + apply empty_spaces_In. apply Has. exact Hq.
    + intros Hin. exact (Hka q Hin Hq).
    + intros [].
Qed.

Lemma well_placed_trans g1 g2 g3 :
  well_placed g1 g2 -> well_placed g2 g3 -> well_placed g1 g3.
Proof.
  intros (W & H & M & E & R & _) (W' & H' & M' & E' & R' & Hnd & Hfree & Hlen & Hq).
  assert (Hes : empty_spaces g2 = empty_spaces g1)
    by (apply empty_spaces_same; assumption).
  assert (Hf : forall c, free_cell g2 c -> free_cell g1 c).
  { unfold free_cell. rewrite W, H, M, E. auto. }
  unfold well_placed. rewrite W', H', M', E', R', W, H, M, E, R.
  repeat (split; [reflexivity|]).
  split; [exact Hnd|]. split; [intros c Hc; apply Hf, Hfree, Hc|].
  split; [rewrite Hlen, R, Hes; reflexivity|].
  intros q Hq'. destruct (Hq q Hq') as (H1 & H2). split; [apply Hf, H1 | exact H2].
Qed.

Lemma retry_well_placed :
  forall count g r e g' r',
    retry count g r = Some (e, g', r') ->
    well_placed g g' /\ (e = FellBack -> traps g' = [] /\ teleporters g' = []).
Proof.
  induction count as [|count IH]; intros g r e g' r'; cbn [retry].
  - pose proof (fallback_well_placed g r) as H.
    destruct (fallback g r) as [g1 r1]. cbn [fst] in H.
    intros [= <- <- <-]. destruct H as (H1 & H2 & H3). auto.
  - pose proof (attempt_well_placed g r) as H.
    destruct (attempt g r) as [g1 r1]. cbn [fst] in H.
    destruct (is_solvable_with_enemy g1) as [[|]|]; [| |discriminate].
    + intros [= <- <- <-]. split; [exact H|discriminate].
    + intros E. destruct (IH g1 r1 e g' r' E) as [H1 H2].
      split; [exact (well_placed_trans _ _ _ H H1) | exact H2].
Qed.

End FeatureFacts.

(** X11.  Features never overlap.  Whenever [setup_difficulty_features]
    returns, from the retry loop or from the code after it, the board
    (size, maze, exit) is unchanged; the keys, the traps and the two ends of
    every teleporter lie on pairwise distinct cells, each a Path cell
    strictly inside the border other than the start (1,1) and the exit;
    there are as many keys as required, or as many as there are such cells;
    and the enemy, when there is one, stands on such a cell that holds
    neither a key nor a trap.  After the loop gave up there are no traps
    and no teleporters. *)
Theorem placed_features_do_not_overlap :
  forall g r e g' r',
    HardMazeGame.setup_difficulty_features g r = Some (e, g', r') ->
    well_placed g g'
    /\ (e = HardMazeGame.FellBack ->
        HardMazeGame.traps g' = [] /\ HardMazeGame.teleporters g' = []).
Proof.
  intros g r e g' r' H.
  exact (FeatureFacts.retry_well_placed HardMazeGame.max_attempts g r e g' r' H).
Qed.

Lemma placed_features_do_not_overlap_witness :
  HardMazeGame.setup_difficulty_features ring_game (tape [])
  = Some (HardMazeGame.Accepted, ring_placed, ring_tape)
  /\ well_placed ring_game ring_placed
  /\ (HardMazeGame.Accepted = HardMazeGame.FellBack ->
      HardMazeGame.traps ring_placed = []
      /\ HardMazeGame.teleporters ring_placed = []).
Proof.
  assert (H : HardMazeGame.setup_difficulty_features ring_game (tape [])
              = Some (HardMazeGame.Accepted, ring_placed, ring_tape))
    by (vm_compute; reflexivity).
  split; [exact H|].
  exact (placed_features_do_not_overlap ring_game (tape []) _ ring_placed ring_tape H).
Defined.

(** ** maze_generator.py: get_empty_spaces *)

Module ScanFacts.

Lemma scan_row_ok maze keep y :
  forall xs out,
    (forall x, In x xs -> maze_get maze x y <> None) ->
    scan_row maze keep y xs out
    = Ret (out ++ filter (fun c => maze_is maze (fst c) (snd c) 0 && keep c)
                    (map (fun x => (x, y)) xs)).
Proof.
  induction xs as [|x xs IH]; intros out Hread; cbn [scan_row map filter].
  - rewrite app_nil_r. reflexivity.
  - destruct (maze_get maze x y) as [v|] eqn:Ev;
      [|exfalso; apply (Hread x (or_introl eq_refl)); exact Ev].
    cbn [lift bind fst snd]. unfold maze_is at 1. rewrite Ev.
    rewrite IH by (intros x' Hx'; apply Hread; right; exact Hx').
    destruct ((v =? 0) && keep (x, y)); [rewrite <- app_assoc|]; reflexivity.
Qed.

Lemma scan_row_raises maze keep y :
  forall xs out,
    (exists x, In x xs /\ maze_get maze x y = None) ->
    scan_row maze keep y xs out = Raise IndexError.
Proof.
  induction xs as [|x xs IH]; intros out (x0 & Hin & Hx0); [destruct Hin|].
  cbn [scan_row]. destruct (maze_get maze x y) as [v|] eqn:Ev; cbn [lift bind];
    [|reflexivity].
  apply IH. destruct Hin as [->|Hin]; [congruence|eauto].
Qed.

Lemma scan_rows_ok maze keep xs :
  forall ys out,
    (forall x y, In x xs -> In y ys -> maze_get maze x y <> None) ->
    scan_rows maze keep ys xs out
    = Ret (out ++ filter (fun c => maze_is maze (fst c) (snd c) 0 && keep c)
                    (cells_of ys xs)).
Proof.
  induction ys as [|y ys IH]; intros out Hread; cbn [scan_rows cells_of flat_map].
  - cbn [filter]. rewrite app_nil_r. reflexivity.
  - rewrite scan_row_ok by (intros x Hx; apply Hread; [exact Hx|left; reflexivity]).
    cbn [bind]. rewrite IH by (intros x y' Hx Hy; apply Hread; [exact Hx|right; exact Hy]).
    rewrite filter_app, <- app_assoc. reflexivity.
Qed.

Lemma scan_rows_raises maze keep xs :
  forall ys out,
    (exists x y, In x xs /\ In y ys /\ maze_get maze x y = None) ->
    scan_rows maze keep ys xs out = Raise IndexError.
Proof.
  induction ys as [|y ys IH]; intros out (x0 & y0 & Hx & Hy & Hnone);
    [destruct Hy|].
  cbn [scan_rows].
  destruct (scan_row maze keep y xs out) as [out'| |] eqn:E; cbn [bind].
  - apply IH. destruct Hy as [->|Hy]; [|eauto 6].
    rewrite scan_row_raises in E by eauto. discriminate.
  - destruct e; try reflexivity;
      exfalso; revert E; clear; revert out;
      induction xs as [|x xs IHx]; intros out; cbn [scan_row]; try discriminate;
      destruct (maze_get maze x y); cbn [lift bind]; try discriminate; apply IHx.
  - exfalso. revert E. clear. revert out.
    induction xs as [|x xs IHx]; intros out; cbn [scan_row]; [discriminate|].
    destruct (maze_get maze x y); cbn [lift bind]; [apply IHx|discriminate].
Qed.

Lemma cells_of_In ys xs c : In c (cells_of ys xs) <-> In (fst c) xs /\ In (snd c) ys.
Proof.
  unfold cells_of. rewrite in_flat_map. split.
  - intros (y & Hy & H). apply in_map_iff in H. destruct H as (x & <- & Hx). auto.
  - intros [Hx Hy]. exists (snd c). split; [exact Hy|].
    apply in_map_iff. exists (fst c). split; [apply surjective_cell|exact Hx].
Qed.

Lemma cells_of_nodup ys xs : NoDup ys -> NoDup xs -> NoDup (cells_of ys xs).
Proof.
  intros Hy Hx. unfold cells_of. apply FeatureFacts.flat_map_nodup; [exact Hy| |].
  - intros y. apply Finite.Injective_map_NoDup; [|exact Hx]. intros a b [=]. assumption.
  - intros y y' c H H'. apply in_map_iff in H, H'.
    destruct H as (x & <- & _). destruct H' as (x' & [=] & _). congruence.
Qed.

Lemma py_range_sorted a b : StronglySorted Z.lt (py_range a b).
Proof.
  unfold py_range. generalize (Z.to_nat (b - a)) as n. intros n.
  generalize 0%nat as i. induction n as [|n IH]; intros i; cbn [seq map].
  - constructor.
  - constructor; [apply IH|]. apply Forall_forall. intros x Hx.
    apply in_map_iff in Hx. destruct Hx as (j & <- & Hj). apply in_seq in Hj. lia.
Qed.

Lemma filter_sorted {A : Type} (R : A -> A -> Prop) (f : A -> bool) (l : list A) :
  StronglySorted R l -> StronglySorted R (filter f l).
Proof.
  induction 1 as [|a l Hs IH Hall]; cbn [filter]; [constructor|].
  destruct (f a); [|exact IH]. constructor; [exact IH|].
  rewrite Forall_forall in *. intros x Hx. apply filter_In in Hx. apply Hall, Hx.
Qed.

Lemma cells_of_sorted ys xs :
  StronglySorted Z.lt ys -> StronglySorted Z.lt xs ->
  StronglySorted row_order (cells_of ys xs).
Proof.
  intros Hy Hx. unfold cells_of.
  induction Hy as [|y ys Hs IH Hall]; cbn [flat_map]; [constructor|].
  assert (Hrow : forall l, StronglySorted Z.lt l ->
            (forall c, In c (flat_map (fun y0 => map (fun x => (x, y0)) xs) ys) ->
                       y < snd c) ->
            StronglySorted row_order
              (map (fun x => (x, y)) l
               ++ flat_map (fun y0 => map (fun x => (x, y0)) xs) ys)).
  { intros l Hl Hlater. induction Hl as [|x l Hl IHl Hxl]; cbn [map app];
      [exact IH|].
    constructor; [exact IHl|]. apply Forall_forall. intros c Hc.
    apply in_app_or in Hc. destruct Hc as [Hc|Hc].
    - apply in_map_iff in Hc. destruct Hc as (x' & <- & Hx').
      right. cbn [fst snd]. split; [reflexivity|].
      rewrite Forall_forall in Hxl. apply Hxl, Hx'.
    - left. cbn [snd]. apply Hlater, Hc. }
  apply Hrow; [exact Hx|]. intros c Hc. apply in_flat_map in Hc.
  destruct Hc as (y' & Hy' & Hc). apply in_map_iff in Hc.
  destruct Hc as (x & <- & _). cbn [snd].
  rewrite Forall_forall in Hall. apply Hall, Hy'.
Qed.

End ScanFacts.

(** X12.  [get_empty_spaces] lists the free interior.  When every cell
    strictly inside the border can be read, the call returns, in row order
    (top row first, each row from left to right) and so without repetition,
    exactly the cells strictly inside the border that hold 0 and are not
    excluded (by default the start (1,1) and the exit); when some such cell
    is missing from the grid it raises IndexError. *)
Theorem get_empty_spaces_lists_the_free_interior :
  forall width height maze exclude_positions,
    let excluded :=
      match exclude_positions with
      | None => [(1, 1); (width - 2, height - 2)]
      | Some l => l
      end in
    ((forall x y, 1 <= x < width - 1 -> 1 <= y < height - 1 ->
        maze_get maze x y <> None) ->
     exists spaces,
       MazeGeneratorSpaces.get_empty_spaces width height maze exclude_positions
       = Ret spaces
       /\ StronglySorted row_order spaces
       /\ NoDup spaces
       /\ forall c, In c spaces <->
            1 <= fst c < width - 1 /\ 1 <= snd c < height - 1
            /\ maze_get maze (fst c) (snd c) = Some 0
            /\ ~ In c excluded)
    /\ ((exists x y, 1 <= x < width - 1 /\ 1 <= y < height - 1
                     /\ maze_get maze x y = None) ->
        MazeGeneratorSpaces.get_empty_spaces width height maze exclude_positions
        = Raise IndexError).
Proof.
  intros width height maze exclude_positions excluded.
  unfold MazeGeneratorSpaces.get_empty_spaces. fold excluded. split.
  - intros Hread. eexists. split; [|split; [|split]].
    + apply ScanFacts.scan_rows_ok. intros x y Hx Hy.
      apply py_range_In in Hx, Hy. apply Hread; lia.
    + cbn [app]. apply ScanFacts.filter_sorted.
      apply ScanFacts.cells_of_sorted; apply ScanFacts.py_range_sorted.
    + cbn [app]. apply NoDup_filter. apply ScanFacts.cells_of_nodup;
        apply FeatureFacts.py_range_nodup.
    + intros c. cbn [app]. rewrite filter_In, ScanFacts.cells_of_In, !py_range_In,
        andb_true_iff, negb_true_iff, mem_not_In.
      unfold maze_is. destruct (maze_get maze (fst c) (snd c)) as [v|].
      * rewrite Z.eqb_eq. split.
        -- intros ([H1 H2] & H3 & H4). subst v. repeat split; try lia; auto.
        -- intros (H1 & H2 & [= ->] & H4). repeat split; try lia; auto.
      * split; [intros (_ & [=] & _)|intros (_ & _ & [=] & _)].
  - intros (x & y & Hx & Hy & Hnone). apply ScanFacts.scan_rows_raises.
    exists x, y. rewrite !py_range_In. repeat split; try lia; exact Hnone.
Qed.

(** ** game_objects.py: the items *)

Module ItemsFacts.

Import Random GameItems.

Lemma item_pairs_perm :
  forall count available pairs r,
    let out := place_pairs count available pairs r in
    Permutation (endpoints (fst (fst out)) ++ snd (fst out))
      (endpoints pairs ++ available)
    /\ (length (fst (fst out))
        = length pairs + Nat.min count (length available / 2))%nat.
Proof.
  induction count as [|count IH]; intros available pairs r; cbn [place_pairs].
  - cbn [fst snd Nat.min]. split; [reflexivity|lia].
  - destruct (2 <=? Z.of_nat (length available)) eqn:E.
    + apply Z.leb_le in E.
      assert (H1 : available <> [])
        by (destruct available; [cbn in E; lia|discriminate]).
      pose proof (MazeGeneratorFacts.choice_In (0, 0) available r H1) as Hin1.
      destruct (choice (0, 0) available r) as [pos1 r1]. cbn [fst] in Hin1.
      pose proof (PlacementFacts.remove_first_length pos1 available Hin1) as Hl1.
      assert (H2 : remove_first pos1 available <> [])
        by (destruct (remove_first pos1 available); [cbn in Hl1; lia|discriminate]).
      pose proof (MazeGeneratorFacts.choice_In (0, 0) _ r1 H2) as Hin2.
      destruct (choice (0, 0) (remove_first pos1 available) r1) as [pos2 r2].
      cbn [fst] in Hin2.
      pose proof (PlacementFacts.remove_first_length pos2 _ Hin2) as Hl2.
      specialize (IH (remove_first pos2 (remove_first pos1 available))
                    (pairs ++ [(pos1, pos2)]) r2).
      cbv zeta in IH |- *. destruct IH as [Hp Hn]. split.
      * eapply Permutation_trans; [exact Hp|].
        unfold endpoints. rewrite flat_map_app. cbn [flat_map fst snd app].
        rewrite <- app_assoc. apply Permutation_app_head. cbn [app].
        eapply Permutation_trans;
          [apply perm_skip; apply (FeatureFacts.remove_first_perm pos2 _ Hin2)|].
        apply (FeatureFacts.remove_first_perm pos1 _ Hin1).
      * rewrite Hn, length_app. cbn [length].
        assert (Hdiv : (length available / 2
                        = S (length (remove_first pos2 (remove_first pos1 available))
                             / 2))%nat).
        { replace (length available)
            with (length (remove_first pos2 (remove_first pos1 available)) + 1 * 2)%nat
            by lia.
          rewrite Nat.div_add by lia. lia. }
        rewrite Hdiv. lia.
    + apply Z.leb_gt in E. specialize (IH available pairs r).
      cbv zeta in IH |- *. destruct IH as [Hp Hn]. split; [exact Hp|].
      rewrite Hn.
      assert (Hdiv : (length available / 2 = 0)%nat)
        by (apply Nat.div_small; lia).
      rewrite Hdiv. lia.
Qed.

Lemma destination_none pos teleporters :
  destination pos teleporters = None <-> ~ In pos (endpoints teleporters).
Proof.
  induction teleporters as [|[pos1 pos2] rest IH];
    cbn [destination endpoints flat_map fst snd app In]; [tauto|].
  fold (endpoints rest).
  destruct (cell_eqb pos pos1) eqn:E1.
  - apply cell_eqb_eq in E1. split; [discriminate|]. intros H. exfalso. apply H. auto.
  - destruct (cell_eqb pos pos2) eqn:E2.
    + apply cell_eqb_eq in E2. split; [discriminate|]. intros H. exfalso. apply H. auto.
    + apply cell_eqb_neq in E1, E2. rewrite IH. split.
      * intros H [H1|[H1|H1]]; [congruence|congruence|exact (H H1)].
      * intros H H1. apply H. auto.
Qed.

Lemma destination_some pos teleporters q :
  destination pos teleporters = Some q ->
  In pos (endpoints teleporters) /\ In q (endpoints teleporters)
  /\ (In (pos, q) teleporters \/ In (q, pos) teleporters).
Proof.
  induction teleporters as [|[pos1 pos2] rest IH];
    cbn [destination endpoints flat_map fst snd app In]; [discriminate|].
  fold (endpoints rest).
  destruct (cell_eqb pos pos1) eqn:E1.
  - apply cell_eqb_eq in E1. intros [= <-]. subst pos1. auto 10.
  - destruct (cell_eqb pos pos2) eqn:E2.
    + apply cell_eqb_eq in E2. intros [= <-]. subst pos2. auto 10.
    + intros H. destruct (IH H) as (H1 & H2 & H3). tauto.
Qed.

Lemma destination_symmetric teleporters :
  NoDup (endpoints teleporters) ->
  forall pos q, destination pos teleporters = Some q ->
                destination q teleporters = Some pos.
Proof.
  induction teleporters as [|[pos1 pos2] rest IH];
    cbn [destination endpoints flat_map fst snd app]; [discriminate|].
  fold (endpoints rest). intros Hnd pos q.
  inversion Hnd as [|? ? Hn1 Hnd1]; subst.
  inversion Hnd1 as [|? ? Hn2 Hnd2]; subst.
  destruct (cell_eqb pos pos1) eqn:E1.
  - apply cell_eqb_eq in E1. subst pos1. intros [= <-].
    destruct (cell_eqb pos2 pos) eqn:E; [|rewrite cell_eqb_refl; reflexivity].
    apply cell_eqb_eq in E. subst pos2. exfalso. apply Hn1. left. reflexivity.
  - destruct (cell_eqb pos pos2) eqn:E2.
    + apply cell_eqb_eq in E2. subst pos2. intros [= <-].
      rewrite cell_eqb_refl. reflexivity.
    + intros H. destruct (destination_some _ _ _ H) as (_ & Hq & _).
      destruct (cell_eqb q pos1) eqn:E3;
        [apply cell_eqb_eq in E3; subst q; exfalso; apply Hn1; right; exact Hq|].
      destruct (cell_eqb q pos2) eqn:E4;
        [apply cell_eqb_eq in E4; subst q; exfalso; apply Hn2; exact Hq|].
      apply IH; assumption.
Qed.

Lemma setup_items_spec :
  forall empty_spaces required_keys r,
    let out := GameItems.setup_items GameItems.init empty_spaces required_keys r in
    let it := fst (fst out) in
    Permutation
      (GameItems.keys it ++ GameItems.traps it
       ++ endpoints (GameItems.teleporters it) ++ snd (fst out))
      empty_spaces
    /\ Z.of_nat (length (GameItems.keys it))
       = Z.max 0 (Z.min required_keys (Z.of_nat (length empty_spaces))).
Proof.
  intros empty_spaces required_keys r. unfold GameItems.setup_items.
  cbn [GameItems.init GameItems.keys GameItems.traps GameItems.teleporters
       GameItems.moving_walls].
  pose proof (FeatureFacts.place_perm
                (Z.to_nat (Z.min required_keys (Z.of_nat (length empty_spaces))))
                empty_spaces [] r) as Hk.
  destruct (HardMazeGame.place _ empty_spaces [] r) as [[ks a1] r1].
  destruct Hk as (Hk1 & _ & Hk3). cbn [app length] in Hk1, Hk3.
  pose proof (FeatureFacts.place_perm
                (Z.to_nat (Z.min 8 (Z.min (Z.of_nat (length a1) / 10)
                                           (Z.of_nat (length a1)))))
                a1 [] r1) as Ht.
  destruct (HardMazeGame.place _ a1 [] r1) as [[ts a2] r2].
  destruct Ht as (Ht1 & _ & _). cbn [app] in Ht1.
  assert (Hperm2 : Permutation (ks ++ ts ++ a2) empty_spaces).
  { eapply Permutation_trans; [|exact Hk1].
    apply Permutation_app_head. exact Ht1. }
  destruct (4 <=? Z.of_nat (length a2)).
  - pose proof (item_pairs_perm
                  (Z.to_nat (Z.min 2 (Z.of_nat (length a2) / 2))) a2 [] r2) as Hp.
    destruct (GameItems.place_pairs _ a2 [] r2) as [[tl a3] r3].
    cbv zeta in Hp. cbn [fst snd endpoints flat_map app] in Hp.
    destruct Hp as [Hp1 _].
    cbv zeta. cbn [fst snd GameItems.keys GameItems.traps GameItems.teleporters].
    split; [|lia].
    eapply Permutation_trans; [|exact Hperm2].
    apply Permutation_app_head, Permutation_app_head. exact Hp1.
  - cbv zeta. cbn [fst snd GameItems.keys GameItems.traps GameItems.teleporters
                   endpoints flat_map app].
    split; [exact Hperm2|lia].
Qed.

Lemma setup_items_moving_walls it empty_spaces required_keys r :
  moving_walls (fst (fst (setup_items it empty_spaces required_keys r)))
  = moving_walls it.
Proof.
  unfold setup_items.
  destruct (HardMazeGame.place _ empty_spaces (keys it) r) as [[ks a1] r1].
  destruct (HardMazeGame.place _ a1 (traps it) r1) as [[ts a2] r2].
  destruct (4 <=? Z.of_nat (length a2)).
  - destruct (place_pairs _ a2 (teleporters it) r2) as [[tl a3] r3]. reflexivity.
  - reflexivity.
Qed.

End ItemsFacts.

(** X13.  [setup_items] partitions the spaces it is given.  On freshly
    reset items, every cell of [empty_spaces] ends up exactly once as a key,
    a trap, a teleporter end or a cell of the returned list; there are
    min(required_keys, len(empty_spaces)) keys (none when that is negative),
    min(8, n // 10) traps of the [n] cells then left, and two teleporter pairs
    when at least 4 cells are left after that, none otherwise. *)
Theorem setup_items_partitions_the_spaces :
  forall empty_spaces required_keys r,
    let out := GameItems.setup_items GameItems.init empty_spaces required_keys r in
    let it := fst (fst out) in
    let left := snd (fst out) in
    let n_keys := Z.of_nat (length (GameItems.keys it)) in
    let n_traps := Z.of_nat (length (GameItems.traps it)) in
    Permutation
      (GameItems.keys it ++ GameItems.traps it
       ++ endpoints (GameItems.teleporters it) ++ left)
      empty_spaces
    /\ n_keys = Z.max 0 (Z.min required_keys (Z.of_nat (length empty_spaces)))
    /\ n_traps = Z.min 8 ((Z.of_nat (length empty_spaces) - n_keys) / 10)
    /\ length (GameItems.teleporters it)
       = if 4 <=? Z.of_nat (length empty_spaces) - n_keys - n_traps
         then 2%nat else 0%nat.
Proof.
  intros empty_spaces required_keys r. unfold GameItems.setup_items.
  cbn [GameItems.init GameItems.keys GameItems.traps GameItems.teleporters
       GameItems.moving_walls].
  pose proof (FeatureFacts.place_perm
                (Z.to_nat (Z.min required_keys (Z.of_nat (length empty_spaces))))
                empty_spaces [] r) as Hk.
  destruct (HardMazeGame.place _ empty_spaces [] r) as [[ks a1] r1].
  destruct Hk as (Hk1 & _ & Hk3). cbn [app length] in Hk1, Hk3.
  pose proof (Permutation_length Hk1) as Hl1. rewrite length_app in Hl1.
  pose proof (FeatureFacts.place_perm
                (Z.to_nat (Z.min 8 (Z.min (Z.of_nat (length a1) / 10)
                                           (Z.of_nat (length a1)))))
                a1 [] r1) as Ht.
  destruct (HardMazeGame.place _ a1 [] r1) as [[ts a2] r2].
  destruct Ht as (Ht1 & _ & Ht3). cbn [app length] in Ht1, Ht3.
  pose proof (Permutation_length Ht1) as Hl2. rewrite length_app in Hl2.
  assert (Hperm2 : Permutation (ks ++ ts ++ a2) empty_spaces).
  { eapply Permutation_trans; [|exact Hk1].
    apply Permutation_app_head. exact Ht1. }
  assert (Hdiv : 0 <= Z.of_nat (length a1) / 10 <= Z.of_nat (length a1)) by zlia.
  destruct (4 <=? Z.of_nat (length a2)) eqn:E4.
  - pose proof (ItemsFacts.item_pairs_perm
                  (Z.to_nat (Z.min 2 (Z.of_nat (length a2) / 2))) a2 [] r2) as Hp.
    destruct (GameItems.place_pairs _ a2 [] r2) as [[tl a3] r3].
    cbv zeta in Hp. cbn [fst snd endpoints flat_map app length] in Hp.
    destruct Hp as [Hp1 Hp2].
    cbv zeta. cbn [fst snd GameItems.keys GameItems.traps GameItems.teleporters].
    apply Z.leb_le in E4.
    split; [|split; [|split]].
    + eapply Permutation_trans; [|exact Hperm2].
      apply Permutation_app_head, Permutation_app_head. exact Hp1.
    + lia.
    + replace (Z.of_nat (length empty_spaces) - Z.of_nat (length ks))
        with (Z.of_nat (length a1)) by lia. lia.
    + replace (Z.of_nat (length empty_spaces) - Z.of_nat (length ks)
               - Z.of_nat (length ts)) with (Z.of_nat (length a2)) by lia.
      replace (4 <=? Z.of_nat (length a2)) with true
        by (symmetry; apply Z.leb_le; exact E4).
      rewrite Hp2.
      assert (2 <= length a2 / 2)%nat.
      { apply Nat.div_le_lower_bound; lia. }
      assert (2 <= Z.of_nat (length a2) / 2) by zlia.
      lia.
  - cbv zeta. cbn [fst snd GameItems.keys GameItems.traps GameItems.teleporters
                   endpoints flat_map app length].
    split; [exact Hperm2|]. split; [lia|]. split.
    + replace (Z.of_nat (length empty_spaces) - Z.of_nat (length ks))
        with (Z.of_nat (length a1)) by lia. lia.
    + replace (Z.of_nat (length empty_spaces) - Z.of_nat (length ks)
               - Z.of_nat (length ts)) with (Z.of_nat (length a2)) by lia.
      rewrite E4. reflexivity.
Qed.

(** X14.  Teleporters work both ways.  When the teleporter ends are
    pairwise distinct cells (as [setup_items] leaves them), the destination
    of a cell's destination is the cell itself; and a cell has a destination
    exactly when it is a teleporter end. *)
Theorem teleporter_destination_is_symmetric :
  forall it pos,
    (GameItems.get_teleporter_destination it pos = None
     <-> ~ In pos (endpoints (GameItems.teleporters it)))
    /\ (NoDup (endpoints (GameItems.teleporters it)) ->
        forall q,
          GameItems.get_teleporter_destination it pos = Some q ->
          q <> pos /\ GameItems.get_teleporter_destination it q = Some pos).
Proof.
  intros it pos. unfold GameItems.get_teleporter_destination. split.
  - apply ItemsFacts.destination_none.
  - intros Hnd q H. split.
    + destruct (ItemsFacts.destination_some _ _ _ H) as (_ & _ & Hin).
      intros ->. revert Hnd Hin. clear.
      induction (GameItems.teleporters it) as [|[a b] rest IH];
        cbn [endpoints flat_map fst snd app]; intros Hnd [Hin|Hin];
        try (destruct Hin; fail).
      * inversion Hnd as [|? ? Hn _]; subst.
        destruct Hin as [[= <- <-]|Hin].
        -- apply Hn. left. reflexivity.
        -- inversion Hnd as [|? ? _ Hnd1]; subst.
           inversion Hnd1; subst. apply IH; auto.
      * inversion Hnd as [|? ? Hn _]; subst.
        destruct Hin as [[= <- <-]|Hin].
        -- apply Hn. left. reflexivity.
        -- inversion Hnd as [|? ? _ Hnd1]; subst.
           inversion Hnd1; subst. apply IH; auto.
    + apply ItemsFacts.destination_symmetric; assumption.
Qed.

(** ** game_objects.py: the events of a move *)

(** X15.  [handle_player_move] reports one event and keeps the key count.
    Keys collected plus keys left is unchanged by the call, and so are the
    traps, the teleporters and the enemy.  The event is "trap" exactly when
    the player stands on a trap; "trap", "enemy" and "move" change nothing;
    an event starting with "key" is reported exactly when the player, not
    on a trap and not on the enemy's cell, stands on a key, which is then
    removed and counted; an event starting with "teleport" moves the player
    to the other end of the teleporter, counting one more move. *)
Theorem handle_player_move_reports_one_event :
  forall o maze,
    let pos := Player.pos (GameObjects.player o) in
    let o' := fst (GameObjects.handle_player_move o maze) in
    let event := snd (GameObjects.handle_player_move o maze) in
    Player.keys_collected (GameObjects.player o')
    + Z.of_nat (length (GameItems.keys (GameObjects.items o')))
    = Player.keys_collected (GameObjects.player o)
      + Z.of_nat (length (GameItems.keys (GameObjects.items o)))
    /\ GameItems.traps (GameObjects.items o') = GameItems.traps (GameObjects.items o)
    /\ GameItems.teleporters (GameObjects.items o')
       = GameItems.teleporters (GameObjects.items o)
    /\ GameObjects.enemy o' = GameObjects.enemy o
    /\ (event = "trap"%string <-> In pos (GameItems.traps (GameObjects.items o)))
    /\ (event = "trap"%string \/ event = "enemy"%string \/ event = "move"%string ->
        o' = o)
    /\ (event = "enemy"%string -> Enemy.pos (GameObjects.enemy o) = Some pos)
    /\ (String.prefix "key" event = true <->
        ~ In pos (GameItems.traps (GameObjects.items o))
        /\ Enemy.pos (GameObjects.enemy o) <> Some pos
        /\ In pos (GameItems.keys (GameObjects.items o)))
    /\ (String.prefix "key" event = true ->
        GameItems.keys (GameObjects.items o')
        = remove_first pos (GameItems.keys (GameObjects.items o))
        /\ GameObjects.player o' = Player.collect_key (GameObjects.player o))
    /\ (String.prefix "teleport" event = true ->
        exists destination,
          GameItems.get_teleporter_destination (GameObjects.items o) pos
          = Some destination
          /\ GameObjects.player o'
             = Player.move (GameObjects.player o) destination
          /\ GameObjects.items o' = GameObjects.items o).
Proof.
  intros o maze pos o' event. subst o' event.
  unfold GameObjects.handle_player_move. fold pos.
  unfold GameItems.is_trap, GameItems.remove_key.
  destruct (mem pos (GameItems.traps (GameObjects.items o))) eqn:Et.
  { apply mem_In in Et. cbn [fst snd].
    repeat split; try reflexivity; try discriminate; auto; tauto. }
  apply mem_not_In in Et.
  assert (Hen : (match Enemy.pos (GameObjects.enemy o) with
                 | Some q => cell_eqb pos q
                 | None => false
                 end) = true <-> Enemy.pos (GameObjects.enemy o) = Some pos).
  { destruct (Enemy.pos (GameObjects.enemy o)) as [q|]; [|split; discriminate].
    rewrite cell_eqb_eq. split; [intros ->; reflexivity|intros [= ->]; reflexivity]. }
  destruct (match Enemy.pos (GameObjects.enemy o) with
            | Some q => cell_eqb pos q
            | None => false
            end) eqn:Ee.
  { cbn [fst snd]. pose proof (proj1 Hen eq_refl) as He.
    repeat split; try reflexivity; try discriminate; auto; tauto. }
  assert (He : Enemy.pos (GameObjects.enemy o) <> Some pos).
  { intros H. apply Hen in H. discriminate. }
  destruct (mem pos (GameItems.keys (GameObjects.items o))) eqn:Ek.
  { apply mem_In in Ek. cbn [fst snd GameObjects.player GameObjects.items
      GameObjects.enemy GameItems.keys GameItems.traps GameItems.teleporters
      Player.collect_key Player.keys_collected].
    pose proof (PlacementFacts.remove_first_length pos _ Ek) as Hl.
    split; [lia|].
    repeat split; try reflexivity; try discriminate; auto;
      try (intros [H|[H|H]]; discriminate); tauto. }
  apply mem_not_In in Ek. unfold GameItems.get_teleporter_destination.
  destruct (GameItems.destination pos (GameItems.teleporters (GameObjects.items o)))
    as [destination|] eqn:Ed.
  { cbn [fst snd GameObjects.player GameObjects.items GameObjects.enemy
      Player.move Player.keys_collected].
    repeat split; try reflexivity; try discriminate; auto;
      try (intros [H|[H|H]]; discriminate); try tauto.
    intros _. exists destination. auto. }
  cbn [fst snd]. repeat split; try reflexivity; try discriminate; auto; tauto.
Qed.

(** ** game_objects.py: setting the objects up *)

Module ObjectsFacts.

Import GameObjects.

Lemma remove_first_nodup c l :
  NoDup l -> In c l ->
  NoDup (remove_first c l)
  /\ forall x, In x (remove_first c l) <-> In x l /\ x <> c.
Proof.
  intros Hnd Hin. pose proof (FeatureFacts.remove_first_perm c l Hin) as Hp.
  pose proof (Permutation_NoDup (Permutation_sym Hp) Hnd) as Hnd'.
  inversion Hnd' as [|? ? Hn Hnd'']; subst. split; [exact Hnd''|].
  intros x. split.
  - intros H. split.
    + apply (Permutation_in _ Hp). right. exact H.
    + intros ->. exact (Hn H).
  - intros [H Hx]. apply (Permutation_in _ (Permutation_sym Hp)) in H.
    destruct H as [->|H]; [congruence|exact H].
Qed.

Lemma discard_spec s l :
  NoDup l ->
  NoDup (if mem s l then remove_first s l else l)
  /\ forall x, In x (if mem s l then remove_first s l else l)
               <-> In x l /\ x <> s.
Proof.
  intros Hnd. destruct (mem s l) eqn:E.
  - apply mem_In in E. apply remove_first_nodup; assumption.
  - apply mem_not_In in E. split; [exact Hnd|]. intros x. split.
    + intros H. split; [exact H|]. intros ->. exact (E H).
    + tauto.
Qed.

Lemma insert_reverse_perm key c l :
  Permutation (insert_reverse key c l) (c :: l).
Proof.
  induction l as [|d l IH]; cbn [insert_reverse]; [reflexivity|].
  destruct (key c <? key d); [|reflexivity].
  eapply Permutation_trans; [apply perm_skip; exact IH|apply perm_swap].
Qed.

Lemma sorted_reverse_perm key l : Permutation (sorted_reverse key l) l.
Proof.
  induction l as [|c l IH]; cbn [sorted_reverse fold_right]; [reflexivity|].
  fold (sorted_reverse key l).
  eapply Permutation_trans; [apply insert_reverse_perm|apply perm_skip; exact IH].
Qed.

Lemma insert_reverse_sorted key c l :
  StronglySorted (fun a b => key b <= key a) l ->
  StronglySorted (fun a b => key b <= key a) (insert_reverse key c l).
Proof.
  induction l as [|d l IH]; intros Hs; cbn [insert_reverse].
  - constructor; constructor.
  - inversion Hs as [|? ? Hs' Hall]; subst.
    destruct (key c <? key d) eqn:E.
    + apply Z.ltb_lt in E. constructor; [exact (IH Hs')|].
      rewrite Forall_forall in *. intros x Hx.
      apply (Permutation_in _ (insert_reverse_perm key c l)) in Hx.
      destruct Hx as [<-|Hx]; [lia|exact (Hall x Hx)].
    + apply Z.ltb_ge in E. constructor; [exact Hs|].
      rewrite Forall_forall in *. intros x [<-|Hx]; [exact E|].
      specialize (Hall x Hx). cbv beta in Hall. lia.
Qed.

Lemma sorted_reverse_head key c l :
  exists q rest,
    sorted_reverse key (c :: l) = q :: rest
    /\ In q (c :: l)
    /\ forall x, In x (c :: l) -> key x <= key q.
Proof.
  assert (Hs : forall l', StronglySorted (fun a b => key b <= key a)
                            (sorted_reverse key l')).
  { induction l' as [|d l' IH]; cbn [sorted_reverse fold_right]; [constructor|].
    apply insert_reverse_sorted. exact IH. }
  specialize (Hs (c :: l)).
  pose proof (sorted_reverse_perm key (c :: l)) as Hp.
  destruct (sorted_reverse key (c :: l)) as [|q rest].
  - apply Permutation_nil in Hp. discriminate.
  - exists q, rest. split; [reflexivity|]. split.
    + apply (Permutation_in _ Hp). left. reflexivity.
    + intros x Hx. apply (Permutation_in _ (Permutation_sym Hp)) in Hx.
      inversion Hs as [|? ? _ Hall]; subst. rewrite Forall_forall in Hall.
      destruct Hx as [<-|Hx]; [lia|exact (Hall x Hx)].
Qed.

Lemma scan_spots o maze :
  rectangular maze (width o) (height o) = true ->
  exists spots,
    scan_rows maze (fun _ => true) (py_range 0 (height o)) (py_range 0 (width o)) []
    = Ret spots
    /\ NoDup spots
    /\ forall c, In c spots <->
         0 <= fst c < width o /\ 0 <= snd c < height o
         /\ maze_get maze (fst c) (snd c) = Some 0.
Proof.
  intros Hr. pose proof (rectangular_covers _ _ _ Hr) as Hc.
  eexists. split; [|split].
  - apply ScanFacts.scan_rows_ok. intros x y Hx Hy.
    apply py_range_In in Hx, Hy.
    destruct (Hc x y Hx Hy) as [v ->]. discriminate.
  - cbn [app]. apply NoDup_filter.
    apply ScanFacts.cells_of_nodup; apply FeatureFacts.py_range_nodup.
  - intros c. cbn [app]. rewrite filter_In, ScanFacts.cells_of_In.
    rewrite !py_range_In, andb_true_r. unfold maze_is.
    destruct (maze_get maze (fst c) (snd c)) as [v|].
    + rewrite Z.eqb_eq. split.
      * intros [[H1 H2] ->]. auto.
      * intros (H1 & H2 & [= ->]). auto.
    + split; [intros [_ H]; discriminate|intros (_ & _ & H); discriminate].
Qed.

End ObjectsFacts.

(** X16.  [setup_objects] puts everything on its own open cell.  On a
    rectangular maze and freshly reset items the call returns; the player is
    back on the start with no moves and no keys; the keys, the traps and the
    teleporter ends are pairwise distinct in-bounds Path cells, none of them
    the start, the exit or the enemy's cell.  When the maze has an open cell
    other than the start and the exit, the enemy stands on one of greatest
    Manhattan distance from the start, its patrol path begins there, and
    with four such cells all three keys are placed; when it has none, the
    enemy is left as it was and nothing is placed. *)
Theorem setup_objects_places_everything_apart :
  forall o dirs maze r,
    compass dirs ->
    rectangular maze (GameObjects.width o) (GameObjects.height o) = true ->
    GameObjects.items o = GameItems.init ->
    exists o' dirs' r',
      GameObjects.setup_objects o dirs maze r = Ret (o', dirs', r')
      /\ compass dirs'
      /\ GameObjects.player o' = Player.mk_player (GameObjects.start_pos o) 0 0
      /\ NoDup (GameItems.keys (GameObjects.items o')
                ++ GameItems.traps (GameObjects.items o')
                ++ endpoints (GameItems.teleporters (GameObjects.items o')))
      /\ (forall c,
            In c (GameItems.keys (GameObjects.items o')
                  ++ GameItems.traps (GameObjects.items o')
                  ++ endpoints (GameItems.teleporters (GameObjects.items o'))) ->
            open_spot o maze c /\ Enemy.pos (GameObjects.enemy o') <> Some c)
      /\ ((exists c, open_spot o maze c) ->
          exists q,
            Enemy.pos (GameObjects.enemy o') = Some q
            /\ Enemy.initial_pos (GameObjects.enemy o') = Some q
            /\ hd_error (Enemy.path (GameObjects.enemy o')) = Some q
            /\ open_spot o maze q
            /\ forall c, open_spot o maze c ->
                 HardMazeGame.manhattan c (GameObjects.start_pos o)
                 <= HardMazeGame.manhattan q (GameObjects.start_pos o))
      /\ (forall l, NoDup l -> (forall c, In c l -> open_spot o maze c) ->
                    (4 <= length l)%nat ->
                    length (GameItems.keys (GameObjects.items o')) = 3%nat)
      /\ ((forall c, ~ open_spot o maze c) ->
          GameObjects.enemy o' = GameObjects.enemy o
          /\ GameObjects.items o' = GameItems.init).
Proof.
  intros o dirs maze r Hc Hr Hi.
  destruct (ObjectsFacts.scan_spots o maze Hr) as (E0 & Hscan & Hnd0 & Hin0).
  unfold GameObjects.setup_objects. rewrite Hscan. cbn [bind].
  destruct (ObjectsFacts.discard_spec (GameObjects.start_pos o) E0 Hnd0)
    as [Hnd1 Hin1].
  set (E1 := if mem (GameObjects.start_pos o) E0
             then remove_first (GameObjects.start_pos o) E0 else E0) in *.
  destruct (ObjectsFacts.discard_spec (GameObjects.end_pos o) E1 Hnd1)
    as [Hnd2 Hin2].
  set (E2 := if mem (GameObjects.end_pos o) E1
             then remove_first (GameObjects.end_pos o) E1 else E1) in *.
  assert (Hspot : forall c, In c E2 <-> open_spot o maze c).
  { intros c. rewrite Hin2, Hin1, Hin0. unfold open_spot. tauto. }
  clearbody E2. clear Hin2 Hin1 Hin0 Hscan. rewrite Hi.
  destruct E2 as [|c0 E2'].
  - cbn [bind].
    pose proof (ItemsFacts.setup_items_spec [] GameConfig.REQUIRED_KEYS r) as Hs.
    pose proof (ItemsFacts.setup_items_moving_walls GameItems.init []
                  GameConfig.REQUIRED_KEYS r) as Hm.
    destruct (GameItems.setup_items GameItems.init [] GameConfig.REQUIRED_KEYS r)
      as [[it left] r1].
    cbv zeta in Hs. cbn [fst snd] in Hs, Hm. destruct Hs as (Hp & _).
    apply Permutation_sym, Permutation_nil in Hp.
    apply app_eq_nil in Hp. destruct Hp as [Hk Hp].
    apply app_eq_nil in Hp. destruct Hp as [Ht Hp].
    apply app_eq_nil in Hp. destruct Hp as [Hp _].
    eexists _, _, _. split; [reflexivity|].
    cbn [GameObjects.player GameObjects.items GameObjects.enemy
         GameObjects.start_pos GameObjects.end_pos GameObjects.width
         GameObjects.height].
    rewrite Hk, Ht, Hp. cbn [app].
    split; [exact Hc|]. split; [reflexivity|]. split; [constructor|].
    split; [intros c []|]. split; [|split].
    + intros [c Hc0]. apply Hspot in Hc0. destruct Hc0.
    + intros l _ Hl Hlen. destruct l as [|c l]; [cbn in Hlen; lia|].
      exfalso. apply (proj2 (Hspot c)). apply Hl. left. reflexivity.
    + intros _. split; [reflexivity|].
      destruct it as [ks ts tl mw]. cbn in Hk, Ht, Hp, Hm. subst ks ts mw.
      assert (tl = []) by (destruct tl as [|[a b] tl]; [reflexivity|discriminate]).
      subst tl. reflexivity.
  - pose proof (ObjectsFacts.sorted_reverse_head
                  (fun p => Z.abs (fst p - fst (GameObjects.start_pos o))
                            + Z.abs (snd p - snd (GameObjects.start_pos o)))
                  c0 E2') as (q & rest & Hsort & Hq & Hmax).
    rewrite Hsort. cbn [py_index Z.leb Z.compare Z.to_nat nth_error lift bind].
    destruct (ObjectsFacts.remove_first_nodup q (c0 :: E2') Hnd2 Hq) as [Hnd3 Hin3].
    set (E3 := remove_first q (c0 :: E2')) in *.
    pose proof (PlacementFacts.remove_first_length q (c0 :: E2') Hq) as Hlen3.
    fold E3 in Hlen3.
    set (e := Enemy.mk_enemy (Some q) (Enemy.path (GameObjects.enemy o))
                (Enemy.move_counter (GameObjects.enemy o)) (Some q)).
    pose proof (EnemyFacts.create_patrol_path_spec e dirs maze
                  (GameObjects.width o) (GameObjects.height o) r q eq_refl Hc) as Hpat.
    assert (Hpos : Enemy.pos (fst (fst (Enemy.create_patrol_path e dirs maze
                     (GameObjects.width o) (GameObjects.height o) r))) = Some q
                   /\ Enemy.initial_pos (fst (fst (Enemy.create_patrol_path e dirs
                        maze (GameObjects.width o) (GameObjects.height o) r)))
                      = Some q).
    { unfold Enemy.create_patrol_path. cbn [Enemy.pos e].
      destruct (Enemy.walk 10 maze (GameObjects.width o) (GameObjects.height o)
                  dirs q [q] [q] r) as [[w ds] r1].
      cbn [fst Enemy.pos Enemy.initial_pos e]. auto. }
    destruct (Enemy.create_patrol_path e dirs maze (GameObjects.width o)
                (GameObjects.height o) r) as [[e' dirs'] r1].
    cbn [fst] in Hpos. destruct Hpos as [Hpos Hinit].
    destruct (Hpat e' dirs' r1 eq_refl) as (Hc' & _ & _ & [tail Hpath] & _).
    cbn [bind].
    pose proof (ItemsFacts.setup_items_spec E3 GameConfig.REQUIRED_KEYS r1) as Hs.
    destruct (GameItems.setup_items GameItems.init E3 GameConfig.REQUIRED_KEYS r1)
      as [[it left] r2].
    cbv zeta in Hs. cbn [fst snd] in Hs. destruct Hs as (Hp & Hk).
    eexists _, _, _. split; [reflexivity|].
    cbn [GameObjects.player GameObjects.items GameObjects.enemy
         GameObjects.start_pos GameObjects.end_pos GameObjects.width
         GameObjects.height].
    rewrite !app_assoc in Hp.
    destruct (FeatureFacts.perm_nodup_left _ _ _ Hp Hnd3) as (Hnd & Hsub & _).
    rewrite <- !app_assoc in Hnd, Hsub.
    split; [exact Hc'|]. split; [reflexivity|]. split; [exact Hnd|].
    split; [|split; [|split]].
    + intros c Hin. apply Hsub, Hin3 in Hin. destruct Hin as [Hin Hne].
      split; [apply Hspot; exact Hin|]. rewrite Hpos. congruence.
    + intros _. exists q. rewrite Hpos, Hinit, Hpath. cbn [hd_error].
      split; [reflexivity|]. split; [reflexivity|]. split; [reflexivity|].
      split; [apply Hspot; exact Hq|].
      intros c Hsp. apply Hspot in Hsp. exact (Hmax c Hsp).
    + intros l Hl Hall Hlen.
      assert (Hle : (length l <= length (c0 :: E2'))%nat).
      { apply NoDup_incl_length; [exact Hl|]. intros c Hin.
        apply Hspot, Hall, Hin. }
      unfold GameConfig.REQUIRED_KEYS in Hk. lia.
    + intros Hno. exfalso. apply (Hno q), Hspot, Hq.
Qed.

Lemma setup_objects_places_everything_apart_witness :
  (compass GameConfig.DIRECTIONS /\ rectangular ring 7 7 = true
   /\ GameObjects.items (GameObjects.init 7 7) = GameItems.init)
  /\ exists o' dirs' r',
       GameObjects.setup_objects (GameObjects.init 7 7) GameConfig.DIRECTIONS ring
         (tape [3; 1; 2]%nat) = Ret (o', dirs', r')
       /\ compass dirs'
       /\ GameObjects.player o' = Player.mk_player (1, 1) 0 0
       /\ NoDup (GameItems.keys (GameObjects.items o')
                 ++ GameItems.traps (GameObjects.items o')
                 ++ endpoints (GameItems.teleporters (GameObjects.items o')))
       /\ (forall c,
             In c (GameItems.keys (GameObjects.items o')
                   ++ GameItems.traps (GameObjects.items o')
                   ++ endpoints (GameItems.teleporters (GameObjects.items o'))) ->
             open_spot (GameObjects.init 7 7) ring c
             /\ Enemy.pos (GameObjects.enemy o') <> Some c)
       /\ ((exists c, open_spot (GameObjects.init 7 7) ring c) ->
           exists q,
             Enemy.pos (GameObjects.enemy o') = Some q
             /\ Enemy.initial_pos (GameObjects.enemy o') = Some q
             /\ hd_error (Enemy.path (GameObjects.enemy o')) = Some q
             /\ open_spot (GameObjects.init 7 7) ring q
             /\ forall c, open_spot (GameObjects.init 7 7) ring c ->
                  HardMazeGame.manhattan c (1, 1) <= HardMazeGame.manhattan q (1, 1))
       /\ (forall l, NoDup l ->
                     (forall c, In c l -> open_spot (GameObjects.init 7 7) ring c) ->
                     (4 <= length l)%nat ->
                     length (GameItems.keys (GameObjects.items o')) = 3%nat)
       /\ ((forall c, ~ open_spot (GameObjects.init 7 7) ring c) ->
           GameObjects.enemy o' = GameObjects.enemy (GameObjects.init 7 7)
           /\ GameObjects.items o' = GameItems.init).
Proof.
  split; [split; [apply Permutation_refl | split; reflexivity]|].
  apply (setup_objects_places_everything_apart (GameObjects.init 7 7));
    [apply Permutation_refl | reflexivity | reflexivity].
Defined.

(** ** main3.py: the solvers are the path finder on the safe cells *)

Module SolverFacts.

Import Random HardMazeGame HardMazeSolver.

Lemma nth_error_py_range a b i :
  0 <= i < b - a -> nth_error (py_range a b) (Z.to_nat i) = Some (a + i).
Proof.
  intros H. unfold py_range. rewrite nth_error_map.
  rewrite nth_error_seq.
  replace (Z.to_nat i <? Z.to_nat (b - a))%nat with true
    by (symmetry; apply Nat.ltb_lt; lia).
  cbn [option_map]. f_equal. lia.
Qed.

Lemma is_safe_cell_bounds g x y :
  is_safe_cell g x y = true -> 0 <= x < width g /\ 0 <= y < height g.
Proof.
  unfold is_safe_cell.
  destruct ((0 <=? x) && (x <? width g) && (0 <=? y) && (y <? height g)) eqn:E;
    cbn [negb]; [|discriminate].
  rewrite !andb_true_iff, !Z.leb_le, !Z.ltb_lt in E. lia.
Qed.

Lemma safe_grid_get g x y :
  0 <= x < width g -> 0 <= y < height g ->
  maze_get (safe_grid g) x y = Some (if is_safe_cell g x y then 0 else 1).
Proof.
  intros Hx Hy. rewrite maze_get_nonneg by lia. unfold safe_grid.
  rewrite nth_error_map, (nth_error_py_range 0 (height g) y) by lia.
  cbn [option_map]. rewrite nth_error_map, (nth_error_py_range 0 (width g) x) by lia.
  cbn [option_map]. replace (0 + x) with x by lia. replace (0 + y) with y by lia.
  reflexivity.
Qed.

Lemma safe_open g x y :
  PathFinder.open_cell (safe_grid g) (width g) (height g) (x, y)
  = is_safe_cell g x y.
Proof.
  unfold PathFinder.open_cell.
  destruct ((0 <=? x) && (x <? width g) && (0 <=? y) && (y <? height g)) eqn:E.
  - pose proof E as E'.
    rewrite !andb_true_iff, !Z.leb_le, !Z.ltb_lt in E'.
    unfold maze_is. rewrite safe_grid_get by lia. cbn [andb].
    destruct (is_safe_cell g x y); reflexivity.
  - cbn [andb]. destruct (is_safe_cell g x y) eqn:Es; [|reflexivity].
    apply is_safe_cell_bounds in Es.
    assert (H : (0 <=? x) && (x <? width g) && (0 <=? y) && (y <? height g) = true).
    { rewrite !andb_true_iff, !Z.leb_le, !Z.ltb_lt. lia. }
    congruence.
Qed.

Lemma fold_left_same {A B : Type} (f f' : A -> B -> A) :
  (forall a b, f a b = f' a b) ->
  forall l a, fold_left f l a = fold_left f' l a.
Proof.
  intros H. induction l as [|b l IH]; intros a; cbn [fold_left]; [reflexivity|].
  rewrite H. apply IH.
Qed.

Section Refinement.

Variable g : game.

Local Abbreviation walled := (safe_grid g).
Local Abbreviation w := (width g).
Local Abbreviation h := (height g).

Lemma ucs_expand_same cost x y path visited heap :
  ucs_expand g cost x y path visited heap
  = PathFinder.ucs_expand directions walled w h cost x y path visited heap.
Proof.
  unfold ucs_expand, PathFinder.ucs_expand. apply fold_left_same.
  intros a [dx dy]. rewrite safe_open. reflexivity.
Qed.

Lemma ucs_loop_same goal :
  forall fuel heap visited n,
    ucs_loop fuel g goal heap visited n
    = PathFinder.ucs_loop directions walled w h fuel goal heap visited n.
Proof.
  induction fuel as [|fuel IH]; intros heap visited n;
    cbn [ucs_loop PathFinder.ucs_loop]; [reflexivity|].
  destruct heap as [|[[cost [x y]] path] heap]; [reflexivity|].
  destruct (mem (x, y) visited); [apply IH|].
  destruct (cell_eqb (x, y) goal); [reflexivity|].
  rewrite ucs_expand_same. apply IH.
Qed.

Lemma dfs_expand_same x y path ds visited stack :
  dfs_expand g x y path ds visited stack
  = PathFinder.dfs_expand walled w h x y path ds visited stack.
Proof.
  unfold dfs_expand, PathFinder.dfs_expand. apply fold_left_same.
  intros a [dx dy]. rewrite safe_open. reflexivity.
Qed.

Lemma dfs_loop_same goal :
  forall fuel stack visited ds n r,
    dfs_loop fuel g goal stack visited ds n r
    = PathFinder.dfs_loop walled w h fuel goal stack visited ds n r.
Proof.
  induction fuel as [|fuel IH]; intros stack visited ds n r;
    cbn [dfs_loop PathFinder.dfs_loop]; [reflexivity|].
  destruct stack as [|[[x y] path] stack]; [reflexivity|].
  destruct (mem (x, y) visited); [apply IH|].
  destruct (cell_eqb (x, y) goal); [reflexivity|].
  destruct (shuffle ds r) as [ds' r'].
  rewrite dfs_expand_same. apply IH.
Qed.

Lemma dls_neighbours_same recurse recurse' x y path visited :
  (forall nx ny p, recurse nx ny p = recurse' nx ny p) ->
  forall ds n,
    dls_neighbours g recurse x y path visited ds n
    = PathFinder.dls_neighbours walled w h recurse' x y path visited ds n.
Proof.
  intros Hrec. induction ds as [|[dx dy] ds IH]; intros n;
    cbn [dls_neighbours PathFinder.dls_neighbours]; [reflexivity|].
  rewrite safe_open, Hrec.
  destruct (is_safe_cell g (x + dx) (y + dy) && negb (mem (x + dx, y + dy) visited));
    [|apply IH].
  destruct (recurse' (x + dx) (y + dy) (path ++ [(x + dx, y + dy)]))
    as [[p|] explored]; [reflexivity|apply IH].
Qed.

Lemma dls_levels_same goal :
  forall levels x y path visited,
    dls_levels levels g x y goal path visited
    = PathFinder.dls_levels directions walled w h levels x y goal path visited.
Proof.
  induction levels as [|levels IH]; intros x y path visited;
    cbn [dls_levels PathFinder.dls_levels]; [reflexivity|].
  destruct (cell_eqb (x, y) goal); [reflexivity|].
  apply dls_neighbours_same. intros nx ny p. apply IH.
Qed.

Lemma find_path_dls_same start goal depth_limit :
  find_path_dls g start goal depth_limit
  = PathFinder._dls directions walled w h start goal depth_limit.
Proof. apply dls_levels_same. Qed.

Lemma ids_loop_same start goal :
  forall count depth total,
    ids_loop count g depth start goal total
    = PathFinder.ids_loop directions walled w h count depth start goal total.
Proof.
  induction count as [|count IH]; intros depth total;
    cbn [ids_loop PathFinder.ids_loop]; [reflexivity|].
  rewrite find_path_dls_same.
  destruct (PathFinder._dls directions walled w h start goal depth) as [[p|] k];
    [reflexivity|apply IH].
Qed.

Lemma bidi_expand_same x y path visited queue :
  bidi_expand g x y path visited queue
  = PathFinder.bidi_expand directions walled w h x y path visited queue.
Proof.
  unfold bidi_expand, PathFinder.bidi_expand. apply fold_left_same.
  intros [v q] [dx dy]. rewrite safe_open. reflexivity.
Qed.

Lemma bidi_step_same forward x y path queue' mine other :
  bidi_step g forward x y path queue' mine other
  = PathFinder.bidi_step directions walled w h forward x y path queue' mine other.
Proof.
  unfold bidi_step, PathFinder.bidi_step.
  destruct (PathFinder.lookup (x, y) other); [reflexivity|].
  rewrite bidi_expand_same. reflexivity.
Qed.

Lemma bidi_loop_same :
  forall fuel fq fv bq bv n,
    bidi_loop fuel g fq fv bq bv n
    = PathFinder.bidi_loop directions walled w h fuel fq fv bq bv n.
Proof.
  induction fuel as [|fuel IH]; intros fq fv bq bv n;
    cbn [bidi_loop PathFinder.bidi_loop]; [reflexivity|].
  destruct fq as [|[[x y] path] fq].
  - destruct bq as [|[[bx by_] bpath] bq]; [reflexivity|].
    rewrite bidi_step_same.
    destruct (PathFinder.bidi_step directions walled w h false bx by_ bpath bq bv fv)
      as [full|[v q]]; [reflexivity|apply IH].
  - rewrite bidi_step_same.
    destruct (PathFinder.bidi_step directions walled w h true x y path fq fv bv)
      as [full|[v q]].
    + destruct bq; reflexivity.
    + destruct bq as [|[[bx by_] bpath] bq]; [apply IH|].
      rewrite bidi_step_same.
      destruct (PathFinder.bidi_step directions walled w h false bx by_ bpath bq bv v)
        as [full|[v' q']]; [reflexivity|apply IH].
Qed.

(** Without teleporters [find_path_bfs] is the plain search. *)
Lemma bfs_expand_same x y path visited queue :
  teleporters g = [] ->
  bfs_expand g x y path visited queue
  = PathFinder.bfs_expand directions walled w h x y path visited queue.
Proof.
  intros Ht. unfold bfs_expand, PathFinder.bfs_expand. apply fold_left_same.
  intros [v q] [dx dy]. rewrite safe_open. unfold get_teleport. rewrite Ht.
  cbn [teleport_of]. reflexivity.
Qed.

Lemma bfs_loop_same goal :
  teleporters g = [] ->
  forall fuel queue visited n,
    bfs_loop fuel g goal queue visited n
    = PathFinder.bfs_loop directions walled w h fuel goal queue visited n.
Proof.
  intros Ht. induction fuel as [|fuel IH]; intros queue visited n;
    cbn [bfs_loop PathFinder.bfs_loop]; [reflexivity|].
  destruct queue as [|[[x y] path] queue]; [reflexivity|].
  destruct (cell_eqb (x, y) goal); [reflexivity|].
  rewrite bfs_expand_same by exact Ht.
  destruct (PathFinder.bfs_expand directions walled w h x y path visited queue)
    as [v q].
  apply IH.
Qed.

End Refinement.

Lemma directions_compass : compass directions.
Proof. apply Permutation_refl. Qed.

Lemma safe_grid_rectangular g :
  rectangular (maze g) (width g) (height g) = true ->
  rectangular (safe_grid g) (width g) (height g) = true.
Proof.
  unfold rectangular. rewrite !andb_true_iff, !Z.eqb_eq, !forallb_forall.
  intros [Hh Hrows]. unfold safe_grid. rewrite length_map, py_range_length.
  split; [lia|]. intros row Hrow. apply in_map_iff in Hrow.
  destruct Hrow as (y & <- & Hy). apply py_range_In in Hy.
  rewrite length_map, py_range_length. apply Z.eqb_eq.
  destruct (maze g) as [|row0 rows] eqn:Em; [cbn [length] in Hh; lia|].
  specialize (Hrows row0 (or_introl eq_refl)). apply Z.eqb_eq in Hrows. lia.
Qed.

Lemma is_safe_cell_spec g x y :
  is_safe_cell g x y = true <->
  0 <= x < width g /\ 0 <= y < height g
  /\ maze_get (maze g) x y <> Some 1 /\ ~ In (x, y) (traps g).
Proof.
  unfold is_safe_cell, maze_is.
  destruct ((0 <=? x) && (x <? width g) && (0 <=? y) && (y <? height g)) eqn:E;
    cbn [negb].
  - rewrite !andb_true_iff, !Z.leb_le, !Z.ltb_lt in E.
    destruct (maze_get (maze g) x y) as [v|].
    + destruct (v =? 1) eqn:Ev.
      * apply Z.eqb_eq in Ev. subst v. split; [discriminate|].
        intros (_ & _ & H & _). congruence.
      * apply Z.eqb_neq in Ev. destruct (mem (x, y) (traps g)) eqn:Em.
        -- apply mem_In in Em. split; [discriminate|]. tauto.
        -- apply mem_not_In in Em. split; [|reflexivity].
           intros _. repeat split; try lia; [congruence|exact Em].
    + destruct (mem (x, y) (traps g)) eqn:Em.
      * apply mem_In in Em. split; [discriminate|]. tauto.
      * apply mem_not_In in Em. split; [|reflexivity].
        intros _. repeat split; try lia; [discriminate|exact Em].
  - split; [discriminate|]. intros (Hx & Hy & _).
    assert (H : (0 <=? x) && (x <? width g) && (0 <=? y) && (y <? height g) = true).
    { rewrite !andb_true_iff, !Z.leb_le, !Z.ltb_lt. lia. }
    congruence.
Qed.

Lemma route_tail_open maze width height start p c :
  route maze width height start p c ->
  forall n, In n (tl p) -> PathFinder.open_cell maze width height n = true.
Proof.
  induction 1 as [|p c n Hr IH Hu Ho]; intros m Hm; [destruct Hm|].
  destruct p as [|a p]; [inversion Hr as [|? ? ? ? ? ? E]; destruct p; discriminate|].
  cbn [app tl] in Hm |- *. apply in_app_or in Hm.
  destruct Hm as [Hm|[<-|[]]]; [apply IH; exact Hm|exact Ho].
Qed.

(** *** DFS on the path finder's side: no answer means no route *)

Lemma dfs_answer dirs maze width height start goal r :
  compass dirs ->
  exists f r',
    PathFinder._dfs dirs maze width height start goal r = Some (f, r')
    /\ match fst f with
       | Some p => route maze width height start p goal
       | None => forall q, ~ route maze width height start q goal
       end.
Proof.
  intros Hc.
  destruct (UcsDfsFacts.dfs_spec dirs maze width height start Hc goal r)
    as ([result n] & r' & E & Hr).
  exists (result, n), r'. split; [exact E|]. cbn [fst] in *.
  destruct result as [p|]; [apply Hr; reflexivity|].
  unfold PathFinder._dfs in E.
  assert (Hinv : dfs_closed maze width height start goal [(start, [start])] []).
  { split; [intros u w []|split; [right; left; reflexivity|intros []]]. }
  exact (DepthFacts.dfs_loop_complete maze width height start goal
           _ _ _ _ _ _ _ _ Hc Hinv E).
Qed.

(** *** BFS with teleporters *)

Lemma teleport_of_In c ts t :
  teleport_of c ts = Some t -> In t (endpoints ts).
Proof.
  induction ts as [|[pos1 pos2] ts IH];
    cbn [teleport_of endpoints flat_map fst snd app In]; [discriminate|].
  fold (endpoints ts).
  destruct (cell_eqb c pos1); [intros [= <-]; auto|].
  destruct (cell_eqb c pos2); [intros [= <-]; auto|].
  intros H. right. right. exact (IH H).
Qed.

Lemma endpoints_length (ts : list (cell * cell)) :
  length (endpoints ts) = (2 * length ts)%nat.
Proof.
  induction ts as [|t ts IH]; cbn [endpoints flat_map app length]; [reflexivity|].
  fold (endpoints ts). rewrite IH. lia.
Qed.

Section Teleporting.

Variable g : game.

(** Every cell the search may put on its queue. *)
Local Abbreviation universe :=
  (zone (width g) (height g) ++ endpoints (teleporters g)).

Lemma tele_expand_measure x y path :
  forall ds visited queue,
    let '(visited', queue') :=
      fold_left
        (fun (st : list cell * list (cell * list cell)) (d : Z * Z) =>
           let '(visited, queue) := st in
           let '(dx, dy) := d in
           let nx := x + dx in
           let ny := y + dy in
           if is_safe_cell g nx ny && negb (mem (nx, ny) visited)
           then
             let visited := (nx, ny) :: visited in
             let queue := queue ++ [((nx, ny), path ++ [(nx, ny)])] in
             match get_teleport g nx ny with
             | Some tele =>
                 if negb (mem tele visited)
                 then (tele :: visited,
                       queue ++ [(tele, path ++ [(nx, ny); tele])])
                 else (visited, queue)
             | None => (visited, queue)
             end
           else (visited, queue))
        ds (visited, queue) in
    (length queue' + unseen universe visited'
     <= length queue + unseen universe visited)%nat.
Proof.
  induction ds as [|[dx dy] ds IH]; intros visited queue; cbn [fold_left].
  - lia.
  - destruct (is_safe_cell g (x + dx) (y + dy)) eqn:Es;
      destruct (mem (x + dx, y + dy) visited) eqn:Em; cbn [andb negb];
      try apply IH.
    assert (Hz : In (x + dx, y + dy) universe).
    { apply in_or_app. left. apply is_safe_cell_bounds in Es.
      apply zone_In; lia. }
    pose proof (unseen_cons_lt universe visited (x + dx, y + dy) Hz Em) as Hlt.
    destruct (get_teleport g (x + dx) (y + dy)) as [tele|] eqn:Et.
    + destruct (mem tele ((x + dx, y + dy) :: visited)) eqn:Em2; cbn [negb].
      * specialize (IH ((x + dx, y + dy) :: visited)
                      (queue ++ [((x + dx, y + dy), path ++ [(x + dx, y + dy)])])).
        destruct (fold_left _ ds _) as [v' q'].
        rewrite length_app in IH. cbn [length] in IH. unfold cell in *. lia.
      * assert (Ht : In tele universe).
        { apply in_or_app. right. eapply teleport_of_In. exact Et. }
        pose proof (unseen_cons_lt universe _ tele Ht Em2) as Hlt2.
        specialize (IH (tele :: (x + dx, y + dy) :: visited)
                      ((queue ++ [((x + dx, y + dy), path ++ [(x + dx, y + dy)])])
                       ++ [(tele, path ++ [(x + dx, y + dy); tele])])).
        destruct (fold_left _ ds _) as [v' q'].
        rewrite !length_app in IH. cbn [length] in IH. unfold cell in *. lia.
    + specialize (IH ((x + dx, y + dy) :: visited)
                    (queue ++ [((x + dx, y + dy), path ++ [(x + dx, y + dy)])])).
      destruct (fold_left _ ds _) as [v' q'].
      rewrite length_app in IH. cbn [length] in IH. unfold cell in *. lia.
Qed.

Lemma tele_loop_finishes goal :
  forall fuel queue visited n,
    (length queue + unseen universe visited < fuel)%nat ->
    exists f, bfs_loop fuel g goal queue visited n = Some f.
Proof.
  induction fuel as [|fuel IH]; intros queue visited n H; [lia|].
  cbn [bfs_loop]. destruct queue as [|[[x y] path] queue]; [eauto|].
  destruct (cell_eqb (x, y) goal); [eauto|].
  pose proof (tele_expand_measure x y path directions visited queue) as Hm.
  unfold bfs_expand.
  destruct (fold_left _ directions (visited, queue)) as [v' q'].
  apply IH. cbn [length] in H. lia.
Qed.

Lemma find_path_bfs_finishes start goal :
  exists f, find_path_bfs g start goal = Some f.
Proof.
  apply tele_loop_finishes. unfold bfs_budget, PathFinder.budget.
  pose proof (unseen_le universe [start]) as H.
  rewrite length_app, zone_length, endpoints_length in H. cbn [length]. lia.
Qed.

Lemma tele_expand_trails start x y path :
  trail g start path (x, y) ->
  forall ds visited queue,
    Forall unit_step ds ->
    all_trails g start queue ->
    all_trails g start
      (snd (fold_left
        (fun (st : list cell * list (cell * list cell)) (d : Z * Z) =>
           let '(visited, queue) := st in
           let '(dx, dy) := d in
           let nx := x + dx in
           let ny := y + dy in
           if is_safe_cell g nx ny && negb (mem (nx, ny) visited)
           then
             let visited := (nx, ny) :: visited in
             let queue := queue ++ [((nx, ny), path ++ [(nx, ny)])] in
             match get_teleport g nx ny with
             | Some tele =>
                 if negb (mem tele visited)
                 then (tele :: visited,
                       queue ++ [(tele, path ++ [(nx, ny); tele])])
                 else (visited, queue)
             | None => (visited, queue)
             end
           else (visited, queue))
        ds (visited, queue))).
Proof.
  intros Hp. induction ds as [|[dx dy] ds IH]; intros visited queue Hu Hq;
    cbn [fold_left]; [exact Hq|].
  inversion Hu as [|? ? Hd Hu']; subst.
  destruct (is_safe_cell g (x + dx) (y + dy)) eqn:Es;
    destruct (mem (x + dx, y + dy) visited) eqn:Em; cbn [andb negb];
    try (apply IH; assumption).
  assert (Hstep : trail g start (path ++ [(x + dx, y + dy)]) (x + dx, y + dy)).
  { apply trail_hop with (c := (x, y)); [exact Hp|]. left. cbn [fst snd].
    split; [|exact Es].
    replace (x + dx - x) with dx by lia. replace (y + dy - y) with dy by lia.
    exact Hd. }
  assert (Hq1 : all_trails g start
                  (queue ++ [((x + dx, y + dy), path ++ [(x + dx, y + dy)])])).
  { intros c p Hin. apply in_app_or in Hin.
    destruct Hin as [Hin|[[= <- <-]|[]]]; [exact (Hq c p Hin)|exact Hstep]. }
  destruct (get_teleport g (x + dx) (y + dy)) as [tele|] eqn:Et;
    [|apply IH; assumption].
  destruct (mem tele ((x + dx, y + dy) :: visited)); cbn [negb];
    [apply IH; assumption|].
  apply IH; [exact Hu'|]. intros c p Hin. apply in_app_or in Hin.
  destruct Hin as [Hin|[[= <- <-]|[]]]; [exact (Hq1 c p Hin)|].
  replace (path ++ [(x + dx, y + dy); tele])
    with ((path ++ [(x + dx, y + dy)]) ++ [tele])
    by (rewrite <- app_assoc; reflexivity).
  apply trail_hop with (c := (x + dx, y + dy)); [exact Hstep|].
  right. exact Et.
Qed.

Lemma tele_loop_trail start goal :
  forall fuel queue visited n p k,
    all_trails g start queue ->
    bfs_loop fuel g goal queue visited n = Some (Some p, k) ->
    trail g start p goal.
Proof.
  induction fuel as [|fuel IH]; intros queue visited n p k Hq;
    cbn [bfs_loop]; [discriminate|].
  destruct queue as [|[[x y] path] queue]; [discriminate|].
  assert (Hp : trail g start path (x, y)) by (apply Hq; left; reflexivity).
  destruct (cell_eqb (x, y) goal) eqn:E.
  - apply cell_eqb_eq in E. intros [= <- _]. rewrite <- E. exact Hp.
  - pose proof (tele_expand_trails start x y path Hp directions visited queue) as Ht.
    unfold bfs_expand.
    destruct (fold_left _ directions (visited, queue)) as [v' q'].
    cbn [snd] in Ht. apply IH. apply Ht.
    + unfold directions. repeat constructor.
    + intros c q Hin. apply Hq. right. exact Hin.
Qed.

Lemma find_path_bfs_trail start goal p k :
  find_path_bfs g start goal = Some (Some p, k) -> trail g start p goal.
Proof.
  apply tele_loop_trail. intros c q [[= <- <-]|[]]. constructor.
Qed.

End Teleporting.

End SolverFacts.

(** X17.  The solvers of main3.py are the path finder on the safe cells.
    On a game whose maze is a [width] by [height] rectangle, [find_path_ucs],
    [find_path_dfs], [find_path_dls], [find_path_ids] and
    [find_path_bidirectional] return, path and node count, what [PathFinder]'s
    strategies return on the grid that has a Path cell exactly where
    [is_safe_cell] holds (inside the bounds, not a Wall, not a trap), with
    the four directions in their initial order and the same random draws;
    and so does [find_path_bfs] when the game has no teleporters. *)
Theorem solvers_are_the_path_finder_on_safe_cells :
  forall g start goal r depth_limit max_depth,
    rectangular (HardMazeGame.maze g) (HardMazeGame.width g)
      (HardMazeGame.height g) = true ->
    let walled := safe_grid g in
    let width := HardMazeGame.width g in
    let height := HardMazeGame.height g in
    let dirs := GameConfig.DIRECTIONS in
    rectangular walled width height = true
    /\ (forall x y,
          PathFinder.open_cell walled width height (x, y) = true
          <-> 0 <= x < width /\ 0 <= y < height
              /\ maze_get (HardMazeGame.maze g) x y <> Some 1
              /\ ~ In (x, y) (HardMazeGame.traps g))
    /\ HardMazeSolver.find_path_ucs g start goal
       = PathFinder._ucs dirs walled width height start goal
    /\ HardMazeSolver.find_path_dfs g start goal r
       = PathFinder._dfs dirs walled width height start goal r
    /\ HardMazeSolver.find_path_dls g start goal depth_limit
       = PathFinder._dls dirs walled width height start goal depth_limit
    /\ HardMazeSolver.find_path_ids g start goal max_depth
       = PathFinder._ids dirs walled width height start goal max_depth
    /\ HardMazeSolver.find_path_bidirectional g start goal
       = PathFinder._bidirectional dirs walled width height start goal
    /\ (HardMazeGame.teleporters g = [] ->
        HardMazeSolver.find_path_bfs g start goal
        = PathFinder._bfs dirs walled width height start goal).
Proof.
  intros g start goal r depth_limit max_depth Hr walled width height dirs.
  subst walled width height dirs.
  change GameConfig.DIRECTIONS with HardMazeGame.directions.
  split; [apply SolverFacts.safe_grid_rectangular; exact Hr|].
  split; [intros x y; rewrite SolverFacts.safe_open;
          apply SolverFacts.is_safe_cell_spec|].
  split; [apply SolverFacts.ucs_loop_same|].
  split; [apply SolverFacts.dfs_loop_same|].
  split; [apply SolverFacts.find_path_dls_same|].
  split; [apply SolverFacts.ids_loop_same|].
  split.
  - unfold HardMazeSolver.find_path_bidirectional, PathFinder._bidirectional.
    destruct (cell_eqb start goal); [reflexivity|].
    apply SolverFacts.bidi_loop_same.
  - intros Ht. unfold HardMazeSolver.find_path_bfs, PathFinder._bfs,
      HardMazeSolver.bfs_budget.
    rewrite Ht. cbn [length Nat.mul]. rewrite Nat.add_0_r.
    apply SolverFacts.bfs_loop_same. exact Ht.
Qed.

Lemma solvers_are_the_path_finder_on_safe_cells_witness :
  rectangular (HardMazeGame.maze ring_trapped) (HardMazeGame.width ring_trapped)
    (HardMazeGame.height ring_trapped) = true
  /\ let walled := safe_grid ring_trapped in
     let width := HardMazeGame.width ring_trapped in
     let height := HardMazeGame.height ring_trapped in
     let dirs := GameConfig.DIRECTIONS in
     rectangular walled width height = true
     /\ (forall x y,
           PathFinder.open_cell walled width height (x, y) = true
           <-> 0 <= x < width /\ 0 <= y < height
               /\ maze_get (HardMazeGame.maze ring_trapped) x y <> Some 1
               /\ ~ In (x, y) (HardMazeGame.traps ring_trapped))
     /\ HardMazeSolver.find_path_ucs ring_trapped (1, 1) (5, 5)
        = PathFinder._ucs dirs walled width height (1, 1) (5, 5)
     /\ HardMazeSolver.find_path_dfs ring_trapped (1, 1) (5, 5) (tape [1; 2]%nat)
        = PathFinder._dfs dirs walled width height (1, 1) (5, 5) (tape [1; 2]%nat)
     /\ HardMazeSolver.find_path_dls ring_trapped (1, 1) (5, 5) 50
        = PathFinder._dls dirs walled width height (1, 1) (5, 5) 50
     /\ HardMazeSolver.find_path_ids ring_trapped (1, 1) (5, 5) 100
        = PathFinder._ids dirs walled width height (1, 1) (5, 5) 100
     /\ HardMazeSolver.find_path_bidirectional ring_trapped (1, 1) (5, 5)
        = PathFinder._bidirectional dirs walled width height (1, 1) (5, 5)
     /\ (HardMazeGame.teleporters ring_trapped = [] ->
         HardMazeSolver.find_path_bfs ring_trapped (1, 1) (5, 5)
         = PathFinder._bfs dirs walled width height (1, 1) (5, 5)).
Proof.
  split; [reflexivity|].
  apply (solvers_are_the_path_finder_on_safe_cells ring_trapped (1, 1) (5, 5)
           (tape [1; 2]%nat) 50 100).
  reflexivity.
Defined.

(** X18.  The solutions of main3.py never cross a Wall or a trap.  On a game
    whose maze is a [width] by [height] rectangle, [find_path] with "UCS",
    "DFS", "DLS", "IDS" or "Bidirectional" returns (for Bidirectional the goal
    is taken to be the start or a safe cell); a path it returns starts at
    [start], ends at [goal], moves by unit steps, and every cell after the
    first is safe: inside the bounds, not a Wall, not a trap.  A path from UCS
    or Bidirectional is no longer than any other such path; and UCS, DFS and
    Bidirectional return a path whenever there is one. *)
Theorem solver_paths_avoid_walls_and_traps :
  forall g r start goal algorithm,
    rectangular (HardMazeGame.maze g) (HardMazeGame.width g)
      (HardMazeGame.height g) = true ->
    In algorithm ["UCS"; "DFS"; "DLS"; "IDS"; "Bidirectional"]%string ->
    (algorithm = "Bidirectional"%string ->
     start = goal
     \/ HardMazeSolver.is_safe_cell g (fst goal) (snd goal) = true) ->
    let safely p :=
      route (safe_grid g) (HardMazeGame.width g) (HardMazeGame.height g)
        start p goal in
    exists result nodes_explored r',
      HardMazeSolver.find_path g r start goal algorithm
      = Some ((result, nodes_explored), r')
      /\ (forall p, result = Some p ->
            safely p
            /\ forall c, In c (tl p) ->
                 HardMazeSolver.is_safe_cell g (fst c) (snd c) = true)
      /\ (algorithm = "UCS"%string \/ algorithm = "Bidirectional"%string ->
          forall p q, result = Some p -> safely q -> (length p <= length q)%nat)
      /\ (algorithm = "UCS"%string \/ algorithm = "DFS"%string
          \/ algorithm = "Bidirectional"%string ->
          result = None -> forall q, ~ safely q).
Proof.
  intros g r start goal algorithm Hr Halg Hgoal safely. subst safely.
  pose proof SolverFacts.directions_compass as Hc.
  assert (Hsafe : forall p,
             route (safe_grid g) (HardMazeGame.width g) (HardMazeGame.height g)
               start p goal ->
             forall c, In c (tl p) ->
               HardMazeSolver.is_safe_cell g (fst c) (snd c) = true).
  { intros p Hp [x y] Hin. cbn [fst snd]. rewrite <- SolverFacts.safe_open.
    eapply SolverFacts.route_tail_open; eauto. }
  unfold HardMazeSolver.find_path.
  cbn [In] in Halg.
  destruct Halg as [<-|[<-|[<-|[<-|[<-|[]]]]]]; cbn [String.eqb Ascii.eqb Bool.eqb].
  - (* UCS *)
    unfold HardMazeSolver.find_path_ucs. rewrite SolverFacts.ucs_loop_same.
    destruct (SideFacts.ucs_least HardMazeGame.directions (safe_grid g)
                (HardMazeGame.width g) (HardMazeGame.height g) start goal Hc)
      as ([result n] & E & Hl).
    unfold PathFinder._ucs in E. rewrite E. cbn [fst] in Hl.
    exists result, n, r. split; [reflexivity|]. split; [|split].
    + intros p ->. destruct Hl as [Hp _]. split; [exact Hp|apply Hsafe; exact Hp].
    + intros _ p q -> Hq. destruct Hl as [_ Hl]. apply Hl. exact Hq.
    + intros _ ->. exact Hl.
  - (* DFS *)
    unfold HardMazeSolver.find_path_dfs. rewrite SolverFacts.dfs_loop_same.
    destruct (SolverFacts.dfs_answer HardMazeGame.directions (safe_grid g)
                (HardMazeGame.width g) (HardMazeGame.height g) start goal r Hc)
      as ([result n] & r' & E & Hl).
    unfold PathFinder._dfs in E. rewrite E. cbn [fst] in Hl.
    exists result, n, r'. split; [reflexivity|]. split; [|split].
    + intros p ->. split; [exact Hl|apply Hsafe; exact Hl].
    + intros [H|H]; discriminate.
    + intros _ ->. exact Hl.
  - (* DLS *)
    rewrite SolverFacts.find_path_dls_same.
    destruct (PathFinder._dls HardMazeGame.directions (safe_grid g)
                (HardMazeGame.width g) (HardMazeGame.height g) start goal 50)
      as [result n] eqn:E.
    exists result, n, r. split; [reflexivity|]. split; [|split].
    + intros p ->.
      pose proof (FindPathFacts.dls_route _ _ _ _ _ _ Hc _ _ _ E) as Hp.
      split; [exact Hp|apply Hsafe; exact Hp].
    + intros [H|H]; discriminate.
    + intros [H|[H|H]]; discriminate.
  - (* IDS *)
    unfold HardMazeSolver.find_path_ids. rewrite SolverFacts.ids_loop_same.
    destruct (PathFinder.ids_loop HardMazeGame.directions (safe_grid g)
                (HardMazeGame.width g) (HardMazeGame.height g)
                (Z.to_nat 100) 0 start goal 0) as [result n] eqn:E.
    exists result, n, r. split; [reflexivity|]. split; [|split].
    + intros p ->.
      pose proof (FindPathFacts.ids_loop_route _ _ _ _ _ _ Hc _ _ _ _ _ E) as Hp.
      split; [exact Hp|apply Hsafe; exact Hp].
    + intros [H|H]; discriminate.
    + intros [H|[H|H]]; discriminate.
  - (* Bidirectional *)
    assert (Hg : start = goal
                 \/ PathFinder.open_cell (safe_grid g) (HardMazeGame.width g)
                      (HardMazeGame.height g) goal = true).
    { destruct (Hgoal eq_refl) as [H|H]; [left; exact H|right].
      destruct goal as [x y]. rewrite SolverFacts.safe_open. exact H. }
    destruct (SideFacts.bidirectional_answer HardMazeGame.directions (safe_grid g)
                (HardMazeGame.width g) (HardMazeGame.height g) start goal Hc Hg)
      as ([result n] & E & Hl).
    assert (E' : HardMazeSolver.find_path_bidirectional g start goal
                 = Some (result, n)).
    { etransitivity; [|exact E].
      unfold HardMazeSolver.find_path_bidirectional, PathFinder._bidirectional.
      destruct (cell_eqb start goal); [reflexivity|].
      apply SolverFacts.bidi_loop_same. }
    rewrite E'. cbn [fst] in Hl.
    exists result, n, r. split; [reflexivity|]. split; [|split].
    + intros p ->. destruct Hl as [Hp _]. split; [exact Hp|apply Hsafe; exact Hp].
    + intros _ p q -> Hq. destruct Hl as [_ Hl]. apply Hl. exact Hq.
    + intros _ ->. exact Hl.
Qed.

Lemma solver_paths_avoid_walls_and_traps_witness :
  (rectangular (HardMazeGame.maze ring_trapped) (HardMazeGame.width ring_trapped)
     (HardMazeGame.height ring_trapped) = true
   /\ In "Bidirectional"%string
        ["UCS"; "DFS"; "DLS"; "IDS"; "Bidirectional"]%string
   /\ ("Bidirectional"%string = "Bidirectional"%string ->
       (1, 1) = (5, 5)
       \/ HardMazeSolver.is_safe_cell ring_trapped (fst (5, 5)) (snd (5, 5)) = true))
  /\ let safely p :=
       route (safe_grid ring_trapped) (HardMazeGame.width ring_trapped)
         (HardMazeGame.height ring_trapped) (1, 1) p (5, 5) in
     exists result nodes_explored r',
       HardMazeSolver.find_path ring_trapped (tape [1; 2]%nat) (1, 1) (5, 5)
         "Bidirectional"
       = Some ((result, nodes_explored), r')
       /\ (forall p, result = Some p ->
             safely p
             /\ forall c, In c (tl p) ->
                  HardMazeSolver.is_safe_cell ring_trapped (fst c) (snd c) = true)
       /\ ("Bidirectional"%string = "UCS"%string
           \/ "Bidirectional"%string = "Bidirectional"%string ->
           forall p q, result = Some p -> safely q -> (length p <= length q)%nat)
       /\ ("Bidirectional"%string = "UCS"%string
           \/ "Bidirectional"%string = "DFS"%string
           \/ "Bidirectional"%string = "Bidirectional"%string ->
           result = None -> forall q, ~ safely q).
Proof.
  split; [split; [reflexivity|split; [cbn; tauto|intros _; right; reflexivity]]|].
  apply (solver_paths_avoid_walls_and_traps ring_trapped (tape [1; 2]%nat)
           (1, 1) (5, 5) "Bidirectional");
    [reflexivity | cbn; tauto | intros _; right; reflexivity].
Defined.

(** X19.  [find_path_bfs] follows teleporters and still avoids traps.  On a
    game whose maze is a [width] by [height] rectangle, [find_path] with "BFS"
    or with a name that is none of the other five returns what
    [find_path_bfs] returns, and that search ends; a path it returns starts at
    [start], ends at [goal], and every move is a unit step onto a safe cell
    (inside the bounds, not a Wall, not a trap) or the jump from one end of a
    teleporter to its other end.  With no teleporters the path is a shortest
    safe one, and there is no safe path when none is returned. *)
Theorem bfs_solution_is_a_trail :
  forall g r start goal algorithm,
    rectangular (HardMazeGame.maze g) (HardMazeGame.width g)
      (HardMazeGame.height g) = true ->
    ~ In algorithm ["UCS"; "DFS"; "DLS"; "IDS"; "Bidirectional"]%string ->
    exists result nodes_explored,
      HardMazeSolver.find_path g r start goal algorithm
      = Some ((result, nodes_explored), r)
      /\ HardMazeSolver.find_path_bfs g start goal
         = Some (result, nodes_explored)
      /\ (forall p, result = Some p -> trail g start p goal)
      /\ (HardMazeGame.teleporters g = [] ->
          match result with
          | Some p =>
              least (safe_grid g) (HardMazeGame.width g) (HardMazeGame.height g)
                start goal p
          | None =>
              forall q,
                ~ route (safe_grid g) (HardMazeGame.width g)
                    (HardMazeGame.height g) start q goal
          end).
Proof.
  intros g r start goal algorithm Hr Halg.
  destruct (SolverFacts.find_path_bfs_finishes g start goal) as ([result n] & E).
  exists result, n.
  assert (Ef : HardMazeSolver.find_path g r start goal algorithm
               = Some ((result, n), r)).
  { unfold HardMazeSolver.find_path. rewrite E.
    destruct (String.eqb algorithm "BFS"); [reflexivity|].
    destruct (String.eqb_spec algorithm "UCS") as [->|_];
      [exfalso; apply Halg; cbn; tauto|].
    destruct (String.eqb_spec algorithm "DFS") as [->|_];
      [exfalso; apply Halg; cbn; tauto|].
    destruct (String.eqb_spec algorithm "DLS") as [->|_];
      [exfalso; apply Halg; cbn; tauto|].
    destruct (String.eqb_spec algorithm "IDS") as [->|_];
      [exfalso; apply Halg; cbn; tauto|].
    destruct (String.eqb_spec algorithm "Bidirectional") as [->|_];
      [exfalso; apply Halg; cbn; tauto|].
    reflexivity. }
  split; [exact Ef|]. split; [exact E|]. split.
  - intros p ->. eapply SolverFacts.find_path_bfs_trail. exact E.
  - intros Ht.
    destruct (SideFacts.bfs_least HardMazeGame.directions (safe_grid g)
                (HardMazeGame.width g) (HardMazeGame.height g) start goal
                SolverFacts.directions_compass) as (f & E' & Hl).
    assert (Esame : HardMazeSolver.find_path_bfs g start goal
                    = PathFinder._bfs HardMazeGame.directions (safe_grid g)
                        (HardMazeGame.width g) (HardMazeGame.height g) start goal).
    { unfold HardMazeSolver.find_path_bfs, PathFinder._bfs,
        HardMazeSolver.bfs_budget.
      rewrite Ht. cbn [length Nat.mul]. rewrite Nat.add_0_r.
      apply SolverFacts.bfs_loop_same. exact Ht. }
    rewrite Esame, E' in E. injection E as ->. exact Hl.
Qed.

Lemma bfs_solution_is_a_trail_witness :
  (rectangular (HardMazeGame.maze ring_trapped) (HardMazeGame.width ring_trapped)
     (HardMazeGame.height ring_trapped) = true
   /\ ~ In "BFS"%string ["UCS"; "DFS"; "DLS"; "IDS"; "Bidirectional"]%string)
  /\ exists result nodes_explored,
       HardMazeSolver.find_path ring_trapped (tape [1; 2]%nat) (1, 1) (5, 5) "BFS"
       = Some ((result, nodes_explored), tape [1; 2]%nat)
       /\ HardMazeSolver.find_path_bfs ring_trapped (1, 1) (5, 5)
          = Some (result, nodes_explored)
       /\ (forall p, result = Some p -> trail ring_trapped (1, 1) p (5, 5))
       /\ (HardMazeGame.teleporters ring_trapped = [] ->
           match result with
           | Some p =>
               least (safe_grid ring_trapped) (HardMazeGame.width ring_trapped)
                 (HardMazeGame.height ring_trapped) (1, 1) (5, 5) p
           | None =>
               forall q,
                 ~ route (safe_grid ring_trapped)
                     (HardMazeGame.width ring_trapped)
                     (HardMazeGame.height ring_trapped) (1, 1) q (5, 5)
           end).
Proof.
  assert (H : ~ In "BFS"%string
                ["UCS"; "DFS"; "DLS"; "IDS"; "Bidirectional"]%string).
  { cbn. intros [E|[E|[E|[E|[E|[]]]]]]; discriminate. }
  split; [split; [reflexivity|exact H]|].
  apply (bfs_solution_is_a_trail ring_trapped (tape [1; 2]%nat) (1, 1) (5, 5) "BFS");
    [reflexivity|exact H].
Defined.

(** ** game_objects.py and main3.py: the enemy stays on Path cells *)

Module LoopFacts.

Import Random.

Lemma py_index_In {A : Type} (l : list A) i a : py_index l i = Some a -> In a l.
Proof.
  unfold py_index. destruct (0 <=? i); [apply nth_error_In|].
  destruct (0 <=? Z.of_nat (length l) + i); [apply nth_error_In|discriminate].
Qed.

Lemma open_cell_on_path maze width height c :
  PathFinder.open_cell maze width height c = true ->
  on_path_cell maze width height c.
Proof.
  destruct c as [x y]. unfold PathFinder.open_cell, on_path_cell, maze_is.
  rewrite !andb_true_iff, !Z.leb_le, !Z.ltb_lt. cbn [fst snd].
  intros ((((H1 & H2) & H3) & H4) & H5).
  destruct (maze_get maze x y) as [v|]; [|discriminate].
  apply Z.eqb_eq in H5. subst v. repeat split; lia.
Qed.

Lemma route_cells maze width height start p c :
  route maze width height start p c ->
  on_path_cell maze width height start ->
  forall x, In x p -> on_path_cell maze width height x.
Proof.
  intros Hr Hs x Hx. destruct p as [|a p]; [destruct Hx|].
  assert (Ha : a = start).
  { clear Hx. remember (a :: p) as l eqn:El. revert a p El.
    induction Hr as [|p' c n Hr IH Hu Ho]; intros a p El.
    - injection El as <- _. reflexivity.
    - destruct p' as [|b p']; [inversion Hr as [|? ? ? ? ? ? E]; destruct p0; discriminate|].
      cbn [app] in El. injection El as <- _. eapply IH. reflexivity. }
  subst a. destruct Hx as [<-|Hx]; [exact Hs|].
  apply open_cell_on_path. eapply SolverFacts.route_tail_open; [exact Hr|exact Hx].
Qed.

(** *** game_objects.py *)

Lemma move_stays e e' :
  Enemy.move e = Ret e' ->
  Enemy.path e' = Enemy.path e
  /\ Enemy.initial_pos e' = Enemy.initial_pos e
  /\ match Enemy.pos e' with
     | Some c => Enemy.pos e = Some c \/ In c (Enemy.path e)
     | None => Enemy.pos e = None
     end.
Proof.
  unfold Enemy.move. destruct (Enemy.pos e) as [p|] eqn:Ep.
  - destruct (match Enemy.path e with [] => true | _ :: _ => false end
              || (Z.of_nat (length (Enemy.path e)) <? 2)).
    + intros [= <-]. rewrite Ep. auto.
    + destruct (GameConfig.ENEMY_MOVE_INTERVAL <=? Enemy.move_counter e + 1).
      * destruct (Enemy.py_mod _ _) as [next_index| |]; cbn [bind];
          try discriminate.
        destruct (py_index (Enemy.path e) next_index) as [p'|] eqn:Ei;
          cbn [lift bind]; [|discriminate].
        intros [= <-]. cbn [Enemy.path Enemy.pos Enemy.initial_pos].
        split; [reflexivity|]. split; [reflexivity|]. right.
        eapply py_index_In. exact Ei.
      * intros [= <-]. cbn [Enemy.path Enemy.pos Enemy.initial_pos]. auto.
  - intros [= <-]. rewrite Ep. auto.
Qed.

Lemma enemy_moves_stay :
  forall n e,
    (forall c, Enemy.pos e = Some c -> In c (Enemy.path e)) ->
    exists e',
      enemy_moves n e = Ret e'
      /\ Enemy.path e' = Enemy.path e
      /\ Enemy.initial_pos e' = Enemy.initial_pos e
      /\ match Enemy.pos e' with
         | Some c => In c (Enemy.path e)
         | None => Enemy.pos e = None
         end.
Proof.
  induction n as [|n IH]; intros e He; cbn [enemy_moves].
  - exists e. split; [reflexivity|]. split; [reflexivity|]. split; [reflexivity|].
    destruct (Enemy.pos e) as [c|]; [apply He|]; reflexivity.
  - destruct (EnemyFacts.move_total e) as [e1 E1]. rewrite E1. cbn [bind].
    destruct (move_stays e e1 E1) as (Hp & Hi & Hpos).
    destruct (IH e1) as (e' & E' & Hp' & Hi' & Hpos').
    { intros c Hc. rewrite Hc in Hpos. rewrite Hp.
      destruct Hpos as [H|H]; [apply He; exact H|exact H]. }
    exists e'. split; [exact E'|]. split; [congruence|]. split; [congruence|].
    destruct (Enemy.pos e') as [c|].
    + rewrite <- Hp. exact Hpos'.
    + rewrite Hpos' in Hpos. exact Hpos.
Qed.

Lemma create_patrol_path_route e dirs maze width height r p :
  Enemy.pos e = Some p -> compass dirs ->
  let e' := fst (fst (Enemy.create_patrol_path e dirs maze width height r)) in
  Enemy.pos e' = Some p
  /\ exists final, route maze width height p (Enemy.path e') final.
Proof.
  intros Hp Hc. unfold Enemy.create_patrol_path. rewrite Hp.
  pose proof (PatrolFacts.walk_route maze width height p 10 dirs p [p] [p] r Hc
                (route_start _ _ _ _) (fun c H => H)
                ltac:(repeat constructor; intros [])) as Hw.
  pose proof (EnemyFacts.walk_shape maze width height 10 dirs p [p] [p] r) as Hs.
  destruct (Enemy.walk 10 maze width height dirs p [p] [p] r)
    as [[walked directions] r1].
  cbv zeta in Hw. cbn [fst snd] in Hw |- *. destruct Hs as [Hperm _].
  cbn [Enemy.path Enemy.pos]. split; [reflexivity|].
  destruct (Z.of_nat (length walked) <? 3); [|apply Hw].
  apply PatrolFacts.back_and_forth_route.
  unfold compass in *. eapply Permutation_trans; [exact Hc|].
  apply Permutation_sym. exact Hperm.
Qed.

Lemma setup_objects_enemy o dirs maze r o' dirs' r' :
  rectangular maze (GameObjects.width o) (GameObjects.height o) = true ->
  (exists c, open_spot o maze c) ->
  GameObjects.setup_objects o dirs maze r = Ret (o', dirs', r') ->
  exists q e0,
    open_spot o maze q /\ Enemy.pos e0 = Some q
    /\ GameObjects.enemy o'
       = fst (fst (Enemy.create_patrol_path e0 dirs maze (GameObjects.width o)
                     (GameObjects.height o) r)).
Proof.
  intros Hr [c0 Hc0].
  destruct (ObjectsFacts.scan_spots o maze Hr) as (E0 & Hscan & Hnd0 & Hin0).
  unfold GameObjects.setup_objects. rewrite Hscan. cbn [bind].
  destruct (ObjectsFacts.discard_spec (GameObjects.start_pos o) E0 Hnd0)
    as [Hnd1 Hin1].
  set (E1 := if mem (GameObjects.start_pos o) E0
             then remove_first (GameObjects.start_pos o) E0 else E0) in *.
  destruct (ObjectsFacts.discard_spec (GameObjects.end_pos o) E1 Hnd1)
    as [Hnd2 Hin2].
  set (E2 := if mem (GameObjects.end_pos o) E1
             then remove_first (GameObjects.end_pos o) E1 else E1) in *.
  assert (Hspot : forall c, In c E2 <-> open_spot o maze c).
  { intros c. rewrite Hin2, Hin1, Hin0. unfold open_spot. tauto. }
  clearbody E2. clear Hin2 Hin1 Hin0 Hscan.
  destruct E2 as [|c1 E2']; [apply Hspot in Hc0; destruct Hc0|].
  pose proof (ObjectsFacts.sorted_reverse_head
                (fun p => Z.abs (fst p - fst (GameObjects.start_pos o))
                          + Z.abs (snd p - snd (GameObjects.start_pos o)))
                c1 E2') as (q & rest & Hsort & Hq & _).
  rewrite Hsort. cbn [py_index Z.leb Z.compare Z.to_nat nth_error lift bind].
  set (e0 := Enemy.mk_enemy (Some q) (Enemy.path (GameObjects.enemy o))
               (Enemy.move_counter (GameObjects.enemy o)) (Some q)).
  destruct (Enemy.create_patrol_path e0 dirs maze (GameObjects.width o)
              (GameObjects.height o) r) as [[e1 dirs1] r1] eqn:Ep.
  cbn [bind].
  destruct (GameItems.setup_items (GameObjects.items o) (remove_first q (c1 :: E2'))
              GameConfig.REQUIRED_KEYS r1) as [[it left] r2].
  intros [= <- _ _]. exists q, e0. cbn [GameObjects.enemy fst].
  split; [apply Hspot; exact Hq|]. split; [reflexivity|].
  rewrite Ep. reflexivity.
Qed.

(** *** main3.py *)

Lemma move_enemy_stays g g' :
  HardMazeGame.move_enemy g = Ret g' ->
  HardMazeGame.width g' = HardMazeGame.width g
  /\ HardMazeGame.height g' = HardMazeGame.height g
  /\ HardMazeGame.maze g' = HardMazeGame.maze g
  /\ HardMazeGame.end_pos g' = HardMazeGame.end_pos g
  /\ HardMazeGame.traps g' = HardMazeGame.traps g
  /\ HardMazeGame.keys g' = HardMazeGame.keys g
  /\ HardMazeGame.teleporters g' = HardMazeGame.teleporters g
  /\ HardMazeGame.enemy_path g' = HardMazeGame.enemy_path g
  /\ match HardMazeGame.enemy_pos g' with
     | Some c => HardMazeGame.enemy_pos g <> None
                 /\ (HardMazeGame.enemy_pos g = Some c
                     \/ In c (HardMazeGame.enemy_path g))
     | None => HardMazeGame.enemy_pos g = None
     end.
Proof.
  unfold HardMazeGame.move_enemy.
  destruct (HardMazeGame.enemy_pos g) as [p|] eqn:Ep.
  - destruct (HardMazeGame.enemy_path g) as [|c route0] eqn:Er.
    + intros [= <-]. rewrite Ep, Er. repeat split; auto. discriminate.
    + destruct (5 <=? HardMazeGame.enemy_move_counter g + 1).
      * destruct (Enemy.py_mod _ _) as [next_index| |]; cbn [bind];
          try discriminate.
        destruct (py_index (c :: route0) next_index) as [p'|] eqn:Ei;
          cbn [lift bind]; [|discriminate].
        intros [= <-].
        cbn [HardMazeGame.width HardMazeGame.height HardMazeGame.maze
             HardMazeGame.end_pos HardMazeGame.traps HardMazeGame.keys
             HardMazeGame.teleporters HardMazeGame.enemy_path
             HardMazeGame.enemy_pos].
        repeat split; auto; [discriminate|]. right. eapply py_index_In. exact Ei.
      * intros [= <-].
        cbn [HardMazeGame.width HardMazeGame.height HardMazeGame.maze
             HardMazeGame.end_pos HardMazeGame.traps HardMazeGame.keys
             HardMazeGame.teleporters HardMazeGame.enemy_path
             HardMazeGame.enemy_pos].
        repeat split; auto. discriminate.
  - intros [= <-]. rewrite Ep. repeat split; auto.
Qed.

Lemma game_moves_stay :
  forall n g,
    (forall c, HardMazeGame.enemy_pos g = Some c ->
               In c (HardMazeGame.enemy_path g)) ->
    exists g',
      game_moves n g = Ret g'
      /\ HardMazeGame.maze g' = HardMazeGame.maze g
      /\ HardMazeGame.traps g' = HardMazeGame.traps g
      /\ HardMazeGame.keys g' = HardMazeGame.keys g
      /\ HardMazeGame.teleporters g' = HardMazeGame.teleporters g
      /\ HardMazeGame.enemy_path g' = HardMazeGame.enemy_path g
      /\ match HardMazeGame.enemy_pos g' with
         | Some c => HardMazeGame.enemy_pos g <> None
                     /\ In c (HardMazeGame.enemy_path g)
         | None => HardMazeGame.enemy_pos g = None
         end.
Proof.
  induction n as [|n IH]; intros g Hg; cbn [game_moves].
  - exists g. repeat split; auto.
    destruct (HardMazeGame.enemy_pos g) as [c|] eqn:Ec; [|reflexivity].
    split; [discriminate|apply Hg; reflexivity].
  - destruct (HardMazeGameFacts.move_enemy_total g) as [g1 E1]. rewrite E1.
    cbn [bind].
    destruct (move_enemy_stays g g1 E1)
      as (_ & _ & Hm & _ & Ht & Hk & Htl & Hp & Hpos).
    destruct (IH g1) as (g' & E' & Hm' & Ht' & Hk' & Htl' & Hp' & Hpos').
    { intros c Hc. rewrite Hc in Hpos. rewrite Hp.
      destruct Hpos as [_ [H|H]]; [apply Hg; exact H|exact H]. }
    exists g'. split; [exact E'|].
    split; [congruence|]. split; [congruence|]. split; [congruence|].
    split; [congruence|]. split; [congruence|].
    destruct (HardMazeGame.enemy_pos g') as [c|].
    + destruct Hpos' as [Hne Hin]. rewrite <- Hp. split; [|exact Hin].
      destruct (HardMazeGame.enemy_pos g1) as [c1|]; [|congruence].
      apply Hpos.
    + rewrite Hpos' in Hpos. exact Hpos.
Qed.

Lemma create_enemy_path_route gx :
  forall q, HardMazeGame.enemy_pos (HardMazeGame.create_enemy_path gx) = Some q ->
    HardMazeGame.maze (HardMazeGame.create_enemy_path gx) = HardMazeGame.maze gx
    /\ exists final,
         route (HardMazeGame.maze gx) (HardMazeGame.width gx)
           (HardMazeGame.height gx) q
           (HardMazeGame.enemy_path (HardMazeGame.create_enemy_path gx)) final.
Proof.
  intros q. unfold HardMazeGame.create_enemy_path.
  destruct (HardMazeGame.enemy_pos gx) as [p|] eqn:Ep.
  - cbn [HardMazeGame.set_enemy HardMazeGame.enemy_pos HardMazeGame.enemy_path
         HardMazeGame.maze].
    intros [= <-]. split; [reflexivity|].
    apply (PatrolFacts.patrol_route gx p 6 p [p] (route_start _ _ _ _)
             ltac:(repeat constructor; intros [])).
  - rewrite Ep. discriminate.
Qed.

Lemma attempt_shape g r :
  exists gx,
    fst (HardMazeGame.attempt g r) = HardMazeGame.create_enemy_path gx
    /\ HardMazeGame.maze gx = HardMazeGame.maze g
    /\ HardMazeGame.width gx = HardMazeGame.width g
    /\ HardMazeGame.height gx = HardMazeGame.height g.
Proof.
  unfold HardMazeGame.attempt.
  destruct (HardMazeGame.place _ _ [] r) as [[ks a1] r1].
  destruct (HardMazeGame.place _ _ [] r1) as [[ts a2] r2].
  match goal with
  | |- context [if ?c then HardMazeGame.place_pairs ?n ?l ?p ?r0 else ?e] =>
      destruct (if c then HardMazeGame.place_pairs n l p r0 else e) as [tl r3]
  end.
  match goal with
  | |- context [match ?l with
                | [] => (None, ?r0)
                | c0 :: _ => _
                end] =>
      destruct l as [|c0 rest];
        [|destruct (choice c0 (c0 :: rest) r0) as [p r4]]
  end;
    (eexists; split; [reflexivity|]; repeat split).
Qed.

Lemma fallback_shape g r :
  exists gx,
    fst (HardMazeGame.fallback g r) = HardMazeGame.create_enemy_path gx
    /\ HardMazeGame.maze gx = HardMazeGame.maze g
    /\ HardMazeGame.width gx = HardMazeGame.width g
    /\ HardMazeGame.height gx = HardMazeGame.height g.
Proof.
  unfold HardMazeGame.fallback.
  destruct (HardMazeGame.place _ _ [] r) as [[ks a1] r1].
  destruct a1 as [|c0 rest];
    [|destruct (choice c0 (c0 :: rest) r1) as [p r4]];
    (eexists; split; [reflexivity|]; repeat split).
Qed.

Lemma retry_shape :
  forall count g r e g' r',
    HardMazeGame.retry count g r = Some (e, g', r') ->
    exists gx,
      g' = HardMazeGame.create_enemy_path gx
      /\ HardMazeGame.maze gx = HardMazeGame.maze g
      /\ HardMazeGame.width gx = HardMazeGame.width g
      /\ HardMazeGame.height gx = HardMazeGame.height g.
Proof.
  induction count as [|count IH]; intros g r e g' r'; cbn [HardMazeGame.retry].
  - destruct (fallback_shape g r) as (gx & E & H).
    destruct (HardMazeGame.fallback g r) as [g1 r1]. cbn [fst] in E.
    intros [= _ <- _]. exists gx. split; [exact E|exact H].
  - destruct (attempt_shape g r) as (gx & E & Hm & Hw & Hh).
    destruct (HardMazeGame.attempt g r) as [g1 r1]. cbn [fst] in E.
    destruct (HardMazeGame.is_solvable_with_enemy g1) as [[|]|]; [| |discriminate].
    + intros [= _ <- _]. exists gx. auto.
    + intros H. destruct (IH g1 r1 e g' r' H) as (gy & Ey & Hm' & Hw' & Hh').
      exists gy. split; [exact Ey|].
      assert (Hg1 : HardMazeGame.maze g1 = HardMazeGame.maze gx
                    /\ HardMazeGame.width g1 = HardMazeGame.width gx
                    /\ HardMazeGame.height g1 = HardMazeGame.height gx).
      { rewrite E. unfold HardMazeGame.create_enemy_path.
        destruct (HardMazeGame.enemy_pos gx); repeat split. }
      destruct Hg1 as (H1 & H2 & H3). repeat split; congruence.
Qed.

End LoopFacts.

(** X20.  The enemy of the modular game never leaves the Path cells.  On a
    rectangular maze that has a Path cell other than the start and the
    exit, once [setup_objects] has returned on freshly reset items, any
    number of calls of [Enemy.move] (one per turn of the game loop) returns
    without raising and leaves the enemy on a cell of the patrol path built
    at set-up, which is an in-bounds Path cell; the patrol path and the
    spawn cell are never changed. *)
Theorem enemy_stays_on_path_cells :
  forall o dirs maze r o' dirs' r' n,
    compass dirs ->
    rectangular maze (GameObjects.width o) (GameObjects.height o) = true ->
    GameObjects.items o = GameItems.init ->
    (exists c, open_spot o maze c) ->
    GameObjects.setup_objects o dirs maze r = Ret (o', dirs', r') ->
    exists e c,
      enemy_moves n (GameObjects.enemy o') = Ret e
      /\ Enemy.pos e = Some c
      /\ In c (Enemy.path (GameObjects.enemy o'))
      /\ on_path_cell maze (GameObjects.width o) (GameObjects.height o) c
      /\ Enemy.path e = Enemy.path (GameObjects.enemy o')
      /\ Enemy.initial_pos e = Enemy.initial_pos (GameObjects.enemy o').
Proof.
  intros o dirs maze r o' dirs' r' n Hc Hr _ Hspot Hset.
  destruct (LoopFacts.setup_objects_enemy o dirs maze r o' dirs' r' Hr Hspot Hset)
    as (q & e0 & Hq & He0 & Ee).
  destruct (LoopFacts.create_patrol_path_route e0 dirs maze (GameObjects.width o)
              (GameObjects.height o) r q He0 Hc) as (Hpos & final & Hroute).
  cbv zeta in Hpos, Hroute. rewrite <- Ee in Hpos, Hroute.
  assert (Hqc : on_path_cell maze (GameObjects.width o) (GameObjects.height o) q).
  { destruct Hq as (H1 & H2 & H3 & _). repeat split; tauto. }
  assert (Hhead : In q (Enemy.path (GameObjects.enemy o'))).
  { apply RouteFacts.route_hops in Hroute. destruct Hroute as (rest & -> & _).
    left. reflexivity. }
  destruct (LoopFacts.enemy_moves_stay n (GameObjects.enemy o')) as
    (e & E & Hp & Hi & Hin).
  { intros c Hcpos. rewrite Hpos in Hcpos. injection Hcpos as <-. exact Hhead. }
  destruct (Enemy.pos e) as [c|] eqn:Epos; [|congruence].
  exists e, c. split; [exact E|]. split; [exact Epos|]. split; [exact Hin|].
  split; [|split; assumption].
  eapply LoopFacts.route_cells; [exact Hroute|exact Hqc|exact Hin].
Qed.

Lemma enemy_stays_on_path_cells_witness :
  (compass GameConfig.DIRECTIONS /\ rectangular ring 7 7 = true
   /\ GameObjects.items (GameObjects.init 7 7) = GameItems.init
   /\ (exists c, open_spot (GameObjects.init 7 7) ring c)
   /\ GameObjects.setup_objects (GameObjects.init 7 7) GameConfig.DIRECTIONS
        ring (tape [3; 1; 2]%nat)
      = Ret (ring_objects, ring_directions, ring_objects_tape))
  /\ exists e c,
       enemy_moves 12 (GameObjects.enemy ring_objects) = Ret e
       /\ Enemy.pos e = Some c
       /\ In c (Enemy.path (GameObjects.enemy ring_objects))
       /\ on_path_cell ring 7 7 c
       /\ Enemy.path e = Enemy.path (GameObjects.enemy ring_objects)
       /\ Enemy.initial_pos e
          = Enemy.initial_pos (GameObjects.enemy ring_objects).
Proof.
  assert (Hspot : exists c, open_spot (GameObjects.init 7 7) ring c).
  { exists (3, 1). unfold open_spot. cbn. repeat split; try lia; discriminate. }
  assert (Hset : GameObjects.setup_objects (GameObjects.init 7 7)
                   GameConfig.DIRECTIONS ring (tape [3; 1; 2]%nat)
                 = Ret (ring_objects, ring_directions, ring_objects_tape)).
  { reflexivity. }
  split; [split; [apply Permutation_refl|split; [reflexivity|
          split; [reflexivity|split; [exact Hspot|exact Hset]]]]|].
  apply (enemy_stays_on_path_cells (GameObjects.init 7 7) GameConfig.DIRECTIONS
           ring (tape [3; 1; 2]%nat) ring_objects ring_directions
           ring_objects_tape 12);
    [apply Permutation_refl | reflexivity | reflexivity | exact Hspot | exact Hset].
Defined.

(** X21.  The enemy of main3.py never leaves the Path cells either.  On a
    game whose maze is a [width] by [height] rectangle, once
    [setup_difficulty_features] has returned, any number of calls of
    [move_enemy] returns without raising, changes neither the maze nor the
    keys, traps, teleporters and patrol path, and leaves the enemy, when
    there is one, on a cell of its patrol path, which is an in-bounds Path
    cell. *)
Theorem main3_enemy_stays_on_path_cells :
  forall g r e g' r' n,
    rectangular (HardMazeGame.maze g) (HardMazeGame.width g)
      (HardMazeGame.height g) = true ->
    HardMazeGame.setup_difficulty_features g r = Some (e, g', r') ->
    exists g'',
      game_moves n g' = Ret g''
      /\ HardMazeGame.maze g'' = HardMazeGame.maze g
      /\ HardMazeGame.traps g'' = HardMazeGame.traps g'
      /\ HardMazeGame.keys g'' = HardMazeGame.keys g'
      /\ HardMazeGame.teleporters g'' = HardMazeGame.teleporters g'
      /\ HardMazeGame.enemy_path g'' = HardMazeGame.enemy_path g'
      /\ match HardMazeGame.enemy_pos g'' with
         | Some c =>
             In c (HardMazeGame.enemy_path g')
             /\ on_path_cell (HardMazeGame.maze g) (HardMazeGame.width g)
                  (HardMazeGame.height g) c
         | None => HardMazeGame.enemy_pos g' = None
         end.
Proof.
  intros g r e g' r' n _ Hset. unfold HardMazeGame.setup_difficulty_features in Hset.
  destruct (FeatureFacts.retry_well_placed _ _ _ _ _ _ Hset) as [Hwp _].
  destruct Hwp as (Hw & Hh & Hm & _ & _ & _ & _ & _ & Hen).
  destruct (LoopFacts.retry_shape _ _ _ _ _ _ Hset) as (gx & Eg & Hmx & Hwx & Hhx).
  assert (Hroute : forall q, HardMazeGame.enemy_pos g' = Some q ->
            exists final,
              route (HardMazeGame.maze g) (HardMazeGame.width g)
                (HardMazeGame.height g) q (HardMazeGame.enemy_path g') final).
  { intros q Hq. rewrite Eg in Hq |- *.
    destruct (LoopFacts.create_enemy_path_route gx q Hq) as (_ & final & Hf).
    exists final. rewrite <- Hmx, <- Hwx, <- Hhx. exact Hf. }
  assert (Hstart : forall q, HardMazeGame.enemy_pos g' = Some q ->
            on_path_cell (HardMazeGame.maze g) (HardMazeGame.width g)
              (HardMazeGame.height g) q).
  { intros q Hq. destruct (Hen q Hq) as (((H1 & H2) & H3 & _) & _).
    repeat split; try lia. exact H3. }
  destruct (LoopFacts.game_moves_stay n g') as
    (g'' & E & Hm' & Ht & Hk & Htl & Hp & Hpos).
  { intros c Hcpos. destruct (Hroute c Hcpos) as (final & Hf).
    apply RouteFacts.route_hops in Hf. destruct Hf as (rest & -> & _).
    left. reflexivity. }
  exists g''. split; [exact E|]. split; [congruence|].
  split; [exact Ht|]. split; [exact Hk|]. split; [exact Htl|]. split; [exact Hp|].
  destruct (HardMazeGame.enemy_pos g'') as [c|]; [|exact Hpos].
  destruct Hpos as [Hne Hin]. split; [exact Hin|].
  destruct (HardMazeGame.enemy_pos g') as [q|] eqn:Eq; [|congruence].
  destruct (Hroute q eq_refl) as (final & Hf).
  eapply LoopFacts.route_cells; [exact Hf|apply Hstart; reflexivity|exact Hin].
Qed.

Lemma main3_enemy_stays_on_path_cells_witness :
  (rectangular (HardMazeGame.maze ring_game) (HardMazeGame.width ring_game)
     (HardMazeGame.height ring_game) = true
   /\ HardMazeGame.setup_difficulty_features ring_game (tape [])
      = Some (HardMazeGame.Accepted, ring_placed, ring_tape))
  /\ exists g'',
       game_moves 12 ring_placed = Ret g''
       /\ HardMazeGame.maze g'' = HardMazeGame.maze ring_game
       /\ HardMazeGame.traps g'' = HardMazeGame.traps ring_placed
       /\ HardMazeGame.keys g'' = HardMazeGame.keys ring_placed
       /\ HardMazeGame.teleporters g'' = HardMazeGame.teleporters ring_placed
       /\ HardMazeGame.enemy_path g'' = HardMazeGame.enemy_path ring_placed
       /\ match HardMazeGame.enemy_pos g'' with
          | Some c =>
              In c (HardMazeGame.enemy_path ring_placed)
              /\ on_path_cell (HardMazeGame.maze ring_game)
                   (HardMazeGame.width ring_game) (HardMazeGame.height ring_game) c
          | None => HardMazeGame.enemy_pos ring_placed = None
          end.
Proof.
  assert (Hset : HardMazeGame.setup_difficulty_features ring_game (tape [])
                 = Some (HardMazeGame.Accepted, ring_placed, ring_tape)).
  { reflexivity. }
  split; [split; [reflexivity|exact Hset]|].
  apply (main3_enemy_stays_on_path_cells ring_game (tape []) HardMazeGame.Accepted
           ring_placed ring_tape 12); [reflexivity|exact Hset].
Defined.

(** ** maze_generator.py and path_finding.py: a generated maze can be solved *)

Module SolvableFacts.

Import Random.

Lemma rectangular_dims maze width height :
  rectangular maze width height = true -> 0 < height ->
  maze_width maze = width /\ Z.of_nat (length maze) = height.
Proof.
  unfold rectangular. rewrite andb_true_iff, Z.eqb_eq, forallb_forall.
  intros [Hh Hrows] Hpos. split; [|exact Hh].
  destruct maze as [|row rows]; [cbn [length] in Hh; lia|].
  cbn [maze_width]. apply Z.eqb_eq. apply Hrows. left. reflexivity.
Qed.

Lemma rectangular_get_bounds maze width height x y v :
  rectangular maze width height = true ->
  0 <= x -> 0 <= y -> maze_get maze x y = Some v ->
  x < width /\ y < height.
Proof.
  unfold rectangular. rewrite andb_true_iff, Z.eqb_eq, forallb_forall.
  intros [Hh Hrows] Hx Hy. rewrite maze_get_nonneg by assumption.
  destruct (nth_error maze (Z.to_nat y)) as [row|] eqn:Er; [|discriminate].
  intros Hv.
  assert (H1 : (Z.to_nat y < length maze)%nat)
    by (apply nth_error_Some; congruence).
  assert (H2 : (Z.to_nat x < length row)%nat)
    by (apply nth_error_Some; congruence).
  specialize (Hrows row (nth_error_In _ _ Er)). apply Z.eqb_eq in Hrows. lia.
Qed.

Lemma path_cell_open maze width height c :
  rectangular maze width height = true ->
  path_cell maze c -> PathFinder.open_cell maze width height c = true.
Proof.
  intros Hr (Hx & Hy & Hv). destruct c as [x y]. cbn [fst snd] in *.
  destruct (rectangular_get_bounds _ _ _ _ _ _ Hr Hx Hy Hv) as [Hxw Hyh].
  unfold PathFinder.open_cell, maze_is. rewrite Hv.
  rewrite !andb_true_iff, !Z.leb_le, !Z.ltb_lt, Z.eqb_eq. repeat split; lia.
Qed.

Lemma reachable_route maze width height s c :
  rectangular maze width height = true ->
  reachable maze s c -> exists p, route maze width height s p c.
Proof.
  intros Hr. induction 1 as [Hs|c d _ [p Hp] Ha Hd].
  - exists [s]. constructor.
  - exists (p ++ [d]). apply route_step with (c := c); [exact Hp| |].
    + unfold adjacent in Ha. unfold unit_step. cbn [fst snd]. lia.
    + apply path_cell_open; assumption.
Qed.

End SolvableFacts.

(** X22.  A generated maze can always be solved, but not by DLS on a large
    one.  For odd width and height of at least 5, whatever the generator
    draws and in whatever order [GameConfig.DIRECTIONS] stands,
    [generate_maze] returns a maze on which [find_path] from the start (1,1)
    to the exit (width-2, height-2) returns a path with BFS, UCS, DFS and
    Bidirectional; the path is a route, and with BFS, UCS and Bidirectional
    a shortest one.  With DLS, whose depth limit is 50, [find_path] returns
    no path as soon as (width - 3) + (height - 3) exceeds 50, as on the
    default 35 by 35 maze. *)
Theorem generated_maze_is_solvable :
  forall width height dirs r dirs' r0 algorithm,
    width mod 2 = 1 -> height mod 2 = 1 -> 5 <= width -> 5 <= height ->
    compass dirs -> compass dirs' ->
    In algorithm ["BFS"; "UCS"; "DFS"; "Bidirectional"]%string ->
    exists maze r1,
      MazeGenerator.generate_maze dirs width height r = Ret (maze, r1)
      /\ (exists p n r2,
            PathFinder.find_path dirs' r0 (1, 1) (width - 2, height - 2)
              algorithm maze
            = Some ((Some p, n), r2)
            /\ route maze width height (1, 1) p (width - 2, height - 2)
            /\ (algorithm <> "DFS"%string ->
                forall q,
                  route maze width height (1, 1) q (width - 2, height - 2) ->
                  (length p <= length q)%nat))
      /\ (50 < (width - 3) + (height - 3) ->
          exists n,
            PathFinder.find_path dirs' r0 (1, 1) (width - 2, height - 2)
              "DLS" maze
            = Some ((None, n), r0)).
Proof.
  intros width height dirs r dirs' r0 algorithm Ow Oh Hw Hh Hc Hc' Halg.
  destruct (MazeGeneratorFacts.generate_maze_sound width height dirs r Ow Oh
              ltac:(lia) ltac:(lia) Hc) as (maze & r1 & E & Hs & _).
  destruct (FrameFacts.generate_maze_framed dirs width height r maze r1
              ltac:(lia) ltac:(lia) E) as ((Hr & _) & _ & Hexit).
  destruct (SolvableFacts.rectangular_dims maze width height Hr ltac:(lia))
    as [Ewidth Eheight].
  destruct Hs as (_ & _ & Hconn & _).
  assert (Hpc : path_cell maze (width - 2, height - 2)).
  { unfold path_cell. cbn [fst snd]. repeat split; try lia. exact Hexit. }
  destruct (SolvableFacts.reachable_route maze width height (1, 1)
              (width - 2, height - 2) Hr (Hconn _ Hpc)) as [q0 Hq0].
  pose proof (SolvableFacts.path_cell_open maze width height _ Hr Hpc) as Hopen.
  exists maze, r1. split; [exact E|]. split.
  - unfold PathFinder.find_path. rewrite Ewidth, Eheight.
    cbn [In] in Halg.
    destruct Halg as [<-|[<-|[<-|[<-|[]]]]]; cbn [String.eqb Ascii.eqb Bool.eqb].
    + destruct (SideFacts.bfs_least dirs' maze width height (1, 1)
                  (width - 2, height - 2) Hc') as ([[p|] n] & Ef & Hl);
        cbn [fst] in Hl; [|exfalso; exact (Hl q0 Hq0)].
      rewrite Ef. exists p, n, r0. split; [reflexivity|].
      destruct Hl as [Hp Hl]. split; [exact Hp|]. intros _. exact Hl.
    + destruct (SideFacts.ucs_least dirs' maze width height (1, 1)
                  (width - 2, height - 2) Hc') as ([[p|] n] & Ef & Hl);
        cbn [fst] in Hl; [|exfalso; exact (Hl q0 Hq0)].
      rewrite Ef. exists p, n, r0. split; [reflexivity|].
      destruct Hl as [Hp Hl]. split; [exact Hp|]. intros _. exact Hl.
    + destruct (SolverFacts.dfs_answer dirs' maze width height (1, 1)
                  (width - 2, height - 2) r0 Hc') as ([[p|] n] & r2 & Ef & Hl);
        cbn [fst] in Hl; [|exfalso; exact (Hl q0 Hq0)].
      rewrite Ef. exists p, n, r2. split; [reflexivity|].
      split; [exact Hl|]. intros H. congruence.
    + destruct (SideFacts.bidirectional_answer dirs' maze width height (1, 1)
                  (width - 2, height - 2) Hc' (or_intror Hopen))
        as ([[p|] n] & Ef & Hl);
        cbn [fst] in Hl; [|exfalso; exact (Hl q0 Hq0)].
      rewrite Ef. exists p, n, r0. split; [reflexivity|].
      destruct Hl as [Hp Hl]. split; [exact Hp|]. intros _. exact Hl.
  - intros Hfar. unfold PathFinder.find_path. rewrite Ewidth, Eheight.
    cbn [String.eqb Ascii.eqb Bool.eqb].
    destruct (PathFinder._dls dirs' maze width height (1, 1)
                (width - 2, height - 2) 50) as [[p|] n] eqn:Ed;
      [exfalso|exists n; reflexivity].
    assert (Hr0 : route maze width height (1, 1) [(1, 1)] (1, 1))
      by apply route_start.
    unfold PathFinder._dls, PathFinder._dls_recursive in Ed.
    destruct (DlsFacts.dls_sound dirs' maze width height (1, 1)
                (width - 2, height - 2) Hc' _ _ _ _ _ _ _ Hr0 Ed) as [Hp Hlen].
    pose proof (DepthFacts.route_manhattan _ _ _ _ _ _ Hp) as Hm.
    unfold HardMazeGame.manhattan in Hm. cbn [fst snd length] in Hm, Hlen. lia.
Qed.

Lemma generated_maze_is_solvable_witness :
  (35 mod 2 = 1 /\ 35 mod 2 = 1 /\ 5 <= 35 /\ 5 <= 35
   /\ compass GameConfig.DIRECTIONS /\ compass GameConfig.DIRECTIONS
   /\ In "BFS"%string ["BFS"; "UCS"; "DFS"; "Bidirectional"]%string)
  /\ exists maze r1,
       MazeGenerator.generate_maze GameConfig.DIRECTIONS 35 35 (tape [])
       = Ret (maze, r1)
       /\ (exists p n r2,
             PathFinder.find_path GameConfig.DIRECTIONS (tape []) (1, 1)
               (35 - 2, 35 - 2) "BFS" maze
             = Some ((Some p, n), r2)
             /\ route maze 35 35 (1, 1) p (35 - 2, 35 - 2)
             /\ ("BFS"%string <> "DFS"%string ->
                 forall q,
                   route maze 35 35 (1, 1) q (35 - 2, 35 - 2) ->
                   (length p <= length q)%nat))
       /\ (50 < (35 - 3) + (35 - 3) ->
           exists n,
             PathFinder.find_path GameConfig.DIRECTIONS (tape []) (1, 1)
               (35 - 2, 35 - 2) "DLS" maze
             = Some ((None, n), tape [])).
Proof.
  split; [repeat split; try reflexivity; try lia;
          try apply Permutation_refl; cbn; tauto|].
  apply (generated_maze_is_solvable 35 35 GameConfig.DIRECTIONS (tape [])
           GameConfig.DIRECTIONS (tape []) "BFS");
    try reflexivity; try lia; try apply Permutation_refl. cbn. tauto.
Defined.

(** ** path_finding.py: DLS and IDS under the recursion limit *)

Module LimitFacts.

Import Random.

Section Within.

Variable dirs : list (Z * Z).
Variable maze : grid.
Variables width height : Z.

(** With frames to spare the recursion is the one of [PathFinder]. *)
Lemma dls_neighbours_within recurse recurse' x y path visited :
  (forall nx ny p, recurse nx ny p = Ret (recurse' nx ny p)) ->
  forall ds n,
    PathFinderLimit.dls_neighbours maze width height recurse x y path visited ds n
    = Ret (PathFinder.dls_neighbours maze width height recurse' x y path visited
             ds n).
Proof.
  intros Hrec. induction ds as [|[dx dy] ds IH]; intros n;
    cbn [PathFinderLimit.dls_neighbours PathFinder.dls_neighbours];
    [reflexivity|].
  destruct (PathFinder.open_cell maze width height (x + dx, y + dy)
            && negb (mem (x + dx, y + dy) visited)); [|apply IH].
  rewrite Hrec. cbn [bind].
  destruct (recurse' (x + dx) (y + dy) (path ++ [(x + dx, y + dy)]))
    as [[p|] explored]; [reflexivity|apply IH].
Qed.

Lemma dls_frames_within goal :
  forall levels frames x y path visited,
    (levels < frames)%nat ->
    PathFinderLimit.dls_frames dirs maze width height frames levels x y goal
      path visited
    = Ret (PathFinder.dls_levels dirs maze width height levels x y goal path
             visited).
Proof.
  induction levels as [|levels IH]; intros frames x y path visited H;
    (destruct frames as [|frames]; [lia|]);
    cbn [PathFinderLimit.dls_frames PathFinder.dls_levels]; [reflexivity|].
  destruct (cell_eqb (x, y) goal); [reflexivity|].
  apply dls_neighbours_within. intros nx ny p. apply IH. lia.
Qed.

Lemma dls_within frames start goal depth_limit :
  (Z.to_nat (depth_limit + 1) < frames)%nat ->
  PathFinderLimit._dls dirs maze width height frames start goal depth_limit
  = Ret (PathFinder._dls dirs maze width height start goal depth_limit).
Proof. intros H. apply dls_frames_within. exact H. Qed.

Lemma limit_nodes_within frames start goal :
  forall count depth,
    0 <= depth -> depth + Z.of_nat count < Z.of_nat frames ->
    limit_nodes frames dirs maze width height start goal count depth
    = dls_nodes dirs maze width height start goal count depth.
Proof.
  induction count as [|count IH]; intros depth H0 H; cbn [limit_nodes dls_nodes];
    [reflexivity|].
  rewrite dls_within by lia. rewrite IH by lia. reflexivity.
Qed.

Section Ids.

Variables start goal : cell.
Variable cells : nat.
Variable frames : nat.
Hypothesis dirs_compass : compass dirs.
Hypothesis cells_shortest : shortest maze width height start goal cells.

Lemma ids_limit_miss :
  forall count depth total,
    0 <= depth -> depth + Z.of_nat count < Z.of_nat cells ->
    count = 0%nat \/ depth + Z.of_nat count < Z.of_nat frames ->
    PathFinderLimit.ids_loop dirs maze width height frames count depth start
      goal total
    = Ret (None,
           total + limit_nodes frames dirs maze width height start goal count
                     depth).
Proof.
  induction count as [|count IH]; intros depth total H0 H Hf;
    cbn [PathFinderLimit.ids_loop limit_nodes].
  - do 2 f_equal. lia.
  - rewrite dls_within by lia. cbn [bind].
    pose proof (DlsFacts.dls_too_shallow dirs maze width height start goal cells
                  dirs_compass cells_shortest depth H0 ltac:(lia)) as Hd.
    destruct (PathFinder._dls dirs maze width height start goal depth) as [res k].
    cbn [fst snd] in *. subst res.
    rewrite IH by lia. do 2 f_equal. lia.
Qed.

Lemma ids_limit_hit :
  forall count depth total,
    0 <= depth -> depth + 1 <= Z.of_nat cells ->
    Z.of_nat cells <= depth + Z.of_nat count ->
    (cells < frames)%nat ->
    exists p,
      PathFinderLimit.ids_loop dirs maze width height frames count depth start
        goal total
      = Ret (Some p,
             total + limit_nodes frames dirs maze width height start goal
                       (Z.to_nat (Z.of_nat cells - depth)) depth)
      /\ route maze width height start p goal /\ length p = cells.
Proof.
  induction count as [|count IH]; intros depth total H0 H1 H2 Hf; [lia|].
  cbn [PathFinderLimit.ids_loop]. rewrite dls_within by lia. cbn [bind].
  destruct (Z.eq_dec (depth + 1) (Z.of_nat cells)) as [E | E].
  - destruct (DlsFacts.dls_deep_enough dirs maze width height start goal cells
                dirs_compass cells_shortest depth E) as (p & k & Ed & Hp & Hl).
    replace (Z.to_nat (Z.of_nat cells - depth)) with 1%nat by lia.
    cbn [limit_nodes]. rewrite dls_within by lia. rewrite Ed. cbn [snd].
    exists p. split; [do 2 f_equal; lia | auto].
  - pose proof (DlsFacts.dls_too_shallow dirs maze width height start goal cells
                  dirs_compass cells_shortest depth H0 ltac:(lia)) as Hd.
    replace (Z.to_nat (Z.of_nat cells - depth))
      with (S (Z.to_nat (Z.of_nat cells - (depth + 1)))) by lia.
    cbn [limit_nodes]. rewrite dls_within by lia.
    destruct (PathFinder._dls dirs maze width height start goal depth) as [res k].
    cbn [fst snd] in *. subst res.
    destruct (IH (depth + 1) (total + k) ltac:(lia) ltac:(lia) ltac:(lia) Hf)
      as (p & Ep & Hp & Hl).
    exists p. split; [|auto]. rewrite Ep. do 2 f_equal. lia.
Qed.

End Ids.

End Within.

(** *** A corridor longer than the limit *)

Section Corridor.

Variable n : nat.

Local Abbreviation row := [repeat 0 n].
Local Abbreviation len := (Z.of_nat n).
Local Abbreviation far := (Z.of_nat n - 1, 0).

Lemma corridor_open x : 0 <= x < len -> PathFinder.open_cell row len 1 (x, 0) = true.
Proof.
  intros H. unfold PathFinder.open_cell, maze_is.
  rewrite maze_get_nonneg by lia. cbn [Z.to_nat nth_error].
  rewrite nth_error_repeat by lia.
  rewrite !andb_true_iff, !Z.leb_le, !Z.ltb_lt, Z.eqb_eq. repeat split; lia.
Qed.

Lemma corridor_closed x y :
  y <> 0 \/ x < 0 -> PathFinder.open_cell row len 1 (x, y) = false.
Proof.
  intros H. unfold PathFinder.open_cell.
  destruct (0 <=? x) eqn:E1; [|reflexivity].
  destruct (x <? len); [|reflexivity].
  destruct (0 <=? y) eqn:E3; [|reflexivity].
  destruct (y <? 1) eqn:E4; [|reflexivity].
  apply Z.leb_le in E1, E3. apply Z.ltb_lt in E4. lia.
Qed.

Lemma corridor_dls :
  forall f l k path visited,
    0 <= k < len ->
    (forall c, In c visited -> fst c < k) ->
    (1 <= k -> In (k - 1, 0) visited) ->
    ((f <= l)%nat /\ Z.of_nat f <= len - 1 - k ->
     PathFinderLimit.dls_frames GameConfig.DIRECTIONS row len 1 f l k 0 far
       path visited
     = Raise RecursionError)
    /\ ((l < f)%nat /\ Z.of_nat l <= len - 1 - k ->
        exists e,
          PathFinderLimit.dls_frames GameConfig.DIRECTIONS row len 1 f l k 0 far
            path visited
          = Ret (None, e)).
Proof.
  induction f as [|f IH]; intros l k path visited Hk Hv Hprev.
  - split; [reflexivity|]. intros [H _]. lia.
  - destruct l as [|l]; cbn [PathFinderLimit.dls_frames].
    + split; [intros [H _]; lia|]. intros _. eexists. reflexivity.
    + assert (Hgoal : Z.of_nat (S f) <= len - 1 - k \/ Z.of_nat (S l) <= len - 1 - k ->
                      cell_eqb (k, 0) far = false).
      { intros H. apply cell_eqb_neq. intros [= E]. lia. }
      assert (Hup : PathFinder.open_cell row len 1 (k + 0, 0 + 1) = false)
        by (apply corridor_closed; left; lia).
      assert (Hdown : PathFinder.open_cell row len 1 (k + 0, 0 + -1) = false)
        by (apply corridor_closed; left; lia).
      assert (Hleft : PathFinder.open_cell row len 1 (k + -1, 0 + 0)
                      && negb (mem (k + -1, 0 + 0) ((k, 0) :: visited)) = false).
      { destruct (Z_lt_ge_dec k 1) as [Hz|Hz].
        - rewrite corridor_closed by (right; lia). reflexivity.
        - replace (mem (k + -1, 0 + 0) ((k, 0) :: visited)) with true;
            [apply andb_false_r|].
          symmetry. apply mem_In. right.
          replace (k + -1, 0 + 0) with (k - 1, 0) by (f_equal; lia).
          apply Hprev. lia. }
      assert (Hnext : forall (H : k + 1 < len),
                 PathFinder.open_cell row len 1 (k + 1, 0 + 0)
                 && negb (mem (k + 1, 0 + 0) ((k, 0) :: visited)) = true).
      { intros H. change (0 + 0) with 0. rewrite corridor_open by lia.
        replace (mem (k + 1, 0) ((k, 0) :: visited)) with false; [reflexivity|].
        symmetry. apply mem_not_In. intros [E|Hin].
        - injection E as E. lia.
        - specialize (Hv _ Hin). cbn [fst] in Hv. lia. }
      assert (Hin1 : forall c, In c ((k, 0) :: visited) -> fst c < k + 1).
      { intros c [<-|Hin]; [cbn [fst]; lia|]. specialize (Hv _ Hin). lia. }
      assert (Hin2 : 1 <= k + 1 -> In (k + 1 - 1, 0) ((k, 0) :: visited)).
      { intros _. left. f_equal. lia. }
      unfold GameConfig.DIRECTIONS.
      split.
      * intros [Hfl Hfk]. rewrite Hgoal by (left; exact Hfk).
        cbn [PathFinderLimit.dls_neighbours]. rewrite Hup. cbn [andb].
        rewrite Hnext by lia. change (0 + 0) with 0.
        destruct (IH l (k + 1) (path ++ [(k + 1, 0)]) ((k, 0) :: visited)
                    ltac:(lia) Hin1 Hin2) as [Hraise _].
        unfold GameConfig.DIRECTIONS in Hraise.
        rewrite Hraise by lia. reflexivity.
      * intros [Hfl Hfk]. rewrite Hgoal by (right; exact Hfk).
        cbn [PathFinderLimit.dls_neighbours]. rewrite Hup. cbn [andb].
        rewrite Hnext by lia. rewrite Hdown. cbn [andb]. rewrite Hleft.
        change (0 + 0) with 0.
        destruct (IH l (k + 1) (path ++ [(k + 1, 0)]) ((k, 0) :: visited)
                    ltac:(lia) Hin1 Hin2) as [_ Hnone].
        destruct Hnone as [e He]; [lia|].
        unfold GameConfig.DIRECTIONS in He. rewrite He. cbn [bind].
        eexists. reflexivity.
Qed.

Lemma corridor_ids frames :
  Z.of_nat frames <= len - 1 ->
  forall count depth total,
    0 <= depth -> depth + 1 <= Z.of_nat frames ->
    Z.of_nat frames <= depth + Z.of_nat count ->
    PathFinderLimit.ids_loop GameConfig.DIRECTIONS row len 1 frames count depth
      (0, 0) far total
    = Raise RecursionError.
Proof.
  intros Hlen. induction count as [|count IH]; intros depth total H0 H1 H2; [lia|].
  cbn [PathFinderLimit.ids_loop].
  unfold PathFinderLimit._dls, PathFinderLimit._dls_recursive. cbn [fst snd].
  destruct (corridor_dls frames (Z.to_nat (depth + 1)) 0 [(0, 0)] [])
    as [Hraise Hnone]; [lia|intros c []|lia|].
  destruct (Z.eq_dec (depth + 1) (Z.of_nat frames)) as [E|E].
  - match goal with
    | |- bind ?m _ = _ =>
        replace m with (@Raise PathFinder.found RecursionError)
          by (symmetry; apply Hraise; lia)
    end.
    reflexivity.
  - destruct Hnone as [e He]; [lia|].
    match goal with
    | |- bind ?m _ = _ =>
        replace m with (@Ret PathFinder.found (None, e))
          by (symmetry; exact He)
    end.
    cbn [bind]. apply IH; lia.
Qed.

Lemma corridor_route :
  forall k, (k < n)%nat ->
    route row len 1 (0, 0) (map (fun i => (Z.of_nat i, 0)) (seq 0 (S k)))
      (Z.of_nat k, 0).
Proof.
  induction k as [|k IH]; intros Hk; [apply route_start|].
  rewrite seq_S, map_app. cbn [map Nat.add].
  apply route_step with (c := (Z.of_nat k, 0)); [apply IH; lia| |].
  - unfold unit_step. cbn [fst snd]. lia.
  - apply corridor_open. lia.
Qed.

Lemma corridor_shortest :
  (1 <= n)%nat -> shortest row len 1 (0, 0) far n.
Proof.
  intros Hn. split.
  - exists (map (fun i => (Z.of_nat i, 0)) (seq 0 (S (n - 1)))). split.
    + replace far with (Z.of_nat (n - 1), 0) by (f_equal; lia).
      apply corridor_route. lia.
    + rewrite length_map, length_seq. lia.
  - intros p Hp. pose proof (DepthFacts.route_manhattan _ _ _ _ _ _ Hp) as H.
    unfold HardMazeGame.manhattan in H. cbn [fst snd] in H. lia.
Qed.

End Corridor.

End LimitFacts.

(** C5, as amended.  On a rectangular grid, when a shortest route from start
    to goal has [cells] cells (a route begins at the start, which is not
    tested, and moves by unit steps onto open cells), and [frames] is the
    number of nested calls of [_dls_recursive] the interpreter allows: IDS
    called with [max_depth >= cells] returns a route of exactly [cells]
    cells, found at depth [cells - 1], provided [cells < frames]; IDS called
    with [max_depth < cells] returns no path, provided [max_depth < frames];
    and in both cases its node count is the sum of the node counts of the
    DLS runs it performed (depths 0 to [cells - 1], respectively 0 to
    [max_depth - 1]).  [find_path] calls IDS with [max_depth] 100. *)
Theorem ids_returns_shortest :
  forall frames dirs maze width height start goal cells max_depth,
    compass dirs ->
    rectangular maze width height = true ->
    shortest maze width height start goal cells ->
    (Z.of_nat cells <= max_depth -> (cells < frames)%nat ->
     exists p,
       PathFinderLimit._ids dirs maze width height frames start goal max_depth
       = Ret (Some p,
              limit_nodes frames dirs maze width height start goal cells 0)
       /\ route maze width height start p goal /\ length p = cells)
    /\ (max_depth < Z.of_nat cells -> max_depth < Z.of_nat frames ->
        PathFinderLimit._ids dirs maze width height frames start goal max_depth
        = Ret (None,
               limit_nodes frames dirs maze width height start goal
                 (Z.to_nat max_depth) 0)).
Proof.
  intros frames dirs maze width height start goal cells max_depth Hc _ Hs.
  assert (Hpos : (1 <= cells)%nat).
  { destruct Hs as [(p & Hp & <-) _].
    eapply RouteFacts.route_length_pos; eauto. }
  unfold PathFinderLimit._ids. split; intros H Hf.
  - destruct (LimitFacts.ids_limit_hit dirs maze width height start goal cells
                frames Hc Hs (Z.to_nat max_depth) 0 0
                ltac:(lia) ltac:(lia) ltac:(lia) Hf) as (p & E & Hp & Hl).
    exists p. rewrite E.
    replace (Z.to_nat (Z.of_nat cells - 0)) with cells by lia. auto.
  - rewrite (LimitFacts.ids_limit_miss dirs maze width height start goal cells
               frames Hc Hs) by lia.
    reflexivity.
Qed.

Lemma ids_returns_shortest_witness :
  (compass GameConfig.DIRECTIONS
   /\ rectangular corridor 3 1 = true
   /\ shortest corridor 3 1 (0, 0) (1, 0) 2)
  /\ (Z.of_nat 2 <= 100 -> (2 < 200)%nat ->
      exists p,
        PathFinderLimit._ids GameConfig.DIRECTIONS corridor 3 1 200 (0, 0) (1, 0)
          100
        = Ret (Some p,
               limit_nodes 200 GameConfig.DIRECTIONS corridor 3 1 (0, 0) (1, 0)
                 2 0)
        /\ route corridor 3 1 (0, 0) p (1, 0) /\ length p = 2%nat)
  /\ (100 < Z.of_nat 2 -> 100 < Z.of_nat 200 ->
      PathFinderLimit._ids GameConfig.DIRECTIONS corridor 3 1 200 (0, 0) (1, 0)
        100
      = Ret (None,
             limit_nodes 200 GameConfig.DIRECTIONS corridor 3 1 (0, 0) (1, 0)
               (Z.to_nat 100) 0)).
Proof.
  assert (Hs : shortest corridor 3 1 (0, 0) (1, 0) 2).
  { apply RouteFacts.shortest_two; [discriminate | reflexivity | reflexivity]. }
  split; [split; [apply Permutation_refl | split; [reflexivity | exact Hs]]|].
  apply ids_returns_shortest; [apply Permutation_refl | reflexivity | exact Hs].
Defined.

(** C5 as stated fails where the recursion outgrows the interpreter.  On a
    corridor of 1200 Path cells the shortest route from one end to the other
    has 1200 cells; with 1000 nested calls allowed (the default recursion
    limit, not even counting the callers' frames), IDS called with
    [max_depth] 1200 raises RecursionError in its run at depth 999 and
    returns no path. *)
Lemma ids_raises_on_long_corridor :
  compass GameConfig.DIRECTIONS
  /\ rectangular long_corridor 1200 1 = true
  /\ shortest long_corridor 1200 1 (0, 0) (1199, 0) 1200
  /\ Z.of_nat 1200 <= 1200
  /\ PathFinderLimit._ids GameConfig.DIRECTIONS long_corridor 1200 1 1000
       (0, 0) (1199, 0) 1200
     = Raise RecursionError.
Proof.
  split; [apply Permutation_refl|]. split; [vm_compute; reflexivity|].
  split; [exact (LimitFacts.corridor_shortest 1200 ltac:(lia))|].
  split; [vm_compute; discriminate|].
  apply (LimitFacts.corridor_ids 1200 1000).
  - vm_compute. discriminate.
  - lia.
  - vm_compute. discriminate.
  - vm_compute. discriminate.
Qed.

(** X4.  DLS answers exactly within its depth.  On a rectangular grid, with
    [GameConfig.DIRECTIONS] some order of the four unit steps, [_dls] with
    depth limit [d], run where the interpreter allows the [d + 2] nested
    calls of [_dls_recursive] that the limit can lead to, returns: a route
    of at most [d + 1] cells when there is a route that short, and nothing
    otherwise; in particular nothing when the goal is more than [d] unit
    steps away.  [find_path] calls it with the default limit 50. *)
Theorem dls_answers_within_its_depth :
  forall frames dirs maze width height start goal depth_limit,
    compass dirs -> rectangular maze width height = true ->
    (Z.to_nat (depth_limit + 1) < frames)%nat ->
    exists result nodes_explored,
      PathFinderLimit._dls dirs maze width height frames start goal depth_limit
      = Ret (result, nodes_explored)
      /\ match result with
         | Some p =>
             route maze width height start p goal
             /\ Z.of_nat (length p) <= depth_limit + 1
         | None =>
             forall q, route maze width height start q goal ->
                       depth_limit + 1 < Z.of_nat (length q)
         end
      /\ (depth_limit < HardMazeGame.manhattan goal start -> result = None).
Proof.
  intros frames dirs maze width height start goal depth_limit Hc _ Hf.
  rewrite (LimitFacts.dls_within dirs maze width height frames start goal
             depth_limit Hf).
  assert (Hr0 : route maze width height start [start] (fst start, snd start))
    by (rewrite surjective_cell; apply route_start).
  unfold PathFinder._dls, PathFinder._dls_recursive.
  destruct (PathFinder.dls_levels dirs maze width height
              (Z.to_nat (depth_limit + 1)) (fst start) (snd start) goal
              [start] []) as [[p|] k] eqn:E.
  - exists (Some p), k. split; [reflexivity|].
    destruct (DlsFacts.dls_sound dirs maze width height start goal Hc
                _ _ _ _ _ _ _ Hr0 E) as [Hp Hlen].
    cbn [length] in Hlen.
    pose proof (RouteFacts.route_length_pos _ _ _ _ _ _ Hp).
    split; [split; [exact Hp|lia]|].
    intros Hfar. pose proof (DepthFacts.route_manhattan _ _ _ _ _ _ Hp). lia.
  - exists None, k. split; [reflexivity|]. split; [|reflexivity].
    intros q Hq.
    destruct (Z_lt_ge_dec (depth_limit + 1) (Z.of_nat (length q))) as [|Hge];
      [assumption|exfalso].
    apply RouteFacts.route_hops in Hq. destruct Hq as (rest & -> & Hh & Hl).
    destruct (RouteFacts.hops_simple maze width height rest start Hh)
      as (rest' & Hh' & Hl' & Hnd & _ & Hlen).
    destruct (DlsFacts.dls_complete dirs maze width height goal Hc
                (Z.to_nat (depth_limit + 1)) (fst start) (snd start)
                [start] [] rest') as (p & k' & E').
    + rewrite surjective_cell. exact Hh'.
    + rewrite surjective_cell. congruence.
    + rewrite surjective_cell. exact Hnd.
    + intros c _ [].
    + cbn [length] in Hge. unfold cell in *. lia.
    + congruence.
Qed.

Lemma dls_answers_within_its_depth_witness :
  (compass GameConfig.DIRECTIONS /\ rectangular ring 7 7 = true
   /\ (Z.to_nat (50 + 1) < 200)%nat)
  /\ exists result nodes_explored,
       PathFinderLimit._dls GameConfig.DIRECTIONS ring 7 7 200 (1, 1) (5, 5) 50
       = Ret (result, nodes_explored)
       /\ match result with
          | Some p =>
              route ring 7 7 (1, 1) p (5, 5)
              /\ Z.of_nat (length p) <= 50 + 1
          | None =>
              forall q, route ring 7 7 (1, 1) q (5, 5) ->
                        50 + 1 < Z.of_nat (length q)
          end
       /\ (50 < HardMazeGame.manhattan (5, 5) (1, 1) -> result = None).
Proof.
  assert (H : (Z.to_nat (50 + 1) < 200)%nat) by (vm_compute; lia).
  split; [split; [apply Permutation_refl | split; [reflexivity | exact H]]|].
  apply dls_answers_within_its_depth;
    [apply Permutation_refl | reflexivity | exact H].
Defined.
